(** * EPUB content extraction of the reader app: a shallow embedding

    The reader (the [App] component) opens an EPUB archive, finds the package
    document, reads title, author and cover, follows the spine and turns each
    chapter's markup into plain text.  All of this is done with regular
    expressions over JavaScript strings, so the embedding has three layers:

    - JavaScript strings as lists of UTF-16 code units, with [trim], [split],
      [join], [includes] and friends;
    - the regular expressions of the source as flat lists of items, run by a
      backtracking matcher with the priorities of the host engine (greedy and
      lazy repetition, leftmost match, global replace);
    - the functions of the component: [extractTitle], [extractTextFromHtml],
      [extractMetadata], [extractChapters], [loadEpub]. *)

From Stdlib Require Import String Ascii.
From stdpp Require Import prelude gmap pretty.

Local Open Scope N_scope.

(** ** Strings *)

(** A UTF-16 code unit. *)
Definition char := N.
(** A JavaScript string. *)
Definition str := list char.

Fixpoint lit (s : string) : str :=
  match s with
  | EmptyString => []
  | String a s' => N_of_ascii a :: lit s'
  end.

Definition ch (s : string) : char :=
  match s with
  | String a _ => N_of_ascii a
  | EmptyString => 0
  end.

Definition LF : char := 10.
Definition CR : char := 13.
Definition bullet : char := 0x2022.
Definition mdash : char := 0x2014.
Definition ndash : char := 0x2013.
Definition hellip : char := 0x2026.

(** [\n], [\r], U+2028, U+2029: what [.] refuses. *)
Definition isLineTerminator (c : char) : bool :=
  (c =? 10) || (c =? 13) || (c =? 0x2028) || (c =? 0x2029).

(** The class [\s], which is also what [trim] removes. *)
Definition isSpace (c : char) : bool :=
  ((9 <=? c) && (c <=? 13)) || (c =? 32) || (c =? 0xA0) || (c =? 0x1680)
  || ((0x2000 <=? c) && (c <=? 0x200A))
  || (c =? 0x2028) || (c =? 0x2029) || (c =? 0x202F) || (c =? 0x205F)
  || (c =? 0x3000) || (c =? 0xFEFF).

Fixpoint dropWhile (p : char -> bool) (s : str) : str :=
  match s with
  | c :: s' => if p c then dropWhile p s' else s
  | [] => []
  end.

Definition trimStart (s : str) : str := dropWhile isSpace s.
Definition trimEnd (s : str) : str := reverse (dropWhile isSpace (reverse s)).
Definition trim (s : str) : str := trimEnd (trimStart s).

(** [s.split(sep)] for a one-character separator. *)
Fixpoint split (sep : char) (s : str) : list str :=
  match s with
  | [] => [[]]
  | c :: s' =>
      if c =? sep then [] :: split sep s'
      else match split sep s' with
           | l :: ls => (c :: l) :: ls
           | [] => [[c]]
           end
  end.

(** [lines.join(sep)] *)
Fixpoint join (sep : str) (ls : list str) : str :=
  match ls with
  | [] => []
  | [l] => l
  | l :: ls' => l ++ sep ++ join sep ls'
  end.

Fixpoint startsWith (p s : str) : bool :=
  match p, s with
  | [], _ => true
  | a :: p', b :: s' => (a =? b) && startsWith p' s'
  | _ :: _, [] => false
  end.

(** [s.includes(p)] *)
Fixpoint includes (p s : str) : bool :=
  startsWith p s || match s with [] => false | _ :: s' => includes p s' end.

Definition asciiUpper (c : char) : char :=
  if (97 <=? c) && (c <=? 122) then c - 32 else c.

(** [toLowerCase] on the ASCII range; the only use in the source compares the
    result with ['jpg'] and ['jpeg'], letters that no code unit outside ASCII
    lower-cases to. *)
Definition asciiLower (c : char) : char :=
  if (65 <=? c) && (c <=? 90) then c + 32 else c.
Definition toLowerCase (s : str) : str := asciiLower <$> s.

(** ** Exceptions *)

Inductive exn (A : Type) : Type :=
| Returns (a : A)
| Throws (msg : string).
Arguments Returns {A} a.
Arguments Throws {A} msg.

Definition bind {A B} (x : exn A) (f : A -> exn B) : exn B :=
  match x with
  | Returns a => f a
  | Throws e => Throws e
  end.

(** [try { body } catch (e) { handler }] *)
Definition try_catch {A} (body : exn A) (handler : string -> exn A) : exn A :=
  match body with
  | Returns a => Returns a
  | Throws e => handler e
  end.

#[global] Instance exn_ret : MRet exn := fun A a => Returns a.
#[global] Instance exn_bind : MBind exn := fun A B f x => bind x f.

(** ** The host

    Two things the component takes from the JavaScript engine and that are not
    fixed by its text: the case mapping behind the [i] flag outside ASCII, and
    the regular expression constructor on a pattern source that the package
    document controls (the cover id is pasted into a pattern unescaped). *)

Record Host : Type := {
  (** one code unit's upper case (the simple Unicode mapping) *)
  simpleUpper : char -> char;
  (** [subject.match(new RegExp(source, 'i'))?.[1]]: the constructor may throw
      a SyntaxError; a match is absent or has a first group, itself maybe
      undefined *)
  RegExp_match1 : str -> exn (str -> option (option str));
}.

(** ** Regular expressions

    In the patterns quoted in the comments the double quote is written [\x22].
    Every quantifier in the source applies to one character class, and no
    pattern has an alternative, so a pattern is a flat list of items. *)

Inductive item : Type :=
| One (p : char -> bool)                                (* a class, once *)
| Rep (greedy : bool) (min : nat) (p : char -> bool)    (* p{min,} or p{min,}? *)
| Opt (p : char -> bool)                                (* p? *)
| Mark.                                                 (* a parenthesis of the group *)

Definition regex := list item.

(** A match: the matched text cut at the group's parentheses, and what follows. *)
Definition hit : Type := list str * str.

Definition push (c : char) (h : hit) : hit :=
  match h.1 with
  | seg :: segs => ((c :: seg) :: segs, h.2)
  | [] => ([[c]], h.2)
  end.

Definition mark (h : hit) : hit := ([] :: h.1, h.2).

(** [p{min,}] followed by the continuation [k]. *)
Fixpoint rep (greedy : bool) (min : nat) (p : char -> bool)
    (k : str -> option hit) (s : str) : option hit :=
  match min with
  | S n =>
      match s with
      | c :: s' => if p c then push c <$> rep greedy n p k s' else None
      | [] => None
      end
  | O =>
      match s with
      | c :: s' =>
          if greedy then
            if p c then
              match rep greedy 0 p k s' with
              | Some h => Some (push c h)
              | None => k s
              end
            else k s
          else
            match k s with
            | Some h => Some h
            | None => if p c then push c <$> rep greedy 0 p k s' else None
            end
      | [] => k s
      end
  end.

(** The pattern anchored at the head of [s]. *)
Fixpoint matchHere (r : regex) (s : str) : option hit :=
  match r with
  | [] => Some ([[]], s)
  | One p :: r' =>
      match s with
      | c :: s' => if p c then push c <$> matchHere r' s' else None
      | [] => None
      end
  | Rep g n p :: r' => rep g n p (matchHere r') s
  | Opt p :: r' =>
      match s with
      | c :: s' =>
          if p c then
            match matchHere r' s' with
            | Some h => Some (push c h)
            | None => matchHere r' s
            end
          else matchHere r' s
      | [] => matchHere r' s
      end
  | Mark :: r' => mark <$> matchHere r' s
  end.

Definition matched (h : hit) : str := concat h.1.

(** The text of the group of a pattern with one group. *)
Definition groupOf (segs : list str) : str := default [] (segs !! 1%nat).
Definition group1 (h : hit) : str := groupOf h.1.

(** [s.match(r)] without the [g] flag: the leftmost match. *)
Fixpoint exec (r : regex) (s : str) : option hit :=
  match matchHere r s with
  | Some h => Some h
  | None =>
      match s with
      | [] => None
      | _ :: s' => exec r s'
      end
  end.

(** [s.replace(r, f)] with the [g] flag, [f] making the replacement from the
    matched text and its group; [skip] counts the characters of the
    current match still to pass over.  After an empty match the engine moves
    one character on. *)
Fixpoint replaceFrom (r : regex) (f : list str -> str) (skip : nat) (s : str) : str :=
  match s with
  | [] =>
      match skip, matchHere r [] with
      | O, Some h => f h.1
      | _, _ => []
      end
  | c :: s' =>
      match skip with
      | S k => replaceFrom r f k s'
      | O =>
          match matchHere r s with
          | Some h =>
              f h.1 ++ match length (matched h) with
                     | O => c :: replaceFrom r f 0 s'
                     | S k => replaceFrom r f k s'
                     end
          | None => c :: replaceFrom r f 0 s'
          end
      end
  end.

Definition replace (r : regex) (f : list str -> str) (s : str) : str :=
  replaceFrom r f 0 s.

(** [s.replace(r, t)] for a replacement text without [$]. *)
Definition replaceWith (r : regex) (t : str) (s : str) : str :=
  replace r (fun _ => t) s.

(** [s.match(r)] with the [g] flag: every matched text, in order ([null] is
    the empty list). *)
Fixpoint matchAllFrom (r : regex) (skip : nat) (s : str) : list str :=
  match s with
  | [] =>
      match skip, matchHere r [] with
      | O, Some h => [matched h]
      | _, _ => []
      end
  | _ :: s' =>
      match skip with
      | S k => matchAllFrom r k s'
      | O =>
          match matchHere r s with
          | Some h => matched h :: matchAllFrom r (pred (length (matched h))) s'
          | None => matchAllFrom r 0 s'
          end
      end
  end.

Definition matchAll (r : regex) (s : str) : list str := matchAllFrom r 0 s.

(** *** Building patterns *)

Definition isCh (c : char) : char -> bool := fun x => x =? c.
Definition isNot (c : char) : char -> bool := fun x => negb (x =? c).
(** a pattern letter under the [i] flag; for an ASCII letter only its two
    ASCII cases match *)
Definition isCI (c : char) : char -> bool := fun x => asciiUpper x =? asciiUpper c.
Definition dot : char -> bool := fun x => negb (isLineTerminator x).
Definition any : char -> bool := fun _ => true.   (* [\s\S] *)

(** a literal text *)
Definition literal (t : str) : regex := (fun c => One (isCh c)) <$> t.
Definition cs (s : string) : regex := literal (lit s).
(** a literal text under the [i] flag *)
Definition lettersCI (t : str) : regex := (fun c => One (isCI c)) <$> t.
Definition ci (s : string) : regex := lettersCI (lit s).
Definition star (p : char -> bool) : item := Rep true 0 p.
Definition plus (p : char -> bool) : item := Rep true 1 p.
Definition lazyStar (p : char -> bool) : item := Rep false 0 p.

Definition quote : char := 34.
Definition q : regex := [One (isCh quote)].
Definition notGt : char -> bool := isNot (ch ">").
Definition notQuote : char -> bool := isNot quote.

(** [[.*+?^${}()|[\]\\]]: the syntax characters of a pattern. *)
Definition isSyntaxChar (c : char) : bool :=
  bool_decide (c ∈ lit ".*+?^${}()|[]\").

(** [titleToRemove.replace(/[.*+?^${}()|[\]\\]/g, '\\$&')] *)
Definition escapeRegExp (t : str) : str :=
  replace [One isSyntaxChar] (fun segs => ch "\" :: concat segs) t.

(** The pattern source read back as a literal text: a character that is not a
    syntax character stands for itself, a backslash before a syntax character
    stands for that character.  Any other source is not a literal. *)
Fixpoint patternLiteral (src : str) : option str :=
  match src with
  | [] => Some []
  | c :: src' =>
      if c =? ch "\" then
        match src' with
        | d :: src'' =>
            if isSyntaxChar d then (d ::.) <$> patternLiteral src'' else None
        | [] => None
        end
      else if isSyntaxChar c then None
      else (c ::.) <$> patternLiteral src'
  end.

(** ** The component *)

Record BookMetadata : Type := {
  title : str;
  author : str;
  coverImage : option str;
}.

Record Chapter : Type := {
  content : str;
  chapterTitle : str;
}.

(** An entry of the opened archive: the two ways the component reads it, each
    of which the archive reader may reject. *)
Record ZipObject : Type := {
  async_string : exn str;
  async_base64 : exn str;
}.

Section Component.
Context (host : Host).

(** Canonicalize of the [i] flag (no [u] flag): the upper case of the
    code unit, except that a code unit outside ASCII never becomes ASCII. *)
Definition canonicalize (c : char) : char :=
  if c <? 128 then asciiUpper c
  else let u := simpleUpper host c in if u <? 128 then c else u.

(** a literal text from the document under the [i] flag *)
Definition literalCI (t : str) : regex :=
  (fun c => One (fun x => canonicalize x =? canonicalize c)) <$> t.

(** [/<[^>]+>/g] *)
Definition anyTag : regex := cs "<" ++ [plus notGt] ++ cs ">".

(** [/<name[^>]*>(.*?)<\/name>/i] *)
Definition elementText (name : string) : regex :=
  ci "<" ++ ci name ++ [star notGt] ++ cs ">" ++ [Mark; lazyStar dot; Mark]
  ++ ci "</" ++ ci name ++ cs ">".

Definition extractTitle (html : str) : str :=
  match exec (elementText "h1") html with
  | Some h1Match => trim (replaceWith anyTag [] (group1 h1Match))
  | None =>
      match exec (elementText "h2") html with
      | Some h2Match => trim (replaceWith anyTag [] (group1 h2Match))
      | None =>
          match exec (elementText "title") html with
          | Some titleMatch => trim (replaceWith anyTag [] (group1 titleMatch))
          | None => lit "Chapter"
          end
      end
  end.

(** [/<name[^>]*>[\s\S]*?<\/name>/gi] *)
Definition elementBlock (name : string) : regex :=
  ci "<" ++ ci name ++ [star notGt] ++ cs ">" ++ [lazyStar any]
  ++ ci "</" ++ ci name ++ cs ">".

(** [/<name[^>]*>/gi] and [/<\/name>/gi] *)
Definition openTag (name : string) : regex :=
  ci "<" ++ ci name ++ [star notGt] ++ cs ">".
Definition closeTag (name : string) : regex := ci "</" ++ ci name ++ cs ">".
(** [/<\/?name[^>]*>/gi] *)
Definition eitherTag (name : string) : regex :=
  cs "<" ++ [Opt (isCh (ch "/"))] ++ ci name ++ [star notGt] ++ cs ">".

(** Remove everything before <body> and after </body> *)
Definition isolateBody (text : str) : str :=
  match exec (ci "<body" ++ [star notGt] ++ cs ">" ++ [Mark; lazyStar any; Mark]
              ++ ci "</body>") text with
  | Some bodyMatch => group1 bodyMatch
  | None => text
  end.

(** Remove script, style, header, footer tags *)
Definition removeNoise (text : str) : str :=
  let text := replaceWith (elementBlock "script") [] text in
  let text := replaceWith (elementBlock "style") [] text in
  let text := replaceWith (elementBlock "header") [] text in
  replaceWith (elementBlock "footer") [] text.

(** [/<div\s+class=\x22titlepage\x22[^>]*>[\s\S]*?<\/div>\s*<\/div>\s*<\/div>/gi] *)
Definition titlepage : regex :=
  ci "<div" ++ [plus isSpace] ++ ci "class=" ++ q ++ ci "titlepage" ++ q
  ++ [star notGt] ++ cs ">" ++ [lazyStar any]
  ++ ci "</div>" ++ [star isSpace] ++ ci "</div>" ++ [star isSpace] ++ ci "</div>".

Definition isDigit16 (c : char) : bool := (49 <=? c) && (c <=? 54).

(** [new RegExp(`<h[1-6][^>]*>\\s*${escapedTitle}\\s*<\\/h[1-6]>`, 'gi')] for
    an escaped title that reads back as the literal [t] *)
Definition titleHeading (t : str) : regex :=
  ci "<h" ++ [One isDigit16; star notGt] ++ cs ">" ++ [star isSpace]
  ++ literalCI t ++ [star isSpace] ++ ci "</h" ++ [One isDigit16] ++ cs ">".

(** Remove the titlepage div, and any heading that holds the title.  An
    absent or empty [titleToRemove] is falsy.  The escaped title always reads
    back as a literal ([patternLiteral_escapeRegExp]), so the last branch is
    never taken. *)
Definition removeTitle (titleToRemove : option str) (text : str) : str :=
  let text := replaceWith titlepage [] text in
  match titleToRemove with
  | None | Some [] => text
  | Some t =>
      let escapedTitle := escapeRegExp t in
      match patternLiteral escapedTitle with
      | Some l => replaceWith (titleHeading l) [] text
      | None => text
      end
  end.

(** Remove section and div wrappers but keep content *)
Definition stripWrappers (text : str) : str :=
  let text := replaceWith (openTag "section") [] text in
  let text := replaceWith (closeTag "section") [] text in
  let text := replaceWith (openTag "div") [] text in
  replaceWith (closeTag "div") [] text.

(** Replace newlines and multiple spaces with single space *)
Definition normalizeSource (text : str) : str :=
  let text := replaceWith [plus (fun c => (c =? CR) || (c =? LF))] (lit " ") text in
  replaceWith [plus isSpace] (lit " ") text.

(** Handle lists - each list item on a new line *)
Definition handleLists (text : str) : str :=
  let text := replaceWith (openTag "ol" ++ [star isSpace] ++ ci "<li") (lit "<ol><li") text in
  let text := replaceWith (openTag "ul" ++ [star isSpace] ++ ci "<li") (lit "<ul><li") text in
  let text := replaceWith (openTag "li") ([LF; bullet] ++ lit " ") text in
  let text := replaceWith (closeTag "li") [] text in
  let text := replaceWith (eitherTag "ol") [LF] text in
  let text := replaceWith (eitherTag "ul") [LF] text in
  replaceWith (eitherTag "nav") [] text.

(** Handle anchor tags - extract text content: [/<a[^>]*>(.*?)<\/a>/gi] by ['$1'] *)
Definition unwrapAnchors (text : str) : str :=
  replace (elementText "a") groupOf text.

(** Block elements and line breaks *)
Definition handleBlocks (text : str) : str :=
  let text := replaceWith (closeTag "p" ++ [star isSpace] ++ openTag "p") [LF; LF] text in
  let text := replaceWith (closeTag "p") [LF; LF] text in
  let text := replaceWith (openTag "p") [] text in
  replaceWith (ci "<br" ++ [star isSpace; Opt (isCh (ch "/"))] ++ cs ">") [LF] text.

(** Convert common HTML entities: the table, in the order of the source *)
Definition entities : list (str * str) :=
  [ (lit "&nbsp;", lit " "); (lit "&amp;", lit "&"); (lit "&lt;", lit "<");
    (lit "&gt;", lit ">"); (lit "&quot;", [quote]); (lit "&#39;", lit "'");
    (lit "&apos;", lit "'"); (lit "&mdash;", [mdash]); (lit "&ndash;", [ndash]);
    (lit "&hellip;", [hellip]); (lit "&rsquo;", lit "'"); (lit "&lsquo;", lit "'");
    (lit "&rdquo;", [quote]); (lit "&ldquo;", [quote]) ].

(** One [text = text.replace(/entity/g, 'character')] for each line of a
    table, from the first line to the last *)
Definition decodeWith (table : list (str * str)) (text : str) : str :=
  foldl (fun text e => replaceWith (literal e.1) e.2 text) text table.

Definition decodeEntities (text : str) : str := decodeWith entities text.

(** Split by lines, clean each line, then rejoin; reduce the blank lines *)
Definition cleanLine (line : str) : str :=
  replaceWith [plus isSpace] (lit " ") (trim line).

Definition cleanLines (text : str) : str :=
  let lines := split LF text in
  let text := join [LF] (cleanLine <$> lines) in
  let text := replaceWith [Rep true 3 (isCh LF)] [LF; LF] text in
  let text := replaceWith [One (isCh LF); One (isCh bullet); star isSpace; One (isCh LF)] [LF] text in
  replaceWith [One (isCh LF); star isSpace; One (isCh LF); star isSpace; One (isCh LF)]
    [LF; LF] text.

Definition extractTextFromHtml (html : str) (titleToRemove : option str) : str :=
  let text := isolateBody html in
  let text := removeNoise text in
  let text := removeTitle titleToRemove text in
  let text := stripWrappers text in
  let text := normalizeSource text in
  let text := handleLists text in
  let text := unwrapAnchors text in
  let text := handleBlocks text in
  let text := decodeEntities text in
  let text := replaceWith anyTag [] text in
  let text := cleanLines text in
  trim text.

(** *** The package document *)

(** [/<meta[^>]*name=\x22cover\x22[^>]*content=\x22([^\x22]+)\x22/i] and the other order *)
Definition metaCover1 : regex :=
  ci "<meta" ++ [star notGt] ++ ci "name=" ++ q ++ ci "cover" ++ q ++ [star notGt]
  ++ ci "content=" ++ q ++ [Mark; plus notQuote; Mark] ++ q.
Definition metaCover2 : regex :=
  ci "<meta" ++ [star notGt] ++ ci "content=" ++ q ++ [Mark; plus notQuote; Mark] ++ q
  ++ [star notGt] ++ ci "name=" ++ q ++ ci "cover" ++ q.

(** [/<item[^>]*properties=\x22cover-image\x22[^>]*href=\x22([^\x22]+)\x22/i] and the other order *)
Definition itemCover1 : regex :=
  ci "<item" ++ [star notGt] ++ ci "properties=" ++ q ++ ci "cover-image" ++ q
  ++ [star notGt] ++ ci "href=" ++ q ++ [Mark; plus notQuote; Mark] ++ q.
Definition itemCover2 : regex :=
  ci "<item" ++ [star notGt] ++ ci "href=" ++ q ++ [Mark; plus notQuote; Mark] ++ q
  ++ [star notGt] ++ ci "properties=" ++ q ++ ci "cover-image" ++ q.

(** The two patterns built from the cover id, for an id that reads as the
    literal [l], and their sources. *)
Definition itemById1 (l : str) : regex :=
  ci "<item" ++ [star notGt] ++ ci "id=" ++ q ++ literalCI l ++ q ++ [star notGt]
  ++ ci "href=" ++ q ++ [Mark; plus notQuote; Mark] ++ q.
Definition itemById2 (l : str) : regex :=
  ci "<item" ++ [star notGt] ++ ci "href=" ++ q ++ [Mark; plus notQuote; Mark] ++ q
  ++ [star notGt] ++ ci "id=" ++ q ++ literalCI l ++ q.

Definition itemById1_source (coverId : str) : str :=
  lit "<item[^>]*id=" ++ [quote] ++ coverId ++ [quote] ++ lit "[^>]*href="
  ++ [quote] ++ lit "([^" ++ [quote] ++ lit "]+)" ++ [quote].
Definition itemById2_source (coverId : str) : str :=
  lit "<item[^>]*href=" ++ [quote] ++ lit "([^" ++ [quote] ++ lit "]+)" ++ [quote]
  ++ lit "[^>]*id=" ++ [quote] ++ coverId ++ [quote].

(** [opfContent.match(new RegExp(source, 'i'))?.[1]]: run here when the id is
    a literal, left to the host otherwise. *)
Definition matchById (byId : str -> regex) (source : str -> str)
    (coverId : str) : exn (str -> option (option str)) :=
  match patternLiteral coverId with
  | Some l => Returns (fun s => (fun h => Some (group1 h)) <$> exec (byId l) s)
  | None => RegExp_match1 host (source coverId)
  end.

(** [a || b] on strings that may be undefined *)
Definition orElse (a b : option str) : option str :=
  match a with
  | Some (_ :: _) => a
  | _ => b
  end.

(** [coverHref.split('.').pop()?.toLowerCase()] and the choice of the type *)
Definition mimeType (coverHref : str) : str :=
  let ext := toLowerCase (default [] (last (split (ch ".") coverHref))) in
  if bool_decide (ext = lit "jpg") || bool_decide (ext = lit "jpeg")
  then lit "image/jpeg" else lit "image/png".

(** The block repeated three times in the source: read the entry at
    [opfDir + coverHref], if it is there, into a data URI. *)
Definition readCover (zip : gmap (list N) ZipObject) (opfDir coverHref : str)
    : exn (option str) :=
  let coverPath := opfDir ++ coverHref in
  match zip !! coverPath with
  | Some coverFile =>
      coverData ← async_base64 coverFile;
      mret (Some (lit "data:" ++ mimeType coverHref ++ lit ";base64," ++ coverData))
  | None => mret None
  end.

(** Method 1: the id named by the cover meta element *)
Definition findCoverId (opfContent : str) : option str :=
  match exec metaCover1 opfContent with
  | Some coverMatch1 => Some (group1 coverMatch1)
  | None =>
      match exec metaCover2 opfContent with
      | Some coverMatch2 => Some (group1 coverMatch2)
      | None => None
      end
  end.

Definition isTruthy (s : option str) : bool :=
  match s with Some (_ :: _) => true | _ => false end.

(** [coverItemMatch1?.[1] || coverItemMatch2?.[1]]: the href of the manifest
    item of the cover id, its id before its href or after *)
Definition coverHrefById (coverId opfContent : str) : exn (option str) :=
  re1 ← matchById itemById1 itemById1_source coverId;
  re2 ← matchById itemById2 itemById2_source coverId;
  mret (orElse (mjoin (re1 opfContent)) (mjoin (re2 opfContent))).

Definition extractCover (opfContent : str) (zip : gmap (list N) ZipObject)
    (opfDir : str) : exn (option str) :=
  let coverId := findCoverId opfContent in
  (* Method 2: EPUB 3 style, only without a cover id *)
  coverImage ←
    (if negb (isTruthy coverId) then
       match exec itemCover1 opfContent with
       | Some epub3CoverMatch => readCover zip opfDir (group1 epub3CoverMatch)
       | None =>
           match exec itemCover2 opfContent with
           | Some epub3CoverMatch2 => readCover zip opfDir (group1 epub3CoverMatch2)
           | None => mret None
           end
       end
     else mret None);
  (* If we found a cover ID, look it up in the manifest *)
  match coverId with
  | Some (_ :: _) =>
      if negb (isTruthy coverImage) then
        let id := default [] coverId in
        coverHref ← coverHrefById id opfContent;
        match coverHref with
        | Some (_ :: _) => readCover zip opfDir (default [] coverHref)
        | _ => mret coverImage
        end
      else mret coverImage
  | _ => mret coverImage
  end.

(** The statement written twice in [extractMetadata], for the title and for
    the author: the first match of [/<name[^>]*>(.*?)<\/name>/i], trimmed,
    or the placeholder. *)
Definition dcText (name placeholder : string) (opfContent : str) : str :=
  match exec (elementText name) opfContent with
  | Some m => trim (group1 m)
  | None => lit placeholder
  end.

Definition extractMetadata (opfContent : str) (zip : gmap (list N) ZipObject)
    (opfDir : str) : exn BookMetadata :=
  (* Extract title *)
  let title := dcText "dc:title" "Unknown Title" opfContent in
  (* Extract author *)
  let author := dcText "dc:creator" "Unknown Author" opfContent in
  coverImage ← extractCover opfContent zip opfDir;
  mret {| title := title; author := author; coverImage := coverImage |}.

(** [/idref=\x22([^\x22]+)\x22/] and [/href=\x22([^\x22]+)\x22/] *)
Definition attrValue (name : string) : regex :=
  cs name ++ cs "=" ++ q ++ [Mark; plus notQuote; Mark] ++ q.

(** Get spine items (reading order) *)
Definition spineIds (opfContent : str) : list str :=
  let itemRefs := matchAll (cs "<itemref" ++ [star notGt] ++ attrValue "idref") opfContent in
  filter (fun id => id ≠ [])
    ((fun ref => match exec (attrValue "idref") ref with
                 | Some m => group1 m
                 | None => []
                 end) <$> itemRefs).

(** Get manifest items: [/<item[^>]*>/g] *)
Definition manifestItems (opfContent : str) : list str :=
  matchAll (cs "<item" ++ [star notGt] ++ cs ">") opfContent.

(** [items.find(i => i.includes(`id=\x22${id}\x22`))] *)
Definition findItem (items : list str) (id : str) : option str :=
  list_find (fun i => includes (lit "id=" ++ [quote] ++ id ++ [quote]) i = true) items
  ≫= fun p => Some p.2.

(** The body of the [try] in the loop over the spine: what [loadedChapters]
    is after it. *)
Definition loadChapter (items : list str) (zip : gmap (list N) ZipObject)
    (opfDir : str) (loadedChapters : list Chapter) (id : str) : exn (list Chapter) :=
  match findItem items id with
  | Some item =>
      match exec (attrValue "href") item with
      | Some hrefMatch =>
          let href := group1 hrefMatch in
          let chapterPath := opfDir ++ href in
          match zip !! chapterPath with
          | Some chapterFile =>
              html ← async_string chapterFile;
              let chapterTitle := extractTitle html in
              let text := extractTextFromHtml html (Some chapterTitle) in
              if bool_decide (trim text ≠ [])
              then mret (loadedChapters ++ [{| chapterTitle := chapterTitle; content := text |}])
              else mret loadedChapters
          | None => mret loadedChapters
          end
      | None => mret loadedChapters
      end
  | None => mret loadedChapters
  end.

(** The loop: an exception in one round is caught and logged, and the next
    round starts from the list as it was. *)
Fixpoint forSpine (items : list str) (zip : gmap (list N) ZipObject) (opfDir : str)
    (chapterIds : list str) (loadedChapters : list Chapter) : exn (list Chapter) :=
  match chapterIds with
  | [] => mret loadedChapters
  | id :: ids =>
      loadedChapters ← try_catch (loadChapter items zip opfDir loadedChapters id)
                                 (fun e => mret loadedChapters);
      forSpine items zip opfDir ids loadedChapters
  end.

Definition extractChapters (opfContent : str) (zip : gmap (list N) ZipObject)
    (opfDir : str) : exn (list Chapter) :=
  let chapterIds := spineIds opfContent in
  let items := manifestItems opfContent in
  match items with
  | [] => mret []
  | _ => forSpine items zip opfDir chapterIds []
  end.

(** *** Loading *)

Record AppState : Type := {
  metadata : BookMetadata;
  chapters : list Chapter;
  loading : bool;
  error : string;
}.

Definition initialState : AppState :=
  {| metadata := {| title := lit "Loading..."; author := []; coverImage := None |};
     chapters := []; loading := true; error := "" |}.

(** [s.lastIndexOf(c)] and [s.substring(0, n)] *)
Fixpoint lastIndexOf (c : char) (s : str) : Z :=
  match s with
  | [] => -1
  | x :: s' =>
      let i := lastIndexOf c s' in
      if (0 <=? i)%Z then (i + 1)%Z else if x =? c then 0%Z else (-1)%Z
  end.
Definition substring0 (n : Z) (s : str) : str := take (Z.to_nat n) s.

(** [/full-path=\x22([^\x22]+)\x22/] *)
Definition fullPath : regex := cs "full-path=" ++ q ++ [Mark; plus notQuote; Mark] ++ q.
Definition containerPath : str := lit "META-INF/container.xml".

(** Parse container.xml: the package document and its directory *)
Definition locatePackage (zip : gmap (list N) ZipObject) : exn (str * str) :=
  match zip !! containerPath with
  | None => Throws "Invalid EPUB: Missing container.xml"
  | Some containerFile =>
      containerXml ← async_string containerFile;
      match exec fullPath containerXml with
      | None => Throws "Invalid EPUB: Cannot find OPF path"
      | Some opfPathMatch =>
          let opfPath := group1 opfPathMatch in
          let opfDir := substring0 (lastIndexOf (ch "/") opfPath + 1) opfPath in
          match zip !! opfPath with
          | None => Throws "Invalid EPUB: Missing OPF file"
          | Some opfFile =>
              opfContent ← async_string opfFile;
              mret (opfContent, opfDir)
          end
      end
  end.

(** The [catch] of [loadEpub] *)
Definition failed (msg : string) (st : AppState) : AppState :=
  {| metadata := metadata st; chapters := chapters st; loading := false;
     error := "Failed to load EPUB: " ++ msg |}.

(** [loadEpub], from the opened archive on: the state of the component when
    the promise settles. *)
Definition loadEpub (zip : gmap (list N) ZipObject) (st : AppState) : AppState :=
  let st := {| metadata := metadata st; chapters := chapters st; loading := true;
               error := error st |} in
  match locatePackage zip with
  | Throws err => failed err st
  | Returns (opfContent, opfDir) =>
      match extractMetadata opfContent zip opfDir with
      | Throws err => failed err st
      | Returns bookMetadata =>
          let st := {| metadata := bookMetadata; chapters := chapters st;
                       loading := loading st; error := error st |} in
          match extractChapters opfContent zip opfDir with
          | Throws err => failed err st
          | Returns bookChapters =>
              {| metadata := metadata st; chapters := bookChapters;
                 loading := false; error := error st |}
          end
      end
  end.

End Component.

Definition plainHost : Host :=
  {| simpleUpper := fun c => c; RegExp_match1 := fun _ => Throws "SyntaxError" |}.

Definition dq (s : string) : str := (fun c => if c =? 39 then quote else c) <$> lit s.

(** ** The reading order as the specification words it

    For each idref in spine order, look up the manifest item; if it is there
    and its entry can be read and leaves some text, it gives a chapter;
    otherwise the idref is skipped. *)
Definition chapterOfIdref (host : Host) (items : list str)
    (zip : gmap (list N) ZipObject) (opfDir : str) (id : str) : option Chapter :=
  item ← findItem items id;
  hrefMatch ← exec (attrValue "href") item;
  chapterFile ← zip !! (opfDir ++ group1 hrefMatch);
  match async_string chapterFile with
  | Returns html =>
      let t := extractTitle html in
      let text := extractTextFromHtml host html (Some t) in
      if bool_decide (trim text ≠ [])
      then Some {| chapterTitle := t; content := text |}
      else None
  | Throws _ => None
  end.

(** ** The transducer of one chapter

    What the loop does with the markup of a chapter: its title, and its text
    with the title removed. *)
Definition transduce (host : Host) (html : str) : Chapter :=
  let chapterTitle := extractTitle html in
  {| chapterTitle := chapterTitle;
     content := extractTextFromHtml host html (Some chapterTitle) |}.

(** ** The prerequisites of a load *)

(** The three cases the specification lists: the container descriptor is
    absent, it has no full-path attribute, or the entry it names is absent. *)
Definition prerequisiteAbsent (zip : gmap (list N) ZipObject) : Prop :=
  zip !! containerPath = None
  ∨ (∃ f xml, zip !! containerPath = Some f ∧ async_string f = Returns xml
              ∧ exec fullPath xml = None)
  ∨ (∃ f xml m, zip !! containerPath = Some f ∧ async_string f = Returns xml
                ∧ exec fullPath xml = Some m ∧ zip !! group1 m = None).

(** The two more that the code has: one of the two entries cannot be read. *)
Definition prerequisiteUnreadable (zip : gmap (list N) ZipObject) : Prop :=
  (∃ f e, zip !! containerPath = Some f ∧ async_string f = Throws e)
  ∨ (∃ f xml m g e, zip !! containerPath = Some f ∧ async_string f = Returns xml
                    ∧ exec fullPath xml = Some m ∧ zip !! group1 m = Some g
                    ∧ async_string g = Throws e).

(** ** A sample book *)

Module Sample.

Definition host : Host :=
  {| simpleUpper := fun c => c; RegExp_match1 := fun _ => Throws "SyntaxError" |}.

(** A document written with ['] where the file has the double quote. *)
Definition doc (s : string) : str :=
  (fun c => if c =? 39 then quote else c) <$> lit s.

Definition entry (text base64 : str) : ZipObject :=
  {| async_string := Returns text; async_base64 := Returns base64 |}.

Definition unreadable : ZipObject :=
  {| async_string := Throws "Corrupted zip"; async_base64 := Throws "Corrupted zip" |}.

Definition container : str :=
  doc "<container><rootfiles><rootfile full-path='OEBPS/content.opf' media-type='application/oebps-package+xml'/></rootfiles></container>".

Definition opf : str :=
  doc "<package><metadata><dc:title>A Book</dc:title><dc:creator>Somebody</dc:creator></metadata><manifest><item id='cover' href='cover.jpg' properties='cover-image' media-type='image/jpeg'/><item id='ch2' href='ch2.xhtml'/><item id='ch1' href='ch1.xhtml'/></manifest><spine><itemref idref='ch1'/><itemref idref='ch2'/></spine></package>".

Definition ch1 : str :=
  lit "<h1>Intro</h1><p>Hello <b>world</b>.</p><ul><li>A</li><li>B</li></ul>".

Definition ch2 : str := lit "<h2>Next</h2><p>More text.</p>".

Definition book : gmap (list N) ZipObject :=
  <[lit "META-INF/container.xml" := entry container []]>
  (<[lit "OEBPS/content.opf" := entry opf []]>
  (<[lit "OEBPS/cover.jpg" := entry [] (lit "/9j/4AAQ")]>
  (<[lit "OEBPS/ch1.xhtml" := entry ch1 []]>
  (<[lit "OEBPS/ch2.xhtml" := entry ch2 []]> ∅)))).

(** A package document whose cover meta names an id that no item has, and a
    book around it in which the cover-image item can be read. *)
Definition opfDanglingCover : str :=
  doc "<package><metadata><dc:title>A Book</dc:title><meta name='cover' content='missing'/></metadata><manifest><item id='img' properties='cover-image' href='cover.jpg'/><item id='ch1' href='ch1.xhtml'/></manifest><spine><itemref idref='ch1'/></spine></package>".

Definition bookDanglingCover : gmap (list N) ZipObject :=
  <[lit "OEBPS/content.opf" := entry opfDanglingCover []]> book.

End Sample.

(** ** Notions used in the proofs *)

Definition classOf (i : item) : char -> bool :=
  match i with
  | One p | Rep _ _ p | Opt p => p
  | Mark => fun _ => false
  end.

(** [x] is a barrier for [r]: no match of [r] can contain it. *)
Definition barrier (r : regex) (x : char) : Prop :=
  Forall (fun i => classOf i x = false) r.

Definition extend (t : str) (h : hit) : hit := (h.1, h.2 ++ t).

Definition noChar (x : char) (s : str) : Prop := Forall (fun c => c ≠ x) s.

(** A line of the table cannot bring [w] back: it puts one character, which
    is not one of [w]. *)
Definition harmless (w : str) (e : str * str) : Prop :=
  match snd e with
  | [y] => (y ∉ w) ∧ (fst e ≠ [])
  | _ => False
  end.

Definition entities_v := Eval vm_compute in entities.

Definition collapse (s : str) : str := replaceWith [plus isSpace] (lit " ") s.

(** What the transducer leaves of the plain text before a word, and after. *)
Definition lead (t : str) : str :=
  trimStart (collapse (trimStart (normalizeSource t))).

Definition trail (t : str) : str :=
  trimEnd (collapse (trimEnd (normalizeSource t))).

(** A global replacement of the literal [w] by the one character [x]. *)
Definition replaceChar (w : str) (x : char) (s : str) : str :=
  replace (literal w) (fun _ => [x]) s.

(** Every space of the line is [U+0020] and is followed by a character that is
    not a space. *)
Fixpoint spaced (s : str) : Prop :=
  match s with
  | [] => True
  | c :: s' =>
      (isSpace c = true -> c = 32 ∧ match s' with
                                    | d :: _ => isSpace d = false
                                    | [] => False
                                    end)
      ∧ spaced s'
  end.

(** A line as [cleanLine] leaves it. *)
Definition clean (l : str) : Prop :=
  spaced l ∧ match l with c :: _ => isSpace c = false | [] => True end.

Definition endsNonSpace (t : str) : Prop :=
  t = [] ∨ ∃ t' y, t = t' ++ [y] ∧ isSpace y = false.

(** [w] at the head of [s], and somewhere in [s], letters compared as the
    [i] flag compares them. *)
Fixpoint startsWithCI (w s : str) : bool :=
  match w, s with
  | [], _ => true
  | a :: w', b :: s' => isCI a b && startsWithCI w' s'
  | _ :: _, [] => false
  end.

Fixpoint includesCI (w s : str) : bool :=
  startsWithCI w s || match s with [] => false | _ :: s' => includesCI w s' end.

(** The characters of [a] put in front of a match. *)
Definition pushes (a : str) (h : hit) : hit := foldr push h a.

(** A pattern of single classes, and its occurrences. *)
Definition ones (ps : list (char -> bool)) : regex := One <$> ps.

Fixpoint startsWithP (ps : list (char -> bool)) (s : str) : bool :=
  match ps, s with
  | [], _ => true
  | p :: ps', c :: s' => p c && startsWithP ps' s'
  | _ :: _, [] => false
  end.

Fixpoint includesP (ps : list (char -> bool)) (s : str) : bool :=
  startsWithP ps s || match s with [] => false | _ :: s' => includesP ps s' end.

(** [u] is a text that the pattern of classes [ps] matches. *)
Definition matchesP (ps : list (char -> bool)) (u : str) : Prop :=
  Forall2 (fun p c => p c = true) ps u.

(** What a match of a pattern is, said without the order in which the
    matcher tries: each item takes its share of the text. *)
Fixpoint Parse (r : regex) (s : str) (h : hit) : Prop :=
  match r with
  | [] => h = ([[]], s)
  | One p :: r' =>
      ∃ c s' h', s = c :: s' ∧ p c = true ∧ Parse r' s' h' ∧ h = push c h'
  | Rep _ n p :: r' =>
      ∃ a s' h', s = a ++ s' ∧ Forall (fun c => p c = true) a ∧ (n ≤ length a)%nat
                 ∧ Parse r' s' h' ∧ h = pushes a h'
  | Opt p :: r' =>
      Parse r' s h
      ∨ ∃ c s' h', s = c :: s' ∧ p c = true ∧ Parse r' s' h' ∧ h = push c h'
  | Mark :: r' => ∃ h', Parse r' s h' ∧ h = mark h'
  end.

(** The shape of the four patterns that read an element by two of its
    attributes: after the tag [T], the attribute [K] that selects the element
    and the attribute [V] (its name, [=] and the opening quote) whose value is
    the group, in the one order and in the other. *)
Definition attrFirst (T K V : list (char -> bool)) : regex :=
  ones T ++ [star notGt] ++ ones K ++ [star notGt] ++ ones V
  ++ [Mark; plus notQuote; Mark] ++ q.
Definition attrSecond (T K V : list (char -> bool)) : regex :=
  ones T ++ [star notGt] ++ ones V ++ [Mark; plus notQuote; Mark] ++ q
  ++ [star notGt] ++ ones K.

(** The element written in the one order and in the other: [tt] is the tag,
    [kk] the selecting attribute, [vv] the other attribute up to its opening
    quote and [x] its value. *)
Definition elemFirst (tt kk vv x : str) : str :=
  tt ++ [32] ++ kk ++ [32] ++ vv ++ x ++ [quote] ++ lit "/>".
Definition elemSecond (tt kk vv x : str) : str :=
  tt ++ [32] ++ vv ++ x ++ [quote; 32] ++ kk ++ lit "/>".

(** Every class of [ps] refuses the character [c]. *)
Definition rejects (c : char) (ps : list (char -> bool)) : bool :=
  forallb (fun p => negb (p c)) ps.

(** After the first double quote of [r] comes an end of tag. *)
Definition closesAfter (r : str) : bool :=
  bool_decide (ch ">" ∈ dropWhile notQuote r).

(** Wherever [s] has the attribute [V] up to its opening quote, the value is
    closed by a quote and the tag by its end, within [s]. *)
Fixpoint attrClosed (V : list (char -> bool)) (s : str) : bool :=
  (if startsWithP V s then closesAfter (drop (length V) s) else true)
  && match s with [] => true | _ :: s' => attrClosed V s' end.

(** The name [v1] of the one attribute, after a space, does not end with a
    text that the classes [K1] of the name of the other attribute match:
    the classes do not match the end of [v1] when they are no more than its
    letters, and when they are more, the one that falls on the space refuses
    it. *)
Definition otherName (K1 : list (char -> bool)) (v1 : str) : bool :=
  if (length K1 <=? length v1)%nat
  then negb (startsWithP K1 (drop (length v1 - length K1) v1))
  else match K1 !! (length K1 - length v1 - 1)%nat with
       | Some p => negb (p 32)
       | None => false
       end.

(** The parts of the four patterns that read the cover meta element and the
    manifest item of the cover id: the tag, the selecting attribute, and the
    attribute of the value up to its opening quote. *)
Definition metaTag : list (char -> bool) := isCI <$> lit "<meta".
Definition nameCover : list (char -> bool) :=
  (isCI <$> lit "name=") ++ [isCh quote] ++ (isCI <$> lit "cover") ++ [isCh quote].
Definition contentOpen : list (char -> bool) := (isCI <$> lit "content=") ++ [isCh quote].
Definition itemTag : list (char -> bool) := isCI <$> lit "<item".
Definition idIs (host : Host) (l : str) : list (char -> bool) :=
  (isCI <$> lit "id=") ++ [isCh quote]
  ++ ((fun c x => canonicalize host x =? canonicalize host c) <$> l) ++ [isCh quote].
Definition hrefOpen : list (char -> bool) := (isCI <$> lit "href=") ++ [isCh quote].

(** The cover meta element with the value [x] and the manifest item with the
    id [i] and the href [h], each written in the one order of its two
    attributes and in the other. *)
Definition metaNameFirst (x : str) : str :=
  lit "<meta name=" ++ [quote] ++ lit "cover" ++ [quote] ++ lit " content=" ++ [quote]
  ++ x ++ [quote] ++ lit "/>".
Definition metaContentFirst (x : str) : str :=
  lit "<meta content=" ++ [quote] ++ x ++ [quote] ++ lit " name=" ++ [quote]
  ++ lit "cover" ++ [quote] ++ lit "/>".
Definition itemIdFirst (i h : str) : str :=
  lit "<item id=" ++ [quote] ++ i ++ [quote] ++ lit " href=" ++ [quote] ++ h ++ [quote]
  ++ lit "/>".
Definition itemHrefFirst (i h : str) : str :=
  lit "<item href=" ++ [quote] ++ h ++ [quote] ++ lit " id=" ++ [quote] ++ i ++ [quote]
  ++ lit "/>".

(** ** The reader and its controls *)

Inductive ColorScheme : Type := light | dark.

#[global] Instance ColorScheme_eq_dec : EqDecision ColorScheme.
Proof. solve_decision. Defined.

(** The state of the component: what [loadEpub] sets, and what the controls
    set. *)
Record ReaderState : Type := {
  appState : AppState;
  colorScheme : ColorScheme;
  currentChapter : Z;
  fontSize : Z;
}.

(** The state of the first render; [systemColorScheme || 'light']. *)
Definition firstRender (systemColorScheme : option ColorScheme) : ReaderState :=
  {| appState := initialState; colorScheme := default light systemColorScheme;
     currentChapter := 0; fontSize := 16 |}.

Definition setCurrentChapter (n : Z) (st : ReaderState) : ReaderState :=
  {| appState := appState st; colorScheme := colorScheme st; currentChapter := n;
     fontSize := fontSize st |}.
Definition setFontSize (n : Z) (st : ReaderState) : ReaderState :=
  {| appState := appState st; colorScheme := colorScheme st; currentChapter := currentChapter st;
     fontSize := n |}.
Definition setColorScheme (c : ColorScheme) (st : ReaderState) : ReaderState :=
  {| appState := appState st; colorScheme := c; currentChapter := currentChapter st;
     fontSize := fontSize st |}.

(** [chapters.length] *)
Definition chapters_length (st : ReaderState) : Z := Z.of_nat (length (chapters (appState st))).

Definition nextChapter (st : ReaderState) : ReaderState :=
  if (currentChapter st <? chapters_length st - 1)%Z
  then setCurrentChapter (currentChapter st + 1) st else st.

Definition previousChapter (st : ReaderState) : ReaderState :=
  if (currentChapter st >? 0)%Z
  then setCurrentChapter (currentChapter st - 1) st else st.

Definition increaseFontSize (st : ReaderState) : ReaderState :=
  if (fontSize st <? 32)%Z then setFontSize (fontSize st + 2) st else st.

Definition decreaseFontSize (st : ReaderState) : ReaderState :=
  if (fontSize st >? 12)%Z then setFontSize (fontSize st - 2) st else st.

Definition isDark (st : ReaderState) : bool := bool_decide (colorScheme st = dark).

Definition toggleTheme (st : ReaderState) : ReaderState :=
  setColorScheme (if isDark st then light else dark) st.

(** What is rendered, as far as it depends on the state: one of three
    views, and in the reading view the texts and the flags of the buttons. *)
Record ReadingView : Type := {
  coverThumbnail : option str;      (* [metadata.coverImage && <Image/>] *)
  headerTitle : str;
  headerAuthor : option str;        (* [metadata.author && <Text>by ...</Text>] *)
  headerProgress : Z * Z;           (* [{currentChapter + 1} / {chapters.length}] *)
  fontSizeLabel : Z;
  chapterTitleText : str;
  contentText : str;
  previousDisabled : bool;
  nextDisabled : bool;
}.

Inductive View : Type :=
| LoadingView
| ErrorView (errorText : string)
| Reading (v : ReadingView).

(** [chapters[currentChapter]] *)
Definition currentChapterData (st : ReaderState) : option Chapter :=
  if (0 <=? currentChapter st)%Z
  then chapters (appState st) !! Z.to_nat (currentChapter st) else None.

Definition render (st : ReaderState) : View :=
  if loading (appState st) then LoadingView
  else if bool_decide (error (appState st) ≠ ""%string) then ErrorView (error (appState st))
  else
    let metadata := metadata (appState st) in
    Reading
      {| coverThumbnail :=
           if isTruthy (coverImage metadata) then coverImage metadata else None;
         headerTitle := title metadata;
         headerAuthor :=
           if bool_decide (author metadata ≠ []) then Some (author metadata) else None;
         headerProgress := ((currentChapter st + 1)%Z, chapters_length st);
         fontSizeLabel := fontSize st;
         chapterTitleText :=
           match chapterTitle <$> currentChapterData st with
           | Some ((_ :: _) as t) => t
           | _ => lit "Chapter " ++ lit (pretty (currentChapter st + 1)%Z)
           end;
         contentText :=
           match content <$> currentChapterData st with
           | Some ((_ :: _) as t) => t
           | _ => lit "No content found"
           end;
         previousDisabled := bool_decide (currentChapter st = 0%Z);
         nextDisabled := bool_decide (currentChapter st = (chapters_length st - 1)%Z) |}.

(** What the user can do: press one of the five controls of the reading view,
    or [Retry] in the error view. *)
Inductive Control : Type := Previous | Next | Smaller | Larger | Theme.

Definition press (c : Control) (st : ReaderState) : ReaderState :=
  match c with
  | Previous => previousChapter st
  | Next => nextChapter st
  | Smaller => decreaseFontSize st
  | Larger => increaseFontSize st
  | Theme => toggleTheme st
  end.

Section Reader.
Context (host : Host).

(** [loadEpub] from its first line: opening the asset may throw, into the
    same [catch]. *)
Definition loadAsset (opened : exn (gmap (list N) ZipObject)) (st : ReaderState)
    : ReaderState :=
  {| appState := match opened with
            | Returns zip => loadEpub host zip (appState st)
            | Throws err =>
                failed err {| metadata := metadata (appState st); chapters := chapters (appState st);
                              loading := true; error := error (appState st) |}
            end;
     colorScheme := colorScheme st; currentChapter := currentChapter st;
     fontSize := fontSize st |}.

Inductive Event : Type :=
| Press (c : Control)
| Retry (opened : exn (gmap (list N) ZipObject)).

(** An event reaches its handler when the view on the screen has the button. *)
Definition dispatch (st : ReaderState) (e : Event) : ReaderState :=
  match render st, e with
  | Reading _, Press c => press c st
  | ErrorView _, Retry opened => loadAsset opened st
  | _, _ => st
  end.

(** The component mounted ([useEffect] loads the book) and used. *)
Definition session (systemColorScheme : option ColorScheme)
    (opened : exn (gmap (list N) ZipObject)) (events : list Event) : ReaderState :=
  foldl dispatch (loadAsset opened (firstRender systemColorScheme)) events.

End Reader.

(** ** More notions used in the proofs *)

(** What holds of the state whenever a load has settled. *)
Definition settled (st : ReaderState) : Prop :=
  loading (appState st) = false
  ∧ (12 ≤ fontSize st ≤ 32)%Z ∧ Z.even (fontSize st) = true
  ∧ (currentChapter st = 0 ∨ 0 < currentChapter st < chapters_length st)%Z
  ∧ (error (appState st) ≠ ""%string -> currentChapter st = 0%Z)
  ∧ Forall (fun c => content c ≠ []) (chapters (appState st)).

(** The text after a [<] that makes a tag with it: a first character that is
    not [>], and a [>] somewhere. *)
Definition closesTag (t : str) : Prop :=
  match t with
  | c :: _ => c ≠ ch ">" ∧ ch ">" ∈ t
  | [] => False
  end.

(** [s] has a tag: a [<] and after it a text that closes the tag. *)
Definition hasTag (s : str) : Prop := ∃ a t, s = a ++ ch "<" :: t ∧ closesTag t.

(** [g] makes no tag: it brings no [>], and what stands after a [<] of its
    result comes from what stood after a [<] of its argument. *)
Definition tame (g : str -> str) : Prop :=
  (∀ l, ch ">" ∈ g l -> ch ">" ∈ l)
  ∧ (∀ l A T, g l = A ++ ch "<" :: T ->
       ∃ a t, l = a ++ ch "<" :: t
              ∧ (ch ">" ∈ T -> ch ">" ∈ t)
              ∧ (∀ t', t = ch ">" :: t' -> ∃ T', T = ch ">" :: T')).

(** [s] begins with a line feed. *)
Definition startsLF (s : str) : Prop := ∃ s', s = LF :: s'.

(** [/\n\s*\n\s*\n/g], the last pattern of [cleanLines] *)
Definition blankLines : regex :=
  [One (isCh LF); star isSpace; One (isCh LF); star isSpace; One (isCh LF)].

(** The element [name] with the attributes [attrs] and the text [txt],
    between [pre] and [post]. *)
Definition withElement (name : string) (pre attrs txt post : str) : str :=
  pre ++ lit "<" ++ lit name ++ attrs ++ lit ">" ++ txt
  ++ lit "</" ++ lit name ++ lit ">" ++ post.

(** A value of an attribute as a well-formed document writes it: without a
    double quote, an equals sign or an angle bracket. *)
Definition plainValue (x : str) : Prop :=
  Forall (fun c => c ≠ quote ∧ c ≠ ch "=" ∧ c ≠ ch "<" ∧ c ≠ ch ">") x.

(** An element of the spine, and a package document made of a metadata
    block, the manifest items of [entries] (id and href) and the spine
    [spine]. *)
Definition itemrefOf (id : str) : str :=
  lit "<itemref idref=" ++ [quote] ++ id ++ [quote] ++ lit "/>".

Definition itemOf (e : str * str) : str := itemIdFirst e.1 e.2.

Definition packageOf (metadata : str) (entries : list (str * str)) (spine : list str)
    : str :=
  lit "<package>" ++ metadata ++ lit "<manifest>" ++ concat (itemOf <$> entries)
  ++ lit "</manifest><spine>" ++ concat (itemrefOf <$> spine)
  ++ lit "</spine></package>".

(** The entry of the manifest that an id names: the first one with it. *)
Definition entryWithId (entries : list (str * str)) (id : str) : option (str * str) :=
  snd <$> list_find (fun e => e.1 = id) entries.

(** The chapter that the entry of the archive at [path] gives, if it is
    there, can be read and leaves some text. *)
Definition chapterAt (host : Host) (zip : gmap (list N) ZipObject) (path : str)
    : option Chapter :=
  chapterFile ← zip !! path;
  match async_string chapterFile with
  | Returns html =>
      let t := extractTitle html in
      let text := extractTextFromHtml host html (Some t) in
      if bool_decide (trim text ≠ [])
      then Some {| chapterTitle := t; content := text |}
      else None
  | Throws _ => None
  end.

(** A paragraph element, and a paragraph of plain text: a clean line without
    markup and entities that does not begin with a bullet. *)
Definition paragraph (p : str) : str := lit "<p>" ++ p ++ lit "</p>".

Definition plainParagraph (p : str) : Prop :=
  clean p
  ∧ Forall (fun c => c ≠ ch "<" ∧ c ≠ ch "&") p
  ∧ match p with c :: _ => c ≠ bullet | [] => False end.

(** [r] matches at no place of [s]. *)
Definition noMatch (r : regex) (s : str) : Prop := ∀ k, matchHere r (drop k s) = None.

(** [r] matches only at a [<], and neither at [<p>] nor at [</p>]. *)
Definition ignoresP (r : regex) : Prop :=
  (∀ c t, c ≠ ch "<" -> matchHere r (c :: t) = None)
  ∧ (∀ Y, matchHere r (lit "<p>" ++ Y) = None)
  ∧ (∀ Y, matchHere r (lit "</p>" ++ Y) = None)
  ∧ matchHere r [] = None.

(** The paragraphs, each followed by an empty line. *)
Definition spacedOut (ps : list str) : str := concat ((fun p => p ++ [LF; LF]) <$> ps).

(** What follows an empty line: nothing, or a character that is neither
    white space nor a bullet. *)
Definition afterGap (s : str) : Prop :=
  match s with
  | [] => True
  | c :: _ => isSpace c = false ∧ c ≠ bullet
  end.

(** A list element with its items, ordered or not, and an item of plain
    text: a clean line that is not empty, without markup and entities. *)
Definition listItem (i : str) : str := lit "<li>" ++ i ++ lit "</li>".

Definition listOpen (ordered : bool) : str := if ordered then lit "<ol>" else lit "<ul>".

Definition listClose (ordered : bool) : str := if ordered then lit "</ol>" else lit "</ul>".

Definition listOf (ordered : bool) (items : list str) : str :=
  listOpen ordered ++ concat (listItem <$> items) ++ listClose ordered.

Definition plainItem (i : str) : Prop :=
  clean i ∧ i ≠ [] ∧ Forall (fun c => c ≠ ch "<" ∧ c ≠ ch "&") i.

(** The tags of a list: those after its opening tag, and all of them. *)
Definition itemTags (ordered : bool) : list str :=
  [lit "<li>"; lit "</li>"; listClose ordered].

Definition listTags (ordered : bool) : list str := listOpen ordered :: itemTags ordered.

(** A text in which every [<] begins one of the tags [tags]. *)
Inductive tagged (tags : list str) : str -> Prop :=
  | tagged_nil : tagged tags []
  | tagged_text (u s : str) :
      noChar (ch "<") u -> tagged tags s -> tagged tags (u ++ s)
  | tagged_tag (t' s : str) :
      ch "<" :: t' ∈ tags -> noChar (ch "<") t' -> tagged tags s ->
      tagged tags ((ch "<" :: t') ++ s).

(** [r] matches only at a [<], and not at a tag of [tags]. *)
Definition ignoresTags (tags : list str) (r : regex) : Prop :=
  (∀ c t, c ≠ ch "<" -> matchHere r (c :: t) = None)
  ∧ Forall (fun tg => ∀ Y, matchHere r (tg ++ Y) = None) tags
  ∧ matchHere r [] = None.

(** The items, each with its bullet and followed by a line feed. *)
Definition bulleted (items : list str) : str :=
  concat ((fun i => bullet :: 32 :: i ++ [LF]) <$> items).

(** What follows a line feed of the list: nothing, or the bullet of an item,
    its space and a character that is not white space. *)
Definition itemStart (s : str) : Prop :=
  match s with
  | [] => True
  | c :: d :: e :: _ => c = bullet ∧ d = 32 ∧ isSpace e = false
  | _ => False
  end.

(** A heading of the second level. *)
Definition subheading (h : str) : str := lit "<h2>" ++ h ++ lit "</h2>".

(** The tags of a heading and of a paragraph. *)
Definition headingTags : list str := [lit "<h2>"; lit "</h2>"; lit "<p>"; lit "</p>"].

(** A link with the attributes [attrs] around the text [w]. *)
Definition link (attrs w : str) : str :=
  lit "<a" ++ attrs ++ lit ">" ++ w ++ lit "</a>".

(** The tags of a paragraph with a link: the tag of the link up to its
    attributes. *)
Definition linkTags : list str := [lit "<p>"; lit "</p>"; lit "<a"; lit "</a>"].

(** An item of the manifest: its id, its href, and the text of its further
    attributes (a media type, properties); an element of the spine: its
    idref and the text of its further attributes. *)
Record ManifestItem : Type := {
  itemId : str;
  itemHref : str;
  itemMore : str;
}.

Record SpineRef : Type := {
  refId : str;
  refMore : str;
}.

Definition itemWith (e : ManifestItem) : str :=
  lit "<item id=" ++ [quote] ++ itemId e ++ [quote] ++ lit " href=" ++ [quote]
  ++ itemHref e ++ [quote] ++ itemMore e ++ lit "/>".

Definition itemrefWith (r : SpineRef) : str :=
  lit "<itemref idref=" ++ [quote] ++ refId r ++ [quote] ++ refMore r ++ lit "/>".

(** A package document made of a metadata block, a manifest and a spine. *)
Definition packageWith (metadata : str) (entries : list ManifestItem)
    (spine : list SpineRef) : str :=
  lit "<package>" ++ metadata ++ lit "<manifest>" ++ concat (itemWith <$> entries)
  ++ lit "</manifest><spine>" ++ concat (itemrefWith <$> spine)
  ++ lit "</spine></package>".

(** Further attributes as a well-formed document writes them: no angle
    bracket, and neither an id nor an idref among them. *)
Definition plainMore (more : str) : Prop :=
  noChar (ch "<") more ∧ noChar (ch ">") more
  ∧ includes (lit "id=") (more ++ lit "/>") = false
  ∧ includes (lit "idref=") (more ++ lit "/>") = false.

Definition plainManifestItem (e : ManifestItem) : Prop :=
  plainValue (itemId e) ∧ plainValue (itemHref e) ∧ itemHref e ≠ []
  ∧ plainMore (itemMore e).

Definition plainSpineRef (r : SpineRef) : Prop :=
  plainValue (refId r) ∧ refId r ≠ [] ∧ plainMore (refMore r).

(** The item of the manifest that an id names: the first one with it. *)
Definition itemOfId (entries : list ManifestItem) (id : str) : option ManifestItem :=
  snd <$> list_find (fun e => itemId e = id) entries.

(** Every match of [r] holds a [>]. *)
Definition holdsGt (r : regex) : Prop :=
  ∀ s h, matchHere r s = Some h -> ch ">" ∈ matched h.

(** Every match of [r] begins with a text that closes a tag. *)
Definition closes (r : regex) : Prop :=
  ∀ s h, matchHere r s = Some h -> closesTag s.

(** Where [r] matches, a tag begins. *)
Definition tagFirst (r : regex) : Prop :=
  ∀ s h, matchHere r s = Some h -> is_Some (matchHere anyTag s).

(** The manifest item marked as the cover image, with the href [h], written
    with its properties before its href and with its href first. *)
Definition itemPropertiesFirst (h : str) : str :=
  lit "<item properties=" ++ [quote] ++ lit "cover-image" ++ [quote] ++ lit " href="
  ++ [quote] ++ h ++ [quote] ++ lit "/>".

Definition itemHrefBeforeProperties (h : str) : str :=
  lit "<item href=" ++ [quote] ++ h ++ [quote] ++ lit " properties=" ++ [quote]
  ++ lit "cover-image" ++ [quote] ++ lit "/>".

(** The selecting attribute of the two patterns that read that item. *)
Definition propertiesCover : list (char -> bool) :=
  (isCI <$> lit "properties=") ++ [isCh quote] ++ (isCI <$> lit "cover-image")
  ++ [isCh quote].

(** The element [el] stands alone in the document: its selecting attribute
    [K] occurs nowhere else, and before the element every attribute of the
    name of [V] has its value and its tag closed. *)
Definition standsAlone (K V : list (char -> bool)) (el opfContent : str) : Prop :=
  ∃ pre post, opfContent = pre ++ el ++ post
              ∧ includesP K pre = false ∧ includesP K post = false
              ∧ attrClosed V pre = true.

(** The document has the cover meta element of the value [x], the manifest
    item of the id [i] and the href [h], the manifest item marked as the
    cover image with the href [h]: each in one of its two orders. *)
Definition hasCoverMeta (x opfContent : str) : Prop :=
  standsAlone nameCover contentOpen (metaNameFirst x) opfContent
  ∨ standsAlone nameCover contentOpen (metaContentFirst x) opfContent.

Definition hasItem (host : Host) (i h opfContent : str) : Prop :=
  standsAlone (idIs host i) hrefOpen (itemIdFirst i h) opfContent
  ∨ standsAlone (idIs host i) hrefOpen (itemHrefFirst i h) opfContent.

Definition hasCoverImageItem (h opfContent : str) : Prop :=
  standsAlone propertiesCover hrefOpen (itemPropertiesFirst h) opfContent
  ∨ standsAlone propertiesCover hrefOpen (itemHrefBeforeProperties h) opfContent.

(** A line of text as the transducer leaves it: a clean line that does not
    begin with a bullet. *)
Definition textLine (p : str) : Prop :=
  clean p ∧ match p with c :: _ => c ≠ bullet | [] => False end.

(** ** Proofs *)


(** *** The matcher *)


Lemma matched_push (c : char) (h : hit) : matched (push c h) = c :: matched h.
Proof. unfold push, matched. destruct h as [[|seg segs] rest]; reflexivity. Qed.

Lemma rest_push (c : char) (h : hit) : (push c h).2 = h.2.
Proof. unfold push. destruct h as [[|seg segs] rest]; reflexivity. Qed.

Lemma matched_mark (h : hit) : matched (mark h) = matched h.
Proof. reflexivity. Qed.

Lemma rep_sound (g : bool) (p : char -> bool) (k : str -> option hit) :
  (∀ s h, k s = Some h -> s = matched h ++ h.2) ->
  ∀ n s h, rep g n p k s = Some h -> s = matched h ++ h.2.
Proof.
  intros Hk n s. revert n. induction s as [|c s IH]; intros n h.
  - destruct n; cbn [rep]; [apply Hk|done].
  - destruct n as [|n]; cbn [rep].
    + destruct g.
      * destruct (p c); [|apply Hk].
        destruct (rep true 0 p k s) as [h'|] eqn:E; [|apply Hk].
        intros [= <-]. rewrite matched_push, rest_push. cbn. f_equal. by apply (IH 0%nat).
      * destruct (k (c :: s)) as [h'|] eqn:E; [intros [= <-]; by apply Hk|].
        destruct (p c); [|done].
        destruct (rep false 0 p k s) as [h'|] eqn:E'; [|done].
        intros [= <-]. rewrite matched_push, rest_push. cbn. f_equal. by apply (IH 0%nat).
    + destruct (p c); [|done].
      destruct (rep g n p k s) as [h'|] eqn:E'; [|done].
      intros [= <-]. rewrite matched_push, rest_push. cbn. f_equal. by apply (IH n).
Qed.

(** A match is a prefix of the text, and what follows it is the rest. *)
Lemma matchHere_sound (r : regex) (s : str) (h : hit) :
  matchHere r s = Some h -> s = matched h ++ h.2.
Proof.
  revert s h. induction r as [|[p|g n p|p|] r IH]; intros s h; cbn [matchHere].
  - by intros [= <-].
  - destruct s as [|c s]; [done|]. destruct (p c); [|done].
    destruct (matchHere r s) as [h'|] eqn:E; [|done].
    intros [= <-]. rewrite matched_push, rest_push. cbn. f_equal. by apply IH.
  - apply rep_sound. exact IH.
  - destruct s as [|c s]; [apply IH|]. destruct (p c); [|apply IH].
    destruct (matchHere r s) as [h'|] eqn:E; [|apply IH].
    intros [= <-]. rewrite matched_push, rest_push. cbn. f_equal. by apply IH.
  - destruct (matchHere r s) as [h'|] eqn:E; [|done].
    intros [= <-]. rewrite matched_mark. cbn [mark snd]. by apply IH.
Qed.

(** *** Global replacement, unrolled *)

Lemma replaceFrom_skip (r : regex) (f : list str -> str) (k : nat) (s : str) :
  (k ≤ length s)%nat -> replaceFrom r f k s = replaceFrom r f 0 (drop k s).
Proof.
  revert k. induction s as [|c s IH]; intros k Hk.
  - destruct k; [done|cbn in Hk; lia].
  - destruct k as [|k]; [done|]. cbn [replaceFrom drop]. apply IH. cbn in Hk. lia.
Qed.

Lemma replace_nil (r : regex) (f : list str -> str) :
  replace r f [] = match matchHere r [] with Some h => f h.1 | None => [] end.
Proof. reflexivity. Qed.

Lemma replace_miss (r : regex) (f : list str -> str) (c : char) (s : str) :
  matchHere r (c :: s) = None -> replace r f (c :: s) = c :: replace r f s.
Proof. unfold replace. cbn [replaceFrom]. by intros ->. Qed.

Lemma replace_hit (r : regex) (f : list str -> str) (s : str) (h : hit) :
  matchHere r s = Some h -> matched h ≠ [] ->
  replace r f s = f h.1 ++ replace r f h.2.
Proof.
  intros Hm Hne. pose proof (matchHere_sound _ _ _ Hm) as Hs.
  unfold replace. destruct s as [|c s].
  { destruct (matched h); [done|discriminate]. }
  cbn [replaceFrom]. rewrite Hm. f_equal.
  destruct (matched h) as [|c' w] eqn:Ew; [done|].
  cbn [length]. cbn in Hs. injection Hs as -> ->.
  rewrite replaceFrom_skip by (rewrite length_app; lia).
  by rewrite drop_app_length.
Qed.

(** A run of characters that the first item of the pattern refuses is copied. *)
Lemma replace_pass (p : char -> bool) (r : regex) (f : list str -> str) (u s : str) :
  Forall (fun c => p c = false) u ->
  replace (One p :: r) f (u ++ s) = u ++ replace (One p :: r) f s.
Proof.
  induction 1 as [|c u Hc Hu IH]; [done|].
  cbn [app]. rewrite replace_miss; [by rewrite IH|].
  cbn [matchHere]. by rewrite Hc.
Qed.

Lemma replace_id (p : char -> bool) (r : regex) (f : list str -> str) (u : str) :
  Forall (fun c => p c = false) u -> replace (One p :: r) f u = u.
Proof.
  intros H. rewrite <- (app_nil_r u) at 1. rewrite replace_pass by done.
  by rewrite replace_nil, app_nil_r.
Qed.

(** A replacement brings no character that is neither in the text nor in a
    replacement. *)
Lemma replaceFrom_Forall (P : char -> Prop) (r : regex) (f : list str -> str)
    (k : nat) (s : str) :
  (∀ segs, Forall P (f segs)) -> Forall P s -> Forall P (replaceFrom r f k s).
Proof.
  intros Hf. revert k. induction s as [|c s IH]; intros k Hs.
  - cbn [replaceFrom]. destruct k; [|done]. destruct (matchHere r []); [apply Hf|done].
  - apply Forall_cons in Hs as [Hc Hs]. cbn [replaceFrom]. destruct k; [|by apply IH].
    destruct (matchHere r (c :: s)) as [h|].
    + apply Forall_app. split; [apply Hf|].
      destruct (length (matched h)); [constructor; [done|]|]; by apply IH.
    + constructor; [done|by apply IH].
Qed.

(** *** A character that no item of the pattern accepts *)




Lemma extend_push (t : str) (c : char) (h : hit) :
  extend t (push c h) = push c (extend t h).
Proof. destruct h as [[|seg segs] rest]; reflexivity. Qed.

Lemma rep_barrier (g : bool) (p : char -> bool) (k k' : str -> option hit)
    (x : char) (b : str) :
  p x = false ->
  (∀ a, k (a ++ x :: b) = extend (x :: b) <$> k' a) ->
  ∀ n a, rep g n p k (a ++ x :: b) = extend (x :: b) <$> rep g n p k' a.
Proof.
  intros Hx Hk n a. revert n. induction a as [|c a IH]; intros n.
  - pose proof (Hk []) as Hk0. cbn [app] in Hk0.
    destruct n; cbn [rep app]; rewrite ?Hx; [|done].
    destruct g; [done|]. rewrite Hk0. by destruct (k' []).
  - pose proof (Hk (c :: a)) as Hkc. cbn [app] in Hkc.
    destruct n as [|n]; cbn [rep app].
    + destruct g.
      * destruct (p c); [|done].
        rewrite (IH 0%nat). destruct (rep true 0 p k' a) as [h|]; cbn; [|done].
        by rewrite extend_push.
      * rewrite Hkc. destruct (k' (c :: a)) as [h|]; cbn; [done|].
        destruct (p c); [|done]. rewrite (IH 0%nat).
        destruct (rep false 0 p k' a) as [h|]; cbn; [|done]. by rewrite extend_push.
    + destruct (p c); [|done]. rewrite (IH n).
      destruct (rep g n p k' a) as [h|]; cbn; [|done]. by rewrite extend_push.
Qed.

Lemma matchHere_barrier (r : regex) (x : char) (a b : str) :
  barrier r x ->
  matchHere r (a ++ x :: b) = extend (x :: b) <$> matchHere r a.
Proof.
  intros Hr. revert a. induction Hr as [|i r Hi Hr IH]; intros a; [done|].
  destruct i as [p|g n p|p|]; cbn [classOf] in Hi; cbn [matchHere].
  - destruct a as [|c a]; cbn [app]; [by rewrite Hi|].
    destruct (p c); [|done]. rewrite IH.
    destruct (matchHere r a) as [h|]; cbn; [|done]. by rewrite extend_push.
  - by apply rep_barrier.
  - pose proof (IH []) as IH0. cbn [app] in IH0.
    destruct a as [|c a]; cbn [app]; [by rewrite Hi|].
    pose proof (IH (c :: a)) as IHc. cbn [app] in IHc.
    destruct (p c); [|done].
    rewrite IH. destruct (matchHere r a) as [h|]; cbn; [|done].
    by rewrite extend_push.
  - rewrite IH. by destruct (matchHere r a).
Qed.

Lemma matched_extend (t : str) (h : hit) : matched (extend t h) = matched h.
Proof. reflexivity. Qed.

Lemma replaceFrom_barrier (r : regex) (f : list str -> str) (x : char) (b : str) :
  barrier r x ->
  ∀ a k, (k ≤ length a)%nat ->
    replaceFrom r f k (a ++ x :: b) = replaceFrom r f k a ++ x :: replaceFrom r f 0 b.
Proof.
  intros Hr a. induction a as [|c a IH]; intros k Hk.
  - assert (k = 0%nat) as -> by (cbn in Hk; lia).
    pose proof (matchHere_barrier r x [] b Hr) as Hb. cbn [app] in Hb.
    cbn [app replaceFrom]. rewrite Hb.
    destruct (matchHere r []) as [h|] eqn:E; [|done].
    cbn [fmap option_fmap option_map]. rewrite matched_extend.
    apply matchHere_sound in E. symmetry in E. apply app_eq_nil in E as [-> _].
    done.
  - destruct k as [|k]; cbn [app replaceFrom].
    + pose proof (matchHere_barrier r x (c :: a) b Hr) as Hb. cbn [app] in Hb.
      rewrite Hb.
      destruct (matchHere r (c :: a)) as [h|] eqn:E; cbn [fmap option_fmap option_map].
      * rewrite matched_extend. change (extend (x :: b) h).1 with h.1.
        rewrite <- app_assoc. f_equal.
        apply matchHere_sound in E.
        destruct (matched h) as [|c' w] eqn:Ew; cbn [length].
        -- cbn [app]. f_equal. apply IH. lia.
        -- cbn in E. injection E as _ ->. apply IH. rewrite length_app. lia.
      * cbn [app]. f_equal. apply IH. lia.
    + apply IH. cbn in Hk. lia.
Qed.

Lemma replace_barrier (r : regex) (f : list str -> str) (x : char) (a b : str) :
  barrier r x -> replace r f (a ++ x :: b) = replace r f a ++ x :: replace r f b.
Proof. intros Hr. apply replaceFrom_barrier; [done|lia]. Qed.

(** A word of barriers is kept, and what is on its two sides is replaced as if
    it stood alone. *)
Lemma replace_word (r : regex) (f : list str -> str) (a w b : str) :
  Forall (barrier r) w -> w ≠ [] -> matchHere r [] = None ->
  replace r f (a ++ w ++ b) = replace r f a ++ w ++ replace r f b.
Proof.
  intros Hw Hne Hnil. revert a. induction Hw as [|x w Hx Hw IH]; intros a; [done|].
  cbn [app]. rewrite replace_barrier by done. destruct w as [|y w]; [done|].
  specialize (IH ltac:(done) []). rewrite replace_nil, Hnil in IH.
  cbn [app] in IH |- *. by rewrite IH.
Qed.

(** *** Text without markup *)

Lemma exec_none (r : regex) (s : str) :
  (∀ k, matchHere r (drop k s) = None) -> exec r s = None.
Proof.
  induction s as [|c s IH]; intros H; pose proof (H 0%nat) as H0; cbn [drop] in H0.
  - cbn [exec]. by rewrite H0.
  - cbn [exec]. rewrite H0. apply IH. intros k. apply (H (S k)).
Qed.

Lemma exec_none_head (r : regex) (p : char -> bool) (r' : regex) (s : str) :
  r = One p :: r' -> Forall (fun c => p c = false) s -> exec r s = None.
Proof.
  intros -> H. apply exec_none. intros k.
  assert (Hd : Forall (fun c => p c = false) (drop k s)) by by apply Forall_drop.
  cbn [matchHere]. destruct Hd as [|c u Hc _]; [done|by rewrite Hc].
Qed.

Lemma replace_id_head (r : regex) (f : list str -> str) (p : char -> bool)
    (r' : regex) (s : str) :
  r = One p :: r' -> Forall (fun c => p c = false) s -> replace r f s = s.
Proof. intros ->. apply replace_id. Qed.

Lemma isCh_ne (x c : char) : c ≠ x -> isCh x c = false.
Proof. intros H. unfold isCh. by apply N.eqb_neq. Qed.

(** Under the [i] flag a pattern character that is not a letter matches
    itself only. *)
Lemma isCI_ne (x c : char) : x < 65 ∨ 122 < x -> c ≠ x -> isCI x c = false.
Proof.
  intros Hx H. unfold isCI, asciiUpper. apply N.eqb_neq.
  destruct (N.leb_spec 97 c), (N.leb_spec c 122), (N.leb_spec 97 x),
    (N.leb_spec x 122); cbn [andb]; lia.
Qed.


Ltac head_refuses H :=
  eapply Forall_impl; [exact H|];
  let c := fresh "c" in let Hc := fresh "Hc" in
  intros c Hc; first [ apply isCh_ne; exact Hc
                     | apply isCI_ne; [left; reflexivity | exact Hc] ].

Ltac replace_none H :=
  unfold replaceWith;
  match goal with
  | |- context [replace ?r ?f ?s] =>
      rewrite (replace_id_head r f _ _ s eq_refl) by head_refuses H
  end.

Ltac exec_none H :=
  match goal with
  | |- context [exec ?r ?s] =>
      rewrite (exec_none_head r _ _ s eq_refl) by head_refuses H
  end.

Section Plain.
Context (host : Host).

Lemma isolateBody_plain (s : str) : noChar (ch "<") s -> isolateBody s = s.
Proof. intros H. unfold isolateBody. by exec_none H. Qed.

Lemma removeNoise_plain (s : str) : noChar (ch "<") s -> removeNoise s = s.
Proof. intros H. unfold removeNoise. by do 4 replace_none H. Qed.

Lemma removeTitle_plain (t : option str) (s : str) :
  noChar (ch "<") s -> removeTitle host t s = s.
Proof.
  intros H. unfold removeTitle. replace_none H.
  destruct t as [[|c t]|]; [done| |done].
  destruct (patternLiteral (escapeRegExp (c :: t))); [|done]. by replace_none H.
Qed.

Lemma stripWrappers_plain (s : str) : noChar (ch "<") s -> stripWrappers s = s.
Proof. intros H. unfold stripWrappers. by do 4 replace_none H. Qed.

Lemma handleLists_plain (s : str) : noChar (ch "<") s -> handleLists s = s.
Proof. intros H. unfold handleLists. by do 7 replace_none H. Qed.

Lemma unwrapAnchors_plain (s : str) : noChar (ch "<") s -> unwrapAnchors s = s.
Proof.
  intros H. unfold unwrapAnchors. by replace_none H.
Qed.

Lemma handleBlocks_plain (s : str) : noChar (ch "<") s -> handleBlocks s = s.
Proof. intros H. unfold handleBlocks. by do 4 replace_none H. Qed.

Lemma stripTags_plain (s : str) : noChar (ch "<") s -> replaceWith anyTag [] s = s.
Proof. intros H. by replace_none H. Qed.

Lemma normalizeSource_noChar (x : char) (s : str) :
  x ≠ 32 -> noChar x s -> noChar x (normalizeSource s).
Proof.
  intros Hx H. unfold normalizeSource, replaceWith, replace.
  apply replaceFrom_Forall; [intros _; by repeat constructor|].
  apply replaceFrom_Forall; [intros _; by repeat constructor|done].
Qed.

(** On text without [<], only the two whitespace passes, the entities and the
    cleaning of the lines are left of the transducer. *)
Lemma extractText_plain (s : str) (t : option str) :
  noChar (ch "<") s ->
  extractTextFromHtml host s t
  = trim (cleanLines (replaceWith anyTag [] (decodeEntities (normalizeSource s)))).
Proof.
  intros H. unfold extractTextFromHtml.
  rewrite isolateBody_plain, removeNoise_plain, removeTitle_plain,
    stripWrappers_plain by done.
  assert (Hn : noChar (ch "<") (normalizeSource s))
    by (apply normalizeSource_noChar; [done|exact H]).
  by rewrite handleLists_plain, unwrapAnchors_plain, handleBlocks_plain by done.
Qed.

Lemma extractTitle_plain (s : str) : noChar (ch "<") s -> extractTitle s = lit "Chapter".
Proof. intros H. unfold extractTitle. by do 3 exec_none H. Qed.

End Plain.

(** *** White space *)

Lemma dropWhile_Forall (P : char -> Prop) (p : char -> bool) (s : str) :
  Forall P s -> Forall P (dropWhile p s).
Proof. induction 1 as [|c s Hc Hs IH]; cbn; [done|]. destruct (p c); by try constructor. Qed.

Lemma trim_Forall (P : char -> Prop) (s : str) : Forall P s -> Forall P (trim s).
Proof.
  intros H. unfold trim, trimEnd, trimStart.
  apply Forall_reverse, dropWhile_Forall, Forall_reverse. by apply dropWhile_Forall.
Qed.

Lemma dropWhile_app_word (p : char -> bool) (a : str) (x : char) (b : str) :
  p x = false -> dropWhile p (a ++ x :: b) = dropWhile p a ++ x :: b.
Proof.
  intros Hx. induction a as [|c a IH]; cbn; [by rewrite Hx|].
  by destruct (p c).
Qed.

(** Trimming leaves a word in the middle where it is. *)
Lemma trim_app_word (a : str) (x : char) (w : str) (y : char) (b : str) :
  isSpace x = false -> isSpace y = false ->
  trim (a ++ x :: w ++ y :: b) = trimStart a ++ x :: w ++ y :: trimEnd b.
Proof.
  intros Hx Hy. unfold trim, trimStart, trimEnd.
  rewrite dropWhile_app_word by done.
  replace (dropWhile isSpace a ++ x :: w ++ y :: b)
    with ((dropWhile isSpace a ++ x :: w) ++ y :: b) by by rewrite <- app_assoc.
  rewrite reverse_app, reverse_cons, <- app_assoc. cbn [app].
  rewrite dropWhile_app_word by done.
  rewrite reverse_app, reverse_cons, !reverse_involutive, <- !app_assoc. done.
Qed.

Lemma trim_app_char (a : str) (x : char) (b : str) :
  isSpace x = false -> trim (a ++ x :: b) = trimStart a ++ x :: trimEnd b.
Proof.
  intros Hx. unfold trim, trimStart, trimEnd.
  rewrite dropWhile_app_word by done.
  rewrite reverse_app, reverse_cons, <- app_assoc. cbn [app].
  rewrite dropWhile_app_word by done.
  rewrite reverse_app, reverse_cons, !reverse_involutive, <- !app_assoc. done.
Qed.

Lemma split_noChar (x : char) (s : str) : noChar x s -> split x s = [s].
Proof.
  induction 1 as [|c s Hc Hs IH]; cbn [split]; [done|].
  apply N.eqb_neq in Hc. by rewrite Hc, IH.
Qed.

Lemma rep_star_total (p : char -> bool) (k : str -> option hit) (s : str) :
  (∀ s', ∃ h, k s' = Some h) -> ∃ h, rep true 0 p k s = Some h.
Proof.
  intros Hk. induction s as [|c s [h IH]]; cbn [rep]; [apply Hk|].
  destruct (p c); [|apply Hk]. rewrite IH. by eexists.
Qed.

Lemma plus_unfold (p : char -> bool) (c : char) (s : str) :
  matchHere [plus p] (c :: s)
  = if p c then push c <$> rep true 0 p (matchHere []) s else None.
Proof. reflexivity. Qed.

Lemma plus_hit (p : char -> bool) (c : char) (s : str) :
  p c = true -> ∃ h, matchHere [plus p] (c :: s) = Some (push c h).
Proof.
  intros Hc. rewrite plus_unfold, Hc.
  destruct (rep_star_total p (matchHere []) s) as [h ->]; [by eexists|].
  by exists h.
Qed.

(** [p+] matches wherever a [p] stands. *)
Lemma plus_here (p : char -> bool) (c : char) (s : str) :
  matchHere [plus p] (c :: s) = None -> p c = false.
Proof.
  intros H. destruct (p c) eqn:Ec; [|done].
  destruct (plus_hit p c s Ec) as [h Hh]. congruence.
Qed.

(** After [s.replace(/p+/g, t)] every character is one that [p] refuses or
    one of [t]. *)
Lemma replaceFrom_plus (p : char -> bool) (t : str) (k : nat) (s : str) :
  Forall (fun c => p c = false ∨ c ∈ t) (replaceFrom [plus p] (fun _ => t) k s).
Proof.
  revert k. induction s as [|c s IH]; intros k.
  - cbn [replaceFrom]. destruct k; [|done]. by cbn.
  - cbn [replaceFrom]. destruct k; [|apply IH].
    destruct (matchHere [plus p] (c :: s)) as [h|] eqn:E.
    + apply Forall_app. split; [rewrite Forall_forall; intros x Hx; by right|].
      destruct (length (matched h)) eqn:El; [|apply IH].
      constructor; [|apply IH]. destruct (p c) eqn:Ep; [|by left].
      destruct (plus_hit p c s Ep) as [h' Hh']. rewrite Hh' in E.
      injection E as <-. by rewrite matched_push in El.
    + constructor; [|apply IH]. left. by apply (plus_here p c s).
Qed.

Lemma replace_id_rep (g : bool) (n : nat) (p : char -> bool) (r : regex)
    (f : list str -> str) (u : str) :
  Forall (fun c => p c = false) u -> replace (Rep g (S n) p :: r) f u = u.
Proof.
  induction 1 as [|c u Hc Hu IH]; [done|].
  rewrite replace_miss; [by rewrite IH|]. cbn [matchHere rep]. by rewrite Hc.
Qed.

Lemma cleanLine_noChar (x : char) (s : str) :
  x ≠ 32 -> noChar x s -> noChar x (cleanLine s).
Proof.
  intros Hx H. unfold cleanLine, replaceWith, replace.
  apply replaceFrom_Forall; [intros _; by repeat constructor|]. by apply trim_Forall.
Qed.

(** Without a line feed there is one line to clean and no blank line to
    reduce. *)
Lemma cleanLines_single (s : str) : noChar LF s -> cleanLines s = cleanLine s.
Proof.
  intros H. unfold cleanLines. rewrite split_noChar by done.
  cbn [fmap list_fmap join].
  assert (Hc : noChar LF (cleanLine s)) by by apply cleanLine_noChar.
  unfold replaceWith at 3. rewrite replace_id_rep
    by (eapply Forall_impl; [exact Hc|]; intros c Hn; by apply isCh_ne).
  by do 2 replace_none Hc.
Qed.

(** *** Literal patterns *)

Lemma matchHere_literal (w s : str) :
  matchHere (literal w) s
  = if startsWith w s then Some ([w], drop (length w) s) else None.
Proof.
  revert s. induction w as [|a w IH]; intros s; [done|].
  change (literal (a :: w)) with (One (isCh a) :: literal w).
  cbn [matchHere startsWith]. destruct s as [|c s]; [done|].
  unfold isCh at 1. rewrite (N.eqb_sym c a). destruct (N.eqb_spec a c) as [->|]; [|done].
  rewrite IH. cbn [andb length drop]. by destruct (startsWith w s).
Qed.

Lemma replace_literal_cons (a : char) (w t : str) (c : char) (s : str) :
  replace (literal (a :: w)) (fun _ => t) (c :: s)
  = if startsWith (a :: w) (c :: s)
    then t ++ replace (literal (a :: w)) (fun _ => t) (drop (length w) s)
    else c :: replace (literal (a :: w)) (fun _ => t) s.
Proof.
  destruct (startsWith (a :: w) (c :: s)) eqn:E.
  - erewrite replace_hit; [|by rewrite matchHere_literal, E|done]. done.
  - rewrite replace_miss; [done|]. by rewrite matchHere_literal, E.
Qed.

Lemma replace_literal_pass (a : char) (w : str) (f : list str -> str) (u s : str) :
  noChar a u ->
  replace (literal (a :: w)) f (u ++ s) = u ++ replace (literal (a :: w)) f s.
Proof.
  intros H. change (literal (a :: w)) with (One (isCh a) :: literal w).
  apply replace_pass. eapply Forall_impl; [exact H|]. intros c Hc. by apply isCh_ne.
Qed.

Lemma replace_literal_id (a : char) (w : str) (f : list str -> str) (u : str) :
  noChar a u -> replace (literal (a :: w)) f u = u.
Proof.
  intros H. change (literal (a :: w)) with (One (isCh a) :: literal w).
  apply replace_id. eapply Forall_impl; [exact H|]. intros c Hc. by apply isCh_ne.
Qed.


(** *** Occurrences of a literal *)

Lemma startsWith_nil_r (w : str) : startsWith w [] = true -> w = [].
Proof. by destruct w. Qed.

Lemma includes_nil (s : str) : includes [] s = true.
Proof. by destruct s. Qed.

Lemma includes_cons (w : str) (c : char) (s : str) :
  includes w (c :: s) = startsWith w (c :: s) || includes w s.
Proof. reflexivity. Qed.

Lemma includes_drop (w : str) (k : nat) (s : str) :
  includes w (drop k s) = true -> includes w s = true.
Proof.
  revert s. induction k as [|k IH]; intros s; [by rewrite drop_0|].
  destruct s as [|c s]; [done|]. cbn [drop]. intros H. rewrite includes_cons.
  rewrite (IH s H). by destruct (startsWith w (c :: s)).
Qed.

Lemma includes_app_r (w u s : str) : includes w s = true -> includes w (u ++ s) = true.
Proof.
  intros H. apply (includes_drop w (length u)). by rewrite drop_app_length.
Qed.

Lemma startsWith_app (w s : str) : startsWith w (w ++ s) = true.
Proof. induction w as [|a w IH]; [done|]. cbn. by rewrite N.eqb_refl. Qed.

Lemma includes_middle (w u s : str) : includes w (u ++ w ++ s) = true.
Proof.
  apply includes_app_r. destruct (w ++ s) eqn:E.
  - apply app_eq_nil in E as [-> _]. done.
  - rewrite includes_cons, <- E, startsWith_app. done.
Qed.

Lemma startsWith_head_not (x : char) (w : str) (s : str) :
  x ∉ w -> w ≠ [] -> startsWith w (x :: s) = false.
Proof.
  intros Hx Hw. destruct w as [|a w]; [done|]. cbn.
  destruct (N.eqb_spec a x) as [->|]; [|done]. exfalso. apply Hx. by left.
Qed.

Lemma includes_noChar (x : char) (w s : str) :
  x ∈ w -> noChar x s -> includes w s = false.
Proof.
  intros Hx. assert (Hst : ∀ t, noChar x t -> startsWith w t = false).
  { clear -Hx. induction w as [|a w IH]; intros t Ht; [by apply elem_of_nil in Hx|].
    destruct t as [|c t]; [done|]. apply Forall_cons in Ht as [Hc Ht]. cbn.
    destruct (N.eqb_spec a c) as [->|]; [|done]. cbn.
    apply elem_of_cons in Hx as [->|Hx]; [done|]. by apply IH. }
  induction 1 as [|c s Hc Hs IH].
  - cbn. rewrite Hst by constructor. done.
  - rewrite includes_cons, IH, Hst by by constructor. done.
Qed.

(** Where the literal does not occur, nothing is replaced. *)
Lemma replace_literal_absent (w : str) (f : list str -> str) (s : str) :
  w ≠ [] -> includes w s = false -> replace (literal w) f s = s.
Proof.
  intros Hw. induction s as [|c s IH]; intros H.
  - rewrite replace_nil, matchHere_literal. by destruct w.
  - rewrite includes_cons in H. apply orb_false_iff in H as [H1 H2].
    rewrite replace_miss; [by rewrite IH|]. by rewrite matchHere_literal, H1.
Qed.

Section OneCharacter.
(** A global replacement of the literal [w] by the one character [x]. *)
Context (w : str) (x : char) (Hw : w ≠ []).

Local Abbreviation R := (replaceChar w x).

Lemma R_cons (c : char) (s : str) :
  R (c :: s) = if startsWith w (c :: s) then x :: R (drop (pred (length w)) s)
               else c :: R s.
Proof.
  unfold replaceChar. destruct w as [|a w'] eqn:E; [done|]. by rewrite replace_literal_cons.
Qed.

Lemma R_nil : R [] = [].
Proof. unfold replaceChar. rewrite replace_nil, matchHere_literal. by destruct w. Qed.

(** A text without [x] that starts the result started the source. *)
Lemma startsWith_replaced (w' : str) (s : str) :
  x ∉ w' -> startsWith w' (R s) = true -> startsWith w' s = true.
Proof.
  revert w'. induction s as [|c s IH]; intros w' Hx; [by rewrite R_nil|].
  rewrite R_cons. destruct (startsWith w (c :: s)).
  - destruct w' as [|a w'']; [done|]. rewrite startsWith_head_not; done.
  - destruct w' as [|a w'']; [done|]. cbn [startsWith].
    intros [Ha H]%andb_true_iff. rewrite Ha. cbn [andb]. apply IH; [|done].
    intros Hin. apply Hx. by right.
Qed.

Lemma includes_replaced_len (n : nat) (w' : str) (s : str) :
  (length s ≤ n)%nat -> x ∉ w' -> w' ≠ [] ->
  includes w' (R s) = true -> includes w' s = true.
Proof.
  revert s. induction n as [|n IH]; intros s Hn Hx Hne.
  { destruct s; [|cbn in Hn; lia]. by rewrite R_nil. }
  destruct s as [|c s]; [by rewrite R_nil|]. cbn [length] in Hn.
  rewrite R_cons. destruct (startsWith w (c :: s)) eqn:E.
  - rewrite includes_cons, startsWith_head_not by done. cbn [orb]. intros H.
    apply IH in H; [|rewrite length_drop; lia|done|done].
    rewrite includes_cons. apply includes_drop in H. rewrite H.
    by destruct (startsWith w' (c :: s)).
  - rewrite !includes_cons. intros [H|H]%orb_true_iff.
    + assert (H' : startsWith w' (R (c :: s)) = true) by by rewrite R_cons, E.
      apply startsWith_replaced in H'; [|done]. by rewrite H'.
    + apply IH in H; [|lia|done|done]. rewrite H.
      by destruct (startsWith w' (c :: s)).
Qed.

(** A replacement by [x] makes no occurrence of a text without [x]. *)
Lemma includes_replaced (w' : str) (s : str) :
  x ∉ w' -> w' ≠ [] -> includes w' s = false -> includes w' (R s) = false.
Proof.
  intros Hx Hne H. destruct (includes w' (R s)) eqn:E; [|done].
  apply (includes_replaced_len (length s)) in E; [congruence|lia|done|done].
Qed.

Lemma replaced_gone_len (n : nat) (s : str) :
  (length s ≤ n)%nat -> x ∉ w -> includes w (R s) = false.
Proof.
  revert s. induction n as [|n IH]; intros s Hn Hx.
  { destruct s; [|cbn in Hn; lia]. rewrite R_nil. cbn. by destruct w. }
  destruct s as [|c s]; [rewrite R_nil; cbn; by destruct w|]. cbn [length] in Hn.
  rewrite R_cons. destruct (startsWith w (c :: s)) eqn:E.
  - rewrite includes_cons, startsWith_head_not by done. cbn [orb].
    apply IH; [rewrite length_drop; lia|done].
  - rewrite includes_cons. rewrite (IH s) by (done || lia).
    destruct (startsWith w (c :: R s)) eqn:E'; [|done].
    assert (H' : startsWith w (R (c :: s)) = true) by by rewrite R_cons, E.
    apply startsWith_replaced in H'; [congruence|done].
Qed.

(** When [x] is not a character of [w], no [w] is left after all of them are
    replaced by [x]. *)
Lemma replaced_gone (s : str) : x ∉ w -> includes w (R s) = false.
Proof. apply (replaced_gone_len (length s)). lia. Qed.

End OneCharacter.

(** *** The entities *)

Lemma decodeWith_cons (e : str * str) (table : list (str * str)) (s : str) :
  decodeWith (e :: table) s = decodeWith table (replaceWith (literal e.1) e.2 s).
Proof. reflexivity. Qed.

Lemma decodeWith_app (t1 t2 : list (str * str)) (s : str) :
  decodeWith (t1 ++ t2) s = decodeWith t2 (decodeWith t1 s).
Proof. unfold decodeWith. by rewrite foldl_app. Qed.


Lemma decodeWith_keeps_absent (w : str) (table : list (str * str)) (s : str) :
  w ≠ [] -> Forall (harmless w) table ->
  includes w s = false -> includes w (decodeWith table s) = false.
Proof.
  intros Hw Ht. revert s. induction Ht as [|[w1 t1] table He Ht IH]; intros s Hs; [done|].
  rewrite decodeWith_cons. apply IH. unfold harmless in He. cbn [fst snd] in *.
  destruct t1 as [|y [|]]; [done| |done]. destruct He as [Hy Hw1].
  by apply includes_replaced.
Qed.

Lemma decode_gone (i : nat) (w : str) (x : char) :
  entities !! i = Some (w, [x]) -> x ∉ w -> w ≠ [] ->
  Forall (harmless w) (drop (S i) entities) ->
  ∀ s, includes w (decodeEntities s) = false.
Proof.
  intros Hi Hx Hw Hrest s. unfold decodeEntities.
  rewrite <- (take_drop_middle entities i _ Hi), decodeWith_app, decodeWith_cons.
  apply decodeWith_keeps_absent; [done|done|].
  cbn [fst snd]. by apply replaced_gone.
Qed.

Ltac by_decision := apply (bool_decide_unpack _); vm_compute; exact I.

Ltac harmless_rest :=
  repeat first [ apply Forall_nil_2
               | apply Forall_cons_2; [split; [by_decision|discriminate]|] ].

Ltac gone_from i :=
  first [ apply Forall_nil_2
        | apply Forall_cons_2;
          [ let s := fresh "s" in
            intros s; apply (decode_gone i _ _ eq_refl);
            [by_decision | discriminate | harmless_rest]
          | gone_from (S i) ] ].

(** After the decoding, none of the twelve entities that come after [&amp;]
    in the table is left, whatever the text was. *)
Lemma later_entities_gone :
  Forall (fun e : str * str => ∀ s, includes e.1 (decodeEntities s) = false)
    (drop 2 entities).
Proof. cbn [drop entities]. gone_from 2%nat. Qed.

Lemma decodeWith_pass (table : list (str * str)) (u s : str) :
  Forall (fun e => ∃ w, e.1 = ch "&" :: w) table -> noChar (ch "&") u ->
  decodeWith table (u ++ s) = u ++ decodeWith table s.
Proof.
  intros Ht Hu. revert s. induction Ht as [|[w1 t1] table [w He] Ht IH]; intros s; [done|].
  cbn [fst] in He. subst w1.
  rewrite (decodeWith_cons (_, t1) table (u ++ s)), (decodeWith_cons (_, t1) table s).
  cbn [fst snd]. unfold replaceWith. by rewrite replace_literal_pass, IH.
Qed.

Lemma entities_amp : Forall (fun e : str * str => ∃ w, e.1 = ch "&" :: w) entities.
Proof. repeat constructor; by eexists. Qed.

(** An unrecognized entity, or any text in which none of the fourteen
    occurs, is left as it is. *)
Lemma decode_unrecognized (s : str) :
  Forall (fun e : str * str => includes e.1 s = false) entities -> decodeEntities s = s.
Proof.
  unfold decodeEntities. generalize entities_amp.
  induction entities as [|[w1 t1] table IH]; intros Ha Hs; [done|].
  apply Forall_cons in Ha as [[w Hw] Ha]. apply Forall_cons in Hs as [H1 Hs].
  cbn [fst] in Hw. subst w1.
  rewrite decodeWith_cons. cbn [fst snd] in *. unfold replaceWith.
  rewrite replace_literal_absent by done. by apply IH.
Qed.

Lemma entities_eval : entities = entities_v.
Proof. vm_compute. reflexivity. Qed.

Ltac eval_lits :=
  repeat match goal with
  | |- context [lit ?s] =>
      let x := eval vm_compute in (lit s) in change (lit s) with x
  end.

Ltac lit_cons :=
  rewrite replace_literal_cons;
  cbn [startsWith N.eqb Pos.eqb andb length drop app].

Ltac decode_step Hv :=
  unfold replaceWith;
  repeat first
    [ rewrite (replace_literal_id _ _ _ _ Hv)
    | lit_cons ].

Ltac decode_all Hv :=
  unfold decodeEntities, decodeWith; rewrite entities_eval; unfold entities_v;
  cbn [foldl fst snd app]; do 14 decode_step Hv.

Lemma decode_after_amp (v : str) :
  noChar (ch "&") v -> noChar (ch ";") v ->
  decodeWith (drop 2 entities) (ch "&" :: v) = ch "&" :: v.
Proof.
  intros Hv Hs.
  assert (H : ∀ table, Forall (fun e : str * str => ch ";" ∈ e.1) table ->
              decodeWith table (ch "&" :: v) = ch "&" :: v).
  { induction 1 as [|[w t] table Hw Ht IH]; [done|].
    rewrite decodeWith_cons. cbn [fst snd] in *. unfold replaceWith.
    rewrite replace_literal_absent; [done| |].
    - intros ->. by apply elem_of_nil in Hw.
    - apply (includes_noChar (ch ";")); [done|]. by constructor. }
  apply H. repeat constructor; by_decision.
Qed.

(** Each of the fourteen entities, standing in text without [&], is replaced
    by its character; for [&amp;] the text after it must not go on to spell
    a later entity, which here is excluded with the semicolon. *)
Lemma decode_one (e : str * str) (u v : str) :
  e ∈ entities -> noChar (ch "&") u -> noChar (ch "&") v ->
  (e.1 = lit "&amp;" -> noChar (ch ";") v) ->
  decodeEntities (u ++ e.1 ++ v) = u ++ e.2 ++ v.
Proof.
  intros He Hu Hv Hamp. unfold decodeEntities.
  rewrite decodeWith_pass by (apply entities_amp || done). f_equal.
  unfold entities in He.
  repeat (apply elem_of_cons in He as [->|He]);
    [..|by apply elem_of_nil in He]; cbn [fst snd].
  2: { change entities with (take 2 entities ++ drop 2 entities).
       rewrite decodeWith_app.
       replace (decodeWith (take 2 entities) (lit "&amp;" ++ v)) with (ch "&" :: v).
       - apply decode_after_amp; [done|by apply Hamp].
       - unfold decodeWith. cbn [take entities foldl fst snd]. eval_lits.
         cbn [app]. by do 2 decode_step Hv. }
  all: eval_lits; change (decodeWith entities ?s) with (decodeEntities s);
       decode_all Hv; reflexivity.
Qed.

Lemma decode_amp_mdash (v : str) :
  noChar (ch "&") v ->
  decodeEntities (lit "&amp;mdash;" ++ v) = mdash :: v.
Proof. intros Hv. eval_lits. decode_all Hv. reflexivity. Qed.

Lemma decode_amp_nbsp (v : str) :
  noChar (ch "&") v ->
  decodeEntities (lit "&amp;nbsp;" ++ v) = lit "&nbsp;" ++ v.
Proof. intros Hv. eval_lits. decode_all Hv. reflexivity. Qed.


(** *** The two whitespace passes around a word *)

Lemma barrier_plus (p : char -> bool) (x : char) : p x = false -> barrier [plus p] x.
Proof. intros H. by repeat constructor. Qed.

Lemma isSpace_crlf (c : char) : isSpace c = false -> (c =? CR) || (c =? LF) = false.
Proof.
  intros H. destruct (N.eqb_spec c CR) as [->|]; [done|].
  destruct (N.eqb_spec c LF) as [->|]; done.
Qed.

Lemma normalizeSource_word (a w b : str) :
  Forall (fun c => isSpace c = false) w -> w ≠ [] ->
  normalizeSource (a ++ w ++ b) = normalizeSource a ++ w ++ normalizeSource b.
Proof.
  intros Hw Hne. unfold normalizeSource, replaceWith.
  rewrite replace_word; [|by eapply Forall_impl; [exact Hw|];
    intros c Hc; apply barrier_plus, isSpace_crlf|done|done].
  rewrite replace_word; [done| |done|done].
  eapply Forall_impl; [exact Hw|]. intros c Hc. by apply barrier_plus.
Qed.

Lemma normalizeSource_spaces (s : str) :
  Forall (fun c => isSpace c = false ∨ c = 32) (normalizeSource s).
Proof.
  unfold normalizeSource, replaceWith, replace.
  eapply Forall_impl; [apply replaceFrom_plus|]. intros c [H|H]; [by left|right].
  by apply list_elem_of_singleton in H.
Qed.

Lemma normalizeSource_noLF (s : str) : noChar LF (normalizeSource s).
Proof.
  eapply Forall_impl; [apply normalizeSource_spaces|].
  intros c [H | ->] E; [by rewrite E in H|done].
Qed.


Lemma trim_word (a w b : str) :
  Forall (fun c => isSpace c = false) w -> w ≠ [] ->
  trim (a ++ w ++ b) = trimStart a ++ w ++ trimEnd b.
Proof.
  intros Hw Hne. destruct w as [|x w]; [done|].
  apply Forall_cons in Hw as [Hx Hw].
  destruct (reverse w) as [|y w'] eqn:Er.
  - apply (f_equal reverse) in Er. rewrite reverse_involutive in Er. subst w.
    cbn [app]. by apply trim_app_char.
  - apply (f_equal reverse) in Er. rewrite reverse_involutive in Er.
    rewrite reverse_cons in Er. subst w.
    apply Forall_app in Hw as [_ Hy]. apply Forall_cons in Hy as [Hy _].
    cbn [app]. rewrite <- !app_assoc. cbn [app]. by apply trim_app_word.
Qed.

Lemma cleanLine_word (a w b : str) :
  Forall (fun c => isSpace c = false) w -> w ≠ [] ->
  cleanLine (a ++ w ++ b) = collapse (trimStart a) ++ w ++ collapse (trimEnd b).
Proof.
  intros Hw Hne. unfold cleanLine, collapse, replaceWith.
  rewrite trim_word by done. rewrite replace_word; [done| |done|done].
  eapply Forall_impl; [exact Hw|]. intros c Hc. by apply barrier_plus.
Qed.


Lemma collapse_noChar (x : char) (s : str) : x ≠ 32 -> noChar x s -> noChar x (collapse s).
Proof.
  intros Hx H. unfold collapse, replaceWith, replace.
  apply replaceFrom_Forall; [intros _; by repeat constructor|done].
Qed.

Lemma trimEnd_Forall (P : char -> Prop) (s : str) : Forall P s -> Forall P (trimEnd s).
Proof. intros H. unfold trimEnd. by apply Forall_reverse, dropWhile_Forall, Forall_reverse. Qed.

Lemma lead_noChar (x : char) (t : str) : x ≠ 32 -> noChar x t -> noChar x (lead t).
Proof.
  intros Hx H. unfold lead, trimStart.
  by apply dropWhile_Forall, collapse_noChar, dropWhile_Forall, normalizeSource_noChar.
Qed.

Lemma trail_noChar (x : char) (t : str) : x ≠ 32 -> noChar x t -> noChar x (trail t).
Proof.
  intros Hx H. unfold trail.
  by apply trimEnd_Forall, collapse_noChar, trimEnd_Forall, normalizeSource_noChar.
Qed.

Section Words.
Context (host : Host).

(** A word without white space and [<], standing in text without [<] and
    [&], goes through the transducer as it goes through the decoding of
    the entities. *)
Lemma extractText_word (t1 w t2 w' : str) (t : option str) :
  noChar (ch "<") t1 -> noChar (ch "<") t2 ->
  noChar (ch "&") t1 -> noChar (ch "&") t2 ->
  Forall (fun c => isSpace c = false ∧ c ≠ ch "<") w -> w ≠ [] ->
  Forall (fun c => isSpace c = false ∧ c ≠ ch "<") w' -> w' ≠ [] ->
  decodeEntities (w ++ normalizeSource t2) = w' ++ normalizeSource t2 ->
  extractTextFromHtml host (t1 ++ w ++ t2) t = lead t1 ++ w' ++ trail t2.
Proof.
  intros H1 H2 A1 A2 Hw Hne Hw' Hne' Hdec.
  assert (Sw : Forall (fun c => isSpace c = false) w)
    by (eapply Forall_impl; [exact Hw|]; by intros c [? ?]).
  assert (Sw' : Forall (fun c => isSpace c = false) w')
    by (eapply Forall_impl; [exact Hw'|]; by intros c [? ?]).
  assert (Lw : noChar (ch "<") w)
    by (eapply Forall_impl; [exact Hw|]; by intros c [? ?]).
  assert (Lw' : noChar (ch "<") w')
    by (eapply Forall_impl; [exact Hw'|]; by intros c [? ?]).
  rewrite extractText_plain by (repeat (apply Forall_app; split); done).
  rewrite normalizeSource_word by done.
  unfold decodeEntities. rewrite decodeWith_pass;
    [|apply entities_amp|by apply normalizeSource_noChar].
  change (decodeWith entities ?s) with (decodeEntities s).
  rewrite Hdec.
  rewrite stripTags_plain
    by (repeat (apply Forall_app; split); try done; by apply normalizeSource_noChar).
  rewrite cleanLines_single.
  2: { repeat (apply Forall_app; split); try apply normalizeSource_noLF.
       eapply Forall_impl; [exact Sw'|]. by intros c Hc ->. }
  rewrite cleanLine_word by done. by rewrite trim_word.
Qed.

End Words.


(** One step of the two monads, without unfolding anything else. *)
Ltac exn_step :=
  cbv beta iota delta [mbind exn_bind bind mret exn_ret try_catch option_bind option_list].
Ltac exn_step_in H :=
  cbv beta iota delta [mbind exn_bind bind mret exn_ret try_catch option_bind option_list] in H.

Lemma omap_cons {A B} (f : A -> option B) (x : A) (l : list A) :
  omap f (x :: l) = match f x with Some y => y :: omap f l | None => omap f l end.
Proof. reflexivity. Qed.

(** *** The loop over the spine *)

Section Spine.
Context (host : Host) (items : list str) (zip : gmap (list N) ZipObject) (opfDir : str).

Lemma loadChapter_caught (acc : list Chapter) (id : str) :
  try_catch (loadChapter host items zip opfDir acc id) (fun _ => mret acc)
  = Returns (acc ++ option_list (chapterOfIdref host items zip opfDir id)).
Proof.
  unfold loadChapter, chapterOfIdref.
  destruct (findItem items id) as [item|]; exn_step; [|by rewrite app_nil_r].
  destruct (exec (attrValue "href") item) as [hrefMatch|]; exn_step;
    [|by rewrite app_nil_r].
  destruct (zip !! (opfDir ++ group1 hrefMatch)) as [chapterFile|]; exn_step;
    [|by rewrite app_nil_r].
  destruct (async_string chapterFile) as [html|e]; exn_step; [|by rewrite app_nil_r].
  case_bool_decide; exn_step; [done|by rewrite app_nil_r].
Qed.

Lemma forSpine_omap (ids : list str) (acc : list Chapter) :
  forSpine host items zip opfDir ids acc
  = Returns (acc ++ omap (chapterOfIdref host items zip opfDir) ids).
Proof.
  revert acc; induction ids as [|id ids IH]; intros acc.
  - cbn [forSpine omap list_omap]. exn_step. by rewrite app_nil_r.
  - cbn [forSpine]. rewrite omap_cons, loadChapter_caught. exn_step. rewrite IH.
    destruct (chapterOfIdref host items zip opfDir id); cbn [option_list].
    + by rewrite <- app_assoc.
    + by rewrite app_nil_r.
Qed.

Lemma chapterOfIdref_content (id : str) (c : Chapter) :
  chapterOfIdref host items zip opfDir id = Some c -> trim (content c) ≠ [].
Proof.
  unfold chapterOfIdref. intros H.
  destruct (findItem items id) as [item|]; exn_step_in H; [|done].
  destruct (exec (attrValue "href") item) as [hrefMatch|]; exn_step_in H; [|done].
  destruct (zip !! (opfDir ++ group1 hrefMatch)) as [chapterFile|]; exn_step_in H; [|done].
  destruct (async_string chapterFile) as [html|e]; [|done].
  case_bool_decide; [|done].
  by inversion H; subst.
Qed.

End Spine.

Lemma chapterOfIdref_no_items (host : Host) (zip : gmap (list N) ZipObject)
    (opfDir id : str) :
  chapterOfIdref host [] zip opfDir id = None.
Proof. reflexivity. Qed.

Lemma extractChapters_omap (host : Host) (opfContent : str)
    (zip : gmap (list N) ZipObject) (opfDir : str) :
  extractChapters host opfContent zip opfDir
  = Returns (omap (chapterOfIdref host (manifestItems opfContent) zip opfDir)
               (spineIds opfContent)).
Proof.
  unfold extractChapters.
  destruct (manifestItems opfContent) as [|i items] eqn:E.
  - exn_step. f_equal. induction (spineIds opfContent) as [|id ids IH]; [done|].
    by rewrite omap_cons, chapterOfIdref_no_items.
  - by rewrite forSpine_omap.
Qed.

(** *** Chapters: order and content *)

(** C9. Whatever the archive, the chapters extracted, and so the chapters of
    the state once loading has settled, all have a content that is not empty
    and not made of white space only. *)
Theorem chapters_never_blank (host : Host) (opfContent : str)
    (zip : gmap (list N) ZipObject) (opfDir : str) :
  (∃ chs, extractChapters host opfContent zip opfDir = Returns chs
          ∧ Forall (fun c => trim (content c) ≠ [] ∧ content c ≠ []) chs)
  ∧ Forall (fun c => trim (content c) ≠ [] ∧ content c ≠ [])
      (chapters (loadEpub host zip initialState)).
Proof.
  assert (Hall : ∀ opf dir, ∃ chs, extractChapters host opf zip dir = Returns chs
            ∧ Forall (fun c => trim (content c) ≠ [] ∧ content c ≠ []) chs).
  { intros opf dir. eexists. split; [apply extractChapters_omap|].
    apply Forall_forall. intros c Hc.
    apply list_elem_of_omap in Hc as (id & _ & Hid).
    apply chapterOfIdref_content in Hid. split; [done|].
    intros E. by rewrite E in Hid. }
  split; [apply Hall|].
  unfold loadEpub.
  destruct (locatePackage zip) as [[opf dir]|e]; [|by constructor].
  destruct (extractMetadata host opf zip dir) as [md|e]; [|by constructor].
  destruct (Hall opf dir) as (chs & -> & HF). exact HF.
Qed.

(** *** The sample book *)

(** C3. The sample book (container pointing to OEBPS/content.opf, cover.jpg
    marked as cover-image, spine ch1 then ch2 although the manifest lists ch2
    first, and the ch1.xhtml of the scenario) loads without error; its first
    chapter is titled Intro with the expected text, and the cover is a data
    URI of type image/jpeg. *)
Theorem sample_book_loads (host : Host) :
  let st := loadEpub host Sample.book initialState in
  error st = ""%string ∧ loading st = false
  ∧ chapters st !! 0%nat
    = Some {| chapterTitle := lit "Intro";
              content := lit "Hello world." ++ [LF; LF; bullet] ++ lit " A"
                         ++ [LF; bullet] ++ lit " B" |}
  ∧ (chapterTitle <$> chapters st) = [lit "Intro"; lit "Next"]
  ∧ coverImage (metadata st) = Some (lit "data:image/jpeg;base64," ++ lit "/9j/4AAQ").
Proof. vm_compute. done. Qed.

(** *** Fatal and absorbed failures *)

Lemma locatePackage_throws (zip : gmap (list N) ZipObject) :
  (∃ e, locatePackage zip = Throws e)
  ↔ prerequisiteAbsent zip ∨ prerequisiteUnreadable zip.
Proof.
  unfold locatePackage, prerequisiteAbsent, prerequisiteUnreadable.
  destruct (zip !! containerPath) as [f|] eqn:Ef.
  2: { split; [intros _; left; by left | intros _; by eexists]. }
  destruct (async_string f) as [xml|e] eqn:Ex; exn_step.
  2: { split; [intros _; right; left; by exists f, e | intros _; by eexists]. }
  destruct (exec fullPath xml) as [m|] eqn:Em.
  2: { split; [intros _; left; right; left; by exists f, xml | intros _; by eexists]. }
  destruct (zip !! group1 m) as [g|] eqn:Eg.
  2: { split; [intros _; left; right; right; by exists f, xml, m
              | intros _; by eexists]. }
  destruct (async_string g) as [opf|e] eqn:Eo; exn_step.
  2: { split; [intros _; right; right; by exists f, xml, m, g, e
              | intros _; by eexists]. }
  split; [intros [e He]; done|].
  intros [[H|[H|H]]|[H|H]]; [done|..].
  - destruct H as (f' & xml' & H1 & H2 & H3).
    inversion H1; subst f'. rewrite Ex in H2. inversion H2; subst xml'. congruence.
  - destruct H as (f' & xml' & m' & H1 & H2 & H3 & H4).
    inversion H1; subst f'. rewrite Ex in H2. inversion H2; subst xml'.
    rewrite Em in H3. inversion H3; subst m'. congruence.
  - destruct H as (f' & e & H1 & H2). inversion H1; subst f'. congruence.
  - destruct H as (f' & xml' & m' & g' & e & H1 & H2 & H3 & H4 & H5).
    inversion H1; subst f'. rewrite Ex in H2. inversion H2; subst xml'.
    rewrite Em in H3. inversion H3; subst m'. rewrite Eg in H4.
    inversion H4; subst g'. congruence.
Qed.

Lemma extractChapters_returns (host : Host) (opfContent : str)
    (zip : gmap (list N) ZipObject) (opfDir : str) :
  ∃ chs, extractChapters host opfContent zip opfDir = Returns chs.
Proof. eexists. apply extractChapters_omap. Qed.

(** C6, as amended.  Loading fails when the container descriptor or the
    package document is absent or cannot be read, or when the descriptor has
    no full-path; the state then keeps the metadata and chapters it had.
    Extracting the chapters never throws, whatever the entries of the
    chapters are; so once the package document is located and the metadata
    extracted, loading succeeds. *)
Theorem load_fatal_cases (host : Host) (zip : gmap (list N) ZipObject) (st : AppState) :
  ((∃ e, locatePackage zip = Throws e)
     ↔ prerequisiteAbsent zip ∨ prerequisiteUnreadable zip)
  ∧ (∀ e, locatePackage zip = Throws e ->
       loadEpub host zip st
       = {| metadata := metadata st; chapters := chapters st; loading := false;
            error := "Failed to load EPUB: " ++ e |})
  ∧ (∀ opfContent opfDir, ∃ chs, extractChapters host opfContent zip opfDir = Returns chs)
  ∧ (∀ opfContent opfDir md,
       locatePackage zip = Returns (opfContent, opfDir) ->
       extractMetadata host opfContent zip opfDir = Returns md ->
       ∃ chs, extractChapters host opfContent zip opfDir = Returns chs
              ∧ loadEpub host zip st
                = {| metadata := md; chapters := chs; loading := false;
                     error := error st |}).
Proof.
  split; [apply locatePackage_throws|]. split; [|split].
  - intros e H. unfold loadEpub. by rewrite H.
  - intros. apply extractChapters_returns.
  - intros opf dir md H1 H2.
    destruct (extractChapters_returns host opf zip dir) as [chs Hc].
    exists chs. split; [done|]. unfold loadEpub. by rewrite H1, H2, Hc.
Qed.

(** C6 as stated fails: an archive whose container descriptor is there, but
    cannot be read, makes loading fail although none of the three listed
    prerequisites is missing. *)
Lemma load_fatal_iff_absent_fails :
  ¬ (∀ zip : gmap (list N) ZipObject,
       error (loadEpub Sample.host zip initialState) ≠ ""%string ↔ prerequisiteAbsent zip).
Proof.
  intros H.
  destruct (H (<[containerPath := Sample.unreadable]> ∅)) as [H1 _].
  destruct H1 as [H1|[H1|H1]].
  - vm_compute. discriminate.
  - vm_compute in H1. discriminate.
  - destruct H1 as (f & xml & Hf & Hx & _). vm_compute in Hf.
    inversion Hf; subst. discriminate.
  - destruct H1 as (f & xml & m & Hf & Hx & _). vm_compute in Hf.
    inversion Hf; subst. discriminate.
Qed.


(** *** Entities in the output of the transducer *)

Lemma startsWith_same_end (x : char) (n m v : str) :
  x ∉ n -> x ∉ m -> startsWith (n ++ [x]) (m ++ x :: v) = true -> n = m.
Proof.
  revert m. induction n as [|a n IH]; intros m Hn Hm.
  - destruct m as [|b m]; [done|]. cbn. destruct (N.eqb_spec x b) as [->|]; [|done].
    exfalso. apply Hm. by left.
  - destruct m as [|b m]; cbn.
    + destruct (N.eqb_spec a x) as [->|]; [|done]. exfalso. apply Hn. by left.
    + destruct (N.eqb_spec a b) as [->|]; [|done]. cbn. intros H. f_equal.
      apply IH; [| |done]; intros Hin; [apply Hn|apply Hm]; by right.
Qed.

Lemma entities_shape :
  Forall (fun e : str * str =>
            e.1 = ch "&" :: removelast (tail e.1) ++ [ch ";"]
            ∧ ch ";" ∉ removelast (tail e.1)) entities.
Proof. by_decision. Qed.

(** An entity that is not in the table is not decoded. *)
Lemma decode_other (name v : str) :
  noChar (ch "&") name -> noChar (ch ";") name -> noChar (ch "&") v ->
  (∀ e, e ∈ entities -> e.1 ≠ ch "&" :: name ++ [ch ";"]) ->
  decodeEntities ((ch "&" :: name ++ [ch ";"]) ++ v) = (ch "&" :: name ++ [ch ";"]) ++ v.
Proof.
  intros Hn Hs Hv Hother. apply decode_unrecognized.
  apply Forall_forall. intros e He.
  pose proof (proj1 (Forall_forall _ _) entities_shape e He) as [Eq Hsemi].
  set (n := removelast (tail e.1)) in *. clearbody n.
  destruct (includes e.1 ((ch "&" :: name ++ [ch ";"]) ++ v)) eqn:E; [|done].
  exfalso. cbn [app] in E. rewrite includes_cons in E.
  apply orb_true_iff in E as [E|E].
  - apply (Hother e He). rewrite Eq in E. etrans; [exact Eq|]. cbn [startsWith] in E.
    apply andb_true_iff in E as [_ E]. rewrite <- app_assoc in E. cbn [app] in E.
    f_equal. f_equal. eapply startsWith_same_end; [done| |exact E].
    intros Hin. by apply (proj1 (Forall_forall _ _) Hs) in Hin.
  - rewrite (includes_noChar (ch "&")) in E; [done| |].
    + rewrite Eq. by left.
    + rewrite <- app_assoc. apply Forall_app. split; [done|]. by constructor.
Qed.

Lemma entities_words :
  Forall (fun e : str * str =>
            Forall (fun c => isSpace c = false ∧ c ≠ ch "<") e.1
            ∧ e.1 ≠ [] ∧ e.2 ≠ []) entities.
Proof. by_decision. Qed.

Section Output.
Context (host : Host).


End Output.






Lemma dropWhile_head (p : char -> bool) (s : str) :
  match dropWhile p s with c :: _ => p c = false | [] => True end.
Proof. induction s as [|c s IH]; [done|]. cbn. destruct (p c) eqn:E; [done|by rewrite E]. Qed.

Lemma spaced_ends (l : str) : spaced l -> endsNonSpace l.
Proof.
  induction l as [|c l IH]; [by left|]. intros [Hc Hl]. right.
  destruct (IH Hl) as [->|(t' & y & -> & Hy)].
  - exists [], c. split; [done|]. destruct (isSpace c) eqn:E; [|done].
    by destruct (Hc eq_refl) as [_ []].
  - by exists (c :: t'), y.
Qed.

Lemma trimEnd_ends (t : str) : endsNonSpace t -> trimEnd t = t.
Proof.
  intros [->|(t' & y & -> & Hy)]; [done|]. unfold trimEnd.
  rewrite reverse_app. cbn [reverse app]. change (reverse [y]) with [y]. cbn [app dropWhile].
  rewrite Hy. by rewrite reverse_cons, reverse_involutive.
Qed.

Lemma clean_trim (l : str) : clean l -> trim l = l.
Proof.
  intros [Hs Hh]. unfold trim.
  assert (trimStart l = l) as ->.
  { destruct l as [|c l]; [done|]. unfold trimStart. cbn. by rewrite Hh. }
  by apply trimEnd_ends, spaced_ends.
Qed.

Lemma plus_miss (p : char -> bool) (c : char) (s : str) :
  p c = false -> matchHere [plus p] (c :: s) = None.
Proof. intros H. by rewrite plus_unfold, H. Qed.

Lemma star_stop (p : char -> bool) (s : str) :
  match s with c :: _ => p c = false | [] => True end ->
  rep true 0 p (matchHere []) s = Some ([[]], s).
Proof. destruct s as [|c s]; [done|]. intros H. cbn [rep]. by rewrite H. Qed.

Lemma spaced_collapse (l : str) : spaced l -> collapse l = l.
Proof.
  unfold collapse, replaceWith.
  induction l as [|c l IH]; [done|]. intros [Hc Hl].
  destruct (isSpace c) eqn:E.
  - destruct (Hc eq_refl) as [-> Hd]. destruct l as [|d l]; [done|].
    erewrite replace_hit; [|rewrite plus_unfold, E, star_stop by done; reflexivity|done].
    cbn [fst snd app]. f_equal. by apply IH.
  - rewrite replace_miss by by apply plus_miss. f_equal. by apply IH.
Qed.

Lemma clean_normalizeSource (l : str) : clean l -> normalizeSource l = l.
Proof.
  intros [Hs Hh]. unfold normalizeSource.
  assert (replaceWith [plus (fun c => (c =? CR) || (c =? LF))] (lit " ") l = l) as ->.
  { unfold replaceWith. apply replace_id_rep. clear Hh.
    induction l as [|c l IH]; [done|]. destruct Hs as [Hc Hl].
    constructor; [|by apply IH].
    destruct (N.eqb_spec c CR) as [->|]; [by destruct (Hc eq_refl)|].
    destruct (N.eqb_spec c LF) as [->|]; [by destruct (Hc eq_refl)|done]. }
  by apply spaced_collapse.
Qed.

Lemma spaced_noLF (l : str) : spaced l -> noChar LF l.
Proof.
  induction l as [|c l IH]; [constructor|]. intros [Hc Hl].
  constructor; [|by apply IH]. intros ->. by destruct (Hc eq_refl).
Qed.

Lemma decodeEntities_noAmp (s : str) : noChar (ch "&") s -> decodeEntities s = s.
Proof.
  intros H. unfold decodeEntities. generalize entities_amp.
  induction entities as [|[w t] table IH]; intros Ha; [done|].
  apply Forall_cons in Ha as [[w' Hw] Ha]. cbn [fst] in Hw. subst w.
  rewrite decodeWith_cons. cbn [fst snd]. unfold replaceWith.
  rewrite replace_literal_id by done. by apply IH.
Qed.

Section Fixed.
Context (host : Host).

(** A clean line without [<] and [&] is a fixed point of the transducer. *)
Lemma extractText_clean (l : str) (t : option str) :
  clean l -> noChar (ch "<") l -> noChar (ch "&") l ->
  extractTextFromHtml host l t = l.
Proof.
  intros Hc Hl Ha. rewrite extractText_plain by done.
  rewrite clean_normalizeSource, decodeEntities_noAmp, stripTags_plain by done.
  rewrite cleanLines_single by (apply spaced_noLF, Hc).
  unfold cleanLine. rewrite (clean_trim l Hc).
  change (replaceWith [plus isSpace] (lit " ") l) with (collapse l).
  rewrite spaced_collapse by apply Hc. by apply clean_trim.
Qed.

End Fixed.

(** *** The lines of a text *)

Lemma split_nonempty (x : char) (s : str) : split x s ≠ [].
Proof.
  destruct s as [|c s]; [done|]. cbn [split].
  destruct (c =? x); [done|]. by destruct (split x s).
Qed.

Lemma split_line (x : char) (l s : str) :
  noChar x l -> split x (l ++ x :: s) = l :: split x s.
Proof.
  induction 1 as [|c l Hc Hl IH]; cbn [app split].
  - by rewrite N.eqb_refl.
  - apply N.eqb_neq in Hc. by rewrite Hc, IH.
Qed.

Lemma split_app (x : char) (a s : str) :
  split x (a ++ x :: s) = split x a ++ split x s.
Proof.
  induction a as [|c a IH]; cbn [app split].
  - by rewrite N.eqb_refl.
  - destruct (c =? x); [by rewrite IH|]. rewrite IH.
    pose proof (split_nonempty x a). by destruct (split x a).
Qed.

(** A text is its first line, then nothing or a line feed and the rest. *)
Lemma first_line (s : str) :
  ∃ l rest, s = l ++ rest ∧ noChar LF l ∧ (rest = [] ∨ ∃ s', rest = LF :: s').
Proof.
  induction s as [|c s (l & rest & -> & Hl & Hr)].
  - exists [], []. repeat split; [constructor|by left].
  - destruct (N.eqb_spec c LF) as [->|Hc].
    + exists [], (LF :: l ++ rest). repeat split; [constructor|right; by eexists].
    + exists (c :: l), rest. repeat split; [by constructor|done].
Qed.

Lemma split_lines_noChar (x : char) (s : str) : Forall (noChar x) (split x s).
Proof.
  induction s as [|c s IH]; [by repeat constructor|]. cbn [split].
  destruct (N.eqb_spec c x) as [->|Hc]; [by repeat constructor|].
  destruct (split x s) as [|l ls]; [by repeat constructor|].
  apply Forall_cons in IH as [Hl Hls]. constructor; [by constructor|done].
Qed.

Lemma split_join (x : char) (ls : list str) :
  ls ≠ [] -> Forall (noChar x) ls -> split x (join [x] ls) = ls.
Proof.
  intros Hne H. induction H as [|l ls Hl Hls IH]; [done|].
  destruct ls as [|l' ls]; [by apply split_noChar|].
  change (join [x] (l :: l' :: ls)) with (l ++ x :: join [x] (l' :: ls)).
  rewrite split_line by done. f_equal. by apply IH.
Qed.

(** *** What [cleanLine] leaves *)

Lemma dropWhile_app_last (p : char -> bool) (a : str) (y : char) :
  p y = false -> dropWhile p (a ++ [y]) = dropWhile p a ++ [y].
Proof. intros H. by apply dropWhile_app_word. Qed.

Lemma trim_shape (l : str) :
  endsNonSpace (trim l)
  ∧ match trim l with c :: _ => isSpace c = false | [] => True end.
Proof.
  unfold trim, trimStart.
  pose proof (dropWhile_head isSpace l) as Hh.
  destruct (dropWhile isSpace l) as [|x w]; [split; [by left|done]|].
  unfold trimEnd. rewrite reverse_cons, dropWhile_app_last by done.
  rewrite reverse_app. change (reverse [x]) with [x]. cbn [app]. split; [|done].
  right. pose proof (dropWhile_head isSpace (reverse w)) as Hd.
  destruct (dropWhile isSpace (reverse w)) as [|y D].
  - by exists [], x.
  - exists (x :: reverse D), y. by rewrite reverse_cons.
Qed.

Lemma star_rest (p : char -> bool) (s : str) :
  ∃ h, rep true 0 p (matchHere []) s = Some h ∧ h.2 = dropWhile p s.
Proof.
  induction s as [|c s (h & Hh & Hr)]; [by eexists|]. cbn [rep dropWhile].
  destruct (p c); [|by eexists]. rewrite Hh. eexists. split; [done|].
  by rewrite rest_push.
Qed.

Lemma plus_rest (p : char -> bool) (c : char) (s : str) :
  p c = true ->
  ∃ h, matchHere [plus p] (c :: s) = Some h ∧ h.2 = dropWhile p s ∧ matched h ≠ [].
Proof.
  intros Hc. rewrite plus_unfold, Hc. destruct (star_rest p s) as (h & -> & Hr).
  eexists. split; [done|]. rewrite rest_push, matched_push. done.
Qed.

Lemma endsNonSpace_tail (c : char) (t : str) : endsNonSpace (c :: t) -> endsNonSpace t.
Proof.
  intros [|(t' & y & E & Hy)]; [done|]. destruct t' as [|c' t'].
  - injection E as -> ->. by left.
  - injection E as -> ->. right. by eexists _, _.
Qed.

Lemma endsNonSpace_dropWhile (t : str) :
  endsNonSpace t -> endsNonSpace (dropWhile isSpace t).
Proof.
  intros [->|(t' & y & -> & Hy)]; [by left|]. right.
  rewrite dropWhile_app_last by done. by eexists _, _.
Qed.

Lemma collapse_cons_other (c : char) (t : str) :
  isSpace c = false -> collapse (c :: t) = c :: collapse t.
Proof. intros H. unfold collapse, replaceWith. by rewrite replace_miss by by apply plus_miss. Qed.

Lemma collapse_cons_space (c : char) (t : str) :
  isSpace c = true -> collapse (c :: t) = 32 :: collapse (dropWhile isSpace t).
Proof.
  intros H. unfold collapse, replaceWith.
  destruct (plus_rest isSpace c t H) as (h & Hm & Hr & Hne).
  erewrite replace_hit by done. by rewrite Hr.
Qed.

Lemma collapse_spaced_len (n : nat) (t : str) :
  (length t ≤ n)%nat -> endsNonSpace t -> spaced (collapse t).
Proof.
  revert t. induction n as [|n IH]; intros t Hn He.
  { destruct t; [done|cbn in Hn; lia]. }
  destruct t as [|c t]; [done|]. cbn [length] in Hn.
  destruct (isSpace c) eqn:E.
  - rewrite collapse_cons_space by done.
    pose proof (endsNonSpace_dropWhile _ (endsNonSpace_tail _ _ He)) as Hv.
    pose proof (dropWhile_head isSpace t) as Hd.
    assert (Hlen : (length (dropWhile isSpace t) ≤ length t)%nat).
    { clear. induction t as [|c t IH]; [done|]. cbn. destruct (isSpace c); cbn; lia. }
    destruct (dropWhile isSpace t) as [|d v] eqn:Ev.
    + exfalso. destruct He as [|(t' & y & Et & Hy)]; [done|].
      destruct t' as [|c' t'']; injection Et as -> ->; [congruence|].
      rewrite dropWhile_app_last in Ev by done. by destruct (dropWhile isSpace t'').
    + assert (Hs : spaced (collapse (d :: v))) by (apply IH; [lia|done]).
      rewrite collapse_cons_other in Hs |- * by done.
      split; [|done]. intros _. by split.
  - rewrite collapse_cons_other by done. split; [by rewrite E|].
    apply IH; [lia|]. by eapply endsNonSpace_tail.
Qed.

Lemma cleanLine_clean (l : str) : clean (cleanLine l).
Proof.
  unfold cleanLine. change (replaceWith [plus isSpace] (lit " ") (trim l)) with (collapse (trim l)).
  destruct (trim_shape l) as [He Hh]. split.
  - by apply (collapse_spaced_len (length (trim l))).
  - destruct (trim l) as [|c t]; [done|]. by rewrite collapse_cons_other.
Qed.

(** *** Replacements between line feeds *)

Lemma replace_pass_miss (r : regex) (f : list str -> str) (P : char -> Prop) (u s : str) :
  (∀ c t, P c -> matchHere r (c :: t) = None) -> Forall P u ->
  replace r f (u ++ s) = u ++ replace r f s.
Proof.
  intros Hr. induction 1 as [|c u Hc Hu IH]; [done|].
  cbn [app]. rewrite replace_miss by by apply Hr. by rewrite IH.
Qed.

Lemma split_LFs (t X : str) :
  Forall (fun c => c = LF) t -> ∃ k, split LF (t ++ X) = replicate k [] ++ split LF X.
Proof.
  induction 1 as [|c t -> Ht [k IH]]; [by exists 0%nat|].
  exists (S k). cbn [app]. change (split LF (LF :: t ++ X)) with ([] :: split LF (t ++ X)).
  by rewrite IH.
Qed.

(** When every match of [r] begins and ends with a line feed and is replaced
    by line feeds, the lines after the replacement are lines of the text, or
    empty. *)
Lemma replace_lines_len (P : str -> Prop) (r : regex) (t : str) (n : nat) (Y : str) :
  (∀ c s, c ≠ LF -> matchHere r (c :: s) = None) ->
  matchHere r [] = None ->
  (∀ s h, matchHere r s = Some h -> ∃ m, matched h = m ++ [LF]) ->
  Forall (fun c => c = LF) t -> t ≠ [] ->
  P [] -> (length Y ≤ n)%nat ->
  Forall P (split LF Y) -> Forall P (split LF (replace r (fun _ => t) Y)).
Proof.
  intros H1 H2 H3 Ht Hne P0. revert Y. induction n as [|n IH]; intros Y Hn HY.
  { destruct Y; [|cbn in Hn; lia]. by rewrite replace_nil, H2. }
  destruct (first_line Y) as (l & rest & -> & Hl & Hrest).
  rewrite (replace_pass_miss r _ (fun c => c ≠ LF)) by done.
  destruct Hrest as [->|[Y' ->]].
  { by rewrite replace_nil, H2. }
  rewrite split_line in HY by done. apply Forall_cons in HY as [Pl HY].
  rewrite length_app in Hn. cbn [length] in Hn.
  destruct (matchHere r (LF :: Y')) as [h|] eqn:E.
  - destruct (H3 _ _ E) as [m Hm].
    pose proof (matchHere_sound _ _ _ E) as Hs. rewrite Hm in Hs.
    rewrite <- app_assoc in Hs. cbn [app] in Hs.
    erewrite replace_hit; [|exact E|rewrite Hm; by destruct m].
    destruct t as [|c t']; [done|]. apply Forall_cons in Ht as [-> Ht].
    cbn [app]. rewrite split_line by done. constructor; [done|].
    destruct (split_LFs t' (replace r (fun _ => LF :: t') h.2) Ht) as [k ->].
    apply Forall_app. split; [by apply Forall_replicate|].
    apply IH.
    + apply (f_equal length) in Hs. rewrite length_app in Hs. cbn [length] in Hs. lia.
    + assert (Hsp : split LF (LF :: Y') = [] :: split LF Y') by reflexivity.
      rewrite Hs, split_app in Hsp.
      assert (HF : Forall P (split LF m ++ split LF h.2))
        by (rewrite Hsp; by constructor).
      by apply Forall_app in HF as [_ ?].
  - rewrite replace_miss by done. rewrite split_line by done.
    constructor; [done|]. apply IH; [lia|done].
Qed.

Lemma matched_ends (Q : str -> Prop) (r0 r1 : regex) :
  (∀ c m, Q m -> Q (c :: m)) ->
  (∀ s h, matchHere r1 s = Some h -> Q (matched h)) ->
  ∀ s h, matchHere (r0 ++ r1) s = Some h -> Q (matched h).
Proof.
  intros Hc H1. induction r0 as [|i r0 IH]; [exact H1|].
  assert (Hrep : ∀ g p n s h, rep g n p (matchHere (r0 ++ r1)) s = Some h -> Q (matched h)).
  { intros g p n s. revert n. induction s as [|c s IHs]; intros n h.
    - destruct n; cbn [rep]; [apply IH|done].
    - destruct n as [|n]; cbn [rep].
      + destruct g.
        * destruct (p c); [|apply IH].
          destruct (rep true 0 p _ s) as [h'|] eqn:E; [|apply IH].
          intros [= <-]. rewrite matched_push. apply Hc. by apply (IHs 0%nat).
        * destruct (matchHere (r0 ++ r1) (c :: s)) as [h'|] eqn:E;
            [intros [= <-]; by apply (IH _ _ E)|].
          destruct (p c); [|done].
          destruct (rep false 0 p _ s) as [h'|] eqn:E'; [|done].
          intros [= <-]. rewrite matched_push. apply Hc. by apply (IHs 0%nat).
      + destruct (p c); [|done].
        destruct (rep g n p _ s) as [h'|] eqn:E'; [|done].
        intros [= <-]. rewrite matched_push. apply Hc. by apply (IHs n). }
  intros s h. destruct i as [p|g n p|p|]; cbn [app matchHere].
  - destruct s as [|c s]; [done|]. destruct (p c); [|done].
    destruct (matchHere (r0 ++ r1) s) as [h'|] eqn:E; [|done].
    intros [= <-]. rewrite matched_push. apply Hc. by apply (IH _ _ E).
  - apply Hrep.
  - destruct s as [|c s]; [apply IH|]. destruct (p c); [|apply IH].
    destruct (matchHere (r0 ++ r1) s) as [h'|] eqn:E; [|apply IH].
    intros [= <-]. rewrite matched_push. apply Hc. by apply (IH _ _ E).
  - destruct (matchHere (r0 ++ r1) s) as [h'|] eqn:E; [|done].
    intros [= <-]. rewrite matched_mark. by apply (IH _ _ E).
Qed.

Lemma ends_with_One (p : char -> bool) (s : str) (h : hit) :
  matchHere [One p] s = Some h -> ∃ m c, matched h = m ++ [c] ∧ p c = true.
Proof.
  destruct s as [|c s]; [done|]. cbn [matchHere]. destruct (p c) eqn:E; [|done].
  intros [= <-]. by exists [], c.
Qed.

Lemma ends_with_LF (r0 : regex) (s : str) (h : hit) :
  matchHere (r0 ++ [One (isCh LF)]) s = Some h -> ∃ m, matched h = m ++ [LF].
Proof.
  apply (matched_ends (fun m => ∃ m', m = m' ++ [LF])).
  - intros c m [m' ->]. by exists (c :: m').
  - intros s' h' H. destruct (ends_with_One _ _ _ H) as (m & c & -> & Hc).
    apply N.eqb_eq in Hc. subst c. by exists m.
Qed.

Lemma rep_only (g : bool) (n : nat) (p : char -> bool) (s : str) (h : hit) :
  rep g n p (matchHere []) s = Some h ->
  Forall (fun c => p c = true) (matched h) ∧ (n ≤ length (matched h))%nat.
Proof.
  revert n h. induction s as [|c s IH]; intros n h.
  - destruct n; cbn [rep matchHere]; [|done]. intros [= <-]. split; [constructor|done].
  - destruct n as [|n]; cbn [rep].
    + destruct g.
      * destruct (p c) eqn:Ec; [|intros [= <-]; split; [constructor|done]].
        destruct (rep true 0 p _ s) as [h'|] eqn:E;
          [|intros [= <-]; split; [constructor|done]].
        intros [= <-]. rewrite matched_push. destruct (IH _ _ E).
        split; [by constructor|cbn; lia].
      * cbn [matchHere]. intros [= <-]. split; [constructor|done].
    + destruct (p c) eqn:Ec; [|done].
      destruct (rep g n p _ s) as [h'|] eqn:E; [|done].
      intros [= <-]. rewrite matched_push. destruct (IH _ _ E).
      split; [by constructor|cbn; lia].
Qed.

Lemma cleanLines_lines (P : str -> Prop) (s : str) :
  P [] -> (∀ l, P (cleanLine l)) -> Forall P (split LF (cleanLines s)).
Proof.
  intros P0 Pc. unfold cleanLines, replaceWith.
  assert (HJ : Forall P (split LF (join [LF] (cleanLine <$> split LF s)))).
  { rewrite split_join.
    - apply Forall_fmap, Forall_forall. intros l _. apply Pc.
    - pose proof (split_nonempty LF s). by destruct (split LF s).
    - apply Forall_fmap. eapply Forall_impl; [apply split_lines_noChar|].
      intros l Hl. by apply cleanLine_noChar. }
  eapply replace_lines_len; try done; try by repeat constructor.
  - intros c t Hc. cbn [matchHere]. by rewrite isCh_ne.
  - intros t h. apply (ends_with_LF [One (isCh LF); star isSpace; One (isCh LF); star isSpace]).
  - eapply replace_lines_len; try done; try by repeat constructor.
    + intros c t Hc. cbn [matchHere]. by rewrite isCh_ne.
    + intros t h. apply (ends_with_LF [One (isCh LF); One (isCh bullet); star isSpace]).
    + eapply replace_lines_len; try done; try by repeat constructor.
      * intros c t Hc. cbn [matchHere rep]. by rewrite isCh_ne.
      * intros t h H. apply rep_only in H as [Hall Hlen].
        destruct (matched h) as [|c m] eqn:Em using rev_ind; [cbn in Hlen; lia|].
        apply Forall_app in Hall as [_ Hc]. apply Forall_cons in Hc as [Hc _].
        apply N.eqb_eq in Hc. subst c. by exists m.
Qed.

(** *** The trimmed output *)

Lemma dropWhile_app (p : char -> bool) (u v : str) :
  dropWhile p (u ++ v) = if forallb p u then dropWhile p v else dropWhile p u ++ v.
Proof.
  induction u as [|c u IH]; [done|]. cbn [app dropWhile forallb].
  destruct (p c); [exact IH|done].
Qed.

Lemma forallb_reverse (p : char -> bool) (u : str) : forallb p (reverse u) = forallb p u.
Proof.
  induction u as [|c u IH]; [done|]. rewrite reverse_cons, forallb_app, IH. cbn.
  destruct (p c), (forallb p u); done.
Qed.

Lemma trimEnd_app (a b : str) :
  trimEnd (a ++ b) = if forallb isSpace b then trimEnd a else a ++ trimEnd b.
Proof.
  unfold trimEnd. rewrite reverse_app, dropWhile_app, forallb_reverse.
  destruct (forallb isSpace b); [done|]. by rewrite reverse_app, reverse_involutive.
Qed.

Lemma trimEnd_head (c : char) (s : str) :
  forallb isSpace (c :: s) = false -> ∃ s', trimEnd (c :: s) = c :: s'.
Proof.
  intros H. change (c :: s) with ([c] ++ s). rewrite trimEnd_app.
  cbn [forallb] in H. destruct (forallb isSpace s) eqn:Es.
  - rewrite andb_true_r in H. unfold trimEnd. cbn. rewrite H. by exists [].
  - cbn [app]. by eexists.
Qed.

Lemma trim_lines_len (n : nat) (Y : str) :
  (length Y ≤ n)%nat -> Forall clean (split LF Y) -> noChar LF (trim Y) -> clean (trim Y).
Proof.
  revert Y. induction n as [|n IH]; intros Y Hn HY Ht.
  { destruct Y; [|cbn in Hn; lia]. by split. }
  destruct (first_line Y) as (l & rest & -> & Hl & Hrest).
  rewrite length_app in Hn.
  destruct l as [|x l].
  - destruct Hrest as [->|[Y' ->]]; [by split|].
    cbn [app length] in *. change (trim (LF :: Y')) with (trim Y') in *.
    apply IH; [lia| |done]. change (split LF (LF :: Y')) with ([] :: split LF Y') in HY.
    by apply Forall_cons in HY as [_ ?].
  - destruct Hrest as [->|[Y' ->]].
    + rewrite app_nil_r in *. rewrite split_noChar in HY by done.
      apply Forall_cons in HY as [Hc _]. by rewrite clean_trim.
    + rewrite split_line in HY by done. apply Forall_cons in HY as [Hc HY].
      assert (Hx : isSpace x = false) by apply Hc.
      assert (Hts : trimStart ((x :: l) ++ LF :: Y') = (x :: l) ++ LF :: Y').
      { unfold trimStart. cbn. by rewrite Hx. }
      unfold trim in Ht |- *. rewrite Hts in Ht |- *. rewrite trimEnd_app in Ht |- *.
      destruct (forallb isSpace (LF :: Y')) eqn:Ea.
      * rewrite trimEnd_ends by apply spaced_ends, Hc. done.
      * exfalso. destruct (trimEnd_head LF Y' Ea) as [s' Es]. rewrite Es in Ht.
        apply Forall_app in Ht as [_ Ht]. by apply Forall_cons in Ht as [? _].
Qed.

Section Rerun.
Context (host : Host).

(** An output of the transducer that has a single line is a clean line. *)
Lemma extractText_single_line (html : str) (t : option str) :
  noChar LF (extractTextFromHtml host html t) -> clean (extractTextFromHtml host html t).
Proof.
  unfold extractTextFromHtml. intros H.
  eapply trim_lines_len; [done| |done].
  apply cleanLines_lines; [by split|apply cleanLine_clean].
Qed.

End Rerun.

(** C1 as stated fails: two paragraphs come out on lines separated by a blank
    line, and the second run, which takes line feeds as white space of the
    markup, puts them on one line. *)
Lemma rerun_changes_lines :
  content (transduce Sample.host
             (content (transduce Sample.host (lit "<p>a</p><p>b</p>"))))
  ≠ content (transduce Sample.host (lit "<p>a</p><p>b</p>")).
Proof. vm_compute. discriminate. Qed.


(** *** The cover *)

Lemma mimeType_cases (href : str) :
  mimeType href = lit "image/jpeg" ∨ mimeType href = lit "image/png".
Proof. unfold mimeType. destruct (_ || _); [by left|by right]. Qed.

Section Cover.
Context (host : Host) (opfContent : str) (zip : gmap (list N) ZipObject) (opfDir : str).

Lemma extractCover_no_id :
  findCoverId opfContent = None ->
  extractCover host opfContent zip opfDir
  = match exec itemCover1 opfContent with
    | Some m => readCover zip opfDir (group1 m)
    | None =>
        match exec itemCover2 opfContent with
        | Some m => readCover zip opfDir (group1 m)
        | None => Returns None
        end
    end.
Proof.
  intros H. unfold extractCover. rewrite H. cbn [isTruthy negb].
  destruct (exec itemCover1 opfContent) as [m|];
    [|destruct (exec itemCover2 opfContent) as [m|]; [|done]];
    by destruct (readCover zip opfDir (group1 m)).
Qed.

Lemma extractCover_literal_id (c : char) (cs l : str) :
  findCoverId opfContent = Some (c :: cs) -> patternLiteral (c :: cs) = Some l ->
  extractCover host opfContent zip opfDir
  = match orElse (group1 <$> exec (itemById1 host l) opfContent)
                 (group1 <$> exec (itemById2 host l) opfContent) with
    | Some (d :: href) => readCover zip opfDir (d :: href)
    | _ => Returns None
    end.
Proof.
  intros H Hl. unfold extractCover. rewrite H. cbn [isTruthy negb default from_option id].
  unfold coverHrefById. exn_step. cbv zeta. unfold matchById. rewrite Hl. cbn [isTruthy negb].
  destruct (exec (itemById1 host l) opfContent) as [m1|];
    destruct (exec (itemById2 host l) opfContent) as [m2|];
    cbv beta iota delta [mjoin option_join fmap option_fmap option_map orElse
                         default from_option id];
    repeat match goal with
           | |- context [match ?x with [] => _ | _ :: _ => _ end] => destruct x
           end; reflexivity.
Qed.

End Cover.

(** C2 as stated fails: the cover meta names an id that no manifest item has,
    a manifest item is marked cover-image and its entry can be read, and yet
    the cover is absent; with a cover id the cover-image item is not tried. *)
Lemma cover_image_not_tried_after_id :
  ¬ (∀ (host : Host) (opfContent : str) (zip : gmap (list N) ZipObject)
       (opfDir id : str) (m : hit) (uri : str),
       findCoverId opfContent = Some id ->
       (∀ l, patternLiteral id = Some l ->
             exec (itemById1 host l) opfContent = None
             ∧ exec (itemById2 host l) opfContent = None) ->
       exec itemCover1 opfContent = Some m ->
       readCover zip opfDir (group1 m) = Returns (Some uri) ->
       ∃ uri', extractCover host opfContent zip opfDir = Returns (Some uri')).
Proof.
  intros H.
  assert (E : ∃ m, exec itemCover1 Sample.opfDanglingCover = Some m
                   ∧ group1 m = lit "cover.jpg")
    by (vm_compute; eexists; split; reflexivity).
  destruct E as (m & Em & Eg).
  destruct (H Sample.host Sample.opfDanglingCover Sample.bookDanglingCover
              (lit "OEBPS/") (lit "missing") m
              (lit "data:image/jpeg;base64," ++ lit "/9j/4AAQ")) as [uri' Hu].
  - vm_compute. reflexivity.
  - intros l Hl. vm_compute in Hl. injection Hl as <-. split; vm_compute; reflexivity.
  - exact Em.
  - rewrite Eg. vm_compute. reflexivity.
  - vm_compute in Hu. discriminate.
Qed.


(** *** Matches that succeed *)

Lemma pushes_cons (u seg : str) (segs : list str) (rest : str) :
  pushes u (seg :: segs, rest) = ((u ++ seg) :: segs, rest).
Proof.
  induction u as [|c u IH]; [done|].
  change (pushes (c :: u) (seg :: segs, rest)) with (push c (pushes u (seg :: segs, rest))).
  by rewrite IH.
Qed.

Lemma pushes_app (u v : str) (h : hit) : pushes (u ++ v) h = pushes u (pushes v h).
Proof. unfold pushes. by rewrite foldr_app. Qed.

Lemma isCI_refl (a : char) : isCI a a = true.
Proof. unfold isCI. apply N.eqb_refl. Qed.

Lemma matchHere_One (p : char -> bool) (r : regex) (c : char) (s : str) :
  p c = true -> matchHere (One p :: r) (c :: s) = push c <$> matchHere r s.
Proof. intros H. cbn [matchHere]. by rewrite H. Qed.

(** A literal under the [i] flag matches its own text. *)
Lemma matchHere_letters (w : str) (r : regex) (s : str) :
  matchHere (lettersCI w ++ r) (w ++ s) = pushes w <$> matchHere r s.
Proof.
  induction w as [|a w IH].
  { change (matchHere r s = pushes [] <$> matchHere r s). by destruct (matchHere r s). }
  change (lettersCI (a :: w) ++ r) with (One (isCI a) :: lettersCI w ++ r).
  cbn [app]. rewrite matchHere_One by apply isCI_refl. rewrite IH.
  by destruct (matchHere r s).
Qed.

Lemma matchHere_literal_app (w : str) (r : regex) (s : str) :
  matchHere (literal w ++ r) (w ++ s) = pushes w <$> matchHere r s.
Proof.
  induction w as [|a w IH].
  { change (matchHere r s = pushes [] <$> matchHere r s). by destruct (matchHere r s). }
  change (literal (a :: w) ++ r) with (One (isCh a) :: literal w ++ r).
  cbn [app]. rewrite matchHere_One by apply N.eqb_refl. rewrite IH.
  by destruct (matchHere r s).
Qed.

(** And it matches nothing that does not start with its text. *)
Lemma matchHere_letters_none (w : str) (r : regex) (s : str) :
  startsWithCI w s = false -> matchHere (lettersCI w ++ r) s = None.
Proof.
  revert s. induction w as [|a w IH]; intros s; [done|].
  change (lettersCI (a :: w) ++ r) with (One (isCI a) :: lettersCI w ++ r).
  destruct s as [|c s]; [done|]. cbn [startsWithCI matchHere].
  destruct (isCI a c); [|done]. cbn [andb]. intros H. by rewrite IH.
Qed.

(** The greedy star takes all of a run when what follows matches after it. *)
Lemma star_all (p : char -> bool) (k : str -> option hit) (a s : str) (h : hit) :
  Forall (fun c => p c = true) a ->
  match s with c :: _ => p c = false | [] => True end ->
  k s = Some h -> rep true 0 p k (a ++ s) = Some (pushes a h).
Proof.
  intros Ha Hs Hk. induction Ha as [|c a Hc Ha IH].
  - destruct s as [|c s]; cbn [app rep]; [done|]. by rewrite Hs.
  - cbn [app rep]. by rewrite Hc, IH.
Qed.

(** The lazy star stops at the first place where what follows matches. *)
Lemma lazy_first (p : char -> bool) (k : str -> option hit) (a s : str) (h : hit) :
  Forall (fun c => p c = true ∧ ∀ t, k (c :: t) = None) a ->
  k s = Some h -> rep false 0 p k (a ++ s) = Some (pushes a h).
Proof.
  intros Ha Hk. induction Ha as [|c a [Hc Hn] Ha IH].
  - destruct s as [|c s]; cbn [app rep]; by rewrite Hk.
  - cbn [app rep]. by rewrite Hn, Hc, IH.
Qed.

Lemma exec_here (r : regex) (s : str) (h : hit) :
  matchHere r s = Some h -> exec r s = Some h.
Proof. intros H. destruct s; cbn [exec]; by rewrite H. Qed.

Lemma exec_skip (r : regex) (pre s : str) :
  (∀ i, (i < length pre)%nat -> matchHere r (drop i (pre ++ s)) = None) ->
  exec r (pre ++ s) = exec r s.
Proof.
  induction pre as [|c pre IH]; intros H; [done|].
  cbn [app exec]. pose proof (H 0%nat ltac:(cbn; lia)) as H0. cbn [drop app] in H0.
  rewrite H0. apply IH. intros i Hi. apply (H (S i)). cbn. lia.
Qed.

(** *** Occurrences under the [i] flag *)

Lemma includesCI_cons (w : str) (c : char) (s : str) :
  includesCI w (c :: s) = startsWithCI w (c :: s) || includesCI w s.
Proof. reflexivity. Qed.

Lemma includesCI_drop (w : str) (i : nat) (s : str) :
  startsWithCI w (drop i s) = true -> includesCI w s = true.
Proof.
  revert s. induction i as [|i IH]; intros s.
  - rewrite drop_0. intros H. destruct s as [|c s]; cbn [includesCI]; rewrite H; reflexivity.
  - destruct s as [|c s]; [cbn [drop]; intros H; cbn [includesCI]; rewrite H; reflexivity|].
    cbn [drop]. intros H. rewrite includesCI_cons, (IH s H). apply orb_true_r.
Qed.

(** An occurrence that starts in [u] and runs into [x :: b] has, after its
    first character, a character that matches [x]. *)
Lemma startsWithCI_straddle (w u : str) (x : char) (b : str) :
  startsWithCI w (u ++ x :: b) = true ->
  startsWithCI w u = true ∨ Exists (fun c => isCI c x = true) (drop (length u) w).
Proof.
  revert w. induction u as [|a u IH]; intros w.
  - destruct w as [|c w]; [by left|]. cbn [app startsWithCI length drop].
    intros [Hc _]%andb_true_iff. right. by left.
  - destruct w as [|c w]; [by left|]. cbn [app startsWithCI length drop].
    intros [Hc H]%andb_true_iff. rewrite Hc. cbn [andb]. by apply IH.
Qed.

Lemma isCI_lt (c : char) : isCI c (ch "<") = true -> c = ch "<".
Proof.
  unfold isCI, asciiUpper. intros H%N.eqb_eq. change (ch "<") with 60 in *.
  cbn in H. destruct (N.leb_spec 97 c), (N.leb_spec c 122); cbn [andb] in H; lia.
Qed.

Lemma startsWithCI_before_lt (name pre rest : str) (i : nat) :
  noChar (ch "<") name -> includesCI (ch "<" :: name) pre = false ->
  (i < length pre)%nat ->
  startsWithCI (ch "<" :: name) (drop i (pre ++ ch "<" :: rest)) = false.
Proof.
  intros Hn Hpre Hi.
  destruct (startsWithCI _ (drop i (pre ++ ch "<" :: rest))) eqn:E; [|done]. exfalso.
  rewrite drop_app_le in E by lia.
  apply startsWithCI_straddle in E as [E|E].
  - apply includesCI_drop in E. congruence.
  - rewrite length_drop in E.
    destruct (length pre - i)%nat as [|n] eqn:En; [lia|]. cbn [drop] in E.
    apply Exists_exists in E as (c & Hc & Hlt). apply isCI_lt in Hlt. subst c.
    assert (Hin : ch "<" ∈ name) by (eapply subseteq_drop; exact Hc).
    by apply (proj1 (Forall_forall _ _) Hn) in Hin.
Qed.

(** *** An element and its text *)

Lemma matchHere_Mark (r : regex) (s : str) :
  matchHere (Mark :: r) s = mark <$> matchHere r s.
Proof. reflexivity. Qed.

Lemma matchHere_Rep (g : bool) (n : nat) (p : char -> bool) (r : regex) (s : str) :
  matchHere (Rep g n p :: r) s = rep g n p (matchHere r) s.
Proof. reflexivity. Qed.

Lemma closing_here (name : string) (post : str) :
  matchHere (ci "</" ++ ci name ++ cs ">") (lit "</" ++ lit name ++ lit ">" ++ post)
  = Some ([lit "</" ++ lit name ++ lit ">"], post).
Proof.
  unfold ci, cs. rewrite !matchHere_letters.
  rewrite <- (app_nil_r (literal (lit ">"))), matchHere_literal_app.
  cbn [matchHere fmap option_fmap option_map]. rewrite !pushes_cons.
  by rewrite app_nil_r.
Qed.

Lemma closing_not_here (name : string) (c : char) (t : str) :
  c ≠ ch "<" ->
  matchHere (Mark :: ci "</" ++ ci name ++ cs ">") (c :: t) = None.
Proof.
  intros Hc. rewrite matchHere_Mark.
  change (ci "</" ++ ci name ++ cs ">")
    with (One (isCI (ch "<")) :: lettersCI (lit "/") ++ ci name ++ cs ">").
  cbn [matchHere]. rewrite isCI_ne; [done|by left|done].
Qed.

Lemma elementText_here (name : string) (attrs txt post : str) :
  noChar (ch ">") attrs ->
  Forall (fun c => isLineTerminator c = false ∧ c ≠ ch "<") txt ->
  matchHere (elementText name)
    (lit "<" ++ lit name ++ attrs ++ lit ">" ++ txt
     ++ lit "</" ++ lit name ++ lit ">" ++ post)
  = Some ([lit "<" ++ lit name ++ attrs ++ lit ">"; txt;
           lit "</" ++ lit name ++ lit ">"], post).
Proof.
  intros Ha Ht. unfold elementText.
  unfold ci at 1 2. rewrite !matchHere_letters.
  change ([star notGt] ++ cs ">" ++ [Mark; lazyStar dot; Mark] ++ ci "</" ++ ci name ++ cs ">")
    with (Rep true 0 notGt
            :: literal (lit ">") ++ Mark :: Rep false 0 dot
            :: Mark :: ci "</" ++ ci name ++ cs ">").
  rewrite matchHere_Rep.
  erewrite star_all; [| |done|].
  2: { eapply Forall_impl; [exact Ha|]. intros c Hc. unfold notGt, isNot.
       apply negb_true_iff. by apply N.eqb_neq. }
  2: { rewrite matchHere_literal_app, matchHere_Mark, matchHere_Rep.
       erewrite lazy_first; [| |rewrite matchHere_Mark, closing_here; reflexivity].
       - reflexivity.
       - eapply Forall_impl; [exact Ht|]. intros c [Hd Hc]. split.
         + unfold dot. by rewrite Hd.
         + intros t. by apply closing_not_here. }
  cbn [fmap option_fmap option_map]. unfold mark. cbn [fst snd].
  repeat (rewrite pushes_cons; cbn [fst snd]).
  by rewrite ?app_nil_r.
Qed.

Lemma lettersCI_app (a b : str) : lettersCI (a ++ b) = lettersCI a ++ lettersCI b.
Proof. unfold lettersCI. apply fmap_app. Qed.

Lemma elementText_head (name : string) :
  ∃ r, elementText name = lettersCI (ch "<" :: lit name) ++ r.
Proof.
  eexists. unfold elementText, ci.
  change (ch "<" :: lit name) with (lit "<" ++ lit name).
  by rewrite lettersCI_app, <- app_assoc.
Qed.

Lemma includesCI_none (w s : str) (i : nat) :
  includesCI w s = false -> startsWithCI w (drop i s) = false.
Proof.
  intros H. destruct (startsWithCI w (drop i s)) eqn:E; [|done].
  apply includesCI_drop in E. congruence.
Qed.

(** Without the opening tag anywhere, the placeholder. *)
Lemma dcText_absent (name placeholder : string) (opfContent : str) :
  includesCI (ch "<" :: lit name) opfContent = false ->
  dcText name placeholder opfContent = lit placeholder.
Proof.
  intros H. unfold dcText. rewrite exec_none; [done|]. intros k.
  destruct (elementText_head name) as [r ->].
  apply matchHere_letters_none. by apply includesCI_none.
Qed.

(** The first element whose text is on one line and has no markup gives
    its text, trimmed. *)
Lemma dcText_present (name placeholder : string) (pre attrs txt post : str) :
  noChar (ch "<") (lit name) ->
  includesCI (ch "<" :: lit name) pre = false ->
  noChar (ch ">") attrs ->
  Forall (fun c => isLineTerminator c = false ∧ c ≠ ch "<") txt ->
  dcText name placeholder
    (pre ++ lit "<" ++ lit name ++ attrs ++ lit ">" ++ txt
     ++ lit "</" ++ lit name ++ lit ">" ++ post)
  = trim txt.
Proof.
  intros Hn Hpre Ha Ht. unfold dcText. rewrite exec_skip.
  - erewrite exec_here by by apply elementText_here. done.
  - intros i Hi. destruct (elementText_head name) as [r ->].
    apply matchHere_letters_none.
    change (lit "<" ++ lit name ++ attrs ++ lit ">" ++ txt
            ++ lit "</" ++ lit name ++ lit ">" ++ post)
      with (ch "<" :: lit name ++ attrs ++ lit ">" ++ txt
            ++ lit "</" ++ lit name ++ lit ">" ++ post).
    by apply startsWithCI_before_lt.
Qed.

Lemma extractMetadata_texts (host : Host) (opfContent : str)
    (zip : gmap (list N) ZipObject) (opfDir : str) (md : BookMetadata) :
  extractMetadata host opfContent zip opfDir = Returns md ->
  title md = dcText "dc:title" "Unknown Title" opfContent
  ∧ author md = dcText "dc:creator" "Unknown Author" opfContent.
Proof.
  unfold extractMetadata. destruct (extractCover host opfContent zip opfDir); exn_step;
    [|done]. by intros [= <-].
Qed.

(** C7, as amended.  The title and the author of the metadata are computed
    from the package document alone, without any failure: the placeholder
    when the document has no opening tag of the element, and the trimmed
    text of the first element when that text is on one line and without
    markup. *)
Theorem metadata_title_author (host : Host) (opfContent : str)
    (zip : gmap (list N) ZipObject) (opfDir : str) :
  (∀ md, extractMetadata host opfContent zip opfDir = Returns md ->
         title md = dcText "dc:title" "Unknown Title" opfContent
         ∧ author md = dcText "dc:creator" "Unknown Author" opfContent)
  ∧ (includesCI (lit "<dc:title") opfContent = false ->
     dcText "dc:title" "Unknown Title" opfContent = lit "Unknown Title")
  ∧ (includesCI (lit "<dc:creator") opfContent = false ->
     dcText "dc:creator" "Unknown Author" opfContent = lit "Unknown Author")
  ∧ (∀ pre attrs txt post,
       opfContent = pre ++ lit "<dc:title" ++ attrs ++ lit ">" ++ txt
                    ++ lit "</dc:title>" ++ post ->
       includesCI (lit "<dc:title") pre = false -> noChar (ch ">") attrs ->
       Forall (fun c => isLineTerminator c = false ∧ c ≠ ch "<") txt ->
       dcText "dc:title" "Unknown Title" opfContent = trim txt)
  ∧ (∀ pre attrs txt post,
       opfContent = pre ++ lit "<dc:creator" ++ attrs ++ lit ">" ++ txt
                    ++ lit "</dc:creator>" ++ post ->
       includesCI (lit "<dc:creator") pre = false -> noChar (ch ">") attrs ->
       Forall (fun c => isLineTerminator c = false ∧ c ≠ ch "<") txt ->
       dcText "dc:creator" "Unknown Author" opfContent = trim txt).
Proof.
  split; [apply extractMetadata_texts|].
  split; [apply (dcText_absent "dc:title")|].
  split; [apply (dcText_absent "dc:creator")|].
  split; intros pre attrs txt post -> Hpre Ha Ht.
  - apply (dcText_present "dc:title"); try done. by_decision.
  - apply (dcText_present "dc:creator"); try done. by_decision.
Qed.

Lemma metadata_title_author_witness :
  ∃ md, extractMetadata Sample.host Sample.opf Sample.book (lit "OEBPS/") = Returns md
        ∧ title md = lit "A Book" ∧ author md = lit "Somebody".
Proof.
  destruct (metadata_title_author Sample.host Sample.opf Sample.book (lit "OEBPS/"))
    as (H1 & _ & _ & H4 & H5).
  destruct (extractMetadata Sample.host Sample.opf Sample.book (lit "OEBPS/"))
    as [md|e] eqn:E; [|vm_compute in E; discriminate].
  exists md. destruct (H1 md eq_refl) as [-> ->]. split; [done|]. split.
  - rewrite (H4 (lit "<package><metadata>") [] (lit "A Book")
               (drop 46 Sample.opf)); [by vm_compute|by vm_compute| | |];
      by_decision.
  - rewrite (H5 (lit "<package><metadata><dc:title>A Book</dc:title>") []
               (lit "Somebody") (drop 79 Sample.opf));
      [by vm_compute|by vm_compute| | |]; by_decision.
Defined.

(** C7 as stated fails: a title element whose text goes over two lines is
    not found, and the title is the placeholder. *)
Lemma title_on_two_lines :
  ¬ (∀ txt : str, noChar (ch "<") txt ->
       dcText "dc:title" "Unknown Title" (lit "<dc:title>" ++ txt ++ lit "</dc:title>")
       = trim txt).
Proof.
  intros H. specialize (H (lit "War and" ++ [LF] ++ lit "Peace") ltac:(by_decision)).
  vm_compute in H. discriminate.
Qed.

(** *** Attribute order *)

(** *** The matcher finds a parse, and finds one whenever there is one *)

Lemma rep_Parse (g : bool) (p : char -> bool) (r : regex) :
  (∀ s h, matchHere r s = Some h -> Parse r s h) ->
  ∀ n s h, rep g n p (matchHere r) s = Some h -> Parse (Rep g n p :: r) s h.
Proof.
  intros Hk n s. revert n. induction s as [|c s IH]; intros n h.
  - destruct n; cbn [rep]; [|done]. intros H%Hk.
    exists [], [], h. by repeat split.
  - assert (Hstop : matchHere r (c :: s) = Some h -> Parse (Rep g 0 p :: r) (c :: s) h).
    { intros H%Hk. exists [], (c :: s), h. by repeat split. }
    assert (Hgo : ∀ n h', rep g n p (matchHere r) s = Some h' -> p c = true ->
                    ∀ m, (m ≤ S n)%nat -> Parse (Rep g m p :: r) (c :: s) (push c h')).
    { intros n0 h' H%IH Hc m Hm. destruct H as (a & s' & h0 & -> & Ha & Hn & HP & ->).
      exists (c :: a), s', h0. repeat split; [by constructor|cbn; lia|done]. }
    destruct n as [|n]; cbn [rep].
    + destruct g.
      * destruct (p c) eqn:Ec; [|done].
        destruct (rep true 0 p (matchHere r) s) as [h'|] eqn:E; [|done].
        intros [= <-]. eapply Hgo; [exact E|done|lia].
      * destruct (matchHere r (c :: s)) as [h'|] eqn:E; [intros [= <-]; by apply Hstop|].
        destruct (p c) eqn:Ec; [|done].
        destruct (rep false 0 p (matchHere r) s) as [h'|] eqn:E'; [|done].
        intros [= <-]. eapply Hgo; [exact E'|done|lia].
    + destruct (p c) eqn:Ec; [|done].
      destruct (rep g n p (matchHere r) s) as [h'|] eqn:E'; [|done].
      intros [= <-]. eapply Hgo; [exact E'|done|lia].
Qed.

Lemma matchHere_Parse (r : regex) (s : str) (h : hit) :
  matchHere r s = Some h -> Parse r s h.
Proof.
  revert s h. induction r as [|[p|g n p|p|] r IH]; intros s h.
  - cbn. by intros [= <-].
  - cbn [matchHere]. destruct s as [|c s]; [done|]. destruct (p c) eqn:Ec; [|done].
    destruct (matchHere r s) as [h'|] eqn:E; [|done]. intros [= <-].
    exists c, s, h'. repeat split; [done|by apply IH].
  - by apply rep_Parse.
  - cbn [matchHere]. destruct s as [|c s]; [intros H; left; by apply IH|].
    destruct (p c) eqn:Ec; [|intros H; left; by apply IH].
    destruct (matchHere r s) as [h'|] eqn:E; [|intros H; left; by apply IH].
    intros [= <-]. right. exists c, s, h'. repeat split; [done|by apply IH].
  - cbn [matchHere]. destruct (matchHere r s) as [h'|] eqn:E; [|done].
    intros [= <-]. exists h'. split; [by apply IH|done].
Qed.

Lemma rep_complete (g : bool) (p : char -> bool) (k : str -> option hit) (a s' : str) :
  Forall (fun c => p c = true) a -> is_Some (k s') ->
  ∀ n, (n ≤ length a)%nat -> is_Some (rep g n p k (a ++ s')).
Proof.
  intros Ha Hk. induction Ha as [|c a Hc Ha IH]; intros n Hn.
  - cbn [length] in Hn. assert (n = 0%nat) as -> by lia. cbn [app].
    destruct s' as [|d s']; cbn [rep]; [done|].
    destruct g; [|destruct Hk as [h ->]; by eexists].
    destruct (p d); [|done]. by destruct (rep true 0 p k s').
  - cbn [length] in Hn. cbn [app]. destruct n as [|n]; cbn [rep]; rewrite ?Hc.
    + destruct g.
      * destruct (IH 0%nat ltac:(lia)) as [h ->]. by eexists.
      * destruct (k (c :: a ++ s')); [by eexists|].
        destruct (IH 0%nat ltac:(lia)) as [h ->]. by eexists.
    + destruct (IH n ltac:(lia)) as [h ->]. by eexists.
Qed.

Lemma Parse_matchHere (r : regex) (s : str) (h : hit) :
  Parse r s h -> is_Some (matchHere r s).
Proof.
  revert s h. induction r as [|[p|g n p|p|] r IH]; intros s h; cbn [Parse matchHere].
  - by eexists.
  - intros (c & s' & h' & -> & Hc & HP & _). rewrite Hc.
    destruct (IH _ _ HP) as [h0 ->]. by eexists.
  - intros (a & s' & h' & -> & Ha & Hn & HP & _).
    apply rep_complete; [done|by eapply IH|done].
  - intros [HP|(c & s' & h' & -> & Hc & HP & _)].
    + destruct (IH _ _ HP) as [h0 E]. destruct s as [|c s]; [by eexists|].
      destruct (p c); [|by eexists]. destruct (matchHere r s); by eexists.
    + rewrite Hc. destruct (IH _ _ HP) as [h0 ->]. by eexists.
  - intros (h' & HP & _). destruct (IH _ _ HP) as [h0 ->]. by eexists.
Qed.

(** The leftmost match is a parse of some suffix, and there is one as soon
    as some suffix has a parse. *)
Lemma exec_Parse (r : regex) (s : str) (h : hit) :
  exec r s = Some h -> ∃ i, Parse r (drop i s) h.
Proof.
  induction s as [|c s IH]; cbn [exec].
  - destruct (matchHere r []) as [h'|] eqn:E; [|done]. intros [= <-].
    exists 0%nat. by apply matchHere_Parse.
  - destruct (matchHere r (c :: s)) as [h'|] eqn:E.
    + intros [= <-]. exists 0%nat. by apply matchHere_Parse.
    + intros [i Hi]%IH. by exists (S i).
Qed.

Lemma exec_is_Some (r : regex) (s : str) (i : nat) (h : hit) :
  Parse r (drop i s) h -> is_Some (exec r s).
Proof.
  revert i. induction s as [|c s IH]; intros i HP.
  - rewrite drop_nil in HP. apply Parse_matchHere in HP as [h' E].
    cbn [exec]. rewrite E. by eexists.
  - cbn [exec]. destruct (matchHere r (c :: s)) as [h'|] eqn:E; [by eexists|].
    destruct i as [|i].
    + apply Parse_matchHere in HP as [h' E']. rewrite drop_0 in E'. congruence.
    + by apply (IH i).
Qed.

Lemma exec_no_Parse (r : regex) (s : str) :
  (∀ i h, ¬ Parse r (drop i s) h) -> exec r s = None.
Proof.
  intros H. destruct (exec r s) as [h|] eqn:E; [|done].
  apply exec_Parse in E as [i Hi]. by destruct (H i h).
Qed.

(** *** Patterns of single classes *)

Lemma matchesP_length (ps : list (char -> bool)) (u : str) :
  matchesP ps u -> length u = length ps.
Proof. intros H. symmetry. by eapply Forall2_length. Qed.

Lemma startsWithP_matches (ps : list (char -> bool)) (u b : str) :
  matchesP ps u -> startsWithP ps (u ++ b) = true.
Proof. induction 1 as [|p c ps u Hc _ IH]; [done|]. cbn. by rewrite Hc, IH. Qed.

Lemma startsWithP_split (ps : list (char -> bool)) (s : str) :
  startsWithP ps s = true -> ∃ u b, s = u ++ b ∧ matchesP ps u.
Proof.
  revert s. induction ps as [|p ps IH]; intros s; [by exists [], s; split; [|constructor]|].
  destruct s as [|c s]; [done|]. cbn [startsWithP]. intros [Hc H]%andb_true_iff.
  destruct (IH s H) as (u & b & -> & Hu). exists (c :: u), b. split; [done|by constructor].
Qed.

Lemma drop_add (i : nat) (s a b : str) :
  drop i s = a ++ b -> drop (i + length a) s = b.
Proof. intros H. by rewrite <- drop_drop, H, drop_app_length. Qed.

Lemma drop_of_app (l a b : str) : l = a ++ b -> drop (length a) l = b.
Proof. intros ->. apply drop_app_length. Qed.

Lemma until_char (y : char) (g x r r' : str) :
  noChar y g -> noChar y x -> g ++ y :: r = x ++ y :: r' -> g = x.
Proof.
  revert x. induction g as [|c g IH]; intros x Hg Hx E.
  - destruct x as [|d x]; [done|]. cbn in E. injection E as <- _.
    by apply Forall_cons in Hx as [? _].
  - apply Forall_cons in Hg as [Hc Hg]. destruct x as [|d x].
    + cbn in E. injection E as -> _. done.
    + cbn in E. injection E as -> E. apply Forall_cons in Hx as [_ Hx].
      f_equal. by apply IH.
Qed.

Lemma Parse_ones (ps : list (char -> bool)) (r : regex) (s : str) (h : hit) :
  Parse (ones ps ++ r) s h ->
  ∃ u s' h', s = u ++ s' ∧ matchesP ps u ∧ Parse r s' h' ∧ h = pushes u h'.
Proof.
  revert s h. induction ps as [|p ps IH]; intros s h.
  - intros H. exists [], s, h. repeat split; [constructor|done].
  - change (ones (p :: ps) ++ r) with (One p :: ones ps ++ r). cbn [Parse].
    intros (c & s' & h' & -> & Hc & HP & ->).
    destruct (IH _ _ HP) as (u & s'' & h'' & -> & Hu & HP' & ->).
    exists (c :: u), s'', h''. repeat split; [by constructor|done].
Qed.

Lemma ones_Parse (ps : list (char -> bool)) (r : regex) (u s' : str) (h' : hit) :
  matchesP ps u -> Parse r s' h' -> Parse (ones ps ++ r) (u ++ s') (pushes u h').
Proof.
  induction 1 as [|p c ps u Hc _ IH]; intros HP; [done|].
  change (ones (p :: ps) ++ r) with (One p :: ones ps ++ r). cbn [Parse app].
  exists c, (u ++ s'), (pushes u h'). repeat split; [done|by apply IH].
Qed.

Lemma group1_pushes (u seg g : str) (segs : list str) (rest : str) :
  group1 (pushes u (seg :: g :: segs, rest)) = g.
Proof. by rewrite pushes_cons. Qed.

Lemma notGt_noChar (w : str) : Forall (fun c => notGt c = true) w ↔ noChar (ch ">") w.
Proof.
  unfold noChar. split; intros H; (eapply Forall_impl; [exact H|]); intros c Hc.
  - intros ->. done.
  - unfold notGt, isNot. apply negb_true_iff. by apply N.eqb_neq.
Qed.

Lemma notQuote_noChar (w : str) : Forall (fun c => notQuote c = true) w ↔ noChar quote w.
Proof.
  unfold noChar. split; intros H; (eapply Forall_impl; [exact H|]); intros c Hc.
  - intros ->. done.
  - unfold notQuote, isNot. apply negb_true_iff. by apply N.eqb_neq.
Qed.

Section TwoAttributes.
Context (T K V : list (char -> bool)).

Lemma Parse_attrFirst (s : str) (h : hit) :
  Parse (attrFirst T K V) s h ->
  ∃ t w1 k w2 v g rest,
    s = t ++ w1 ++ k ++ w2 ++ v ++ g ++ quote :: rest
    ∧ matchesP T t ∧ noChar (ch ">") w1 ∧ matchesP K k ∧ noChar (ch ">") w2
    ∧ matchesP V v ∧ noChar quote g ∧ g ≠ [] ∧ group1 h = g.
Proof.
  unfold attrFirst. intros HP.
  apply Parse_ones in HP as (t & s1 & h1 & -> & Ht & HP & ->).
  cbn [app Parse] in HP. destruct HP as (w1 & s2 & h2 & -> & Hw1 & _ & HP & ->).
  apply Parse_ones in HP as (k & s3 & h3 & -> & Hk & HP & ->).
  cbn [app Parse] in HP. destruct HP as (w2 & s4 & h4 & -> & Hw2 & _ & HP & ->).
  apply Parse_ones in HP as (v & s5 & h5 & -> & Hv & HP & ->).
  cbn [app Parse q] in HP.
  destruct HP as (h6 & (g & s6 & h7 & -> & Hg & Hn & (h8 & HP & ->) & ->) & ->).
  destruct HP as (c & rest & h9 & -> & Hc & -> & ->).
  apply N.eqb_eq in Hc. subst c.
  exists t, w1, k, w2, v, g, rest. repeat split; try done.
  - by apply notGt_noChar.
  - by apply notGt_noChar.
  - by apply notQuote_noChar.
  - intros ->. cbn in Hn. lia.
  - rewrite <- !pushes_app. unfold mark, push. cbn [fst snd].
    rewrite pushes_cons. cbn [fst snd]. rewrite pushes_cons.
    cbn [fst snd]. unfold group1, groupOf. cbn. apply app_nil_r.
Qed.

Lemma attrFirst_Parse (t w1 k w2 v g rest : str) :
  matchesP T t -> noChar (ch ">") w1 -> matchesP K k -> noChar (ch ">") w2 ->
  matchesP V v -> noChar quote g -> g ≠ [] ->
  ∃ h, Parse (attrFirst T K V) (t ++ w1 ++ k ++ w2 ++ v ++ g ++ quote :: rest) h.
Proof.
  intros Ht Hw1 Hk Hw2 Hv Hg Hne. eexists. unfold attrFirst.
  apply ones_Parse; [done|]. cbn [app Parse].
  eexists w1, _, _. split; [done|]. split; [by apply notGt_noChar|]. split; [lia|].
  split; [|done]. apply ones_Parse; [done|]. cbn [app Parse].
  eexists w2, _, _. split; [done|]. split; [by apply notGt_noChar|]. split; [lia|].
  split; [|done]. apply ones_Parse; [done|]. cbn [app Parse q].
  eexists. split; [|done]. eexists g, _, _. split; [done|].
  split; [by apply notQuote_noChar|]. split; [destruct g; [done|cbn; lia]|].
  split; [|done]. eexists. split; [|done].
  eexists quote, rest, _. split; [done|]. split; [apply N.eqb_refl|]. done.
Qed.

Lemma Parse_attrSecond (s : str) (h : hit) :
  Parse (attrSecond T K V) s h ->
  ∃ t w1 v g w2 k rest,
    s = t ++ w1 ++ v ++ g ++ quote :: w2 ++ k ++ rest
    ∧ matchesP T t ∧ noChar (ch ">") w1 ∧ matchesP V v ∧ noChar quote g ∧ g ≠ []
    ∧ noChar (ch ">") w2 ∧ matchesP K k ∧ group1 h = g.
Proof.
  unfold attrSecond. intros HP.
  apply Parse_ones in HP as (t & s1 & h1 & -> & Ht & HP & ->).
  cbn [app Parse] in HP. destruct HP as (w1 & s2 & h2 & -> & Hw1 & _ & HP & ->).
  apply Parse_ones in HP as (v & s3 & h3 & -> & Hv & HP & ->).
  cbn [app Parse q] in HP.
  destruct HP as (h6 & (g & s6 & h7 & -> & Hg & Hn & (h8 & HP & ->) & ->) & ->).
  destruct HP as (c & s7 & h9 & -> & Hc & HP & ->).
  apply N.eqb_eq in Hc. subst c.
  destruct HP as (w2 & s8 & h10 & -> & Hw2 & _ & HP & ->).
  rewrite <- (app_nil_r (ones K)) in HP.
  apply Parse_ones in HP as (k & rest & h11 & -> & Hk & HP & ->).
  cbn [Parse] in HP. subst h11.
  exists t, w1, v, g, w2, k, rest. repeat split; try done.
  - by apply notGt_noChar.
  - by apply notQuote_noChar.
  - intros ->. cbn in Hn. lia.
  - by apply notGt_noChar.
  - repeat first [ rewrite pushes_cons | progress unfold mark, push
                 | progress cbn [fst snd] ].
    unfold group1, groupOf. cbn. apply app_nil_r.
Qed.

Lemma attrSecond_Parse (t w1 v g w2 k rest : str) :
  matchesP T t -> noChar (ch ">") w1 -> matchesP V v -> noChar quote g -> g ≠ [] ->
  noChar (ch ">") w2 -> matchesP K k ->
  ∃ h, Parse (attrSecond T K V) (t ++ w1 ++ v ++ g ++ quote :: w2 ++ k ++ rest) h.
Proof.
  intros Ht Hw1 Hv Hg Hne Hw2 Hk. eexists. unfold attrSecond.
  apply ones_Parse; [done|]. cbn [app Parse].
  eexists w1, _, _. split; [done|]. split; [by apply notGt_noChar|]. split; [lia|].
  split; [|done]. apply ones_Parse; [done|]. cbn [app Parse q].
  eexists. split; [|done]. eexists g, _, _. split; [done|].
  split; [by apply notQuote_noChar|]. split; [destruct g; [done|cbn; lia]|].
  split; [|done]. eexists. split; [|done].
  eexists quote, _, _. split; [done|]. split; [apply N.eqb_refl|]. split; [|done].
  eexists w2, _, _. split; [done|]. split; [by apply notGt_noChar|]. split; [lia|].
  split; [|done]. rewrite <- (app_nil_r (ones K)). apply ones_Parse; [done|]. done.
Qed.

End TwoAttributes.

(** *** An element read by two of its attributes, in a document *)

Section Element.
Context (T K V : list (char -> bool)) (tt kk vv x pre post : str).
Context (HT : matchesP T tt) (HK : matchesP K kk) (HV : matchesP V vv).
Context (Hx : x ≠ []) (Hxq : noChar quote x).

(** the selecting attribute stands nowhere else in the two documents *)
Context (UA : ∀ o, startsWithP K (drop o (pre ++ elemFirst tt kk vv x ++ post)) = true ->
                   o = length (pre ++ tt ++ [32])).
Context (UB : ∀ o, startsWithP K (drop o (pre ++ elemSecond tt kk vv x ++ post)) = true ->
                   o = length (pre ++ tt ++ [32] ++ vv ++ x ++ [quote; 32])).
(** after the selecting attribute, the other attribute stands where it does
    and nowhere before the end of the tag *)
Context (UVA : ∀ w2 v r,
           [32] ++ vv ++ x ++ quote :: lit "/>" ++ post = w2 ++ v ++ r ->
           noChar (ch ">") w2 -> matchesP V v -> w2 = [32]).
Context (UVN : ∀ w2 v r,
           lit "/>" ++ post = w2 ++ v ++ r -> noChar (ch ">") w2 -> matchesP V v -> False).
(** before the selecting attribute, an attribute of that name with a value
    that is followed, up to the selecting attribute, by no end of tag has
    the value [x] *)
Context (UVB : ∀ a v g w2,
           pre ++ tt ++ [32] ++ vv ++ x ++ [quote; 32] = a ++ v ++ g ++ quote :: w2 ->
           matchesP V v -> noChar quote g -> g ≠ [] -> noChar (ch ">") w2 -> g = x).

Lemma docA_split :
  pre ++ elemFirst tt kk vv x ++ post
  = (pre ++ tt ++ [32]) ++ kk ++ [32] ++ vv ++ x ++ quote :: lit "/>" ++ post.
Proof. unfold elemFirst. by rewrite <- !app_assoc. Qed.

Lemma docB_split :
  pre ++ elemSecond tt kk vv x ++ post
  = (pre ++ tt ++ [32] ++ vv ++ x ++ [quote; 32]) ++ kk ++ lit "/>" ++ post.
Proof. unfold elemSecond. by rewrite <- !app_assoc. Qed.

Lemma occurrence_at (i : nat) (s a k b : str) :
  drop i s = a ++ k ++ b -> matchesP K k ->
  startsWithP K (drop (i + length a) s) = true.
Proof. intros E Hk. rewrite (drop_add _ _ _ _ E). by apply startsWithP_matches. Qed.

Lemma first_on_first :
  ∃ h, exec (attrFirst T K V) (pre ++ elemFirst tt kk vv x ++ post) = Some h
       ∧ group1 h = x.
Proof.
  assert (Hex : is_Some (exec (attrFirst T K V) (pre ++ elemFirst tt kk vv x ++ post))).
  { destruct (attrFirst_Parse T K V tt [32] kk [32] vv x (lit "/>" ++ post))
      as [h Hh]; try done; try by_decision.
    apply (exec_is_Some _ _ (length pre) h). rewrite drop_app_length.
    unfold elemFirst. by rewrite <- !app_assoc. }
  destruct Hex as [h Eh]. exists h. split; [done|].
  apply exec_Parse in Eh as [i HP].
  apply Parse_attrFirst in HP as (t & w1 & k & w2 & v & g & rest & E & Ht & Hw1 & Hk
                                   & Hw2 & Hv & Hg & Hne & ->).
  assert (Eo : (i + length (t ++ w1))%nat = length (pre ++ tt ++ [32])).
  { apply UA. eapply occurrence_at; [|exact Hk]. by rewrite <- app_assoc. }
  assert (E0 : drop (i + length (t ++ w1)) (pre ++ elemFirst tt kk vv x ++ post)
               = k ++ w2 ++ v ++ g ++ quote :: rest)
    by (apply drop_add; rewrite E; by rewrite <- app_assoc).
  assert (E' : drop (length (pre ++ tt ++ [32])) (pre ++ elemFirst tt kk vv x ++ post)
               = k ++ w2 ++ v ++ g ++ quote :: rest)
    by (etrans; [|exact E0]; f_equal; symmetry; exact Eo).
  clear E. rename E' into E. rewrite docA_split, drop_app_length in E.
  apply app_inj_1 in E as [<- E];
    [|by rewrite (matchesP_length _ _ HK), (matchesP_length _ _ Hk)].
  pose proof (UVA w2 v (g ++ quote :: rest) E Hw2 Hv) as ->.
  cbn [app] in E. injection E as E.
  apply app_inj_1 in E as [<- E];
    [|by rewrite (matchesP_length _ _ HV), (matchesP_length _ _ Hv)].
  symmetry. by eapply until_char.
Qed.

Lemma first_on_second :
  exec (attrFirst T K V) (pre ++ elemSecond tt kk vv x ++ post) = None.
Proof.
  apply exec_no_Parse. intros i h HP.
  apply Parse_attrFirst in HP as (t & w1 & k & w2 & v & g & rest & E & Ht & Hw1 & Hk
                                   & Hw2 & Hv & Hg & Hne & _).
  assert (Eo : (i + length (t ++ w1))%nat
               = length (pre ++ tt ++ [32] ++ vv ++ x ++ [quote; 32])).
  { apply UB. eapply occurrence_at; [|exact Hk]. by rewrite <- app_assoc. }
  assert (E0 : drop (i + length (t ++ w1)) (pre ++ elemSecond tt kk vv x ++ post)
               = k ++ w2 ++ v ++ g ++ quote :: rest)
    by (apply drop_add; rewrite E; by rewrite <- app_assoc).
  assert (E' : drop (length (pre ++ tt ++ [32] ++ vv ++ x ++ [quote; 32]))
                 (pre ++ elemSecond tt kk vv x ++ post)
               = k ++ w2 ++ v ++ g ++ quote :: rest)
    by (etrans; [|exact E0]; f_equal; symmetry; exact Eo).
  clear E. rename E' into E. rewrite docB_split, drop_app_length in E.
  apply app_inj_1 in E as [<- E];
    [|by rewrite (matchesP_length _ _ HK), (matchesP_length _ _ Hk)].
  by eapply UVN.
Qed.

Lemma second_on_second :
  ∃ h, exec (attrSecond T K V) (pre ++ elemSecond tt kk vv x ++ post) = Some h
       ∧ group1 h = x.
Proof.
  assert (Hex : is_Some (exec (attrSecond T K V) (pre ++ elemSecond tt kk vv x ++ post))).
  { destruct (attrSecond_Parse T K V tt [32] vv x [32] kk (lit "/>" ++ post))
      as [h Hh]; try done; try by_decision.
    apply (exec_is_Some _ _ (length pre) h). rewrite drop_app_length.
    unfold elemSecond. by rewrite <- !app_assoc. }
  destruct Hex as [h Eh]. exists h. split; [done|].
  apply exec_Parse in Eh as [i HP].
  apply Parse_attrSecond in HP as (t & w1 & v & g & w2 & k & rest & E & Ht & Hw1 & Hv
                                    & Hg & Hne & Hw2 & Hk & ->).
  set (doc := pre ++ elemSecond tt kk vv x ++ post) in *.
  assert (Hi : (i < length doc)%nat).
  { destruct (decide (i < length doc)%nat) as [|Hge]; [done|].
    rewrite drop_ge in E by lia. symmetry in E. apply app_eq_nil in E as [_ E].
    apply app_eq_nil in E as [_ E]. apply app_eq_nil in E as [_ E].
    by apply app_eq_nil in E as [_ E]. }
  assert (Ed : doc = (take i doc ++ t ++ w1 ++ v ++ g ++ quote :: w2) ++ k ++ rest).
  { rewrite <- (take_drop i doc) at 1. rewrite E. by rewrite <- !app_assoc. }
  assert (Eo : length (take i doc ++ t ++ w1 ++ v ++ g ++ quote :: w2)
               = length (pre ++ tt ++ [32] ++ vv ++ x ++ [quote; 32])).
  { apply UB. fold doc. rewrite (drop_of_app _ _ _ Ed).
    by apply startsWithP_matches. }
  unfold doc in Ed at 1. rewrite docB_split in Ed.
  apply app_inj_1 in Ed as [Ed _]; [|done].
  eapply (UVB (take i doc ++ t ++ w1) v g w2); try done.
  by rewrite Ed, <- !app_assoc.
Qed.

End Element.

Lemma rejects_not_in (c : char) (ps : list (char -> bool)) (k : str) :
  rejects c ps = true -> matchesP ps k -> c ∉ k.
Proof.
  intros R H. induction H as [|p d ps k Hd _ IH]; [by intros ?%elem_of_nil|].
  cbn in R. apply andb_true_iff in R as [Rp R]. intros [->|Hin]%elem_of_cons.
  - by rewrite Hd in Rp.
  - by apply IH.
Qed.

Lemma app_char_split (c : char) (a b L R : str) :
  a ++ b = L ++ c :: R ->
  (∃ R', a = L ++ c :: R' ∧ R = R' ++ b) ∨ (∃ L', L = a ++ L' ∧ b = L' ++ c :: R).
Proof.
  revert L. induction a as [|d a IH]; intros L E.
  - right. by exists L.
  - destruct L as [|e L].
    + cbn in E. injection E as -> E. left. by exists a.
    + cbn in E. injection E as -> E. destruct (IH _ E) as [(R' & -> & ->)|(L' & -> & ->)].
      * left. by exists R'.
      * right. by exists L'.
Qed.

Lemma char_split_first (c : char) (l1 l2 L R : str) :
  c ∉ l1 -> l1 ++ c :: l2 = L ++ c :: R ->
  (L = l1 ∧ R = l2) ∨ (∃ m, L = l1 ++ c :: m ∧ l2 = m ++ c :: R).
Proof.
  intros Hc E. apply app_char_split in E as [(R' & -> & ->)|(L' & -> & E)].
  - exfalso. apply Hc. set_solver.
  - destruct L' as [|d L'].
    + cbn in E. injection E as ->. left. by rewrite app_nil_r.
    + cbn in E. injection E as <- ->. right. by exists L'.
Qed.

Lemma matchesP_app_inv (P1 P2 : list (char -> bool)) (k : str) :
  matchesP (P1 ++ P2) k -> ∃ k1 k2, k = k1 ++ k2 ∧ matchesP P1 k1 ∧ matchesP P2 k2.
Proof. intros (k1 & k2 & H1 & H2 & ->)%Forall2_app_inv_l. by exists k1, k2. Qed.

Lemma matchesP_app (P1 P2 : list (char -> bool)) (k1 k2 : str) :
  matchesP P1 k1 -> matchesP P2 k2 -> matchesP (P1 ++ P2) (k1 ++ k2).
Proof. apply Forall2_app. Qed.

Lemma includesP_occurrence (K : list (char -> bool)) (u k v : str) :
  matchesP K k -> includesP K (u ++ k ++ v) = true.
Proof.
  intros H. induction u as [|c u IH].
  - cbn [app]. destruct (k ++ v) eqn:E; cbn [includesP]; rewrite <- E;
      by rewrite startsWithP_matches.
  - cbn [app includesP]. rewrite IH. by rewrite orb_true_r.
Qed.

Lemma isCI_eq_sign (c : char) : isCI (ch "=") c = true -> c = ch "=".
Proof.
  unfold isCI, asciiUpper. intros H. apply N.eqb_eq in H. revert H.
  change (ch "=") with 61. cbn.
  destruct ((97 <=? c) && (c <=? 122)) eqn:E; [|done].
  apply andb_true_iff in E as [E1 E2]. apply N.leb_le in E1, E2. lia.
Qed.

Lemma closesAfter_split (r : str) :
  closesAfter r = true ->
  ∃ g r' r'', r = g ++ quote :: r' ++ ch ">" :: r'' ∧ noChar quote g.
Proof.
  unfold closesAfter. intros H%bool_decide_eq_true. induction r as [|c r IH].
  - by apply elem_of_nil in H.
  - cbn [dropWhile] in H. destruct (notQuote c) eqn:Ec.
    + destruct (IH H) as (g & r' & r'' & -> & Hg). exists (c :: g), r', r''.
      split; [done|]. constructor; [|done]. intros ->. done.
    + assert (c = quote) as ->.
      { unfold notQuote, isNot in Ec. apply negb_false_iff in Ec. by apply N.eqb_eq. }
      apply elem_of_cons in H as [H|H]; [done|].
      apply list_elem_of_split in H as (r' & r'' & ->).
      exists [], r', r''. split; [done|constructor].
Qed.

Lemma attrClosed_occurrence (V : list (char -> bool)) (a v r : str) :
  attrClosed V (a ++ v ++ r) = true -> matchesP V v ->
  ∃ g r' r'', r = g ++ quote :: r' ++ ch ">" :: r'' ∧ noChar quote g.
Proof.
  intros H Hv. induction a as [|c a IH].
  - cbn [app] in H. apply closesAfter_split.
    destruct (v ++ r) eqn:E; cbn [attrClosed] in H; rewrite <- E in H;
      rewrite startsWithP_matches in H by done;
      apply andb_true_iff in H as [H _];
      by rewrite <- (matchesP_length _ _ Hv), drop_app_length in H.
  - cbn [app attrClosed] in H. apply andb_true_iff in H as [_ H]. by apply IH.
Qed.

Lemma ends_in (c : char) (P u m : str) : P ++ [c] = u ++ m -> m ≠ [] -> c ∈ m.
Proof.
  intros E Hm. induction m as [|d m _] using rev_ind; [done|].
  rewrite app_assoc in E. apply app_inj_2 in E as [_ E]; [|done].
  injection E as ->. set_solver.
Qed.

(** An occurrence of [K] in a document whose one part [mid] begins with [<]
    and ends with [>] lies inside that part, when the classes of [K] take
    neither character and [K] occurs neither before nor after. *)
Lemma occurrence_inside (K : list (char -> bool)) (pre mid' post u k b : str) :
  rejects (ch "<") K = true -> rejects (ch ">") K = true ->
  includesP K pre = false -> includesP K post = false ->
  pre ++ (ch "<" :: mid' ++ [ch ">"]) ++ post = u ++ k ++ b -> matchesP K k ->
  ∃ u' b', ch "<" :: mid' ++ [ch ">"] = u' ++ k ++ b' ∧ u = pre ++ u'.
Proof.
  intros Rl Rg Npre Npost E Hk.
  assert (Nl : ch "<" ∉ k) by (by eapply rejects_not_in).
  assert (Ng : ch ">" ∉ k) by (by eapply rejects_not_in).
  assert (Ipre : ∀ a c, pre = a ++ k ++ c -> False).
  { intros a c ->. by rewrite includesP_occurrence in Npre. }
  assert (Ipost : ∀ a c, post = a ++ k ++ c -> False).
  { intros a c ->. by rewrite includesP_occurrence in Npost. }
  set (mid := ch "<" :: mid' ++ [ch ">"]) in *.
  apply app_eq_inv in E as [(m & -> & E)|(m & -> & E)].
  - (* the occurrence begins before the part *)
    exfalso. apply app_eq_inv in E as [(n & -> & E)|(n & E1 & E)].
    + destruct n as [|d n].
      * apply (Ipre u []). by rewrite !app_nil_r.
      * unfold mid in E. cbn in E. injection E as <- _. apply Nl. set_solver.
    + subst m. by apply (Ipre u n).
  - rewrite app_assoc in E. apply app_eq_inv in E as [(n & E1 & E)|(n & E1 & E)].
    + exists m, n. split; [by rewrite E1, <- app_assoc|done].
    + apply app_eq_inv in E1 as [(p & E2 & E1)|(p & E2 & E1)].
      * exfalso. apply (Ipost p b). by rewrite E, E1, <- app_assoc.
      * destruct n as [|d n].
        { exists m, []. rewrite app_nil_r in E1. subst p. split; [|done].
          by rewrite app_nil_r. }
        destruct p as [|e p].
        { exfalso. cbn in E1. subst k. by apply (Ipost [] b). }
        exfalso. apply Ng. rewrite E1. apply elem_of_app. left.
        by eapply (ends_in _ (ch "<" :: mid') m).
Qed.

Ltac sign_out :=
  repeat first
    [ assumption
    | apply not_elem_of_nil
    | apply not_elem_of_cons; split; [by_decision|]
    | apply not_elem_of_app; split ].

Ltac flat := repeat (rewrite <- ?app_assoc; cbn [app]).

Lemma positional (K : list (char -> bool)) (doc U : str) :
  K ≠ [] ->
  (∀ u k b, doc = u ++ k ++ b -> matchesP K k -> u = U) ->
  ∀ o, startsWithP K (drop o doc) = true -> o = length U.
Proof.
  intros HK H o (k & b & E & Hk)%startsWithP_split.
  assert (Ho : (o ≤ length doc)%nat).
  { destruct (decide (o ≤ length doc)%nat) as [|Hgt]; [done|].
    rewrite drop_ge in E by lia. symmetry in E. apply app_eq_nil in E as [-> _].
    apply Forall2_nil_inv_r in Hk. done. }
  rewrite <- (H (take o doc) k b); [by rewrite length_take_le| |done].
  by rewrite <- E, take_drop.
Qed.

Lemma noChar_not_in (c : char) (w : str) : noChar c w -> c ∉ w.
Proof. intros H Hin. by apply (proj1 (Forall_forall _ _) H c Hin). Qed.

Section Unique.
Context (K1 K2 V1 : list (char -> bool)) (tt' k1 k2 v1 x pre post : str).
Local Abbreviation eqs := (ch "=").
Local Abbreviation tg := (ch "<" :: tt').
Local Abbreviation K := (K1 ++ isCI eqs :: K2).
Local Abbreviation V := (V1 ++ [isCI eqs; isCh quote]).
Local Abbreviation kk := (k1 ++ eqs :: k2).
Local Abbreviation vv := (v1 ++ [eqs; quote]).
Context (HK1 : matchesP K1 k1) (HK2 : matchesP K2 k2) (HV1 : matchesP V1 v1).
Context (Ett : eqs ∉ tt') (Ek1 : eqs ∉ k1) (Ek2 : eqs ∉ k2) (Ev1 : eqs ∉ v1).
Context (Ex : eqs ∉ x) (Hxq : noChar quote x).
Context (RKl : rejects (ch "<") K = true) (RKg : rejects (ch ">") K = true).
Context (RVg : rejects (ch ">") V1 = true).
Context (Npre : includesP K pre = false) (Npost : includesP K post = false).
Context (CV : attrClosed V pre = true).
Context (ON : otherName K1 v1 = true).

Lemma K_split (k : str) :
  matchesP K k -> ∃ a b, k = a ++ eqs :: b ∧ matchesP K1 a ∧ matchesP K2 b.
Proof.
  intros (a & k' & -> & Ha & Hk')%matchesP_app_inv.
  apply Forall2_cons_inv_l in Hk' as (c & b & Hc & Hb & ->).
  apply isCI_eq_sign in Hc as ->. by exists a, b.
Qed.

Lemma V_split (v : str) :
  matchesP V v -> ∃ a, v = a ++ [eqs; quote] ∧ matchesP V1 a.
Proof.
  intros (a & k' & -> & Ha & Hk')%matchesP_app_inv.
  apply Forall2_cons_inv_l in Hk' as (c & b & Hc & Hb & ->).
  apply isCI_eq_sign in Hc as ->.
  apply Forall2_cons_inv_l in Hb as (d & b' & Hd & Hb & ->).
  apply Forall2_nil_inv_l in Hb as ->.
  unfold isCh in Hd. apply N.eqb_eq in Hd as ->. by exists a.
Qed.

(** the letters before the sign of the value attribute are not those of the
    selecting attribute *)
Lemma other_name (u a : str) (front : str) :
  matchesP K1 a -> u ++ a = front ++ 32 :: v1 -> False.
Proof.
  intros Ha E. unfold otherName in ON.
  destruct (Nat.leb_spec (length K1) (length v1)) as [LK|LK].
  - apply negb_true_iff in ON.
    rewrite <- (take_drop (length v1 - length K1) v1) in E.
    change (front ++ 32 :: ?t ++ ?d) with (front ++ (32 :: t) ++ d) in E.
    rewrite app_assoc in E. apply app_inj_2 in E as [_ ->].
    + apply (startsWithP_matches _ _ []) in Ha. rewrite app_nil_r in Ha.
      by rewrite Ha in ON.
    + rewrite (matchesP_length _ _ Ha), length_drop. lia.
  - pose proof (matchesP_length _ _ Ha) as La.
    set (n := (length K1 - length v1 - 1)%nat) in ON.
    assert (Hn : a !! n = Some 32).
    { pose proof (f_equal length E) as EL. rewrite !length_app in EL. cbn [length] in EL.
      assert (Hl : (u ++ a) !! (length u + n)%nat = Some 32).
      { rewrite E. replace (length u + n)%nat with (length front + 0)%nat
          by (unfold n, char in *; lia).
        rewrite lookup_app_r by apply Nat.le_add_r.
        by rewrite Nat.add_comm, Nat.add_sub. }
      rewrite lookup_app_r in Hl by apply Nat.le_add_r.
      by rewrite Nat.add_comm, Nat.add_sub in Hl. }
    destruct (Forall2_lookup_r _ _ _ _ _ Ha Hn) as (p & Hp & Hp32).
    unfold char in *. rewrite Hp in ON. by rewrite Hp32 in ON.
Qed.

Lemma inside_first (u k b : str) :
  elemFirst tg kk vv x = u ++ k ++ b -> matchesP K k -> u = tg ++ [32].
Proof.
  intros E (a & c & -> & Ha & Hc)%K_split.
  assert (E1 : (tg ++ [32] ++ k1) ++ eqs
                 :: ((k2 ++ [32] ++ v1) ++ eqs :: (quote :: x ++ quote :: lit "/>"))
               = (u ++ a) ++ eqs :: (c ++ b)).
  { etrans; [|etrans; [exact E|]]; unfold elemFirst; by flat. }
  apply char_split_first in E1 as [[E1 _]|(m & E1 & E2)]; [| |by sign_out].
  - rewrite app_assoc in E1. apply app_inj_2 in E1 as [E1 _]; [done|].
    by rewrite (matchesP_length _ _ Ha), (matchesP_length _ _ HK1).
  - exfalso. apply char_split_first in E2 as [[-> _]|(m' & _ & E2)]; [| |by sign_out].
    + eapply (other_name u a ((tg ++ [32] ++ k1) ++ eqs :: k2)); [done|].
      etrans; [exact E1|]. by flat.
    + assert (eqs ∈ quote :: x ++ quote :: lit "/>") as Hin by (rewrite E2; set_solver).
      revert Hin. change (lit "/>") with [ch "/"; ch ">"]. by sign_out.
Qed.

Lemma inside_second (u k b : str) :
  elemSecond tg kk vv x = u ++ k ++ b -> matchesP K k ->
  u = tg ++ [32] ++ vv ++ x ++ [quote; 32].
Proof.
  intros E (a & c & -> & Ha & Hc)%K_split.
  assert (E1 : (tg ++ [32] ++ v1) ++ eqs
                 :: ((quote :: x ++ [quote; 32] ++ k1) ++ eqs :: (k2 ++ lit "/>"))
               = (u ++ a) ++ eqs :: (c ++ b)).
  { etrans; [|etrans; [exact E|]]; unfold elemSecond; by flat. }
  apply char_split_first in E1 as [[E1 _]|(m & E1 & E2)]; [| |by sign_out].
  - exfalso. eapply (other_name u a tg); [done|].
    etrans; [exact E1|]. by flat.
  - apply char_split_first in E2 as [[-> _]|(m' & _ & E2)]; [| |by sign_out].
    + assert (E3 : u ++ a = (tg ++ [32] ++ vv ++ x ++ [quote; 32]) ++ k1)
        by (etrans; [exact E1|]; by flat).
      apply app_inj_2 in E3 as [E3 _]; [done|].
      by rewrite (matchesP_length _ _ Ha), (matchesP_length _ _ HK1).
    + exfalso.
      assert (eqs ∈ k2 ++ lit "/>") as Hin by (rewrite E2; set_solver).
      revert Hin. change (lit "/>") with [ch "/"; ch ">"]. by sign_out.
Qed.

Lemma K_nonempty : K ≠ [].
Proof. by destruct K1. Qed.

Lemma selecting_once_first (o : nat) :
  startsWithP K (drop o (pre ++ elemFirst tg kk vv x ++ post)) = true ->
  o = length (pre ++ tg ++ [32]).
Proof.
  apply positional; [apply K_nonempty|]. intros u k b E Hk.
  destruct (occurrence_inside K pre
              (tt' ++ [32] ++ kk ++ [32] ++ vv ++ x ++ [quote; ch "/"]) post u k b)
    as (u' & b' & E' & ->); try done.
  { etrans; [|exact E]. unfold elemFirst. change (lit "/>") with [ch "/"; ch ">"].
    by flat. }
  f_equal. apply (inside_first u' k b'); [|done].
  etrans; [|exact E']. unfold elemFirst. change (lit "/>") with [ch "/"; ch ">"].
  by flat.
Qed.

Lemma selecting_once_second (o : nat) :
  startsWithP K (drop o (pre ++ elemSecond tg kk vv x ++ post)) = true ->
  o = length (pre ++ tg ++ [32] ++ vv ++ x ++ [quote; 32]).
Proof.
  apply positional; [apply K_nonempty|]. intros u k b E Hk.
  destruct (occurrence_inside K pre
              (tt' ++ [32] ++ vv ++ x ++ [quote; 32] ++ kk ++ [ch "/"]) post u k b)
    as (u' & b' & E' & ->); try done.
  { etrans; [|exact E]. unfold elemSecond. change (lit "/>") with [ch "/"; ch ">"].
    by flat. }
  f_equal. apply (inside_second u' k b'); [|done].
  etrans; [|exact E']. unfold elemSecond. change (lit "/>") with [ch "/"; ch ">"].
  by flat.
Qed.

Lemma value_next (w2 v r : str) :
  [32] ++ vv ++ x ++ quote :: lit "/>" ++ post = w2 ++ v ++ r ->
  noChar (ch ">") w2 -> matchesP V v -> w2 = [32].
Proof.
  intros E Hw (a & -> & Ha)%V_split.
  assert (E1 : ([32] ++ v1) ++ eqs :: (quote :: x ++ quote :: lit "/>" ++ post)
               = (w2 ++ a) ++ eqs :: (quote :: r)).
  { etrans; [|etrans; [exact E|]]; by flat. }
  apply char_split_first in E1 as [[E1 _]|(m & E1 & E2)]; [| |by sign_out].
  - apply app_inj_2 in E1 as [E1 _]; [done|].
    by rewrite (matchesP_length _ _ Ha), (matchesP_length _ _ HV1).
  - exfalso.
    assert (E3 : (quote :: x ++ quote :: lit "/>") ++ post = m ++ eqs :: (quote :: r)).
    { etrans; [|exact E2]. by flat. }
    apply app_char_split in E3 as [(R' & E3 & _)|(L' & -> & _)].
    + assert (eqs ∈ quote :: x ++ quote :: lit "/>") as Hin by (rewrite E3; set_solver).
      revert Hin. change (lit "/>") with [ch "/"; ch ">"]. by sign_out.
    + assert (Hin : ch ">" ∈ w2 ++ a).
      { rewrite E1. change (lit "/>") with [ch "/"; ch ">"]. set_solver. }
      apply elem_of_app in Hin as [Hin|Hin].
      * by apply (noChar_not_in _ _ Hw).
      * by apply (rejects_not_in _ _ _ RVg Ha).
Qed.

Lemma value_not_after (w2 v r : str) :
  lit "/>" ++ post = w2 ++ v ++ r -> noChar (ch ">") w2 -> matchesP V v -> False.
Proof.
  intros E Hw (a & -> & Ha)%V_split.
  assert (E1 : lit "/>" ++ post = (w2 ++ a) ++ eqs :: (quote :: r)).
  { etrans; [exact E|]; by flat. }
  apply app_char_split in E1 as [(R' & E1 & _)|(L' & E1 & _)].
  - assert (eqs ∈ lit "/>") as Hin by (rewrite E1; set_solver).
    revert Hin. change (lit "/>") with [ch "/"; ch ">"]. by sign_out.
  - assert (Hin : ch ">" ∈ w2 ++ a).
    { rewrite E1. change (lit "/>") with [ch "/"; ch ">"]. set_solver. }
    apply elem_of_app in Hin as [Hin|Hin].
    + by apply (noChar_not_in _ _ Hw).
    + by apply (rejects_not_in _ _ _ RVg Ha).
Qed.

Lemma value_before (a v g w2 : str) :
  pre ++ tg ++ [32] ++ vv ++ x ++ [quote; 32] = a ++ v ++ g ++ quote :: w2 ->
  matchesP V v -> noChar quote g -> g ≠ [] -> noChar (ch ">") w2 -> g = x.
Proof.
  intros E Hv Hg _ Hw. pose proof Hv as (a' & Ev & Ha)%V_split.
  assert (E1 : pre ++ ((tg ++ [32] ++ v1) ++ eqs :: quote :: x ++ [quote; 32])
               = (a ++ a') ++ eqs :: (quote :: g ++ quote :: w2)).
  { etrans; [|etrans; [exact E|]]; [by flat|]. rewrite Ev. by flat. }
  apply app_char_split in E1 as [(R' & E1 & E2)|(L' & _ & E2)].
  - exfalso. destruct R' as [|d R'].
    + cbn in E2. injection E2 as E2 _. revert E2. by_decision.
    + cbn [app] in E2. injection E2 as <- E2.
      destruct (attrClosed_occurrence V a v R') as (g0 & r' & r'' & -> & Hg0);
        [|done|].
      { etrans; [|exact CV]. f_equal. rewrite E1, Ev. by flat. }
      assert (E3 : g ++ quote :: w2
                   = g0 ++ quote :: (r' ++ ch ">" :: r''
                                     ++ (tg ++ [32] ++ v1) ++ eqs :: quote :: x ++ [quote; 32]))
        by (etrans; [exact E2|]; by flat).
      pose proof (until_char _ _ _ _ _ Hg Hg0 E3) as ->.
      apply app_inv_head in E3. injection E3 as ->.
      apply (noChar_not_in _ _ Hw). set_solver.
  - apply char_split_first in E2 as [[_ E2]|(m & _ & E2)]; [| |by sign_out].
    + injection E2 as E2. symmetry.
      apply (until_char quote x g [32] w2); [done|done|]. by rewrite E2.
    + exfalso.
      assert (eqs ∈ quote :: x ++ [quote; 32]) as Hin by (rewrite E2; set_solver).
      revert Hin. by sign_out.
Qed.

Context (T : list (char -> bool)) (HT : matchesP T tg) (Hx : x ≠ []).

Lemma K_matches : matchesP K kk.
Proof.
  apply matchesP_app; [done|]. constructor; [|done]. apply isCI_refl.
Qed.

Lemma V_matches : matchesP V vv.
Proof.
  apply matchesP_app; [done|]. constructor; [apply isCI_refl|].
  constructor; [|constructor]. unfold isCh. by apply N.eqb_eq.
Qed.

(** The element written in the one order is read by the first pattern; written
    in the other order it is read by the second pattern and not by the first;
    the value read is the same. *)
Lemma element_first :
  ∃ m, exec (attrFirst T K V) (pre ++ elemFirst tg kk vv x ++ post) = Some m
       ∧ group1 m = x.
Proof.
  apply first_on_first; try done.
  - apply K_matches.
  - apply V_matches.
  - apply selecting_once_first.
  - apply value_next.
Qed.

Lemma element_second :
  exec (attrFirst T K V) (pre ++ elemSecond tg kk vv x ++ post) = None
  ∧ ∃ m, exec (attrSecond T K V) (pre ++ elemSecond tg kk vv x ++ post) = Some m
         ∧ group1 m = x.
Proof.
  split.
  - eapply first_on_second; try done.
    + apply K_matches.
    + apply selecting_once_second.
    + apply value_not_after.
  - apply second_on_second; try done.
    + apply K_matches.
    + apply V_matches.
    + apply selecting_once_second.
    + apply value_before.
Qed.

End Unique.

Lemma metaCover1_shape : metaCover1 = attrFirst metaTag nameCover contentOpen.
Proof. reflexivity. Qed.

Lemma metaCover2_shape : metaCover2 = attrSecond metaTag nameCover contentOpen.
Proof. reflexivity. Qed.

Lemma itemById1_shape (host : Host) (l : str) :
  itemById1 host l = attrFirst itemTag (idIs host l) hrefOpen.
Proof.
  unfold itemById1, attrFirst, idIs, ones, literalCI.
  rewrite !fmap_app.
  rewrite <- (list_fmap_compose
                (fun c x : char => canonicalize host x =? canonicalize host c) One l).
  rewrite <- ?app_assoc. reflexivity.
Qed.

Lemma itemById2_shape (host : Host) (l : str) :
  itemById2 host l = attrSecond itemTag (idIs host l) hrefOpen.
Proof.
  unfold itemById2, attrSecond, idIs, ones, literalCI.
  rewrite !fmap_app.
  rewrite <- (list_fmap_compose
                (fun c x : char => canonicalize host x =? canonicalize host c) One l).
  rewrite <- ?app_assoc. reflexivity.
Qed.

Lemma not_in_noChar (c : char) (w : str) : c ∉ w -> noChar c w.
Proof. intros H. apply Forall_forall. intros d Hd ->. done. Qed.

Lemma meta_order (pre post x : str) :
  x ≠ [] -> quote ∉ x -> ch "=" ∉ x ->
  includesP nameCover pre = false -> includesP nameCover post = false ->
  attrClosed contentOpen pre = true ->
  findCoverId (pre ++ metaNameFirst x ++ post) = Some x
  ∧ findCoverId (pre ++ metaContentFirst x ++ post) = Some x.
Proof.
  intros Hx Hq He Npre Npost CV.
  pose (K1 := isCI <$> lit "name").
  pose (K2 := [isCh quote] ++ (isCI <$> lit "cover") ++ [isCh quote]).
  pose (V1 := isCI <$> lit "content").
  split.
  - destruct (element_first K1 K2 V1 (lit "meta") (lit "name")
                (quote :: lit "cover" ++ [quote]) (lit "content") x pre post)
      with (T := metaTag) as (m & Em & Eg);
      try done; try by_decision; try (by apply not_in_noChar);
      try (unfold matchesP; by_decision).
    unfold findCoverId.
    assert (Em' : exec metaCover1 (pre ++ metaNameFirst x ++ post) = Some m) by exact Em.
    by rewrite Em', Eg.
  - destruct (element_second K1 K2 V1 (lit "meta") (lit "name")
                (quote :: lit "cover" ++ [quote]) (lit "content") x pre post)
      with (T := metaTag) as (En & m & Em & Eg);
      try done; try by_decision; try (by apply not_in_noChar);
      try (unfold matchesP; by_decision).
    unfold findCoverId.
    assert (En' : exec metaCover1 (pre ++ metaContentFirst x ++ post) = None) by exact En.
    assert (Em' : exec metaCover2 (pre ++ metaContentFirst x ++ post) = Some m) by exact Em.
    by rewrite En', Em', Eg.
Qed.

Lemma canonicalize_below (host : Host) (c0 c : char) :
  c0 < 65 -> (canonicalize host c0 =? canonicalize host c) = true -> c = c0.
Proof.
  intros H0 E. apply N.eqb_eq in E. revert E. unfold canonicalize, asciiUpper.
  assert ((c0 <? 128) = true) as -> by (apply N.ltb_lt; lia).
  assert (((97 <=? c0) && (c0 <=? 122)) = false) as ->.
  { apply andb_false_iff. left. apply N.leb_gt. lia. }
  destruct (c <? 128) eqn:Ec.
  - destruct ((97 <=? c) && (c <=? 122)) eqn:El; [|done].
    apply andb_true_iff in El as [E1 E2]. apply N.leb_le in E1, E2. lia.
  - apply N.ltb_ge in Ec. destruct (simpleUpper host c <? 128) eqn:Eu; [lia|].
    apply N.ltb_ge in Eu. lia.
Qed.

Lemma rejects_app (c : char) (A B : list (char -> bool)) :
  rejects c (A ++ B) = rejects c A && rejects c B.
Proof. apply forallb_app. Qed.

Lemma rejects_literal (host : Host) (c0 : char) (l : str) :
  c0 < 65 -> c0 ∉ l ->
  rejects c0 ((fun c x => canonicalize host x =? canonicalize host c) <$> l) = true.
Proof.
  intros H0. unfold rejects. induction l as [|c l IH]; [done|].
  intros [Hc Hl]%not_elem_of_cons. cbn [fmap list_fmap forallb].
  rewrite (IH Hl), andb_true_r.
  apply negb_true_iff. destruct (canonicalize host c0 =? canonicalize host c) eqn:E; [|done].
  apply canonicalize_below in E; [|done]. by subst.
Qed.

Lemma literal_matches (host : Host) (l : str) :
  matchesP ((fun c x => canonicalize host x =? canonicalize host c) <$> l) l.
Proof. induction l as [|c l IH]; constructor; [apply N.eqb_refl|done]. Qed.

Lemma orElse_first (h : str) (b : option str) : h ≠ [] -> orElse (Some h) b = Some h.
Proof. by destruct h. Qed.

Lemma itemIdFirst_shape (i h : str) :
  itemIdFirst i h
  = elemFirst (ch "<" :: lit "item") (lit "id" ++ ch "=" :: quote :: i ++ [quote])
      (lit "href" ++ [ch "="; quote]) h.
Proof. unfold itemIdFirst, elemFirst. flat. reflexivity. Qed.

Lemma itemHrefFirst_shape (i h : str) :
  itemHrefFirst i h
  = elemSecond (ch "<" :: lit "item") (lit "id" ++ ch "=" :: quote :: i ++ [quote])
      (lit "href" ++ [ch "="; quote]) h.
Proof. unfold itemHrefFirst, elemSecond. flat. reflexivity. Qed.

Section ItemOrder.
Context (host : Host).

Lemma item_order (pre post i h : str) :
  patternLiteral i = Some i ->
  ch "=" ∉ i -> ch "<" ∉ i -> ch ">" ∉ i ->
  h ≠ [] -> quote ∉ h -> ch "=" ∉ h ->
  includesP (idIs host i) pre = false -> includesP (idIs host i) post = false ->
  attrClosed hrefOpen pre = true ->
  coverHrefById host i (pre ++ itemIdFirst i h ++ post) = Returns (Some h)
  ∧ coverHrefById host i (pre ++ itemHrefFirst i h ++ post) = Returns (Some h).
Proof.
  intros Hl Ie Il Ig Hh Hq He Npre Npost CV.
  pose (K1 := isCI <$> lit "id").
  pose (K2 := [isCh quote]
              ++ ((fun c x => canonicalize host x =? canonicalize host c) <$> i)
              ++ [isCh quote]).
  pose (V1 := isCI <$> lit "href").
  assert (HK2 : matchesP K2 (quote :: i ++ [quote])).
  { constructor; [done|]. apply matchesP_app; [apply literal_matches|].
    by constructor. }
  assert (R : ∀ c0, c0 < 65 -> c0 ∉ i -> isCI (ch "=") c0 = false -> c0 ≠ quote ->
                    rejects c0 K1 = true -> rejects c0 (K1 ++ isCI (ch "=") :: K2) = true).
  { intros c0 H0 Hc Hs Hcq HK1. rewrite rejects_app, HK1. cbn [andb rejects forallb].
    rewrite Hs. cbn [negb andb]. fold (rejects c0 K2). unfold K2.
    rewrite !rejects_app, rejects_literal by done. cbn. unfold isCh.
    by apply N.eqb_neq in Hcq as ->. }
  assert (Ek2 : ch "=" ∉ quote :: i ++ [quote]) by sign_out.
  unfold coverHrefById, matchById. rewrite Hl. exn_step.
  rewrite itemById1_shape, itemById2_shape, itemIdFirst_shape, itemHrefFirst_shape.
  split.
  - destruct (element_first K1 K2 V1 (lit "item") (lit "id")
                (quote :: i ++ [quote]) (lit "href") h pre post)
      with (T := itemTag) as (m & Em & Eg);
      try done; try by_decision; try (by apply not_in_noChar);
      try (unfold matchesP; by_decision); try (apply R; by_decision || done).
    assert (Em' : exec (attrFirst itemTag (idIs host i) hrefOpen)
                    (pre ++ elemFirst (ch "<" :: lit "item")
                              (lit "id" ++ ch "=" :: quote :: i ++ [quote])
                              (lit "href" ++ [ch "="; quote]) h ++ post) = Some m)
      by exact Em.
    rewrite Em'. cbn [fmap option_fmap option_map mjoin option_join].
    by rewrite Eg, orElse_first.
  - destruct (element_second K1 K2 V1 (lit "item") (lit "id")
                (quote :: i ++ [quote]) (lit "href") h pre post)
      with (T := itemTag) as (En & m & Em & Eg);
      try done; try by_decision; try (by apply not_in_noChar);
      try (unfold matchesP; by_decision); try (apply R; by_decision || done).
    assert (En' : exec (attrFirst itemTag (idIs host i) hrefOpen)
                    (pre ++ elemSecond (ch "<" :: lit "item")
                              (lit "id" ++ ch "=" :: quote :: i ++ [quote])
                              (lit "href" ++ [ch "="; quote]) h ++ post) = None)
      by exact En.
    assert (Em' : exec (attrSecond itemTag (idIs host i) hrefOpen)
                    (pre ++ elemSecond (ch "<" :: lit "item")
                              (lit "id" ++ ch "=" :: quote :: i ++ [quote])
                              (lit "href" ++ [ch "="; quote]) h ++ post) = Some m)
      by exact Em.
    rewrite En', Em'. cbn [fmap option_fmap option_map mjoin option_join orElse].
    by rewrite Eg.
Qed.

End ItemOrder.

(** C4, amended.  The order of the two attributes does not change what is
    read, for an element that stands alone: the cover meta element with the
    value [x] gives the cover id [x] in either order, and the manifest item
    with the id [i] and the href [h] gives the href [h] in either order,
    when the value is not empty and has neither a double quote nor an equals
    sign, the id is a literal pattern without an equals sign and without
    angle brackets, the selecting attribute stands nowhere else in the
    document, and before the element every attribute of the name of the
    value attribute has its value and its tag closed. *)
Theorem attribute_order_invariance (host : Host) (pre post x pre' post' i h : str) :
  x ≠ [] -> quote ∉ x -> ch "=" ∉ x ->
  includesP nameCover pre = false -> includesP nameCover post = false ->
  attrClosed contentOpen pre = true ->
  patternLiteral i = Some i -> ch "=" ∉ i -> ch "<" ∉ i -> ch ">" ∉ i ->
  h ≠ [] -> quote ∉ h -> ch "=" ∉ h ->
  includesP (idIs host i) pre' = false -> includesP (idIs host i) post' = false ->
  attrClosed hrefOpen pre' = true ->
  (findCoverId (pre ++ metaNameFirst x ++ post) = Some x
   ∧ findCoverId (pre ++ metaContentFirst x ++ post) = Some x)
  ∧ (coverHrefById host i (pre' ++ itemIdFirst i h ++ post') = Returns (Some h)
     ∧ coverHrefById host i (pre' ++ itemHrefFirst i h ++ post') = Returns (Some h)).
Proof.
  intros. split; [by apply meta_order|by apply item_order].
Qed.

Lemma attribute_order_invariance_witness :
  (findCoverId (Sample.doc "<package><metadata><dc:title>A Book</dc:title>"
                ++ metaNameFirst (lit "cover-img") ++ Sample.doc "</metadata>")
   = Some (lit "cover-img")
   ∧ findCoverId (Sample.doc "<package><metadata><dc:title>A Book</dc:title>"
                  ++ metaContentFirst (lit "cover-img") ++ Sample.doc "</metadata>")
     = Some (lit "cover-img"))
  ∧ (coverHrefById Sample.host (lit "cover-img")
       (Sample.doc "<manifest><item id='ch1' href='ch1.xhtml'/>"
        ++ itemIdFirst (lit "cover-img") (lit "images/cover.jpg")
        ++ Sample.doc "</manifest>")
     = Returns (Some (lit "images/cover.jpg"))
     ∧ coverHrefById Sample.host (lit "cover-img")
         (Sample.doc "<manifest><item id='ch1' href='ch1.xhtml'/>"
          ++ itemHrefFirst (lit "cover-img") (lit "images/cover.jpg")
          ++ Sample.doc "</manifest>")
       = Returns (Some (lit "images/cover.jpg"))).
Proof.
  apply (attribute_order_invariance Sample.host); by_decision.
Defined.

(** C4 as stated fails: after a cover meta element that has its content
    before its name, the element gives its own value when its name comes
    first and the value of the earlier element when its content comes
    first. *)
Lemma attribute_order_changes_cover_id :
  ¬ (∀ pre post x : str,
       findCoverId (pre ++ metaNameFirst x ++ post)
       = findCoverId (pre ++ metaContentFirst x ++ post)).
Proof.
  intros H. specialize (H (Sample.doc "<meta content='y' name='cover'/>") [] (lit "x")).
  vm_compute in H. discriminate.
Qed.

(** ** More of the component *)

(** *** The reader *)

Section ReaderFacts.
Context (host : Host).

Lemma loadEpub_settles (zip : gmap (list N) ZipObject) (a : AppState) :
  loading (loadEpub host zip a) = false.
Proof.
  unfold loadEpub. destruct (locatePackage zip) as [[opf dir]|e]; [|done].
  destruct (extractMetadata host opf zip dir) as [md|e]; [|done].
  by destruct (extractChapters host opf zip dir).
Qed.

Lemma failed_message (e : string) (a : AppState) : error (failed e a) ≠ ""%string.
Proof. done. Qed.

Lemma loadEpub_keeps_error (zip : gmap (list N) ZipObject) (a : AppState) :
  error a ≠ ""%string -> error (loadEpub host zip a) ≠ ""%string.
Proof.
  intros H. unfold loadEpub. destruct (locatePackage zip) as [[opf dir]|e]; [|done].
  destruct (extractMetadata host opf zip dir) as [md|e]; [|done].
  by destruct (extractChapters host opf zip dir).
Qed.

Lemma loadEpub_contents (zip : gmap (list N) ZipObject) (a : AppState) :
  Forall (fun c => content c ≠ []) (chapters a) ->
  Forall (fun c => content c ≠ []) (chapters (loadEpub host zip a)).
Proof.
  intros H. unfold loadEpub. destruct (locatePackage zip) as [[opf dir]|e]; [|done].
  destruct (extractMetadata host opf zip dir) as [md|e]; [|done].
  rewrite extractChapters_omap. cbn [chapters].
  apply Forall_forall. intros c Hc.
  apply list_elem_of_omap in Hc as (id & _ & Hid).
  apply chapterOfIdref_content in Hid. intros E. by rewrite E in Hid.
Qed.

Lemma loadAsset_settled (opened : exn (gmap (list N) ZipObject)) (st : ReaderState) :
  (12 ≤ fontSize st ≤ 32)%Z -> Z.even (fontSize st) = true ->
  currentChapter st = 0%Z ->
  Forall (fun c => content c ≠ []) (chapters (appState st)) ->
  settled (loadAsset host opened st).
Proof.
  intros Hf He Hc Hall. unfold settled, loadAsset. cbn [appState fontSize currentChapter].
  split; [|split; [|split; [|split; [|split]]]]; try done.
  - destruct opened; [apply loadEpub_settles|done].
  - by left.
  - destruct opened; [by apply loadEpub_contents|done].
Qed.

Lemma press_settled (c : Control) (st : ReaderState) :
  error (appState st) = ""%string -> settled st -> settled (press c st).
Proof.
  intros Herr (Hl & Hf & He & Hc & Hz & Hall). unfold settled.
  destruct c; cbn [press].
  - unfold previousChapter. destruct (currentChapter st >? 0)%Z eqn:E; [|done].
    apply Z.gtb_lt in E. cbn. repeat split; try done; try lia.
    unfold chapters_length in *. cbn. lia.
  - unfold nextChapter. destruct (currentChapter st <? chapters_length st - 1)%Z eqn:E; [|done].
    apply Z.ltb_lt in E. cbn. repeat split; try done; try lia.
    unfold chapters_length in *. cbn. lia.
  - unfold decreaseFontSize. destruct (fontSize st >? 12)%Z eqn:E; [|done].
    apply Z.gtb_lt in E. cbn. repeat split; try done; try lia.
    + assert (fontSize st ≠ 13%Z) by (intros E'; by rewrite E' in He). lia.
    + by rewrite Z.even_sub, He.
  - unfold increaseFontSize. destruct (fontSize st <? 32)%Z eqn:E; [|done].
    apply Z.ltb_lt in E. cbn. repeat split; try done; try lia.
    + assert (fontSize st ≠ 31%Z) by (intros E'; by rewrite E' in He). lia.
    + by rewrite Z.even_add, He.
  - done.
Qed.

Lemma render_reading (st : ReaderState) (v : ReadingView) :
  render st = Reading v -> loading (appState st) = false ∧ error (appState st) = ""%string.
Proof.
  unfold render. destruct (loading (appState st)); [done|].
  destruct (bool_decide (error (appState st) ≠ ""%string)) eqn:E; [done|].
  apply bool_decide_eq_false in E. intros _. split; [done|].
  by destruct (decide (error (appState st) = ""%string)).
Qed.

Lemma render_reading_eq (st : ReaderState) (v : ReadingView) :
  render st = Reading v ->
  coverThumbnail v
  = (if isTruthy (coverImage (metadata (appState st))) then coverImage (metadata (appState st))
     else None)
  ∧ headerProgress v = ((currentChapter st + 1)%Z, chapters_length st)
  ∧ chapterTitleText v
    = match chapterTitle <$> currentChapterData st with
      | Some ((_ :: _) as t) => t
      | _ => lit "Chapter " ++ lit (pretty (currentChapter st + 1)%Z)
      end
  ∧ contentText v
    = match content <$> currentChapterData st with
      | Some ((_ :: _) as t) => t
      | _ => lit "No content found"
      end
  ∧ previousDisabled v = bool_decide (currentChapter st = 0%Z)
  ∧ nextDisabled v = bool_decide (currentChapter st = (chapters_length st - 1)%Z).
Proof.
  unfold render. destruct (loading (appState st)); [done|].
  destruct (bool_decide (error (appState st) ≠ ""%string)); [done|].
  intros [= <-]. done.
Qed.

Lemma render_error (st : ReaderState) (e : string) :
  render st = ErrorView e ->
  loading (appState st) = false ∧ error (appState st) ≠ ""%string ∧ e = error (appState st).
Proof.
  unfold render. destruct (loading (appState st)); [done|].
  destruct (bool_decide (error (appState st) ≠ ""%string)) eqn:E; [|done].
  apply bool_decide_eq_true in E. intros [= <-]. done.
Qed.

Lemma dispatch_settled (st : ReaderState) (e : Event) :
  settled st -> settled (dispatch host st e).
Proof.
  intros H. unfold dispatch. destruct (render st) as [|msg|v] eqn:Ev; [done| |].
  - destruct e as [c|opened]; [done|].
    apply render_error in Ev as (_ & Herr & _).
    destruct H as (Hl & Hf & He & Hc & Hz & Hall). apply loadAsset_settled; auto.
  - destruct e as [c|opened]; [|done].
    apply render_reading in Ev as [_ Herr]. by apply press_settled.
Qed.

Lemma session_settled (sys : option ColorScheme) (opened : exn (gmap (list N) ZipObject))
    (events : list Event) :
  settled (session host sys opened events).
Proof.
  unfold session.
  assert (H : settled (loadAsset host opened (firstRender sys))).
  { apply loadAsset_settled; cbn; try done; lia. }
  revert H. generalize (loadAsset host opened (firstRender sys)).
  induction events as [|e events IH]; intros st H; [done|].
  cbn [foldl]. apply IH. by apply dispatch_settled.
Qed.

End ReaderFacts.

Section ReaderTheorems.
Context (host : Host).

(** X1. Whatever the book and whatever the user presses, the font size stays
    an even number from 12 to 32. *)
Theorem font_size_in_bounds (sys : option ColorScheme)
    (opened : exn (gmap (list N) ZipObject)) (events : list Event) :
  let st := session host sys opened events in
  (12 ≤ fontSize st ≤ 32)%Z ∧ Z.even (fontSize st) = true.
Proof.
  intros st. destruct (session_settled host sys opened events) as (_ & Hf & He & _).
  done.
Qed.

(** X2. In the reading view of a book that has chapters, the current chapter
    is one of them, whatever was pressed before: the text shown is its
    content, never the placeholder, and the position shown lies between 1 and
    the number of chapters. *)
Theorem current_chapter_is_shown (sys : option ColorScheme)
    (opened : exn (gmap (list N) ZipObject)) (events : list Event) (v : ReadingView) :
  let st := session host sys opened events in
  render st = Reading v -> chapters (appState st) ≠ [] ->
  ∃ c, chapters (appState st) !! Z.to_nat (currentChapter st) = Some c
       ∧ contentText v = content c
       ∧ (1 ≤ fst (headerProgress v) ≤ snd (headerProgress v))%Z
       ∧ snd (headerProgress v) = Z.of_nat (length (chapters (appState st))).
Proof.
  intros st Hv Hne.
  destruct (session_settled host sys opened events) as (Hl & _ & _ & Hc & _ & Hall).
  fold st in Hl, Hc, Hall.
  pose proof (render_reading _ _ Hv) as [_ Herr].
  assert (Hlen : (0 < chapters_length st)%Z).
  { unfold chapters_length. destruct (chapters (appState st)); [done|]. cbn [length]. lia. }
  assert (Hin : (0 ≤ currentChapter st < chapters_length st)%Z) by lia.
  destruct (lookup_lt_is_Some_2 (chapters (appState st)) (Z.to_nat (currentChapter st)))
    as [c Ec]; [unfold chapters_length in Hin; lia|].
  exists c. split; [done|].
  apply render_reading_eq in Hv as (_ & -> & _ & -> & _).
  cbn [fst snd]. unfold currentChapterData.
  assert ((0 <=? currentChapter st)%Z = true) as -> by (apply Z.leb_le; lia).
  rewrite Ec. cbn [fmap option_fmap option_map].
  assert (Hcont : content c ≠ []).
  { by apply (proj1 (Forall_forall _ _) Hall c), (list_elem_of_lookup_2 _ _ _ Ec). }
  split; [destruct (content c); [by destruct Hcont|done]|].
  split; [lia|done].
Qed.

(** X3. A book that loads without a chapter: the reading view shows the
    placeholders and the position 1 / 0; the Next button is not disabled,
    and pressing it changes nothing. *)
Theorem book_without_chapters (sys : option ColorScheme)
    (opened : exn (gmap (list N) ZipObject)) (events : list Event) (v : ReadingView) :
  let st := session host sys opened events in
  render st = Reading v -> chapters (appState st) = [] ->
  contentText v = lit "No content found"
  ∧ chapterTitleText v = lit "Chapter 1"
  ∧ headerProgress v = (1%Z, 0%Z)
  ∧ previousDisabled v = true ∧ previousChapter st = st
  ∧ nextDisabled v = false ∧ nextChapter st = st.
Proof.
  intros st Hv Hnil.
  destruct (session_settled host sys opened events) as (Hl & _ & _ & Hc & _ & _).
  fold st in Hl, Hc.
  pose proof (render_reading _ _ Hv) as [_ Herr].
  assert (Hlen : chapters_length st = 0%Z) by (unfold chapters_length; by rewrite Hnil).
  assert (H0 : currentChapter st = 0%Z) by lia.
  apply render_reading_eq in Hv as (_ & -> & -> & -> & -> & ->).
  unfold currentChapterData, previousChapter, nextChapter.
  rewrite Hlen, H0, Hnil. done.
Qed.

(** X4. In the reading view of a book that has chapters, a navigation button
    is disabled exactly when its handler would change nothing. *)
Theorem disabled_buttons_do_nothing (sys : option ColorScheme)
    (opened : exn (gmap (list N) ZipObject)) (events : list Event) (v : ReadingView) :
  let st := session host sys opened events in
  render st = Reading v -> chapters (appState st) ≠ [] ->
  (previousDisabled v = true ↔ previousChapter st = st)
  ∧ (nextDisabled v = true ↔ nextChapter st = st).
Proof.
  intros st Hv Hne.
  destruct (session_settled host sys opened events) as (Hl & _ & _ & Hc & _ & _).
  fold st in Hl, Hc.
  pose proof (render_reading _ _ Hv) as [_ Herr].
  assert (Hlen : (0 < chapters_length st)%Z).
  { unfold chapters_length. destruct (chapters (appState st)); [done|]. cbn [length]. lia. }
  apply render_reading_eq in Hv as (_ & _ & _ & _ & -> & ->).
  unfold previousChapter, nextChapter.
  split.
  - rewrite bool_decide_eq_true. split.
    + intros ->. done.
    + destruct (currentChapter st >? 0)%Z eqn:E; [|rewrite Z.gtb_ltb in E; apply Z.ltb_ge in E; lia].
      intros H. apply (f_equal currentChapter) in H. cbn in H. lia.
  - rewrite bool_decide_eq_true. split.
    + intros ->. by rewrite Z.ltb_irrefl.
    + destruct (currentChapter st <? chapters_length st - 1)%Z eqn:E;
        [|apply Z.ltb_ge in E; lia].
      intros H. apply (f_equal currentChapter) in H. cbn in H. lia.
Qed.

(** X5. Once the error view is shown it stays: whatever is pressed, and
    whatever archive a retry opens, also one that loads, the component shows
    an error again.  ([loadEpub] never resets [error].) *)
Theorem error_view_is_final (st : ReaderState) (e : string) (events : list Event) :
  render st = ErrorView e ->
  ∃ e', render (foldl (dispatch host) st events) = ErrorView e'.
Proof.
  revert st e. induction events as [|ev events IH]; intros st e Hv; [by exists e|].
  cbn [foldl]. unfold dispatch at 2. rewrite Hv.
  destruct ev as [c|opened]; [by apply (IH st e)|].
  apply render_error in Hv as (_ & Herr & _).
  assert (Hl : loading (appState (loadAsset host opened st)) = false).
  { cbn. destruct opened; [apply loadEpub_settles|done]. }
  assert (He : error (appState (loadAsset host opened st)) ≠ ""%string).
  { cbn. destruct opened; [by apply loadEpub_keeps_error|done]. }
  apply (IH _ (error (appState (loadAsset host opened st)))).
  unfold render. rewrite Hl. by rewrite bool_decide_eq_true_2.
Qed.

End ReaderTheorems.

Lemma current_chapter_is_shown_witness :
  let st := session Sample.host None (Returns Sample.book) [Press Next] in
  ∃ v c, render st = Reading v
         ∧ chapters (appState st) !! Z.to_nat (currentChapter st) = Some c
         ∧ contentText v = content c
         ∧ (1 ≤ fst (headerProgress v) ≤ snd (headerProgress v))%Z
         ∧ snd (headerProgress v) = Z.of_nat (length (chapters (appState st))).
Proof.
  intros st.
  assert (H : ∃ v, render st = Reading v) by (vm_compute; eexists; reflexivity).
  destruct H as [v Hv]. exists v.
  destruct (current_chapter_is_shown Sample.host None (Returns Sample.book) [Press Next]
              v Hv) as (c & H); [vm_compute; discriminate|].
  exists c. split; [exact Hv|exact H].
Defined.

Lemma book_without_chapters_witness :
  let zip : gmap (list N) ZipObject :=
    <[lit "META-INF/container.xml" := Sample.entry Sample.container []]>
    (<[lit "OEBPS/content.opf" := Sample.entry (lit "<package></package>") []]> ∅) in
  let st := session Sample.host None (Returns zip) [Press Next] in
  ∃ v, render st = Reading v
       ∧ contentText v = lit "No content found"
       ∧ chapterTitleText v = lit "Chapter 1"
       ∧ headerProgress v = (1%Z, 0%Z)
       ∧ previousDisabled v = true ∧ previousChapter st = st
       ∧ nextDisabled v = false ∧ nextChapter st = st.
Proof.
  intros zip st.
  assert (H : ∃ v, render st = Reading v) by (vm_compute; eexists; reflexivity).
  destruct H as [v Hv]. exists v. split; [exact Hv|].
  apply (book_without_chapters Sample.host None (Returns zip) [Press Next] v Hv).
  vm_compute. reflexivity.
Defined.

Lemma disabled_buttons_do_nothing_witness :
  let st := session Sample.host None (Returns Sample.book) [Press Next] in
  ∃ v, render st = Reading v
       ∧ (previousDisabled v = true ↔ previousChapter st = st)
       ∧ (nextDisabled v = true ↔ nextChapter st = st).
Proof.
  intros st.
  assert (H : ∃ v, render st = Reading v) by (vm_compute; eexists; reflexivity).
  destruct H as [v Hv]. exists v. split; [exact Hv|].
  apply (disabled_buttons_do_nothing Sample.host None (Returns Sample.book) [Press Next]
           v Hv).
  vm_compute. discriminate.
Defined.

Lemma error_view_is_final_witness :
  ∃ e', render (foldl (dispatch Sample.host)
                  (session Sample.host None (Throws "Asset not found") [])
                  [Retry (Returns Sample.book); Press Next])
        = ErrorView e'.
Proof.
  apply (error_view_is_final Sample.host _ "Failed to load EPUB: Asset not found").
  vm_compute. reflexivity.
Defined.

(** *** The directory of the package document *)

Lemma lastIndexOf_split (c : char) (s : str) :
  ((c ∉ s) ∧ lastIndexOf c s = (-1)%Z)
  ∨ (∃ a b, s = a ++ c :: b ∧ (c ∉ b) ∧ lastIndexOf c s = Z.of_nat (length a)).
Proof.
  induction s as [|x s IH].
  - left. split; [apply not_elem_of_nil|done].
  - cbn [lastIndexOf]. destruct IH as [[Hn ->]|(a & b & -> & Hb & ->)].
    + cbn. destruct (x =? c) eqn:E.
      * apply N.eqb_eq in E as ->. right. exists [], s. done.
      * apply N.eqb_neq in E. left. split; [|done].
        apply not_elem_of_cons. split; [done|done].
    + right. exists (x :: a), b. split; [done|]. split; [done|].
      assert ((0 <=? Z.of_nat (length a))%Z = true) as -> by (apply Z.leb_le; lia).
      cbn [length]. lia.
Qed.

Lemma directory_split (p : str) :
  ∃ name, p = substring0 (lastIndexOf (ch "/") p + 1) p ++ name
          ∧ (ch "/" ∉ name)
          ∧ (substring0 (lastIndexOf (ch "/") p + 1) p = []
             ∨ ∃ d, substring0 (lastIndexOf (ch "/") p + 1) p = d ++ [ch "/"]).
Proof.
  unfold substring0. destruct (lastIndexOf_split (ch "/") p) as [[Hn ->]|(a & b & -> & Hb & ->)].
  - exists p. cbn. split; [done|]. split; [done|by left].
  - exists b. replace (Z.to_nat (Z.of_nat (length a) + 1)) with (length (a ++ [ch "/"]))
      by (rewrite length_app; cbn; lia).
    rewrite (cons_middle _ a b), app_assoc, take_app_length.
    split; [done|]. split; [done|]. right. by exists a.
Qed.

Lemma bind_Returns {A B} (a : A) (k : A -> exn B) : (Returns a ≫= k) = k a.
Proof. reflexivity. Qed.

Lemma bind_Throws {A B} (e : string) (k : A -> exn B) : (Throws e ≫= k) = Throws e.
Proof. reflexivity. Qed.

(** X6. When the package document is located, the directory handed on is its
    path up to and including the last slash: the path is the directory
    followed by a name without a slash, and the directory is empty (a package
    document at the root of the archive) or ends with a slash. *)
Theorem package_directory (zip : gmap (list N) ZipObject) (opfContent opfDir : str) :
  locatePackage zip = Returns (opfContent, opfDir) ->
  ∃ name f, zip !! (opfDir ++ name) = Some f
            ∧ async_string f = Returns opfContent
            ∧ (ch "/" ∉ name)
            ∧ (opfDir = [] ∨ ∃ d, opfDir = d ++ [ch "/"]).
Proof.
  unfold locatePackage. destruct (zip !! containerPath) as [cf|]; [|done].
  destruct (async_string cf) as [xml|]; [|done]. rewrite bind_Returns.
  destruct (exec fullPath xml) as [m|]; [|done].
  destruct (zip !! group1 m) as [f|] eqn:Ef; [|done].
  destruct (async_string f) as [opf|] eqn:Eo; [|done]. rewrite bind_Returns.
  set (dir := substring0 _ _). intros H. injection H as <- <-. subst dir.
  destruct (directory_split (group1 m)) as (name & E & Hn & Hd).
  exists name, f. rewrite <- E. done.
Qed.

Lemma package_directory_witness :
  ∃ name f, Sample.book !! (lit "OEBPS/" ++ name) = Some f
            ∧ async_string f = Returns Sample.opf
            ∧ (ch "/" ∉ name)
            ∧ (lit "OEBPS/" = [] ∨ ∃ d, lit "OEBPS/" = d ++ [ch "/"]).
Proof.
  apply (package_directory Sample.book Sample.opf (lit "OEBPS/")).
  vm_compute. reflexivity.
Defined.

(** *** The type of the cover *)

Lemma extension_after_dot (base ext : str) :
  ch "." ∉ ext -> last (split (ch ".") (base ++ ch "." :: ext)) = Some ext.
Proof.
  intros H. rewrite split_app, (split_noChar _ ext), last_snoc; [done|].
  by apply not_in_noChar.
Qed.

(** X7. The type declared for the cover depends on what follows the last dot
    of the href, letters compared without case: [jpg] and [jpeg] give
    image/jpeg, everything else image/png; an href without a dot is its own
    extension. *)
Theorem cover_type_by_extension (base ext : str) :
  ch "." ∉ ext ->
  let jpeg := bool_decide (toLowerCase ext = lit "jpg")
              || bool_decide (toLowerCase ext = lit "jpeg") in
  mimeType (base ++ ch "." :: ext) = (if jpeg then lit "image/jpeg" else lit "image/png")
  ∧ mimeType ext = (if jpeg then lit "image/jpeg" else lit "image/png").
Proof.
  intros H jpeg. unfold mimeType.
  rewrite (extension_after_dot _ _ H), (split_noChar _ ext); [done|].
  by apply not_in_noChar.
Qed.

Lemma cover_type_by_extension_witness :
  mimeType (lit "images/front.cover" ++ ch "." :: lit "JPG") = lit "image/jpeg"
  ∧ mimeType (lit "JPG") = lit "image/jpeg".
Proof.
  apply (cover_type_by_extension (lit "images/front.cover") (lit "JPG")). by_decision.
Defined.

(** *** The title as a pattern *)

Lemma escapeRegExp_cons (c : char) (t : str) :
  escapeRegExp (c :: t)
  = (if isSyntaxChar c then [ch "\"; c] else [c]) ++ escapeRegExp t.
Proof.
  unfold escapeRegExp. destruct (isSyntaxChar c) eqn:E.
  - rewrite (replace_hit _ _ _ ([[c]], t)); [done| |done].
    cbn [matchHere]. by rewrite E.
  - rewrite replace_miss; [done|]. cbn [matchHere]. by rewrite E.
Qed.

Lemma escapeRegExp_nil : escapeRegExp [] = [].
Proof. reflexivity. Qed.

Lemma backslash_is_syntax : isSyntaxChar (ch "\") = true.
Proof. by vm_compute. Qed.

Lemma patternLiteral_escaped (d : char) (s : str) :
  isSyntaxChar d = true ->
  patternLiteral (ch "\" :: d :: s) = (d ::.) <$> patternLiteral s.
Proof.
  intros E. change (patternLiteral (ch "\" :: d :: s))
    with (if isSyntaxChar d then (d ::.) <$> patternLiteral s else None).
  by rewrite E.
Qed.

Lemma patternLiteral_plain (c : char) (s : str) :
  isSyntaxChar c = false ->
  patternLiteral (c :: s) = (c ::.) <$> patternLiteral s.
Proof.
  intros E. change (patternLiteral (c :: s))
    with (if c =? ch "\" then
            match s with
            | d :: s'' => if isSyntaxChar d then (d ::.) <$> patternLiteral s'' else None
            | [] => None
            end
          else if isSyntaxChar c then None else (c ::.) <$> patternLiteral s).
  rewrite E. destruct (c =? ch "\") eqn:Eb; [|done].
  apply N.eqb_eq in Eb. subst c. by rewrite backslash_is_syntax in E.
Qed.

Lemma patternLiteral_escapeRegExp (t : str) : patternLiteral (escapeRegExp t) = Some t.
Proof.
  induction t as [|c t IH]; [done|]. rewrite escapeRegExp_cons.
  destruct (isSyntaxChar c) eqn:E.
  - change ([ch "\"; c] ++ escapeRegExp t) with (ch "\" :: c :: escapeRegExp t).
    by rewrite patternLiteral_escaped, IH.
  - change ([c] ++ escapeRegExp t) with (c :: escapeRegExp t).
    by rewrite patternLiteral_plain, IH.
Qed.

Section Title.
Context (host : Host).


End Title.

(** *** A cover that cannot be read *)

Section CoverFails.
Context (host : Host) (zip : gmap (list N) ZipObject).

Lemma readCover_throws (opfDir href : str) (f : ZipObject) (e : string) :
  zip !! (opfDir ++ href) = Some f -> async_base64 f = Throws e ->
  readCover zip opfDir href = Throws e.
Proof. intros H He. unfold readCover. by rewrite H, He. Qed.

Lemma loadEpub_metadata_throws (st : AppState) (opfContent opfDir : str) (e : string) :
  locatePackage zip = Returns (opfContent, opfDir) ->
  extractCover host opfContent zip opfDir = Throws e ->
  loadEpub host zip st
  = {| metadata := metadata st; chapters := chapters st; loading := false;
       error := "Failed to load EPUB: " ++ e |}.
Proof.
  intros Hl He. unfold loadEpub, extractMetadata. by rewrite Hl, He.
Qed.

(** X9. A cover image that is in the archive but cannot be read makes the
    whole load fail, although every chapter may be fine: with no cover meta
    element and a cover-image item, found with its properties before its
    href or, failing that, with its href before its properties, the
    exception of reading the entry of the item becomes the error of the
    component, and neither metadata nor chapters are set. *)
Theorem unreadable_cover_fails_the_load (st : AppState) (opfContent opfDir : str)
    (m : hit) (f : ZipObject) (e : string) :
  locatePackage zip = Returns (opfContent, opfDir) ->
  findCoverId opfContent = None ->
  exec itemCover1 opfContent = Some m
  ∨ (exec itemCover1 opfContent = None ∧ exec itemCover2 opfContent = Some m) ->
  zip !! (opfDir ++ group1 m) = Some f ->
  async_base64 f = Throws e ->
  extractMetadata host opfContent zip opfDir = Throws e
  ∧ loadEpub host zip st
    = {| metadata := metadata st; chapters := chapters st; loading := false;
         error := "Failed to load EPUB: " ++ e |}.
Proof.
  intros Hl Hid Hm Hf He.
  assert (Hc : extractCover host opfContent zip opfDir = Throws e).
  { rewrite extractCover_no_id by done.
    destruct Hm as [->|[-> ->]]; by apply (readCover_throws _ _ f). }
  split; [|by apply (loadEpub_metadata_throws _ opfContent opfDir)].
  unfold extractMetadata. by rewrite Hc.
Qed.

(** X10. A cover id that the pattern constructor of the host rejects makes
    the whole load fail: the id is pasted into a pattern as it is, and when
    it does not read as a literal text and the constructor throws, the
    exception becomes the error of the component. *)
Theorem malformed_cover_id_fails_the_load (st : AppState) (opfContent opfDir : str)
    (c : char) (cs : str) (e : string) :
  locatePackage zip = Returns (opfContent, opfDir) ->
  findCoverId opfContent = Some (c :: cs) ->
  patternLiteral (c :: cs) = None ->
  RegExp_match1 host (itemById1_source (c :: cs)) = Throws e ->
  extractMetadata host opfContent zip opfDir = Throws e
  ∧ loadEpub host zip st
    = {| metadata := metadata st; chapters := chapters st; loading := false;
         error := "Failed to load EPUB: " ++ e |}.
Proof.
  intros Hl Hid Hp He.
  assert (Hc : extractCover host opfContent zip opfDir = Throws e).
  { unfold extractCover. rewrite Hid. cbn [isTruthy negb].
    rewrite bind_Returns. cbn [isTruthy negb default from_option id].
    unfold coverHrefById, matchById. by rewrite Hp, He. }
  split; [|by apply (loadEpub_metadata_throws _ opfContent opfDir)].
  unfold extractMetadata. by rewrite Hc.
Qed.

End CoverFails.

Lemma unreadable_cover_fails_the_load_witness :
  let opf := Sample.doc "<package><manifest><item id='img' properties='cover-image' href='cover.jpg'/><item id='ch1' href='ch1.xhtml'/></manifest><spine><itemref idref='ch1'/></spine></package>" in
  let zip : gmap (list N) ZipObject :=
    <[lit "OEBPS/cover.jpg" := Sample.unreadable]>
    (<[lit "OEBPS/content.opf" := Sample.entry opf []]> Sample.book) in
  let zip' : gmap (list N) ZipObject :=
    <[lit "OEBPS/cover.jpg" := Sample.unreadable]> Sample.book in
  (extractMetadata Sample.host opf zip (lit "OEBPS/") = Throws "Corrupted zip"
   ∧ loadEpub Sample.host zip initialState
     = {| metadata := metadata initialState; chapters := chapters initialState;
          loading := false; error := "Failed to load EPUB: Corrupted zip" |})
  ∧ (extractMetadata Sample.host Sample.opf zip' (lit "OEBPS/") = Throws "Corrupted zip"
     ∧ loadEpub Sample.host zip' initialState
       = {| metadata := metadata initialState; chapters := chapters initialState;
            loading := false; error := "Failed to load EPUB: Corrupted zip" |}).
Proof.
  intros opf zip zip'. split.
  - assert (E : ∃ m, exec itemCover1 opf = Some m ∧ group1 m = lit "cover.jpg")
      by (vm_compute; eexists; split; reflexivity).
    destruct E as (m & Em & Eg).
    apply (unreadable_cover_fails_the_load Sample.host zip initialState opf (lit "OEBPS/")
             m Sample.unreadable "Corrupted zip").
    + vm_compute. reflexivity.
    + vm_compute. reflexivity.
    + by left.
    + rewrite Eg. vm_compute. reflexivity.
    + reflexivity.
  - assert (E : ∃ m, exec itemCover2 Sample.opf = Some m ∧ group1 m = lit "cover.jpg")
      by (vm_compute; eexists; split; reflexivity).
    destruct E as (m & Em & Eg).
    apply (unreadable_cover_fails_the_load Sample.host zip' initialState Sample.opf
             (lit "OEBPS/") m Sample.unreadable "Corrupted zip").
    + vm_compute. reflexivity.
    + vm_compute. reflexivity.
    + right. split; [vm_compute; reflexivity|exact Em].
    + rewrite Eg. vm_compute. reflexivity.
    + reflexivity.
Defined.

Lemma malformed_cover_id_fails_the_load_witness :
  let opf := Sample.doc "<package><metadata><meta name='cover' content='img(1'/></metadata><manifest><item id='img(1' href='cover.jpg'/></manifest></package>" in
  let zip : gmap (list N) ZipObject :=
    <[lit "OEBPS/content.opf" := Sample.entry opf []]> Sample.book in
  extractMetadata Sample.host opf zip (lit "OEBPS/") = Throws "SyntaxError"
  ∧ loadEpub Sample.host zip initialState
    = {| metadata := metadata initialState; chapters := chapters initialState;
         loading := false; error := "Failed to load EPUB: SyntaxError" |}.
Proof.
  intros opf zip.
  apply (malformed_cover_id_fails_the_load Sample.host zip initialState opf (lit "OEBPS/")
           (ch "i") (lit "mg(1") "SyntaxError").
  - vm_compute. reflexivity.
  - vm_compute. reflexivity.
  - vm_compute. reflexivity.
  - reflexivity.
Defined.

(** *** No tag is left *)

Lemma rest_pushes (a : str) (h : hit) : (pushes a h).2 = h.2.
Proof. induction a as [|c a IH]; [done|]. cbn. by rewrite rest_push. Qed.

Lemma exec_cons_none (r : regex) (c : char) (s : str) :
  exec r (c :: s) = None ↔ matchHere r (c :: s) = None ∧ exec r s = None.
Proof.
  cbn [exec]. destruct (matchHere r (c :: s)); [|by split; [|intros [_ ?]]].
  split; [done|by intros [? _]].
Qed.

Lemma anyTag_Parse (s : str) (h : hit) :
  Parse anyTag s h ->
  ∃ a rest, s = ch "<" :: a ++ ch ">" :: rest ∧ a ≠ [] ∧ noChar (ch ">") a ∧ h.2 = rest.
Proof.
  change anyTag with [One (isCh (ch "<")); Rep true 1 notGt; One (isCh (ch ">"))].
  cbn [Parse]. intros (c & s1 & h1 & -> & Hc & (a & s2 & h2 & -> & Ha & Hn
                       & (d & s3 & h3 & -> & Hd & -> & ->) & ->) & ->).
  unfold isCh in Hc, Hd. apply N.eqb_eq in Hc, Hd. subst c d.
  exists a, s3. split; [done|]. split; [by destruct a; [cbn in Hn; lia|]|].
  split; [by apply notGt_noChar|]. by rewrite rest_push, rest_pushes, rest_push.
Qed.

Lemma anyTag_here (c : char) (t : str) :
  is_Some (matchHere anyTag (c :: t)) ↔ c = ch "<" ∧ closesTag t.
Proof.
  split.
  - intros [h Hh]. apply matchHere_Parse, anyTag_Parse in Hh as (a & rest & E & Ha & Hg & _).
    injection E as -> ->. split; [done|]. destruct a as [|x a]; [done|].
    cbn. split; [by apply Forall_cons in Hg as [? _]|]. set_solver.
  - intros [-> H]. destruct t as [|x t]; [done|]. destruct H as [Hx Hin].
    apply list_elem_of_split_l in Hin as (l1 & l2 & E & Hl1).
    destruct l1 as [|y l1]; [by injection E as ->|]. injection E as <- ->.
    apply (Parse_matchHere _ _ (push (ch "<") (pushes (x :: l1) (push (ch ">") ([[]], l2))))).
    change anyTag with [One (isCh (ch "<")); Rep true 1 notGt; One (isCh (ch ">"))].
    cbn [Parse]. eexists _, _, _. split; [done|]. split; [by_decision|]. split; [|done].
    exists (x :: l1), (ch ">" :: l2), (push (ch ">") ([[]], l2)).
    split; [done|]. split; [by apply notGt_noChar, not_in_noChar|].
    split; [cbn; lia|]. split; [|done].
    eexists _, _, _. split; [done|]. split; [by_decision|]. done.
Qed.

Lemma anyTag_nil : matchHere anyTag [] = None.
Proof. reflexivity. Qed.

Lemma strip_cons_gt (s : str) :
  replaceWith anyTag [] (ch ">" :: s) = ch ">" :: replaceWith anyTag [] s.
Proof. unfold replaceWith. by rewrite replace_miss. Qed.

Lemma strip_no_gt (s : str) : ch ">" ∉ s -> ch ">" ∉ replaceWith anyTag [] s.
Proof.
  intros H. apply noChar_not_in. unfold replaceWith, replace.
  apply replaceFrom_Forall; [by constructor|]. by apply not_in_noChar.
Qed.

Lemma closesTag_strip (s : str) : closesTag (replaceWith anyTag [] s) -> closesTag s.
Proof.
  intros H. destruct (replaceWith anyTag [] s) as [|x out] eqn:E; [done|].
  destruct H as [Hx Hin].
  assert (Hs : ch ">" ∈ s).
  { destruct (decide (ch ">" ∈ s)) as [|Hn]; [done|].
    apply strip_no_gt in Hn. by rewrite E in Hn. }
  destruct s as [|y s]; [by apply elem_of_nil in Hs|].
  split; [|done]. intros ->. rewrite strip_cons_gt in E. by injection E as <-.
Qed.

Lemma strip_leaves_no_tag (s : str) : exec anyTag (replaceWith anyTag [] s) = None.
Proof.
  remember (length s) as n eqn:En. revert s En.
  induction n as [n IH] using lt_wf_ind. intros s En.
  destruct s as [|c s]; [done|].
  unfold replaceWith in *. destruct (matchHere anyTag (c :: s)) as [h|] eqn:Eh.
  - pose proof (matchHere_sound _ _ _ Eh) as Es.
    pose proof (matchHere_Parse _ _ _ Eh) as (a & rest & E & Ha & _ & Er)%anyTag_Parse.
    rewrite (replace_hit _ _ _ h Eh).
    + cbn [app]. apply (IH (length h.2)); [|done].
      rewrite En, Er, E. cbn [length]. rewrite length_app. cbn [length]. lia.
    + intros Em. rewrite Em, app_nil_l in Es. rewrite <- Es, E in Er.
      apply (f_equal length) in Er. cbn [length] in Er. rewrite length_app in Er.
      cbn [length] in Er. lia.
  - rewrite replace_miss by done. apply exec_cons_none. split.
    + destruct (matchHere anyTag (c :: replace anyTag (λ _ : list str, []) s)) eqn:E;
        [|done].
      assert (Hs : is_Some (matchHere anyTag (c :: s))).
      { apply anyTag_here. apply mk_is_Some, anyTag_here in E as [-> H].
        split; [done|]. by apply closesTag_strip. }
      rewrite Eh in Hs. by destruct Hs.
    + apply (IH (length s)); [|done]. rewrite En. cbn. lia.
Qed.

Lemma extend_pushes (t a : str) (h : hit) : extend t (pushes a h) = pushes a (extend t h).
Proof.
  induction a as [|c a IH]; [done|].
  change (pushes (c :: a) h) with (push c (pushes a h)).
  change (pushes (c :: a) (extend t h)) with (push c (pushes a (extend t h))).
  by rewrite extend_push, IH.
Qed.

Lemma Parse_extend (t : str) (r : regex) (s : str) (h : hit) :
  Parse r s h -> Parse r (s ++ t) (extend t h).
Proof.
  revert s h. induction r as [|[p|g n p|p|] r IH]; intros s h; cbn [Parse].
  - intros ->. done.
  - intros (c & s' & h' & -> & Hc & HP & ->). exists c, (s' ++ t), (extend t h').
    split; [done|]. split; [done|]. split; [by apply IH|apply extend_push].
  - intros (a & s' & h' & -> & Ha & Hn & HP & ->). exists a, (s' ++ t), (extend t h').
    split; [by rewrite app_assoc|]. split; [done|]. split; [done|].
    split; [by apply IH|apply extend_pushes].
  - intros [HP|(c & s' & h' & -> & Hc & HP & ->)]; [left; by apply IH|].
    right. exists c, (s' ++ t), (extend t h').
    split; [done|]. split; [done|]. split; [by apply IH|apply extend_push].
  - intros (h' & HP & ->). exists (extend t h'). split; [by apply IH|done].
Qed.

(** A text in which the pattern finds nothing has no part in which it finds
    something. *)
Lemma exec_substring (r : regex) (a s b : str) :
  exec r (a ++ s ++ b) = None -> exec r s = None.
Proof.
  intros H. destruct (exec r s) as [h|] eqn:E; [|done].
  apply exec_Parse in E as [i HP].
  assert (HP' : Parse r (drop (min i (length s)) s) h).
  { destruct (decide (i ≤ length s)%nat); [by rewrite Nat.min_l by lia|].
    rewrite Nat.min_r by lia. rewrite drop_ge in HP by lia. by rewrite drop_all. }
  apply (Parse_extend b) in HP'.
  assert (Hs : is_Some (exec r (a ++ s ++ b))).
  { apply (exec_is_Some _ _ (length a + min i (length s)) (extend b h)).
    rewrite <- drop_drop, drop_app_length, drop_app_le by lia. done. }
  rewrite H in Hs. by destruct Hs.
Qed.

Lemma dropWhile_suffix (p : char -> bool) (s : str) : ∃ a, s = a ++ dropWhile p s.
Proof.
  induction s as [|c s [a IH]]; [by exists []|]. cbn. destruct (p c); [|by exists []].
  exists (c :: a). cbn. by f_equal.
Qed.

Lemma trim_substring (s : str) : ∃ a b, s = a ++ trim s ++ b.
Proof.
  unfold trim, trimStart, trimEnd.
  destruct (dropWhile_suffix isSpace s) as [a Ea].
  destruct (dropWhile_suffix isSpace (reverse (dropWhile isSpace s))) as [b Eb].
  exists a, (reverse b). rewrite <- reverse_app, <- Eb, reverse_involutive. done.
Qed.

Lemma trim_no_tag (s : str) : exec anyTag s = None -> exec anyTag (trim s) = None.
Proof.
  intros H. destruct (trim_substring s) as (a & b & E). rewrite E in H.
  by apply exec_substring in H.
Qed.

(** X11. Removing the tags leaves no tag, and a chapter title never holds a
    tag: the pattern of a tag finds nothing in it. *)
Theorem title_has_no_tag (html : str) :
  exec anyTag (replaceWith anyTag [] html) = None
  ∧ exec anyTag (extractTitle html) = None.
Proof.
  split; [apply strip_leaves_no_tag|]. unfold extractTitle.
  destruct (exec (elementText "h1") html) as [m|];
    [apply trim_no_tag, strip_leaves_no_tag|].
  destruct (exec (elementText "h2") html) as [m|];
    [apply trim_no_tag, strip_leaves_no_tag|].
  destruct (exec (elementText "title") html) as [m|];
    [apply trim_no_tag, strip_leaves_no_tag|].
  by vm_compute.
Qed.

(** *** No tag in the text of a chapter *)

Lemma exec_none_inv (r : regex) (s : str) (k : nat) :
  exec r s = None -> matchHere r (drop k s) = None.
Proof.
  revert k. induction s as [|c s IH]; intros k H.
  - rewrite drop_nil. cbn in H. by destruct (matchHere r []).
  - apply exec_cons_none in H as [H1 H2]. destruct k as [|k]; [done|]. by apply IH.
Qed.

Lemma no_tag_iff (s : str) : exec anyTag s = None ↔ ¬ hasTag s.
Proof.
  split.
  - intros H (a & t & -> & Ht).
    pose proof (exec_none_inv _ _ (length a) H) as Hn. rewrite drop_app_length in Hn.
    assert (Hs : is_Some (matchHere anyTag (ch "<" :: t))) by by apply anyTag_here.
    rewrite Hn in Hs. by destruct Hs.
  - intros H. apply exec_none. intros k.
    destruct (matchHere anyTag (drop k s)) as [h|] eqn:E; [|done].
    destruct (drop k s) as [|c t] eqn:Ed; [done|].
    apply mk_is_Some, anyTag_here in E as [-> Ht].
    destruct H. exists (take k s), t. by rewrite <- Ed, take_drop.
Qed.

Lemma tame_no_tag (g : str -> str) (s : str) : tame g -> hasTag (g s) -> hasTag s.
Proof.
  intros [_ Hg] (A & T & E & HT). destruct (Hg _ _ _ E) as (a & t & -> & Hin & Hgt).
  exists a, t. split; [done|]. destruct T as [|X T]; [done|]. destruct HT as [HX HT].
  specialize (Hin HT). destruct t as [|x t]; [by apply elem_of_nil in Hin|].
  split; [|done]. intros ->. destruct (Hgt t eq_refl) as [T' [= -> _]]. done.
Qed.

Lemma tame_compose (g1 g2 : str -> str) : tame g1 -> tame g2 -> tame (g1 ∘ g2).
Proof.
  intros [H1 K1] [H2 K2]. split.
  - intros l H. by apply H2, H1.
  - intros l A T E. destruct (K1 _ _ _ E) as (a1 & t1 & E1 & Hin1 & Hgt1).
    destruct (K2 _ _ _ E1) as (a & t & -> & Hin & Hgt).
    exists a, t. split; [done|]. split; [by intros ?%Hin1%Hin|].
    intros t' ->. destruct (Hgt t' eq_refl) as [T1 ->]. by apply (Hgt1 T1).
Qed.

Section BarrierReplace.
Context (r : regex) (f : list str -> str) (x : char).
Context (Hb : barrier r x) (Hf : ∀ segs, x ∉ f segs).

Lemma replace_no_new (s : str) : x ∈ replace r f s -> x ∈ s.
Proof.
  intros H. destruct (decide (x ∈ s)) as [|Hn]; [done|]. exfalso.
  revert H. apply noChar_not_in. unfold replace. apply replaceFrom_Forall.
  - intros segs. by apply not_in_noChar.
  - by apply not_in_noChar.
Qed.

Lemma barrier_decompose (s A T : str) :
  replace r f s = A ++ x :: T ->
  ∃ a t, s = a ++ x :: t ∧ A = replace r f a ∧ T = replace r f t.
Proof.
  remember (length s) as n eqn:En. revert s A T En.
  induction n as [n IH] using lt_wf_ind. intros s A T En E.
  assert (Hin : x ∈ s) by (apply replace_no_new; rewrite E; set_solver).
  apply list_elem_of_split_l in Hin as (a0 & t0 & -> & Ha0).
  rewrite replace_barrier in E by done.
  assert (Hra : x ∉ replace r f a0) by (by intros ?%replace_no_new).
  apply char_split_first in E as [[-> ->]|(m & -> & E)]; [by exists a0, t0| |done].
  destruct (IH (length t0)) with (s := t0) (A := m) (T := T) as (a1 & t1 & -> & -> & ->);
    [rewrite En, length_app; cbn; lia|done|done|].
  exists (a0 ++ x :: a1), t1. split; [by rewrite <- app_assoc|].
  split; [by rewrite replace_barrier|done].
Qed.

End BarrierReplace.

Lemma tame_replace (r : regex) (f : list str -> str) :
  barrier r (ch "<") -> barrier r (ch ">") ->
  (∀ segs, ch "<" ∉ f segs) -> (∀ segs, ch ">" ∉ f segs) ->
  matchHere r [] = None ->
  tame (replace r f).
Proof.
  intros Bl Bg Fl Fg Hnil. split.
  - intros l. by apply replace_no_new.
  - intros l A T E. destruct (barrier_decompose r f _ Bl Fl _ _ _ E) as (a & t & -> & -> & ->).
    exists a, t. split; [done|]. split; [by apply replace_no_new|].
    intros t' ->. exists (replace r f t').
    pose proof (replace_barrier r f (ch ">") [] t' Bg) as E'.
    rewrite replace_nil, Hnil in E'. exact E'.
Qed.

Lemma dropWhile_prefix (p : char -> bool) (s : str) :
  ∃ a, s = a ++ dropWhile p s ∧ Forall (fun c => p c = true) a.
Proof.
  induction s as [|c s (a & IH & Ha)]; [by exists []|]. cbn. destruct (p c) eqn:E.
  - exists (c :: a). split; [cbn; by f_equal|by constructor].
  - by exists [].
Qed.

Lemma trim_between (s : str) :
  ∃ a b, s = a ++ trim s ++ b ∧ Forall (fun c => isSpace c = true) b.
Proof.
  unfold trim, trimStart, trimEnd.
  destruct (dropWhile_prefix isSpace s) as (a & Ea & _).
  destruct (dropWhile_prefix isSpace (reverse (dropWhile isSpace s))) as (b & Eb & Hb).
  exists a, (reverse b). split; [|by apply Forall_reverse].
  rewrite <- reverse_app, <- Eb, reverse_involutive. done.
Qed.

Lemma tame_trim : tame trim.
Proof.
  split.
  - intros l H. destruct (trim_between l) as (a & b & -> & _). set_solver.
  - intros l A T E. destruct (trim_between l) as (a & b & El & Hb).
    exists (a ++ A), (T ++ b). split; [rewrite El at 1; rewrite E; by rewrite <- !app_assoc|].
    split; [set_solver|]. intros t' Et. destruct T as [|X T].
    + cbn in Et. subst b. apply Forall_cons in Hb as [Hb _]. done.
    + injection Et as -> _. by exists T.
Qed.

Lemma join_cons (sep l l' : str) (ls : list str) :
  join sep (l :: l' :: ls) = l ++ sep ++ join sep (l' :: ls).
Proof. reflexivity. Qed.

Lemma join_split (x : char) (s : str) : join [x] (split x s) = s.
Proof.
  induction s as [|c s IH]; [done|]. cbn [split].
  pose proof (split_nonempty x s) as Hne.
  destruct (split x s) as [|l ls] eqn:E; [done|]. destruct (c =? x) eqn:Ec.
  - apply N.eqb_eq in Ec as ->. rewrite join_cons, IH. done.
  - destruct ls as [|l' ls]; [cbn in *; by rewrite IH|].
    rewrite join_cons. rewrite join_cons in IH. by rewrite <- IH.
Qed.

Section Lines.
Context (g : str -> str) (Hg : tame g).

Lemma lines_gt (ls : list str) :
  ch ">" ∈ join [LF] (g <$> ls) -> ch ">" ∈ join [LF] ls.
Proof.
  induction ls as [|l [|l' ls] IH]; [done|destruct Hg as [Hg1 _]; by apply Hg1|].
  change (g <$> l :: l' :: ls) with (g l :: g l' :: (g <$> ls)).
  rewrite !join_cons. intros [H|[H|H]%elem_of_app]%elem_of_app.
  - apply elem_of_app. left. destruct Hg as [Hg1 _]. by apply Hg1.
  - apply list_elem_of_singleton in H. by vm_compute in H.
  - apply elem_of_app. right. apply elem_of_app. right. by apply IH.
Qed.

Lemma lines_decompose (ls : list str) (A T : str) :
  join [LF] (g <$> ls) = A ++ ch "<" :: T ->
  ∃ a t, join [LF] ls = a ++ ch "<" :: t
         ∧ (ch ">" ∈ T -> ch ">" ∈ t)
         ∧ (∀ t', t = ch ">" :: t' -> ∃ T', T = ch ">" :: T').
Proof.
  revert A T. induction ls as [|l [|l' ls] IH]; intros A T E.
  - by destruct A.
  - destruct Hg as [_ Hg2]. by apply (Hg2 l A T).
  - change (g <$> l :: l' :: ls) with (g l :: g l' :: (g <$> ls)) in E.
    rewrite join_cons in E. rewrite join_cons.
    change (g l' :: (g <$> ls)) with (g <$> l' :: ls) in E.
    apply app_char_split in E as [(R' & E & ->)|(L' & -> & E)].
    + destruct Hg as [_ Hg2]. destruct (Hg2 _ _ _ E) as (a & t & -> & Hin & Hgt).
      exists a, (t ++ [LF] ++ join [LF] (l' :: ls)).
      split; [by rewrite <- app_assoc|]. split.
      * intros [H|[H|H]%elem_of_app]%elem_of_app.
        -- apply elem_of_app. left. by apply Hin.
        -- apply list_elem_of_singleton in H. by vm_compute in H.
        -- apply elem_of_app. right. apply elem_of_app. right. by apply lines_gt.
      * intros t' Et. destruct t as [|y t]; [by vm_compute in Et|].
        injection Et as -> _. destruct (Hgt t eq_refl) as [T' ->]. by eexists.
    + destruct L' as [|y L']; [by vm_compute in E|]. injection E as <- E.
      destruct (IH _ _ E) as (a & t & Ea & Hin & Hgt).
      exists (l ++ [LF] ++ a), t. split; [rewrite Ea; by rewrite <- !app_assoc|done].
Qed.

Lemma tame_lines : tame (fun s => join [LF] (g <$> split LF s)).
Proof.
  split.
  - intros s H. apply lines_gt in H. by rewrite join_split in H.
  - intros s A T E. apply lines_decompose in E. by rewrite join_split in E.
Qed.

End Lines.

Lemma tame_cleanLine : tame cleanLine.
Proof.
  apply (tame_compose (replaceWith [plus isSpace] (lit " ")) trim); [|apply tame_trim].
  apply tame_replace; try done; try by_decision; intros _; by_decision.
Qed.

Lemma tame_cleanLines : tame cleanLines.
Proof.
  unfold cleanLines.
  apply (tame_compose
           (replaceWith [One (isCh LF); star isSpace; One (isCh LF); star isSpace;
                         One (isCh LF)] [LF; LF])
           (fun text =>
              replaceWith [One (isCh LF); One (isCh bullet); star isSpace; One (isCh LF)]
                [LF]
                (replaceWith [Rep true 3 (isCh LF)] [LF; LF]
                   (join [LF] (cleanLine <$> split LF text))))).
  { apply tame_replace; try done; try by_decision; intros _; by_decision. }
  apply (tame_compose
           (replaceWith [One (isCh LF); One (isCh bullet); star isSpace; One (isCh LF)] [LF])
           (fun text => replaceWith [Rep true 3 (isCh LF)] [LF; LF]
                          (join [LF] (cleanLine <$> split LF text)))).
  { apply tame_replace; try done; try by_decision; intros _; by_decision. }
  apply (tame_compose (replaceWith [Rep true 3 (isCh LF)] [LF; LF])
           (fun text => join [LF] (cleanLine <$> split LF text))).
  { apply tame_replace; try done; try by_decision; intros _; by_decision. }
  apply tame_lines, tame_cleanLine.
Qed.

Section NoTag.
Context (host : Host).

(** X12. The text of a chapter holds no tag, whatever the markup was: the
    pattern of a tag finds nothing in the result of [extractTextFromHtml]. *)
Theorem chapter_text_has_no_tag (html : str) (titleToRemove : option str) :
  exec anyTag (extractTextFromHtml host html titleToRemove) = None.
Proof.
  unfold extractTextFromHtml. apply no_tag_iff. intros H.
  apply (tame_no_tag trim), (tame_no_tag cleanLines) in H;
    [|apply tame_cleanLines|apply tame_trim].
  revert H. apply no_tag_iff, strip_leaves_no_tag.
Qed.

End NoTag.

(** *** Blank lines *)

(** What is left after a match is left by its last items. *)
Lemma rest_ends (Q : str -> Prop) (r0 r1 : regex) :
  (∀ s h, matchHere r1 s = Some h -> Q h.2) ->
  ∀ s h, matchHere (r0 ++ r1) s = Some h -> Q h.2.
Proof.
  intros H1. induction r0 as [|i r0 IH]; [exact H1|].
  assert (Hrep : ∀ g p n s h, rep g n p (matchHere (r0 ++ r1)) s = Some h -> Q h.2).
  { intros g p n s. revert n. induction s as [|c s IHs]; intros n h.
    - destruct n; cbn [rep]; [apply IH|done].
    - destruct n as [|n]; cbn [rep].
      + destruct g.
        * destruct (p c); [|apply IH].
          destruct (rep true 0 p _ s) as [h'|] eqn:E; [|apply IH].
          intros [= <-]. rewrite rest_push. by apply (IHs 0%nat).
        * destruct (matchHere (r0 ++ r1) (c :: s)) as [h'|] eqn:E;
            [intros [= <-]; by apply (IH _ _ E)|].
          destruct (p c); [|done].
          destruct (rep false 0 p _ s) as [h'|] eqn:E'; [|done].
          intros [= <-]. rewrite rest_push. by apply (IHs 0%nat).
      + destruct (p c); [|done].
        destruct (rep g n p _ s) as [h'|] eqn:E'; [|done].
        intros [= <-]. rewrite rest_push. by apply (IHs n). }
  intros s h. rewrite <- app_comm_cons. destruct i as [p|g n p|p|]; cbn [matchHere].
  - destruct s as [|c s]; [done|]. destruct (p c); [|done].
    destruct (matchHere (r0 ++ r1) s) as [h'|] eqn:E; [|done].
    intros [= <-]. rewrite rest_push. by apply (IH _ _ E).
  - apply Hrep.
  - destruct s as [|c s]; [apply IH|]. destruct (p c); [|apply IH].
    destruct (matchHere (r0 ++ r1) s) as [h'|] eqn:E; [|apply IH].
    intros [= <-]. rewrite rest_push. by apply (IH _ _ E).
  - destruct (matchHere (r0 ++ r1) s) as [h'|] eqn:E; [|done].
    intros [= <-]. by apply (IH _ _ E).
Qed.


(** A greedy [\s*\n] at the end of a pattern takes the last line feed of the
    white space. *)
Lemma spaces_then_LF (s : str) (h : hit) :
  matchHere [star isSpace; One (isCh LF)] s = Some h -> ¬ startsLF h.2.
Proof.
  change (matchHere [star isSpace; One (isCh LF)] s)
    with (rep true 0 isSpace (matchHere [One (isCh LF)]) s).
  revert h. induction s as [|c s IH]; intros h; [done|]. cbn [rep].
  assert (Hk : matchHere [One (isCh LF)] (c :: s) = Some h -> ¬ startsLF h.2
               ∨ is_Some (rep true 0 isSpace (matchHere [One (isCh LF)]) s)).
  { cbn [matchHere]. destruct (isCh LF c); [|done]. intros [= <-]. cbn.
    destruct s as [|d s]; [left; by intros [? ?]|].
    destruct (decide (d = LF)) as [->|Hd]; [|left; intros [? [= ? _]]; done].
    right. cbn [rep]. change (isSpace LF) with true. cbv iota.
    destruct (rep true 0 isSpace _ s); [done|]. by cbn. }
  destruct (isSpace c) eqn:Ec.
  - destruct (rep true 0 isSpace _ s) as [h'|] eqn:E.
    + intros [= <-]. rewrite rest_push. by apply IH.
    + intros H. destruct (Hk H) as [?|[? ?]]; done.
  - intros H. cbn [matchHere] in H. destruct (isCh LF c) eqn:El; [|done].
    unfold isCh in El. apply N.eqb_eq in El. subst c. by vm_compute in Ec.
Qed.


Lemma blankLines_rest (s : str) (h : hit) :
  matchHere blankLines s = Some h -> ¬ startsLF h.2.
Proof.
  apply (rest_ends (fun t => ¬ startsLF t)
           [One (isCh LF); star isSpace; One (isCh LF)] [star isSpace; One (isCh LF)]).
  apply spaces_then_LF.
Qed.

Lemma blankLines_Parse (w1 w2 rest : str) :
  Forall (fun c => isSpace c = true) w1 -> Forall (fun c => isSpace c = true) w2 ->
  is_Some (matchHere blankLines (LF :: w1 ++ LF :: w2 ++ LF :: rest)).
Proof.
  intros H1 H2.
  apply (Parse_matchHere _ _
           (push LF (pushes w1 (push LF (pushes w2 (push LF ([[]], rest))))))).
  unfold blankLines. cbn [Parse].
  eexists _, _, _. split; [done|]. split; [done|]. split; [|done].
  exists w1, (LF :: w2 ++ LF :: rest), (push LF (pushes w2 (push LF ([[]], rest)))).
  split; [done|]. split; [done|]. split; [lia|]. split; [|done].
  eexists _, _, _. split; [done|]. split; [done|]. split; [|done].
  exists w2, (LF :: rest), (push LF ([[]], rest)).
  split; [done|]. split; [done|]. split; [lia|]. split; [|done].
  eexists _, _, _. split; [done|]. split; [done|]. done.
Qed.

Lemma blankLines_inv (s : str) (h : hit) :
  matchHere blankLines s = Some h ->
  ∃ w1 w2 rest, s = LF :: w1 ++ LF :: w2 ++ LF :: rest
                ∧ Forall (fun c => isSpace c = true) w1
                ∧ Forall (fun c => isSpace c = true) w2.
Proof.
  intros H%matchHere_Parse. unfold blankLines in H. cbn [Parse] in H.
  destruct H as (c & s1 & h1 & -> & Hc & (w1 & s2 & h2 & -> & H1 & _
                 & (d & s3 & h3 & -> & Hd & (w2 & s4 & h4 & -> & H2 & _
                 & (e & s5 & h5 & -> & He & _ & _) & _) & _) & _) & _).
  unfold isCh in Hc, Hd, He. apply N.eqb_eq in Hc, Hd, He. subst c d e.
  by exists w1, w2, s5.
Qed.

Local Abbreviation squeeze := (replace blankLines (fun _ => [LF; LF])).

Lemma squeeze_cons (c : char) (s : str) :
  matchHere blankLines (c :: s) = None -> squeeze (c :: s) = c :: squeeze s.
Proof. apply replace_miss. Qed.

Lemma squeeze_hit (s : str) (h : hit) :
  matchHere blankLines s = Some h ->
  squeeze s = LF :: LF :: squeeze h.2 ∧ (length h.2 < length s)%nat.
Proof.
  intros H. pose proof (matchHere_sound _ _ _ H) as Es.
  destruct (blankLines_inv _ _ H) as (w1 & w2 & rest & E & _).
  assert (Hm : matched h ≠ []).
  { intros Em. rewrite Em, app_nil_l in Es. pose proof (blankLines_rest _ _ H) as Hr.
    apply Hr. rewrite <- Es, E. by eexists. }
  split; [by rewrite (replace_hit _ _ _ h H Hm)|].
  apply (f_equal length) in Es. rewrite length_app in Es.
  destruct (matched h); [done|]. cbn in Es. lia.
Qed.

Lemma squeeze_startsLF (s : str) : startsLF (squeeze s) -> startsLF s.
Proof.
  destruct s as [|c s]; [by intros [? ?]|].
  destruct (matchHere blankLines (c :: s)) as [h|] eqn:E.
  - intros _. destruct (blankLines_inv _ _ E) as (w1 & w2 & rest & -> & _). by eexists.
  - rewrite squeeze_cons by done. intros [s' [= -> _]]. by eexists.
Qed.

Lemma squeeze_two (s : str) :
  (∃ t, squeeze s = LF :: LF :: t) -> is_Some (matchHere blankLines (LF :: s)).
Proof.
  intros [t Et]. destruct (matchHere blankLines s) as [h|] eqn:E.
  - destruct (blankLines_inv _ _ E) as (w1 & w2 & rest & -> & H1 & H2).
    apply (blankLines_Parse (LF :: w1) w2 rest); [by constructor|done].
  - destruct s as [|c s]; [done|]. rewrite squeeze_cons in Et by done.
    injection Et as -> Et.
    destruct (squeeze_startsLF s) as [s' ->]; [by eexists|].
    apply (blankLines_Parse [] [] s'); constructor.
Qed.

Lemma startsWith_cons (a b : char) (p s : str) :
  startsWith (a :: p) (b :: s) = (a =? b) && startsWith p s.
Proof. reflexivity. Qed.

Lemma squeeze_no_three (s : str) : includes [LF; LF; LF] (squeeze s) = false.
Proof.
  remember (length s) as n eqn:En. revert s En.
  induction n as [n IH] using lt_wf_ind. intros s En.
  destruct s as [|c s]; [done|].
  destruct (matchHere blankLines (c :: s)) as [h|] eqn:E.
  - destruct (squeeze_hit _ _ E) as [-> Hlen].
    assert (Hr : ¬ startsLF (squeeze h.2)).
    { intros H%squeeze_startsLF. by apply (blankLines_rest _ _ E). }
    rewrite !includes_cons, (IH (length h.2)) by (done || lia).
    destruct (squeeze h.2) as [|d t] eqn:Et; [done|].
    destruct (decide (d = LF)) as [->|Hd]; [destruct Hr; by eexists|].
    apply N.eqb_neq in Hd. rewrite !startsWith_cons, (N.eqb_sym LF d), Hd.
    by rewrite !andb_false_r.
  - rewrite squeeze_cons by done.
    rewrite includes_cons, (IH (length s)) by (done || (rewrite En; cbn; lia)).
    rewrite orb_false_r.
    destruct (startsWith [LF; LF; LF] (c :: squeeze s)) eqn:Es; [|done].
    exfalso. destruct (squeeze s) as [|d [|e t]] eqn:Et;
      [by rewrite startsWith_cons, andb_false_r in Es
      |by rewrite !startsWith_cons, !andb_false_r in Es|].
    rewrite !startsWith_cons in Es.
    apply andb_true_iff in Es as [Ec [Ed [Ee _]%andb_true_iff]%andb_true_iff].
    apply N.eqb_eq in Ec, Ed, Ee. subst c d e.
    assert (Hs : is_Some (matchHere blankLines (LF :: s))) by (apply squeeze_two; by eexists).
    rewrite E in Hs. by destruct Hs.
Qed.

Lemma includes_app_l (w s b : str) : includes w s = true -> includes w (s ++ b) = true.
Proof.
  induction s as [|c s IH].
  - destruct w as [|a w]; [intros _; apply includes_nil|done].
  - rewrite <- app_comm_cons, !includes_cons.
    intros [H|H]%orb_true_iff; apply orb_true_iff; [left|right; by apply IH].
    revert H. rewrite app_comm_cons. generalize (c :: s). clear. intros u. revert u.
    induction w as [|a w IH]; intros u; [done|]. destruct u as [|c u]; [done|].
    rewrite <- app_comm_cons, !startsWith_cons.
    intros [-> H]%andb_true_iff. by rewrite (IH _ H).
Qed.

Section NoThree.
Context (host : Host).

(** X13. The text of a chapter never has three line feeds in a row: between
    two paragraphs there is at most one empty line. *)
Theorem chapter_text_has_no_three_line_feeds (html : str) (titleToRemove : option str) :
  includes [LF; LF; LF] (extractTextFromHtml host html titleToRemove) = false.
Proof.
  unfold extractTextFromHtml.
  set (X := replaceWith anyTag [] _).
  destruct (includes [LF; LF; LF] (trim (cleanLines X))) eqn:E; [|done].
  destruct (trim_substring (cleanLines X)) as (a & b & Ec).
  apply (includes_app_l _ _ b), (includes_app_r _ a) in E. rewrite <- Ec in E.
  unfold cleanLines in E.
  change (replaceWith [One (isCh LF); star isSpace; One (isCh LF); star isSpace;
                       One (isCh LF)] [LF; LF])
    with squeeze in E.
  by rewrite squeeze_no_three in E.
Qed.

End NoThree.

(** *** White space around the text *)

Lemma trim_trim (s : str) : trim (trim s) = trim s.
Proof.
  destruct (trim_shape s) as [He Hh]. unfold trim at 1.
  assert (trimStart (trim s) = trim s) as ->.
  { unfold trimStart. destruct (trim s) as [|c t]; [done|]. cbn. by rewrite Hh. }
  by apply trimEnd_ends.
Qed.

Section Trimmed.
Context (host : Host).

(** X14. Neither the text of a chapter nor its title begins or ends with
    white space: trimming them again changes nothing. *)
Theorem text_and_title_are_trimmed (html : str) (titleToRemove : option str) :
  trim (extractTextFromHtml host html titleToRemove)
  = extractTextFromHtml host html titleToRemove
  ∧ trim (extractTitle html) = extractTitle html.
Proof.
  split; [apply trim_trim|]. unfold extractTitle.
  destruct (exec (elementText "h1") html) as [m|]; [apply trim_trim|].
  destruct (exec (elementText "h2") html) as [m|]; [apply trim_trim|].
  destruct (exec (elementText "title") html) as [m|]; [apply trim_trim|].
  by vm_compute.
Qed.

End Trimmed.

(** *** Where the title of a chapter comes from *)

Lemma elementText_first (name : string) (pre attrs txt post : str) :
  noChar (ch "<") (lit name) ->
  includesCI (ch "<" :: lit name) pre = false ->
  noChar (ch ">") attrs ->
  Forall (fun c => isLineTerminator c = false ∧ c ≠ ch "<") txt ->
  exec (elementText name)
    (pre ++ lit "<" ++ lit name ++ attrs ++ lit ">" ++ txt
     ++ lit "</" ++ lit name ++ lit ">" ++ post)
  = Some ([lit "<" ++ lit name ++ attrs ++ lit ">"; txt;
           lit "</" ++ lit name ++ lit ">"], post).
Proof.
  intros Hn Hpre Ha Ht. rewrite exec_skip.
  - by apply exec_here, elementText_here.
  - intros i Hi. destruct (elementText_head name) as [r ->].
    apply matchHere_letters_none.
    change (lit "<" ++ lit name ++ attrs ++ lit ">" ++ txt
            ++ lit "</" ++ lit name ++ lit ">" ++ post)
      with (ch "<" :: lit name ++ attrs ++ lit ">" ++ txt
            ++ lit "</" ++ lit name ++ lit ">" ++ post).
    by apply startsWithCI_before_lt.
Qed.

Lemma elementText_absent (name : string) (s : str) :
  includesCI (ch "<" :: lit name) s = false -> exec (elementText name) s = None.
Proof.
  intros H. apply exec_none. intros k.
  destruct (elementText_head name) as [r ->].
  apply matchHere_letters_none. by apply includesCI_none.
Qed.

Lemma strip_plain (txt : str) :
  Forall (fun c => isLineTerminator c = false ∧ c ≠ ch "<") txt ->
  replaceWith anyTag [] txt = txt.
Proof.
  intros H. unfold replaceWith. apply (replace_id_head _ _ (isCh (ch "<")) ([plus notGt] ++ cs ">"));
    [done|].
  eapply Forall_impl; [exact H|]. intros c [_ Hc]. unfold isCh. by apply N.eqb_neq.
Qed.


(** X15. The title of a chapter is the text of its first [h1], whatever
    stands before it or after it; without an [h1] that of the first [h2];
    without both that of the first [title]; without any of the three it is
    [Chapter].  (The text on one line and without markup; it is trimmed.) *)
Theorem chapter_title_source (pre attrs txt post : str) :
  noChar (ch ">") attrs ->
  Forall (fun c => isLineTerminator c = false ∧ c ≠ ch "<") txt ->
  (includesCI (lit "<h1") pre = false ->
     extractTitle (withElement "h1" pre attrs txt post) = trim txt)
  ∧ (includesCI (lit "<h1") (withElement "h2" pre attrs txt post) = false ->
     includesCI (lit "<h2") pre = false ->
     extractTitle (withElement "h2" pre attrs txt post) = trim txt)
  ∧ (includesCI (lit "<h1") (withElement "title" pre attrs txt post) = false ->
     includesCI (lit "<h2") (withElement "title" pre attrs txt post) = false ->
     includesCI (lit "<title") pre = false ->
     extractTitle (withElement "title" pre attrs txt post) = trim txt)
  ∧ (∀ html, includesCI (lit "<h1") html = false ->
       includesCI (lit "<h2") html = false ->
       includesCI (lit "<title") html = false ->
       extractTitle html = lit "Chapter").
Proof.
  intros Ha Ht. unfold withElement, extractTitle. split; [|split; [|split]].
  - intros H1. rewrite (elementText_first "h1") by (done || by_decision).
    cbn [group1 groupOf fst lookup list_lookup default from_option id].
    by rewrite strip_plain.
  - intros H1 H2. rewrite (elementText_absent "h1") by done.
    rewrite (elementText_first "h2") by (done || by_decision).
    cbn [group1 groupOf fst lookup list_lookup default from_option id].
    by rewrite strip_plain.
  - intros H1 H2 H3. rewrite (elementText_absent "h1"), (elementText_absent "h2") by done.
    rewrite (elementText_first "title") by (done || by_decision).
    cbn [group1 groupOf fst lookup list_lookup default from_option id].
    by rewrite strip_plain.
  - intros html H1 H2 H3.
    by rewrite (elementText_absent "h1"), (elementText_absent "h2"),
      (elementText_absent "title").
Qed.

Lemma chapter_title_source_witness :
  extractTitle
    (withElement "h1" (lit "<html><head><title>Book</title></head><body><h2>Part One</h2>")
       (lit " class='t'") (lit " The Beginning ") (lit "<p>Text</p></body></html>"))
  = lit "The Beginning".
Proof.
  destruct (chapter_title_source
              (lit "<html><head><title>Book</title></head><body><h2>Part One</h2>")
              (lit " class='t'") (lit " The Beginning ") (lit "<p>Text</p></body></html>"))
    as [H _]; [by_decision|by_decision|].
  rewrite H; [|by vm_compute]. by vm_compute.
Defined.

(** *** Every match of a pattern *)

Lemma matchAllFrom_skip (r : regex) (k : nat) (s : str) :
  (k ≤ length s)%nat -> matchAllFrom r k s = matchAllFrom r 0 (drop k s).
Proof.
  revert k. induction s as [|c s IH]; intros k Hk.
  - cbn in Hk. by replace k with 0%nat by lia.
  - destruct k as [|k]; [done|]. cbn [matchAllFrom drop]. apply IH. cbn in Hk. lia.
Qed.

Lemma matchAll_nil (r : regex) : matchHere r [] = None -> matchAll r [] = [].
Proof. intros H. unfold matchAll. cbn. by rewrite H. Qed.

Lemma matchAll_miss (r : regex) (c : char) (s : str) :
  matchHere r (c :: s) = None -> matchAll r (c :: s) = matchAll r s.
Proof. intros H. unfold matchAll. cbn [matchAllFrom]. by rewrite H. Qed.

Lemma matchAll_hit (r : regex) (s : str) (h : hit) :
  matchHere r s = Some h -> matched h ≠ [] ->
  matchAll r s = matched h :: matchAll r h.2.
Proof.
  intros H Hm. pose proof (matchHere_sound _ _ _ H) as Es.
  destruct s as [|c s]; [by destruct (matched h)|].
  unfold matchAll. cbn [matchAllFrom]. rewrite H. f_equal.
  destruct (matched h) as [|d m] eqn:Em; [done|]. cbn [length Nat.pred].
  injection Es as -> ->. rewrite matchAllFrom_skip by (rewrite length_app; lia).
  by rewrite drop_app_length.
Qed.

Lemma matchAll_skip (r : regex) (u s : str) :
  (∀ i, (i < length u)%nat -> matchHere r (drop i (u ++ s)) = None) ->
  matchAll r (u ++ s) = matchAll r s.
Proof.
  induction u as [|c u IH]; intros H; [done|].
  rewrite <- app_comm_cons, matchAll_miss.
  - apply IH. intros i Hi. apply (H (S i)). cbn. lia.
  - apply (H 0%nat). cbn. lia.
Qed.

(** *** Where a literal text does not begin *)

Lemma matchHere_literal_none (w : str) (r : regex) (s : str) :
  startsWith w s = false -> matchHere (literal w ++ r) s = None.
Proof.
  revert s. induction w as [|a w IH]; intros s; [done|].
  destruct s as [|c s]; [done|]. rewrite startsWith_cons.
  change (literal (a :: w) ++ r) with (One (isCh a) :: literal w ++ r).
  cbn [matchHere]. unfold isCh. rewrite (N.eqb_sym c a).
  destruct (a =? c); [|done]. cbn [andb]. intros H. by rewrite (IH _ H).
Qed.

Lemma startsWith_includes (w : str) (i : nat) (s : str) :
  startsWith w (drop i s) = true -> includes w s = true.
Proof.
  intros H. apply (includes_drop _ i).
  destruct (drop i s); cbn [includes]; by rewrite H.
Qed.

Lemma startsWith_runs_over (w u s : str) :
  startsWith w (u ++ s) = true ->
  startsWith w u = true ∨ (Forall (fun c => c ∈ w) u ∧ ∀ x b, s = x :: b -> x ∈ w).
Proof.
  revert w. induction u as [|a u IH]; intros w.
  - destruct w as [|c w]; [by left|]. intros H. right. split; [done|].
    intros x b ->. rewrite app_nil_l, startsWith_cons in H.
    apply andb_true_iff in H as [->%N.eqb_eq _]. set_solver.
  - destruct w as [|c w]; [by left|].
    rewrite <- app_comm_cons, !startsWith_cons.
    intros [Hc H]%andb_true_iff. rewrite Hc. apply N.eqb_eq in Hc as ->.
    destruct (IH _ H) as [->|[HF Hx]]; [by left|]. right. split.
    + constructor; [set_solver|]. eapply Forall_impl; [exact HF|]. set_solver.
    + intros x b E. specialize (Hx x b E). set_solver.
Qed.

(** No occurrence of [w] begins in [u], when [u] has none and ends with a
    character that [w] does not have, or is followed by a character that
    [w] has only as its first. *)
Lemma no_start_after (w u : str) (y : char) (s : str) (i : nat) :
  includes w (u ++ [y]) = false -> y ∉ w -> (i < length (u ++ [y]))%nat ->
  startsWith w (drop i ((u ++ [y]) ++ s)) = false.
Proof.
  intros Hu Hy Hi. destruct (startsWith w (drop i ((u ++ [y]) ++ s))) eqn:E; [|done].
  exfalso. rewrite drop_app_le in E by lia.
  apply startsWith_runs_over in E as [E|[E _]].
  - apply startsWith_includes in E. congruence.
  - apply Hy. rewrite length_app in Hi. cbn in Hi.
    rewrite drop_app_le in E by lia. apply Forall_app in E as [_ E].
    by apply Forall_cons in E as [? _].
Qed.

Lemma no_start_before (w' u : str) (x : char) (rest : str) (i : nat) :
  x ∉ w' -> includes (x :: w') u = false -> (i < length u)%nat ->
  startsWith (x :: w') (drop i (u ++ x :: rest)) = false.
Proof.
  intros Hx Hu Hi. destruct (startsWith _ (drop i (u ++ x :: rest))) eqn:E; [|done].
  exfalso. rewrite drop_app_le in E by lia.
  destruct (drop i u) as [|a v] eqn:Ed.
  { apply (f_equal length) in Ed. rewrite length_drop in Ed. cbn in Ed. lia. }
  pose proof E as E0. rewrite <- app_comm_cons, startsWith_cons in E0.
  apply andb_true_iff in E0 as [->%N.eqb_eq E0].
  apply startsWith_runs_over in E0 as [E0|[_ E0]].
  - assert (startsWith (a :: w') (drop i u) = true)
      by (by rewrite Ed, startsWith_cons, N.eqb_refl).
    apply startsWith_includes in H. congruence.
  - by apply Hx, (E0 a rest).
Qed.

Lemma no_start_at_end (w u : str) (i : nat) :
  includes w u = false -> startsWith w (drop i (u ++ [])) = false.
Proof.
  intros Hu. rewrite app_nil_r. destruct (startsWith w (drop i u)) eqn:E; [|done].
  apply startsWith_includes in E. congruence.
Qed.

(** *** A package document that is well formed *)

Lemma plainValue_noChar (x : str) :
  plainValue x ->
  noChar quote x ∧ noChar (ch "=") x ∧ noChar (ch "<") x ∧ noChar (ch ">") x.
Proof.
  intros H. repeat split; (eapply Forall_impl; [exact H|]); intros c (?&?&?&?); done.
Qed.

Lemma star_prefix (p : char -> bool) (k : str -> option hit) (a s : str) (h : hit) :
  Forall (fun c => p c = true) a -> rep true 0 p k s = Some h ->
  rep true 0 p k (a ++ s) = Some (pushes a h).
Proof.
  intros Ha Hs. induction Ha as [|c a Hc _ IH]; [done|].
  rewrite <- app_comm_cons. cbn [rep]. by rewrite Hc, IH.
Qed.

(** A greedy star gives way to what follows at the first place only when what
    follows fits at no later place of the run. *)
Lemma star_only_here (p : char -> bool) (k : str -> option hit) (b t : str) :
  Forall (fun c => p c = true) b ->
  match t with c :: _ => p c = false | [] => True end ->
  (∀ j, (1 ≤ j ≤ length b)%nat -> k (drop j (b ++ t)) = None) ->
  rep true 0 p k (b ++ t) = k (b ++ t).
Proof.
  intros Hb Ht. induction Hb as [|c b Hc _ IH]; intros Hk.
  - destruct t as [|c t]; [done|]. cbn [app rep]. by rewrite Ht.
  - rewrite <- app_comm_cons. cbn [rep]. rewrite Hc, IH.
    + assert (H1 : k (b ++ t) = None) by (apply (Hk 1%nat); cbn; lia).
      by rewrite H1.
    + intros j Hj. apply (Hk (S j)). cbn. lia.
Qed.

Lemma attrValue_here (name : string) (v rest : str) :
  v ≠ [] -> noChar quote v ->
  matchHere (attrValue name) (lit name ++ lit "=" ++ [quote] ++ v ++ quote :: rest)
  = Some ([lit name ++ lit "=" ++ [quote]; v; [quote]], rest).
Proof.
  intros Hv Hq. destruct v as [|c v]; [done|]. apply Forall_cons in Hq as [Hc Hq].
  unfold attrValue, cs.
  rewrite matchHere_literal_app, matchHere_literal_app.
  change (q ++ [Mark; plus notQuote; Mark] ++ q)
    with (One (isCh quote) :: Mark :: Rep true 1 notQuote :: Mark :: q).
  change ([quote] ++ (c :: v) ++ quote :: rest) with (quote :: c :: v ++ quote :: rest).
  rewrite matchHere_One by apply N.eqb_refl.
  rewrite matchHere_Mark, matchHere_Rep. cbn [rep].
  assert (Hpc : notQuote c = true) by (unfold notQuote, isNot; by apply negb_true_iff, N.eqb_neq).
  rewrite Hpc.
  rewrite (star_all notQuote _ v (quote :: rest) (mark (push quote ([[]], rest)))).
  - cbn [fmap option_fmap option_map]. unfold mark, push. cbn [fst snd].
    rewrite pushes_cons. cbn [fst snd]. rewrite !pushes_cons.
    cbn [fst snd]. by rewrite app_nil_r.
  - by apply notQuote_noChar.
  - done.
  - rewrite matchHere_Mark. unfold q. by rewrite matchHere_One by apply N.eqb_refl.
Qed.

Lemma open_tag_here (w a rest : str) :
  noChar (ch ">") a ->
  matchHere (literal w ++ [star notGt] ++ cs ">") (w ++ a ++ ch ">" :: rest)
  = Some ([w ++ a ++ [ch ">"]], rest).
Proof.
  intros Ha. rewrite matchHere_literal_app.
  change ([star notGt] ++ cs ">") with (Rep true 0 notGt :: cs ">").
  rewrite matchHere_Rep.
  rewrite (star_all notGt _ a (ch ">" :: rest) (push (ch ">") ([[]], rest))).
  - cbn [fmap option_fmap option_map]. unfold push. cbn [fst snd].
    by rewrite !pushes_cons.
  - by apply notGt_noChar.
  - done.
  - done.
Qed.

Section Skipping.
Context (w : str) (r' : regex).
Local Abbreviation r := (literal w ++ r').

Lemma skip_after (u : str) (y : char) (s : str) :
  includes w (u ++ [y]) = false -> y ∉ w ->
  matchAll r ((u ++ [y]) ++ s) = matchAll r s.
Proof.
  intros Hu Hy. apply matchAll_skip. intros i Hi.
  apply matchHere_literal_none. by apply no_start_after.
Qed.

Lemma skip_end (u : str) : w ≠ [] -> includes w u = false -> matchAll r u = [].
Proof.
  intros Hw Hu. rewrite <- (app_nil_r u), matchAll_skip.
  - apply matchAll_nil. apply matchHere_literal_none. by destruct w.
  - intros i Hi. apply matchHere_literal_none. by apply no_start_at_end.
Qed.

End Skipping.

Lemma skip_before (x : char) (w' : str) (r' : regex) (u rest : str) :
  x ∉ w' -> includes (x :: w') u = false ->
  matchAll (literal (x :: w') ++ r') (u ++ x :: rest)
  = matchAll (literal (x :: w') ++ r') (x :: rest).
Proof.
  intros Hx Hu. apply matchAll_skip. intros i Hi.
  apply matchHere_literal_none. by apply no_start_before.
Qed.

Lemma includes_longer (w v s : str) : includes w s = false -> includes (w ++ v) s = false.
Proof.
  intros H. destruct (includes (w ++ v) s) eqn:E; [|done]. exfalso.
  assert (Hs : ∀ t, startsWith (w ++ v) t = true -> startsWith w t = true).
  { clear. induction w as [|a w IH]; intros t; [done|]. destruct t as [|c t]; [done|].
    rewrite <- app_comm_cons, !startsWith_cons. intros [-> H]%andb_true_iff.
    by rewrite (IH _ H). }
  induction s as [|c s IH].
  - cbn in E, H. rewrite orb_false_r in E, H. apply Hs in E. congruence.
  - rewrite includes_cons in E, H. apply orb_false_iff in H as [H1 H2].
    apply orb_true_iff in E as [E|E]; [apply Hs in E; congruence|by apply IH].
Qed.

(** the pattern of the spine and the pattern of the manifest *)
Lemma itemref_here (id rest : str) :
  plainValue id -> id ≠ [] ->
  matchHere (cs "<itemref" ++ [star notGt] ++ attrValue "idref") (itemrefOf id ++ rest)
  = Some ([lit "<itemref " ++ lit "idref" ++ lit "=" ++ [quote]; id; [quote]],
          lit "/>" ++ rest).
Proof.
  intros Hp Hne. destruct (plainValue_noChar _ Hp) as (Hq & He & Hl & Hg).
  unfold itemrefOf, cs.
  change (lit "<itemref idref=" ++ [quote] ++ id ++ [quote] ++ lit "/>")
    with (lit "<itemref" ++ [32] ++ lit "idref" ++ lit "=" ++ [quote] ++ id
          ++ [quote] ++ lit "/>").
  rewrite <- !app_assoc, matchHere_literal_app.
  change ([star notGt] ++ attrValue "idref") with (Rep true 0 notGt :: attrValue "idref").
  rewrite matchHere_Rep.
  set (s1 := lit "idref" ++ lit "=" ++ [quote] ++ id ++ [quote] ++ lit "/>" ++ rest).
  assert (Hk : matchHere (attrValue "idref") s1
               = Some ([lit "idref" ++ lit "=" ++ [quote]; id; [quote]], lit "/>" ++ rest)).
  { unfold s1. by apply attrValue_here. }
  assert (Hs : rep true 0 notGt (matchHere (attrValue "idref")) s1
               = matchHere (attrValue "idref") s1).
  { assert (E1 : s1 = (lit "idref=" ++ [quote] ++ id ++ [quote; ch "/"]) ++ ch ">" :: rest)
      by (unfold s1; rewrite <- !app_assoc; reflexivity).
    rewrite E1. apply star_only_here.
    - apply notGt_noChar. apply Forall_app. split; [by_decision|].
      apply Forall_cons. split; [done|].
      apply Forall_app. split; [done|by_decision].
    - done.
    - intros j Hj.
      change (attrValue "idref")
        with (literal (lit "idref=" ++ [quote]) ++ [Mark; plus notQuote; Mark] ++ q).
      apply matchHere_literal_none.
      do 7 (destruct j as [|j]; [try lia; reflexivity|]).
      change (S (S (S (S (S (S (S j))))))) with (7 + j)%nat.
      rewrite <- drop_drop.
      change (drop 7 ((lit "idref=" ++ [quote] ++ id ++ [quote; ch "/"]) ++ ch ">" :: rest))
        with ((id ++ [quote; ch "/"]) ++ ch ">" :: rest).
      destruct (startsWith (lit "idref=" ++ [quote])
                  (drop j ((id ++ [quote; ch "/"]) ++ ch ">" :: rest))) eqn:E; [|done].
      exfalso.
      assert (Hj' : (j ≤ length (id ++ [quote; ch "/"]))%nat).
      { rewrite !length_app in Hj. rewrite length_app. cbn in Hj. cbn. lia. }
      rewrite drop_app_le in E by done.
      apply startsWith_runs_over in E as [E|[_ E]].
      + apply startsWith_includes in E.
        rewrite (includes_noChar (ch "=")) in E; [done|by_decision|].
        apply Forall_app. split; [done|by_decision].
      + specialize (E _ _ eq_refl). revert E. by_decision. }
  match goal with
  | |- pushes _ <$> ?A = _ =>
      assert (Hstar : A = Some (pushes [32] ([lit "idref" ++ lit "=" ++ [quote]; id; [quote]],
                                         lit "/>" ++ rest)))
        by (apply star_prefix; [by constructor|exact (eq_trans Hs Hk)]);
      rewrite Hstar
  end.
  cbn [fmap option_fmap option_map]. rewrite !pushes_cons. done.
Qed.

Lemma itemOf_shape (e : str * str) :
  itemOf e
  = lit "<item" ++ (lit " id=" ++ [quote] ++ e.1 ++ [quote] ++ lit " href=" ++ [quote]
                    ++ e.2 ++ [quote; ch "/"]) ++ [ch ">"].
Proof. unfold itemOf, itemIdFirst. rewrite <- !app_assoc. reflexivity. Qed.

Lemma itemrefOf_shape (id : str) :
  itemrefOf id = lit "<item" ++ (lit "ref idref=" ++ [quote] ++ id ++ [quote; ch "/"])
                 ++ [ch ">"].
Proof. unfold itemrefOf. rewrite <- !app_assoc. reflexivity. Qed.

Lemma itemOf_inside (e : str * str) :
  plainValue e.1 -> plainValue e.2 ->
  noChar (ch ">") (lit " id=" ++ [quote] ++ e.1 ++ [quote] ++ lit " href=" ++ [quote]
                   ++ e.2 ++ [quote; ch "/"])
  ∧ noChar (ch "<") (lit "item" ++ (lit " id=" ++ [quote] ++ e.1 ++ [quote]
                     ++ lit " href=" ++ [quote] ++ e.2 ++ [quote; ch "/"]) ++ [ch ">"]).
Proof.
  intros (_ & _ & Hl1 & Hg1)%plainValue_noChar (_ & _ & Hl2 & Hg2)%plainValue_noChar.
  split; repeat (apply Forall_app; split); try done; by_decision.
Qed.

Lemma itemrefOf_inside (id : str) :
  plainValue id -> noChar (ch ">") (lit "ref idref=" ++ [quote] ++ id ++ [quote; ch "/"]).
Proof.
  intros (_ & _ & _ & Hg)%plainValue_noChar.
  repeat (apply Forall_app; split); try done; by_decision.
Qed.

(** *** The manifest of a well-formed package document *)

Local Abbreviation Ritem := (cs "<item" ++ [star notGt] ++ cs ">").
Local Abbreviation Rref := (cs "<itemref" ++ [star notGt] ++ attrValue "idref").

Lemma tag_element (el a rest : str) :
  el = lit "<item" ++ a ++ [ch ">"] -> noChar (ch ">") a ->
  matchAll Ritem (el ++ rest) = el :: matchAll Ritem rest.
Proof.
  intros -> Ha.
  assert (H : matchHere Ritem ((lit "<item" ++ a ++ [ch ">"]) ++ rest)
              = Some ([lit "<item" ++ a ++ [ch ">"]], rest)).
  { rewrite <- !app_assoc. by apply (open_tag_here (lit "<item")). }
  rewrite (matchAll_hit _ _ _ H); [|done].
  cbn [matched fst snd concat]. by rewrite app_nil_r.
Qed.

Lemma tag_elements (els : list str) (rest : str) :
  Forall (fun el => ∃ a, el = lit "<item" ++ a ++ [ch ">"] ∧ noChar (ch ">") a) els ->
  matchAll Ritem (concat els ++ rest) = els ++ matchAll Ritem rest.
Proof.
  induction 1 as [|el els (a & E & Ha) _ IH]; [done|].
  cbn [concat]. rewrite <- app_assoc, (tag_element el a) by done. by rewrite IH.
Qed.

Section Package.
Context (metadata : str) (entries : list (str * str)) (spine : list str).
Context (Hm : includes (lit "<item") metadata = false).
Context (He : Forall (fun e => plainValue e.1 ∧ plainValue e.2 ∧ e.2 ≠ []) entries).
Context (Hs : Forall (fun id => plainValue id ∧ id ≠ []) spine).

Lemma manifestItems_package :
  manifestItems (packageOf metadata entries spine)
  = (itemOf <$> entries) ++ (itemrefOf <$> spine).
Proof.
  unfold manifestItems, packageOf.
  change (lit "<package>" ++ ?s) with ((lit "<package" ++ [ch ">"]) ++ s).
  rewrite (skip_after (lit "<item")) by by_decision.
  change (lit "<manifest>" ++ ?s) with (ch "<" :: (lit "manifest" ++ [ch ">"]) ++ s).
  rewrite (skip_before (ch "<") (lit "item")) by (done || by_decision).
  rewrite matchAll_miss by done.
  rewrite (skip_after (lit "<item")) by by_decision.
  rewrite tag_elements.
  2: { apply Forall_fmap. eapply Forall_impl; [exact He|]. intros e (H1 & H2 & _). cbn.
       eexists. split; [apply itemOf_shape|]. by apply itemOf_inside. }
  f_equal.
  change (lit "</manifest><spine>" ++ ?s) with ((lit "</manifest><spine" ++ [ch ">"]) ++ s).
  rewrite (skip_after (lit "<item")) by by_decision.
  rewrite tag_elements.
  2: { apply Forall_fmap. eapply Forall_impl; [exact Hs|]. intros id (H1 & _). cbn.
       eexists. split; [apply itemrefOf_shape|]. by apply itemrefOf_inside. }
  rewrite (skip_end (lit "<item")) by by_decision. by rewrite app_nil_r.
Qed.

Lemma itemOf_no_itemref (e : str * str) :
  plainValue e.1 -> plainValue e.2 -> includes (lit "<itemref") (itemOf e) = false.
Proof.
  intros H1 H2. destruct (itemOf_inside e H1 H2) as [_ Hl]. rewrite itemOf_shape.
  change (lit "<item" ++ ?a) with (ch "<" :: lit "item" ++ a).
  rewrite includes_cons. apply orb_false_iff. split; [reflexivity|].
  apply (includes_noChar (ch "<")); [by_decision|done].
Qed.

Lemma itemref_elements (ids : list str) (rest : str) :
  Forall (fun id => plainValue id ∧ id ≠ []) ids ->
  matchAll Rref (concat (itemrefOf <$> ids) ++ rest)
  = ((fun id => lit "<itemref idref=" ++ [quote] ++ id ++ [quote]) <$> ids)
    ++ matchAll Rref rest.
Proof.
  induction 1 as [|id ids [Hp Hne] _ IH]; [done|].
  rewrite !fmap_cons. cbn [concat]. rewrite <- app_assoc.
  rewrite (matchAll_hit _ _ _ (itemref_here id _ Hp Hne)) by done.
  cbn [matched fst snd concat]. rewrite app_nil_r.
  change (lit "/>" ++ ?s) with ((lit "/" ++ [ch ">"]) ++ s).
  rewrite (skip_after (lit "<itemref")) by by_decision.
  change (literal (lit "<itemref")) with (cs "<itemref").
  rewrite IH, <- app_comm_cons. by f_equal.
Qed.

Lemma item_elements_no_itemref (es : list (str * str)) (rest : str) :
  Forall (fun e => plainValue e.1 ∧ plainValue e.2 ∧ e.2 ≠ []) es ->
  matchAll Rref (concat (itemOf <$> es) ++ rest) = matchAll Rref rest.
Proof.
  induction 1 as [|e es (H1 & H2 & _) _ IH]; [done|].
  rewrite fmap_cons. cbn [concat]. rewrite <- app_assoc.
  pose proof (itemOf_no_itemref e H1 H2) as Hn.
  rewrite itemOf_shape in Hn |- *. rewrite (app_assoc (lit "<item")) in Hn |- *.
  by rewrite (skip_after (lit "<itemref")) by (done || by_decision).
Qed.

Lemma itemRefs_package :
  matchAll Rref (packageOf metadata entries spine)
  = (fun id => lit "<itemref idref=" ++ [quote] ++ id ++ [quote]) <$> spine.
Proof.
  unfold packageOf.
  change (lit "<package>" ++ ?s) with ((lit "<package" ++ [ch ">"]) ++ s).
  rewrite (skip_after (lit "<itemref")) by by_decision.
  change (lit "<manifest>" ++ ?s) with (ch "<" :: (lit "manifest" ++ [ch ">"]) ++ s).
  rewrite (skip_before (ch "<") (lit "itemref"))
    by (by_decision || by apply (includes_longer (lit "<item") (lit "ref"))).
  rewrite matchAll_miss by done.
  rewrite (skip_after (lit "<itemref")) by by_decision.
  rewrite item_elements_no_itemref by done.
  change (lit "</manifest><spine>" ++ ?s) with ((lit "</manifest><spine" ++ [ch ">"]) ++ s).
  rewrite (skip_after (lit "<itemref")) by by_decision.
  rewrite itemref_elements by done.
  rewrite (skip_end (lit "<itemref")) by by_decision. by rewrite app_nil_r.
Qed.

Lemma idref_of_match (id : str) :
  plainValue id -> id ≠ [] ->
  exec (attrValue "idref") (lit "<itemref idref=" ++ [quote] ++ id ++ [quote])
  = Some ([lit "idref" ++ lit "=" ++ [quote]; id; [quote]], []).
Proof.
  intros (Hq & _)%plainValue_noChar Hne.
  change (lit "<itemref idref=" ++ [quote] ++ id ++ [quote])
    with (lit "<itemref " ++ (lit "idref" ++ lit "=" ++ [quote] ++ id ++ [quote])).
  rewrite exec_skip.
  - apply exec_here. by apply (attrValue_here "idref" id []).
  - intros i Hi. unfold attrValue, cs.
    apply matchHere_literal_none.
    do 9 (destruct i as [|i]; [reflexivity|]). cbn in Hi. lia.
Qed.

Lemma spineIds_package : spineIds (packageOf metadata entries spine) = spine.
Proof.
  unfold spineIds. rewrite itemRefs_package. rewrite <- list_fmap_compose.
  clear Hm He. revert Hs. generalize spine. intros ids.
  induction 1 as [|x ids' [Hp Hne] _ IH]; [done|].
  rewrite fmap_cons. unfold compose at 1. rewrite (idref_of_match x Hp Hne).
  cbn [group1 groupOf fst lookup list_lookup default from_option id].
  rewrite filter_cons_True by done. f_equal. exact IH.
Qed.

End Package.

(** *** Looking an id up in the manifest *)

Lemma includes_skip (w u s : str) :
  (∀ i, (i < length u)%nat -> startsWith w (drop i (u ++ s)) = false) ->
  includes w (u ++ s) = includes w s.
Proof.
  induction u as [|c u IH]; intros H; [done|].
  rewrite <- app_comm_cons, includes_cons.
  pose proof (H 0%nat ltac:(cbn; lia)) as H0.
  rewrite drop_0, <- app_comm_cons in H0. rewrite H0. cbn [orb].
  apply IH. intros i Hi. apply (H (S i)). cbn. lia.
Qed.

Lemma startsWith_longer (w v t : str) :
  startsWith w t = false -> startsWith (w ++ v) t = false.
Proof.
  revert t. induction w as [|a w IH]; intros t; [done|].
  destruct t as [|c t]; [done|].
  rewrite <- app_comm_cons, !startsWith_cons.
  destruct (a =? c); [|done]. cbn [andb]. apply IH.
Qed.

(** An occurrence of [w ++ v] begins with one of [w]: a stretch that has no
    [w] and ends with a character that is not in [w] can be passed over. *)
Lemma includes_skip_after (w v u : str) (y : char) (s : str) :
  includes w (u ++ [y]) = false -> y ∉ w ->
  includes (w ++ v) ((u ++ [y]) ++ s) = includes (w ++ v) s.
Proof.
  intros Hu Hy. apply includes_skip. intros i Hi.
  apply startsWith_longer. by apply no_start_after.
Qed.

Lemma includes_plain_quote (w x : str) :
  bool_decide (ch "=" ∈ w) = true -> plainValue x -> includes w (x ++ [quote]) = false.
Proof.
  intros Hw%bool_decide_eq_true (_ & He & _)%plainValue_noChar.
  apply (includes_noChar (ch "=")); [done|].
  apply Forall_app. split; [done|by_decision].
Qed.

(** [id=\x22x\x22], as [find] looks for it *)
Local Abbreviation idQuoted x := (lit "id=" ++ [quote] ++ x ++ [quote]).

Lemma includes_id_item (x : str) (e : str * str) :
  plainValue x -> plainValue e.1 -> plainValue e.2 ->
  includes (idQuoted x) (itemOf e) = bool_decide (e.1 = x).
Proof.
  intros Hx H1 H2. destruct e as [i h]. cbn [fst snd] in *.
  unfold itemOf, itemIdFirst. cbn [fst snd].
  pose proof (plainValue_noChar _ Hx) as (Hxq & _).
  pose proof (plainValue_noChar _ H1) as (Hiq & _).
  change (lit "<item id=" ++ [quote] ++ i ++ [quote] ++ lit " href=" ++ [quote] ++ h
          ++ [quote] ++ lit "/>")
    with ((lit "<item" ++ [32]) ++ lit "id=" ++ [quote] ++ i ++ [quote]
          ++ lit " href=" ++ [quote] ++ h ++ [quote] ++ lit "/>").
  rewrite (includes_skip_after (lit "id=")) by by_decision.
  change (lit "id=" ++ [quote] ++ i ++ ?r) with (ch "i" :: (lit "d=" ++ [quote]) ++ i ++ r).
  rewrite includes_cons.
  assert (Hrest : includes (idQuoted x)
                    ((lit "d=" ++ [quote]) ++ i ++ [quote] ++ lit " href=" ++ [quote] ++ h
                     ++ [quote] ++ lit "/>") = false).
  { rewrite (includes_skip_after (lit "id=")) by by_decision.
    rewrite (app_assoc i [quote]).
    rewrite (includes_skip_after (lit "id=")) by first [by apply includes_plain_quote|by_decision].
    change (lit " href=" ++ [quote] ++ ?r) with ((lit " href=" ++ [quote]) ++ r).
    rewrite (includes_skip_after (lit "id=")) by by_decision.
    rewrite (app_assoc h [quote]).
    rewrite (includes_skip_after (lit "id=")) by first [by apply includes_plain_quote|by_decision].
    by apply (includes_longer (lit "id=")). }
  rewrite Hrest, orb_false_r.
  change (startsWith (idQuoted x) (ch "i" :: (lit "d=" ++ [quote]) ++ i ++ ?r))
    with (startsWith (x ++ [quote]) (i ++ r)).
  case_bool_decide as E.
  - subst x. rewrite (app_assoc i [quote]). apply startsWith_app.
  - destruct (startsWith _ _) eqn:Es; [|done]. exfalso. apply E. symmetry.
    eapply (startsWith_same_end quote x i); [| |exact Es];
      intros Hin; eapply Forall_forall in Hin; eauto; done.
Qed.

Lemma includes_id_itemref (x y : str) :
  plainValue y -> includes (idQuoted x) (itemrefOf y) = false.
Proof.
  intros Hy. unfold itemrefOf.
  change (lit "<itemref idref=" ++ [quote] ++ y ++ [quote] ++ lit "/>")
    with ((lit "<itemref idref=" ++ [quote]) ++ y ++ [quote] ++ lit "/>").
  rewrite (includes_skip_after (lit "id=")) by by_decision.
  rewrite (app_assoc y [quote]).
  rewrite (includes_skip_after (lit "id=")) by first [by apply includes_plain_quote|by_decision].
  by apply (includes_longer (lit "id=")).
Qed.

Lemma findItem_cons (i : str) (items : list str) (x : str) :
  findItem (i :: items) x
  = if includes (idQuoted x) i then Some i else findItem items x.
Proof.
  unfold findItem. cbn [list_find].
  match goal with |- context [decide (?b = true)] => destruct b eqn:E end.
  - by rewrite decide_True.
  - rewrite decide_False by done.
    by destruct (list_find _ items) as [[k it]|].
Qed.

Lemma findItem_itemrefs (ids : list str) (x : str) :
  Forall plainValue ids -> findItem (itemrefOf <$> ids) x = None.
Proof.
  induction 1 as [|y ids Hy _ IH]; [done|].
  by rewrite fmap_cons, findItem_cons, includes_id_itemref.
Qed.

Lemma findItem_package (entries : list (str * str)) (spine : list str) (x : str) :
  Forall (fun e => plainValue e.1 ∧ plainValue e.2) entries -> Forall plainValue spine ->
  plainValue x ->
  findItem ((itemOf <$> entries) ++ (itemrefOf <$> spine)) x
  = itemOf <$> entryWithId entries x.
Proof.
  intros He Hs Hx. induction He as [|e entries [H1 H2] _ IH].
  - by rewrite fmap_nil, app_nil_l, findItem_itemrefs.
  - rewrite fmap_cons, <- app_comm_cons, findItem_cons, includes_id_item by done.
    unfold entryWithId in *. cbn [list_find]. case_bool_decide as E.
    + by rewrite decide_True.
    + rewrite decide_False by done. rewrite IH.
      by destruct (list_find _ entries) as [[k it]|].
Qed.

(** *** The href of a manifest item *)

Lemma exec_skip_after (w : str) (r' : regex) (u : str) (y : char) (s : str) :
  includes w (u ++ [y]) = false -> y ∉ w ->
  exec (literal w ++ r') ((u ++ [y]) ++ s) = exec (literal w ++ r') s.
Proof.
  intros Hu Hy. apply exec_skip. intros i Hi.
  apply matchHere_literal_none. by apply no_start_after.
Qed.

Lemma href_of_item (e : str * str) :
  plainValue e.1 -> plainValue e.2 -> e.2 ≠ [] ->
  exec (attrValue "href") (itemOf e)
  = Some ([lit "href" ++ lit "=" ++ [quote]; e.2; [quote]], lit "/>").
Proof.
  destruct e as [i h]. cbn [fst snd]. intros H1 H2 Hne.
  pose proof (plainValue_noChar _ H2) as (Hhq & _).
  unfold itemOf, itemIdFirst. cbn [fst snd].
  change (lit "<item id=" ++ [quote] ++ i ++ [quote] ++ lit " href=" ++ [quote] ++ h
          ++ [quote] ++ lit "/>")
    with ((lit "<item id=" ++ [quote]) ++ i ++ [quote] ++ ([] ++ [32])
          ++ lit "href" ++ lit "=" ++ [quote] ++ h ++ quote :: lit "/>").
  set (s := lit "href" ++ lit "=" ++ [quote] ++ h ++ quote :: lit "/>").
  assert (Hr : attrValue "href"
               = literal (lit "href=") ++ (q ++ [Mark; plus notQuote; Mark] ++ q))
    by reflexivity.
  rewrite Hr at 1.
  rewrite exec_skip_after by by_decision.
  rewrite (app_assoc i [quote]).
  rewrite exec_skip_after by first [by apply includes_plain_quote|by_decision].
  rewrite exec_skip_after by by_decision.
  rewrite <- Hr. apply exec_here. by apply attrValue_here.
Qed.

(** *** The chapters of a well-formed package document *)

Lemma entryWithId_elem (entries : list (str * str)) (x : str) (e : str * str) :
  entryWithId entries x = Some e -> e ∈ entries ∧ e.1 = x.
Proof.
  unfold entryWithId. destruct (list_find _ entries) as [[k e']|] eqn:E; [|done].
  intros [= <-]. apply list_find_Some in E as (Hk & He & _).
  split; [by eapply list_elem_of_lookup_2|done].
Qed.

Lemma chapterOfIdref_package (host : Host) (zip : gmap (list N) ZipObject)
    (opfDir : str) (entries : list (str * str)) (spine : list str) (x : str) :
  Forall (fun e => plainValue e.1 ∧ plainValue e.2 ∧ e.2 ≠ []) entries ->
  Forall plainValue spine -> plainValue x ->
  chapterOfIdref host ((itemOf <$> entries) ++ (itemrefOf <$> spine)) zip opfDir x
  = e ← entryWithId entries x; chapterAt host zip (opfDir ++ e.2).
Proof.
  intros He Hs Hx. unfold chapterOfIdref.
  rewrite findItem_package;
    [|eapply Forall_impl; [exact He|]; by intros ? (? & ? & ?)|done|done].
  destruct (entryWithId entries x) as [e|] eqn:E; [|done].
  apply entryWithId_elem in E as [Hin _].
  eapply Forall_forall in He as (H1 & H2 & Hne); [|exact Hin].
  cbn [fmap option_fmap option_map mbind option_bind].
  rewrite href_of_item by done.
  cbn [mbind option_bind group1 groupOf fst lookup list_lookup default from_option id].
  reflexivity.
Qed.

(** X16. A package document written the plain way (a metadata block without
    an item element, a manifest of items with an id and a non-empty href, a
    spine of itemref elements, the values without a double quote, an equals
    sign or an angle bracket): the chapters are read in the order of the
    spine, each from the archive entry that the directory and the href of the
    first manifest item with that id name; an id that no item has, an entry
    that is missing or unreadable, and a text that is blank give no
    chapter. *)
Theorem chapters_of_a_plain_package (host : Host) (zip : gmap (list N) ZipObject)
    (opfDir metadata : str) (entries : list (str * str)) (spine : list str) :
  includes (lit "<item") metadata = false ->
  Forall (fun e => plainValue e.1 ∧ plainValue e.2 ∧ e.2 ≠ []) entries ->
  Forall (fun id => plainValue id ∧ id ≠ []) spine ->
  extractChapters host (packageOf metadata entries spine) zip opfDir
  = Returns (omap (fun id => e ← entryWithId entries id;
                             chapterAt host zip (opfDir ++ e.2)) spine).
Proof.
  intros Hm He Hs.
  rewrite extractChapters_omap, manifestItems_package, spineIds_package by done.
  f_equal.
  assert (Hp : Forall plainValue spine)
    by (eapply Forall_impl; [exact Hs|]; by intros ? [? ?]).
  assert (Hall : ∀ ids, Forall plainValue ids ->
            omap (chapterOfIdref host ((itemOf <$> entries) ++ (itemrefOf <$> spine))
                    zip opfDir) ids
            = omap (fun id => e ← entryWithId entries id;
                              chapterAt host zip (opfDir ++ e.2)) ids).
  { induction 1 as [|x ids Hx _ IH]; [done|].
    rewrite !omap_cons, IH. by rewrite chapterOfIdref_package. }
  by apply Hall.
Qed.

(** X17. In such a package document the spine is read back as it was
    written, and the list that the ids are looked up in holds the items of
    the manifest followed by the itemref elements of the spine, which the
    pattern of the items matches as well. *)
Theorem spine_and_manifest_of_a_plain_package (metadata : str)
    (entries : list (str * str)) (spine : list str) :
  includes (lit "<item") metadata = false ->
  Forall (fun e => plainValue e.1 ∧ plainValue e.2 ∧ e.2 ≠ []) entries ->
  Forall (fun id => plainValue id ∧ id ≠ []) spine ->
  spineIds (packageOf metadata entries spine) = spine
  ∧ manifestItems (packageOf metadata entries spine)
    = (itemOf <$> entries) ++ (itemrefOf <$> spine).
Proof.
  intros Hm He Hs. split; [by apply spineIds_package|by apply manifestItems_package].
Qed.

Lemma chapters_of_a_plain_package_witness :
  let entries := [(lit "c1", lit "one.xhtml"); (lit "c2", lit "two.xhtml");
                  (lit "c1", lit "other.xhtml"); (lit "css", lit "style.css")] in
  let spine := [lit "c2"; lit "nav"; lit "c1"; lit "css"] in
  let zip : gmap (list N) ZipObject :=
    <[lit "OEBPS/one.xhtml" := Sample.entry (lit "<h1>One</h1><p>First</p>") []]>
    (<[lit "OEBPS/two.xhtml" := Sample.entry (lit "<h1>Two</h1><p>Second</p>") []]>
    (<[lit "OEBPS/other.xhtml" := Sample.entry (lit "<h1>Other</h1><p>Third</p>") []]> ∅)) in
  extractChapters Sample.host
    (packageOf (lit "<metadata><dc:title>T</dc:title></metadata>") entries spine)
    zip (lit "OEBPS/")
  = Returns [ {| content := lit "Second"; chapterTitle := lit "Two" |};
              {| content := lit "First"; chapterTitle := lit "One" |} ].
Proof.
  intros entries spine zip.
  etrans; [apply (chapters_of_a_plain_package Sample.host zip (lit "OEBPS/")
                    (lit "<metadata><dc:title>T</dc:title></metadata>") entries spine)|].
  - vm_compute. reflexivity.
  - unfold plainValue. by_decision.
  - unfold plainValue. by_decision.
  - vm_compute. reflexivity.
Defined.

Lemma spine_and_manifest_of_a_plain_package_witness :
  let opf := packageOf (lit "<metadata><dc:title>T</dc:title></metadata>")
               [(lit "c1", lit "one.xhtml")] [lit "c1"; lit "c2"] in
  spineIds opf = [lit "c1"; lit "c2"]
  ∧ manifestItems opf
    = [dq "<item id='c1' href='one.xhtml'/>"; dq "<itemref idref='c1'/>";
       dq "<itemref idref='c2'/>"].
Proof.
  intros opf.
  destruct (spine_and_manifest_of_a_plain_package
              (lit "<metadata><dc:title>T</dc:title></metadata>")
              [(lit "c1", lit "one.xhtml")] [lit "c1"; lit "c2"]) as [H1 H2].
  - vm_compute. reflexivity.
  - unfold plainValue. by_decision.
  - unfold plainValue. by_decision.
  - split; [exact H1|]. etrans; [exact H2|]. vm_compute. reflexivity.
Defined.

(** *** What stands around the body *)

(** The lazy star stops at the first place where what follows matches, when
    it matches at no place before. *)
Lemma lazy_over (p : char -> bool) (k : str -> option hit) (a s : str) (h : hit) :
  Forall (fun c => p c = true) a ->
  (∀ i, (i < length a)%nat -> k (drop i (a ++ s)) = None) ->
  k s = Some h -> rep false 0 p k (a ++ s) = Some (pushes a h).
Proof.
  intros Ha Hn Hk. induction Ha as [|c a Hc Ha IH].
  - destruct s as [|c s]; cbn [app rep]; by rewrite Hk.
  - pose proof (Hn 0%nat ltac:(cbn; lia)) as H0. rewrite drop_0 in H0.
    rewrite <- app_comm_cons in H0 |- *. cbn [rep]. rewrite H0, Hc, IH; [done|].
    intros i Hi. apply (Hn (S i)). cbn. lia.
Qed.

Local Abbreviation bodyPattern :=
  (ci "<body" ++ [star notGt] ++ cs ">" ++ [Mark; lazyStar any; Mark] ++ ci "</body>").

Lemma body_here (attrs b post : str) :
  noChar (ch ">") attrs -> includesCI (lit "</body>") b = false ->
  matchHere bodyPattern (lit "<body" ++ attrs ++ lit ">" ++ b ++ lit "</body>" ++ post)
  = Some ([lit "<body" ++ attrs ++ lit ">"; b; lit "</body>"], post).
Proof.
  intros Ha Hb. unfold ci at 1. rewrite matchHere_letters.
  change ([star notGt] ++ cs ">" ++ [Mark; lazyStar any; Mark] ++ ci "</body>")
    with (Rep true 0 notGt
            :: literal (lit ">") ++ Mark :: Rep false 0 any :: Mark :: ci "</body>").
  rewrite matchHere_Rep.
  assert (Hend : matchHere (Mark :: ci "</body>") (lit "</body>" ++ post)
                 = Some ([[]; lit "</body>"], post)).
  { rewrite matchHere_Mark. unfold ci.
    rewrite <- (app_nil_r (lettersCI (lit "</body>"))), matchHere_letters.
    cbn [matchHere fmap option_fmap option_map]. rewrite pushes_cons.
    by rewrite app_nil_r. }
  erewrite star_all; [| |done|].
  2: { eapply Forall_impl; [exact Ha|]. intros c Hc. unfold notGt, isNot.
       apply negb_true_iff. by apply N.eqb_neq. }
  2: { rewrite matchHere_literal_app, matchHere_Mark, matchHere_Rep.
       erewrite lazy_over; [reflexivity| | |exact Hend].
       - by apply Forall_true.
       - intros i Hi. rewrite matchHere_Mark.
         change (ci "</body>") with (lettersCI (ch "<" :: lit "/body>") ++ []).
         rewrite matchHere_letters_none; [done|].
         change (lit "</body>" ++ post) with (ch "<" :: lit "/body>" ++ post).
         apply startsWithCI_before_lt; [by_decision|done|done]. }
  cbn [fmap option_fmap option_map]. unfold mark. cbn [fst snd].
  repeat (rewrite pushes_cons; cbn [fst snd]).
  by rewrite !app_nil_r, <- ?app_assoc.
Qed.

Lemma body_absent (s : str) :
  includesCI (lit "<body") s = false -> isolateBody s = s.
Proof.
  intros H. unfold isolateBody. rewrite exec_none; [done|]. intros k.
  unfold ci at 1. apply matchHere_letters_none. by apply includesCI_none.
Qed.

Section Body.
Context (host : Host).

(** X18. Of a document with a body element, only what stands inside the
    element reaches the text: the head before it, the attributes of its tag
    and what follows its end are left out, and the text is the one that the
    content of the body alone would give. *)
Theorem only_the_body_is_read (pre attrs b post : str) (titleToRemove : option str) :
  includesCI (lit "<body") pre = false ->
  noChar (ch ">") attrs ->
  includesCI (lit "<body") b = false ->
  includesCI (lit "</body>") b = false ->
  isolateBody (pre ++ lit "<body" ++ attrs ++ lit ">" ++ b ++ lit "</body>" ++ post) = b
  ∧ extractTextFromHtml host
      (pre ++ lit "<body" ++ attrs ++ lit ">" ++ b ++ lit "</body>" ++ post) titleToRemove
    = extractTextFromHtml host b titleToRemove.
Proof.
  intros Hpre Ha Hb1 Hb2.
  assert (E : isolateBody (pre ++ lit "<body" ++ attrs ++ lit ">" ++ b ++ lit "</body>" ++ post)
              = b).
  { unfold isolateBody. rewrite exec_skip.
    - by rewrite (exec_here _ _ _ (body_here attrs b post Ha Hb2)).
    - intros i Hi. unfold ci at 1. apply matchHere_letters_none.
      change (lit "<body" ++ ?r) with (ch "<" :: lit "body" ++ r).
      apply (startsWithCI_before_lt (lit "body")); [by_decision|done|done]. }
  split; [exact E|]. unfold extractTextFromHtml. by rewrite E, (body_absent b).
Qed.

End Body.

Lemma only_the_body_is_read_witness :
  extractTextFromHtml Sample.host
    (lit "<html><head><title>Book</title><style>p { color: red }</style></head>"
     ++ lit "<body" ++ lit " class='c'" ++ lit ">" ++ lit "<p>One</p><p>Two</p>"
     ++ lit "</body>" ++ lit "</html> trailing") None
  = [79; 110; 101; LF; LF; 84; 119; 111].
Proof.
  destruct (only_the_body_is_read Sample.host
              (lit "<html><head><title>Book</title><style>p { color: red }</style></head>")
              (lit " class='c'") (lit "<p>One</p><p>Two</p>") (lit "</html> trailing") None)
    as [_ H]; [by vm_compute|by_decision|by vm_compute|by vm_compute|].
  rewrite H. by vm_compute.
Defined.

(** *** The white space of the text *)

Lemma split_cons_nonempty (x : char) (s : str) : ∃ l ls, split x s = l :: ls.
Proof.
  pose proof (split_nonempty x s). destruct (split x s) as [|l ls]; [done|by eexists _, _].
Qed.

(** Trimming a text whose lines are clean takes away empty lines only. *)
Lemma trimStart_lines (Y : str) :
  Forall clean (split LF Y) -> Forall clean (split LF (trimStart Y)).
Proof.
  unfold trimStart. induction Y as [|c Y IH]; [done|]. intros H. cbn [dropWhile].
  destruct (isSpace c) eqn:Ec; [|done].
  destruct (N.eqb_spec c LF) as [->|Hc].
  - apply IH. change (split LF (LF :: Y)) with ([] :: split LF Y) in H.
    by apply Forall_cons in H as [_ ?].
  - exfalso. cbn [split] in H. apply N.eqb_neq in Hc. rewrite Hc in H.
    destruct (split_cons_nonempty LF Y) as (l & ls & E). rewrite E in H.
    apply Forall_cons in H as [[_ Hh] _]. congruence.
Qed.

Lemma join_ends (ls : list str) :
  Forall clean ls ->
  join [LF] ls = [] ∨ ∃ t y, join [LF] ls = t ++ [y] ∧ (isSpace y = false ∨ y = LF).
Proof.
  induction 1 as [|l ls Hl Hls IH]; [by left|].
  destruct ls as [|l' ls].
  - cbn [join]. destruct (spaced_ends l (proj1 Hl)) as [->|(t & y & -> & Hy)]; [by left|].
    right. exists t, y. by split; [|left].
  - rewrite join_cons. right. destruct IH as [E|(t & y & E & Hy)].
    + rewrite E. exists l, LF. by split; [|right].
    + rewrite E. exists (l ++ [LF] ++ t), y. by rewrite <- !app_assoc.
Qed.

Lemma trimEnd_lines (Y : str) :
  Forall clean (split LF Y) -> Forall clean (split LF (trimEnd Y)).
Proof.
  induction Y as [|c Y IH] using rev_ind; [done|]. intros H.
  destruct (isSpace c) eqn:Ec.
  - assert (c = LF) as ->.
    { destruct (join_ends _ H) as [E|(t & y & E & Hy)]; rewrite join_split in E.
      - by destruct Y.
      - apply app_inj_tail in E as [_ ->]. destruct Hy as [Hy|Hy]; [congruence|done]. }
    rewrite trimEnd_app. cbn [forallb andb]. change (isSpace LF) with true. cbn [andb].
    apply IH. change (Y ++ [LF]) with (Y ++ LF :: []) in H. rewrite split_app in H.
    by apply Forall_app in H as [? _].
  - rewrite trimEnd_app. cbn [forallb]. rewrite Ec. cbn [andb].
    unfold trimEnd. cbn. rewrite Ec. exact H.
Qed.

Lemma trim_lines (Y : str) :
  Forall clean (split LF Y) -> Forall clean (split LF (trim Y)).
Proof. intros H. unfold trim. by apply trimEnd_lines, trimStart_lines. Qed.

Lemma spaced_pass (l rest : str) :
  spaced l -> includes [32; 32] (l ++ rest) = includes [32; 32] rest.
Proof.
  induction l as [|c l IH]; [done|]. intros [Hc Hl].
  rewrite <- app_comm_cons, includes_cons, IH by done.
  destruct (N.eqb_spec 32 c) as [<-|Hn].
  - destruct (Hc eq_refl) as [_ Hd]. destruct l as [|d l]; [done|].
    rewrite <- app_comm_cons, !startsWith_cons.
    destruct (N.eqb_spec 32 d) as [<-|]; [done|]. by rewrite andb_false_r.
  - rewrite startsWith_cons. by apply N.eqb_neq in Hn as ->.
Qed.

Lemma lines_no_two_spaces (ls : list str) :
  Forall clean ls -> includes [32; 32] (join [LF] ls) = false.
Proof.
  induction 1 as [|l ls [Hl _] Hls IH]; [done|]. destruct ls as [|l' ls].
  - cbn [join]. by rewrite <- (app_nil_r l), spaced_pass.
  - rewrite join_cons, spaced_pass by done.
    change ([LF] ++ ?s) with (LF :: s). by rewrite includes_cons, IH.
Qed.

Lemma lines_white_space (ls : list str) :
  Forall clean ls ->
  Forall (fun c => isSpace c = true -> c = 32 ∨ c = LF) (join [LF] ls).
Proof.
  assert (Hsp : ∀ l, spaced l -> Forall (fun c => isSpace c = true -> c = 32 ∨ c = LF) l).
  { induction l as [|c l IH]; [done|]. intros [Hc Hl]. constructor; [|by apply IH].
    intros Hs. left. by destruct (Hc Hs). }
  induction 1 as [|l ls [Hl _] Hls IH]; [done|]. destruct ls as [|l' ls].
  - by apply Hsp.
  - rewrite join_cons. apply Forall_app. split; [by apply Hsp|].
    apply Forall_app. split; [|done]. constructor; [by right|done].
Qed.

Section WhiteSpace.
Context (host : Host).

(** X19. Every line of the text of a chapter is clean: its only white space
    is the single space [U+0020], each one followed on the same line by a
    character that is not white space, and the line begins with none.  So the
    text has no tab, carriage return or no-break space, and nowhere two
    spaces in a row. *)
Theorem lines_of_the_text_are_clean (html : str) (titleToRemove : option str) :
  let text := extractTextFromHtml host html titleToRemove in
  Forall clean (split LF text)
  ∧ Forall (fun c => isSpace c = true -> c = 32 ∨ c = LF) text
  ∧ includes [32; 32] text = false.
Proof.
  intros text.
  assert (H : Forall clean (split LF text)).
  { unfold text, extractTextFromHtml. apply trim_lines, cleanLines_lines.
    - by split.
    - apply cleanLine_clean. }
  split; [exact H|]. rewrite <- (join_split LF text).
  split; [by apply lines_white_space|by apply lines_no_two_spaces].
Qed.

End WhiteSpace.

(** *** The heading that holds the title *)

Lemma startsWithCI_take (n : nat) (w s : str) :
  startsWithCI (take n w) (take n s) = false -> startsWithCI w s = false.
Proof.
  revert w s. induction n as [|n IH]; intros w s; [by rewrite take_0|].
  destruct w as [|a w]; [done|]. destruct s as [|c s]; [done|].
  cbn [take startsWithCI]. destruct (isCI a c); [apply IH|done].
Qed.

Lemma startsWithCI_not_lt (w' : str) (c : char) (t : str) :
  c ≠ ch "<" -> startsWithCI (ch "<" :: w') (c :: t) = false.
Proof. intros Hc. cbn [startsWithCI]. rewrite isCI_ne; [done|by left|done]. Qed.

Lemma replace_skip (r : regex) (f : list str -> str) (u s : str) :
  (∀ i, (i < length u)%nat -> matchHere r (drop i (u ++ s)) = None) ->
  replace r f (u ++ s) = u ++ replace r f s.
Proof.
  induction u as [|c u IH]; intros H; [done|].
  pose proof (H 0%nat ltac:(cbn; lia)) as H0. rewrite drop_0 in H0.
  rewrite <- app_comm_cons in H0. rewrite <- !app_comm_cons.
  rewrite replace_miss by done. f_equal.
  apply IH. intros i Hi. apply (H (S i)). cbn. lia.
Qed.

(** No tag other than a heading begins in the heading [<h1>T</h1>]. *)
Lemma heading_no_start (w' T s : str) (i : nat) :
  noChar (ch "<") T ->
  startsWithCI (take 3 (ch "<" :: w')) (lit "<h1") = false ->
  startsWithCI (take 2 (ch "<" :: w')) (lit "</") = false ->
  (i < length (lit "<h1>" ++ T ++ lit "</h1>"))%nat ->
  startsWithCI (ch "<" :: w') (drop i ((lit "<h1>" ++ T ++ lit "</h1>") ++ s)) = false.
Proof.
  intros HT H1 H2 Hi.
  destruct i as [|i]; [by apply (startsWithCI_take 3)|].
  do 3 (destruct i as [|i]; [by apply startsWithCI_not_lt|]).
  change (drop (S (S (S (S i)))) ((lit "<h1>" ++ T ++ lit "</h1>") ++ s))
    with (drop i ((T ++ lit "</h1>") ++ s)).
  rewrite <- app_assoc.
  destruct (decide (i < length T)%nat) as [Hlt|Hge].
  - rewrite drop_app_le by lia.
    destruct (drop i T) as [|c t] eqn:E.
    { apply (f_equal length) in E. rewrite length_drop in E. cbn in E. lia. }
    apply startsWithCI_not_lt.
    assert (Hin : c ∈ T) by (rewrite <- (take_drop i T), E; set_solver).
    eapply Forall_forall in HT; [|exact Hin]. done.
  - rewrite drop_app_ge by lia.
    rewrite length_app in Hi. cbn [length] in Hi.
    destruct (i - length T)%nat as [|k] eqn:Ek; [by apply (startsWithCI_take 2)|].
    do 4 (destruct k as [|k]; [by apply startsWithCI_not_lt|]).
    rewrite !length_app in Hi. cbn in Hi. lia.
Qed.

Lemma heading_kept (w' : str) (r : regex) (f : list str -> str) (T s : str) :
  noChar (ch "<") T ->
  startsWithCI (take 3 (ch "<" :: w')) (lit "<h1") = false ->
  startsWithCI (take 2 (ch "<" :: w')) (lit "</") = false ->
  replace (lettersCI (ch "<" :: w') ++ r) f ((lit "<h1>" ++ T ++ lit "</h1>") ++ s)
  = (lit "<h1>" ++ T ++ lit "</h1>") ++ replace (lettersCI (ch "<" :: w') ++ r) f s.
Proof.
  intros HT H1 H2. apply replace_skip. intros i Hi.
  apply matchHere_letters_none. by apply heading_no_start.
Qed.

Lemma heading_no_body (T s : str) :
  noChar (ch "<") T -> includesCI (lit "<body") s = false ->
  isolateBody ((lit "<h1>" ++ T ++ lit "</h1>") ++ s) = (lit "<h1>" ++ T ++ lit "</h1>") ++ s.
Proof.
  intros HT Hs. unfold isolateBody. rewrite exec_skip.
  - rewrite exec_none; [done|]. intros k.
    unfold ci at 1. apply matchHere_letters_none. by apply includesCI_none.
  - intros i Hi. unfold ci at 1. apply matchHere_letters_none.
    by apply (heading_no_start (lit "body")).
Qed.

Lemma heading_noise (T s : str) :
  noChar (ch "<") T ->
  removeNoise ((lit "<h1>" ++ T ++ lit "</h1>") ++ s)
  = (lit "<h1>" ++ T ++ lit "</h1>") ++ removeNoise s.
Proof.
  intros HT. unfold removeNoise, replaceWith.
  change (elementBlock "script")
    with (lettersCI (ch "<" :: lit "script")
          ++ [star notGt] ++ cs ">" ++ [lazyStar any] ++ ci "</" ++ ci "script" ++ cs ">").
  change (elementBlock "style")
    with (lettersCI (ch "<" :: lit "style")
          ++ [star notGt] ++ cs ">" ++ [lazyStar any] ++ ci "</" ++ ci "style" ++ cs ">").
  change (elementBlock "header")
    with (lettersCI (ch "<" :: lit "header")
          ++ [star notGt] ++ cs ">" ++ [lazyStar any] ++ ci "</" ++ ci "header" ++ cs ">").
  change (elementBlock "footer")
    with (lettersCI (ch "<" :: lit "footer")
          ++ [star notGt] ++ cs ">" ++ [lazyStar any] ++ ci "</" ++ ci "footer" ++ cs ">").
  by rewrite !heading_kept by done.
Qed.

Lemma matchHere_literalCI (host : Host) (t : str) (r : regex) (s : str) :
  matchHere (literalCI host t ++ r) (t ++ s) = pushes t <$> matchHere r s.
Proof.
  induction t as [|a t IH].
  { change (matchHere r s = pushes [] <$> matchHere r s). by destruct (matchHere r s). }
  change (literalCI host (a :: t) ++ r)
    with (One (fun x => canonicalize host x =? canonicalize host a) :: literalCI host t ++ r).
  cbn [app]. rewrite matchHere_One by apply N.eqb_refl. rewrite IH.
  by destruct (matchHere r s).
Qed.

Lemma titleHeading_here (host : Host) (T s : str) :
  match T with c :: _ => isSpace c = false | [] => False end ->
  matchHere (titleHeading host T) ((lit "<h1>" ++ T ++ lit "</h1>") ++ s)
  = Some ([lit "<h1>" ++ T ++ lit "</h1>"], s).
Proof.
  intros HT. destruct T as [|c T]; [done|].
  assert (A2 : matchHere (literalCI host (c :: T) ++ [star isSpace] ++ ci "</h"
                          ++ [One isDigit16] ++ cs ">") ((c :: T) ++ lit "</h1>" ++ s)
               = Some ([(c :: T) ++ lit "</h1>"], s)).
  { rewrite matchHere_literalCI.
    assert (A3 : matchHere ([star isSpace] ++ ci "</h" ++ [One isDigit16] ++ cs ">")
                   (lit "</h1>" ++ s) = Some ([lit "</h1>"], s)) by reflexivity.
    rewrite A3. cbn [fmap option_fmap option_map]. by rewrite pushes_cons. }
  assert (A1 : matchHere ([star isSpace] ++ literalCI host (c :: T) ++ [star isSpace]
                          ++ ci "</h" ++ [One isDigit16] ++ cs ">")
                 ((c :: T) ++ lit "</h1>" ++ s)
               = Some ([(c :: T) ++ lit "</h1>"], s)).
  { rewrite <- A2.
    change (matchHere ([star isSpace] ++ ?r) ((c :: T) ++ ?x))
      with (rep true 0 isSpace (matchHere r) (c :: T ++ x)).
    cbn [rep]. by rewrite HT. }
  unfold titleHeading. unfold ci at 1. rewrite <- !app_assoc.
  change (lit "<h1>" ++ (c :: T) ++ lit "</h1>" ++ s)
    with (lit "<h" ++ ch "1" :: ch ">" :: (c :: T) ++ lit "</h1>" ++ s).
  rewrite matchHere_letters.
  change ([One isDigit16; star notGt] ++ cs ">" ++ ?r)
    with (One isDigit16 :: Rep true 0 notGt :: One (isCh (ch ">")) :: r).
  rewrite matchHere_One by reflexivity. rewrite matchHere_Rep. cbn [rep].
  change (notGt (ch ">")) with false. cbn iota.
  rewrite matchHere_One by reflexivity. rewrite A1.
  cbn [fmap option_fmap option_map]. unfold push. cbn [fst snd].
  by rewrite pushes_cons.
Qed.

Section TitleHeading.
Context (host : Host).

(** X20. A chapter that opens with the heading [<h1>T</h1>], for a text [T]
    on one line, without markup and without white space around it: the title
    of the chapter is [T], and the heading is left out of the text, which is
    the text of what follows the heading. *)
Theorem title_heading_is_left_out (T rest : str) :
  T ≠ [] ->
  Forall (fun c => isLineTerminator c = false ∧ c ≠ ch "<") T ->
  trim T = T ->
  includesCI (lit "<body") rest = false ->
  extractTitle (lit "<h1>" ++ T ++ lit "</h1>" ++ rest) = T
  ∧ extractTextFromHtml host (lit "<h1>" ++ T ++ lit "</h1>" ++ rest) (Some T)
    = extractTextFromHtml host rest (Some T).
Proof.
  intros Hne HT Htrim Hrest.
  assert (Hlt : noChar (ch "<") T)
    by (eapply Forall_impl; [exact HT|]; by intros c [_ ?]).
  assert (Hhead : match T with c :: _ => isSpace c = false | [] => False end).
  { destruct (trim_shape T) as [_ Hh]. rewrite Htrim in Hh. by destruct T. }
  split.
  - unfold extractTitle.
    change (lit "<h1>" ++ T ++ lit "</h1>" ++ rest)
      with ([] ++ lit "<" ++ lit "h1" ++ [] ++ lit ">" ++ T
            ++ lit "</" ++ lit "h1" ++ lit ">" ++ rest).
    rewrite (elementText_first "h1" [] [] T rest) by (done || by_decision).
    cbn [group1 groupOf fst lookup list_lookup default from_option id].
    by rewrite strip_plain.
  - assert (E : lit "<h1>" ++ T ++ lit "</h1>" ++ rest
                = (lit "<h1>" ++ T ++ lit "</h1>") ++ rest)
      by (by rewrite <- !app_assoc).
    rewrite E. unfold extractTextFromHtml.
    rewrite heading_no_body, (body_absent rest), heading_noise by done.
    assert (Ht : removeTitle host (Some T) ((lit "<h1>" ++ T ++ lit "</h1>") ++ removeNoise rest)
                 = removeTitle host (Some T) (removeNoise rest)).
    { unfold removeTitle. destruct T as [|c T']; [done|].
      rewrite patternLiteral_escapeRegExp. unfold replaceWith.
      change titlepage
        with (lettersCI (ch "<" :: lit "div")
              ++ [plus isSpace] ++ ci "class=" ++ q ++ ci "titlepage" ++ q
              ++ [star notGt] ++ cs ">" ++ [lazyStar any]
              ++ ci "</div>" ++ [star isSpace] ++ ci "</div>" ++ [star isSpace] ++ ci "</div>")
        at 1.
      rewrite heading_kept by done.
      rewrite (replace_hit _ _ _ _ (titleHeading_here host (c :: T') _ Hhead)); [done|].
      done. }
    by rewrite Ht.
Qed.

End TitleHeading.

Lemma title_heading_is_left_out_witness :
  let html := lit "<h1>" ++ lit "The Storm" ++ lit "</h1>" ++ lit "<p>Rain fell.</p>" in
  extractTitle html = lit "The Storm"
  ∧ extractTextFromHtml Sample.host html (Some (lit "The Storm")) = lit "Rain fell.".
Proof.
  intros html.
  destruct (title_heading_is_left_out Sample.host (lit "The Storm") (lit "<p>Rain fell.</p>"))
    as [H1 H2]; [done|by_decision|by vm_compute|by vm_compute|].
  split; [exact H1|]. etrans; [exact H2|]. by vm_compute.
Defined.

(** *** Markup that is written with entities *)

Lemma includes_pass (a : char) (w' u s : str) :
  noChar a u -> includes (a :: w') (u ++ s) = includes (a :: w') s.
Proof.
  induction 1 as [|c u Hc Hu IH]; [done|].
  rewrite <- app_comm_cons, includes_cons, IH, startsWith_cons.
  by destruct (N.eqb_spec a c) as [->|_].
Qed.

(** The text [&lt;n&gt;b] holds none of the entities that are decoded before
    [&lt;]. *)
Lemma escaped_tag_other (w n b : str) :
  noChar (ch "&") n -> noChar (ch "&") b ->
  includes (take 2 (ch "&" :: w)) (lit "&lt;") = false ->
  includes (take 2 (ch "&" :: w)) (lit "&gt;") = false ->
  bool_decide (ch ";" ∉ take 2 (ch "&" :: w)) = true ->
  includes (ch "&" :: w) ((lit "&lt" ++ [ch ";"]) ++ n ++ (lit "&gt" ++ [ch ";"]) ++ b) = false.
Proof.
  intros Hn Hb H1 H2 Hs%bool_decide_eq_true.
  rewrite <- (take_drop 2 (ch "&" :: w)).
  rewrite includes_skip_after by done.
  destruct (take 2 (ch "&" :: w)) as [|x w0] eqn:E; [done|].
  assert (x = ch "&") as -> by (by injection E).
  rewrite <- app_comm_cons, includes_pass by done.
  rewrite app_comm_cons, includes_skip_after by done.
  rewrite <- app_comm_cons. apply (includes_noChar (ch "&")); [by left|done].
Qed.

Lemma decode_noAmp (table : list (str * str)) (s : str) :
  Forall (fun e : str * str => ∃ w, e.1 = ch "&" :: w) table -> noChar (ch "&") s ->
  decodeWith table s = s.
Proof.
  intros Ht Hs. induction Ht as [|[w t] table [w' Hw] Ht IH]; [done|].
  cbn [fst] in Hw. subst w. rewrite decodeWith_cons. cbn [fst snd].
  unfold replaceWith. rewrite replace_literal_id by done. exact IH.
Qed.

Lemma decode_escaped_tag (a n b : str) :
  noChar (ch "&") a -> noChar (ch "&") n -> noChar (ch "&") b ->
  decodeEntities (a ++ lit "&lt;" ++ n ++ lit "&gt;" ++ b)
  = a ++ lit "<" ++ n ++ lit ">" ++ b.
Proof.
  intros Ha Hn Hb. unfold decodeEntities.
  rewrite decodeWith_pass by (apply entities_amp || done). f_equal.
  change entities with (take 2 entities ++ drop 2 entities).
  rewrite decodeWith_app.
  assert (E0 : decodeWith (take 2 entities) (lit "&lt;" ++ n ++ lit "&gt;" ++ b)
               = lit "&lt;" ++ n ++ lit "&gt;" ++ b).
  { unfold decodeWith. cbn [take entities foldl fst snd]. unfold replaceWith.
    change (lit "&lt;" ++ n ++ lit "&gt;" ++ b)
      with ((lit "&lt" ++ [ch ";"]) ++ n ++ (lit "&gt" ++ [ch ";"]) ++ b).
    rewrite (replace_literal_absent (lit "&nbsp;"));
      [|done|by apply (escaped_tag_other (lit "nbsp;"))].
    rewrite (replace_literal_absent (lit "&amp;"));
      [|done|by apply (escaped_tag_other (lit "amp;"))].
    done. }
  rewrite E0.
  change (drop 2 entities)
    with ((lit "&lt;", lit "<") :: (lit "&gt;", lit ">") :: drop 4 entities).
  rewrite !decodeWith_cons. cbn [fst snd]. unfold replaceWith.
  assert (E1 : replace (literal (lit "&lt;")) (fun _ => lit "<")
                 (lit "&lt;" ++ n ++ lit "&gt;" ++ b)
               = lit "<" ++ n ++ lit "&gt;" ++ b).
  { eval_lits. cbn [app]. lit_cons. f_equal. rewrite drop_0.
    rewrite replace_literal_pass by done. f_equal.
    by decode_step Hb. }
  rewrite E1.
  assert (E2 : replace (literal (lit "&gt;")) (fun _ => lit ">")
                 (lit "<" ++ n ++ lit "&gt;" ++ b)
               = lit "<" ++ n ++ lit ">" ++ b).
  { eval_lits. cbn [app].
    change (60 :: n ++ ?r) with ((60 :: n) ++ r).
    rewrite replace_literal_pass by (by constructor). f_equal.
    lit_cons. f_equal. rewrite drop_0. by decode_step Hb. }
  rewrite E2. apply decode_noAmp.
  - repeat constructor; by eexists.
  - constructor; [done|]. apply Forall_app. split; [done|]. by constructor.
Qed.

Lemma strip_tag (a n b : str) :
  noChar (ch "<") a -> n ≠ [] -> noChar (ch ">") n -> noChar (ch "<") b ->
  replaceWith anyTag [] (a ++ lit "<" ++ n ++ lit ">" ++ b) = a ++ b.
Proof.
  intros Ha Hne Hn Hb. unfold replaceWith.
  change anyTag with (One (isCh (ch "<")) :: [plus notGt] ++ cs ">").
  rewrite replace_pass
    by (eapply Forall_impl; [exact Ha|]; intros c Hc; by apply isCh_ne).
  f_equal. destruct n as [|c n]; [done|]. apply Forall_cons in Hn as [Hc Hn].
  assert (Hm : matchHere (One (isCh (ch "<")) :: [plus notGt] ++ cs ">")
                 (lit "<" ++ (c :: n) ++ lit ">" ++ b)
               = Some ([ch "<" :: (c :: n) ++ [ch ">"]], b)).
  { change (lit "<" ++ (c :: n) ++ lit ">" ++ b) with (ch "<" :: c :: n ++ ch ">" :: b).
    rewrite matchHere_One by apply N.eqb_refl.
    change ([plus notGt] ++ cs ">") with (Rep true 1 notGt :: cs ">").
    rewrite matchHere_Rep. cbn [rep].
    assert (Hpc : notGt c = true) by (unfold notGt, isNot; by apply negb_true_iff, N.eqb_neq).
    rewrite Hpc.
    rewrite (star_all notGt _ n (ch ">" :: b) (push (ch ">") ([[]], b)));
      [|by apply notGt_noChar|done|done].
    cbn [fmap option_fmap option_map].
    change (push (ch ">") ([[]], b)) with ([[ch ">"]], b).
    rewrite pushes_cons. reflexivity. }
  rewrite (replace_hit _ _ _ _ Hm) by done. cbn [fst snd app].
  change (One (isCh (ch "<")) :: [plus notGt] ++ cs ">") with anyTag.
  by apply stripTags_plain.
Qed.

Section Escaped.
Context (host : Host).

(** X21. The entities are decoded before the remaining tags are removed, so
    a tag that the chapter writes with [&lt;] and [&gt;] to show it is taken
    for markup and removed with its name: of [a&lt;n&gt;b], only [ab] is
    left. *)
Theorem escaped_tag_is_removed (a n b : str) (titleToRemove : option str) :
  clean (a ++ lit "&lt;" ++ n ++ lit "&gt;" ++ b) -> clean (a ++ b) ->
  Forall (fun c => c ≠ ch "<" ∧ c ≠ ch "&") (a ++ n ++ b) ->
  n ≠ [] -> noChar (ch ">") n ->
  extractTextFromHtml host (a ++ lit "&lt;" ++ n ++ lit "&gt;" ++ b) titleToRemove
  = a ++ b.
Proof.
  intros Hc Hab Hall Hne Hgt.
  apply Forall_app in Hall as [Ha Hall]. apply Forall_app in Hall as [Hn Hb].
  assert (Hal : noChar (ch "<") a) by (eapply Forall_impl; [exact Ha|]; by intros c [? ?]).
  assert (Haa : noChar (ch "&") a) by (eapply Forall_impl; [exact Ha|]; by intros c [? ?]).
  assert (Hnl : noChar (ch "<") n) by (eapply Forall_impl; [exact Hn|]; by intros c [? ?]).
  assert (Hna : noChar (ch "&") n) by (eapply Forall_impl; [exact Hn|]; by intros c [? ?]).
  assert (Hbl : noChar (ch "<") b) by (eapply Forall_impl; [exact Hb|]; by intros c [? ?]).
  assert (Hba : noChar (ch "&") b) by (eapply Forall_impl; [exact Hb|]; by intros c [? ?]).
  assert (Hout : extractTextFromHtml host (a ++ b) titleToRemove = a ++ b).
  { apply (extractText_clean host); [done| |]; by apply Forall_app. }
  rewrite extractText_plain in Hout by (by apply Forall_app).
  rewrite clean_normalizeSource, decodeEntities_noAmp, stripTags_plain in Hout
    by (done || by apply Forall_app).
  rewrite extractText_plain.
  - by rewrite clean_normalizeSource, decode_escaped_tag, strip_tag.
  - apply Forall_app. split; [done|]. apply Forall_app. split; [by_decision|].
    apply Forall_app. split; [done|]. apply Forall_app. split; [by_decision|done].
Qed.

End Escaped.

Lemma escaped_tag_is_removed_witness :
  extractTextFromHtml Sample.host
    (lit "Write " ++ lit "&lt;" ++ lit "b" ++ lit "&gt;" ++ lit "bold text like this") None
  = lit "Write bold text like this".
Proof.
  apply (escaped_tag_is_removed Sample.host (lit "Write ") (lit "b")
           (lit "bold text like this") None).
  - vm_compute. repeat split; discriminate.
  - vm_compute. repeat split; discriminate.
  - by_decision.
  - done.
  - by_decision.
Defined.

(** *** Paragraphs of plain text *)

Lemma noMatch_nil (r : regex) : matchHere r [] = None -> noMatch r [].
Proof. intros H k. by rewrite drop_nil. Qed.

Lemma noMatch_cons (r : regex) (c : char) (s : str) :
  matchHere r (c :: s) = None -> noMatch r s -> noMatch r (c :: s).
Proof. intros H0 H [|k]; [done|apply H]. Qed.

Lemma noMatch_text (r : regex) (P : char -> Prop) (u s : str) :
  (∀ c t, P c -> matchHere r (c :: t) = None) ->
  Forall P u -> noMatch r s -> noMatch r (u ++ s).
Proof.
  intros Hr Hu Hs. induction Hu as [|c u Hc Hu IH]; [done|].
  rewrite <- app_comm_cons. apply noMatch_cons; [by apply Hr|done].
Qed.

Lemma replace_noMatch (r : regex) (f : list str -> str) (s : str) :
  noMatch r s -> replace r f s = s.
Proof.
  induction s as [|c s IH]; intros H;
    pose proof (H 0%nat) as H0; rewrite drop_0 in H0.
  - by rewrite replace_nil, H0.
  - rewrite replace_miss by done. f_equal. apply IH.
    intros k. apply (H (S k)).
Qed.

Lemma head_none (r : regex) (p : char -> bool) (r' : regex) (c : char) (t : str) :
  r = One p :: r' -> p c = false -> matchHere r (c :: t) = None.
Proof. intros -> H. cbn [matchHere]. by rewrite H. Qed.

Lemma noMatch_paragraphs (r : regex) (ps : list str) (s : str) :
  ignoresP r -> Forall (noChar (ch "<")) ps -> noMatch r s ->
  noMatch r (concat (paragraph <$> ps) ++ s).
Proof.
  intros (H1 & H2 & H3 & H4) Hps Hs. induction Hps as [|p ps Hp Hps IH]; [done|].
  rewrite fmap_cons. cbn [concat]. unfold paragraph at 1. rewrite <- !app_assoc.
  apply noMatch_cons; [apply H2|].
  change (noMatch r (lit "p>" ++ p ++ lit "</p>" ++ concat (paragraph <$> ps) ++ s)).
  apply (noMatch_text r (fun c => c ≠ ch "<")); [done|by_decision|].
  apply (noMatch_text r (fun c => c ≠ ch "<")); [done|done|].
  apply noMatch_cons; [apply H3|].
  change (noMatch r (lit "/p>" ++ concat (paragraph <$> ps) ++ s)).
  apply (noMatch_text r (fun c => c ≠ ch "<")); [done|by_decision|done].
Qed.

Lemma spaced_app (u v : str) : spaced u -> spaced v -> spaced (u ++ v).
Proof.
  intros Hu Hv. induction u as [|c u IH]; [done|]. destruct Hu as [Hc Hu].
  cbn [app spaced]. split; [|by apply IH]. intros Hs. destruct (Hc Hs) as [-> Hd].
  split; [done|]. by destruct u.
Qed.

Lemma clean_cleanLine (l : str) : clean l -> cleanLine l = l.
Proof.
  intros Hl. unfold cleanLine. rewrite clean_trim by done.
  change (replaceWith [plus isSpace] (lit " ") l) with (collapse l).
  by apply spaced_collapse, Hl.
Qed.

Lemma clean_lines_join (X : str) :
  Forall clean (split LF X) -> join [LF] (cleanLine <$> split LF X) = X.
Proof.
  intros H. rewrite <- (join_split LF X) at 2. f_equal.
  induction H as [|l ls Hl Hls IH]; [done|]. by rewrite fmap_cons, clean_cleanLine, IH.
Qed.


Lemma join_spacedOut (ps : list str) :
  ps ≠ [] -> spacedOut ps = join [LF; LF] ps ++ [LF; LF].
Proof.
  induction ps as [|p [|p' ps] IH]; [done| |]; intros _.
  - unfold spacedOut. cbn. by rewrite app_nil_r.
  - change (spacedOut (p :: p' :: ps)) with ((p ++ [LF; LF]) ++ spacedOut (p' :: ps)).
    rewrite IH by done. rewrite join_cons. by rewrite <- !app_assoc.
Qed.

Lemma plainParagraph_head (p : str) :
  plainParagraph p -> ∃ c t, p = c :: t ∧ isSpace c = false ∧ c ≠ bullet.
Proof. intros ([_ Hh] & _ & Hb). destruct p as [|c t]; [done|]. by exists c, t. Qed.

Ltac ignores :=
  split; [|split; [|split]];
  [ let c := fresh "c" in let t := fresh "t" in let Hc := fresh "Hc" in
    intros c t Hc; refine (head_none _ _ _ c t eq_refl _);
    first [ apply isCh_ne; exact Hc | apply isCI_ne; [left; reflexivity | exact Hc] ]
  | intros ?; reflexivity
  | intros ?; reflexivity
  | reflexivity ].

Ltac over_paragraphs H D :=
  rewrite (replace_noMatch _ _ D)
    by (rewrite <- (app_nil_r D);
        apply noMatch_paragraphs; [ignores|exact H|apply noMatch_nil; reflexivity]).

Section Paragraphs.
Context (host : Host) (ps : list str).
Context (Hlt : Forall (noChar (ch "<")) ps).

Local Abbreviation doc := (concat (paragraph <$> ps)).

Lemma paragraphs_body : isolateBody doc = doc.
Proof.
  unfold isolateBody. rewrite exec_none; [done|].
  rewrite <- (app_nil_r doc).
  apply noMatch_paragraphs; [ignores|done|apply noMatch_nil; reflexivity].
Qed.

Lemma paragraphs_noise : removeNoise doc = doc.
Proof. unfold removeNoise, replaceWith. by do 4 over_paragraphs Hlt (concat (paragraph <$> ps)). Qed.

Lemma paragraphs_title (t : option str) : removeTitle host t doc = doc.
Proof.
  unfold removeTitle, replaceWith. over_paragraphs Hlt (concat (paragraph <$> ps)).
  destruct t as [[|c t]|]; [done| |done].
  rewrite patternLiteral_escapeRegExp. by over_paragraphs Hlt (concat (paragraph <$> ps)).
Qed.

Lemma paragraphs_wrappers : stripWrappers doc = doc.
Proof. unfold stripWrappers, replaceWith. by do 4 over_paragraphs Hlt (concat (paragraph <$> ps)). Qed.

Lemma paragraphs_lists : handleLists doc = doc.
Proof. unfold handleLists, replaceWith. by do 7 over_paragraphs Hlt (concat (paragraph <$> ps)). Qed.

Lemma paragraphs_anchors : unwrapAnchors doc = doc.
Proof. unfold unwrapAnchors. by over_paragraphs Hlt (concat (paragraph <$> ps)). Qed.

End Paragraphs.

(** *** The paragraph breaks *)

Local Abbreviation breakP := (closeTag "p" ++ [star isSpace] ++ openTag "p").

Lemma not_lt_none (r : regex) (p : char -> bool) (r' : regex) :
  r = One p :: r' -> (∀ c, c ≠ ch "<" -> p c = false) ->
  ∀ c t, c ≠ ch "<" -> matchHere r (c :: t) = None.
Proof. intros -> Hp c t Hc. cbn [matchHere]. by rewrite Hp. Qed.

Ltac not_lt :=
  refine (not_lt_none _ _ _ eq_refl _);
  let c := fresh "c" in let Hc := fresh "Hc" in
  intros c Hc;
  first [ apply isCh_ne; exact Hc | apply isCI_ne; [left; reflexivity | exact Hc] ].

Lemma replace_text (r : regex) (f : list str -> str) (u s : str) :
  (∀ c t, c ≠ ch "<" -> matchHere r (c :: t) = None) -> noChar (ch "<") u ->
  replace r f (u ++ s) = u ++ replace r f s.
Proof. intros Hr Hu. by apply (replace_pass_miss r f (fun c => c ≠ ch "<")). Qed.

Lemma breaks_tail (ps : list str) :
  Forall (noChar (ch "<")) ps ->
  replace breakP (fun _ => [LF; LF]) (lit "</p>" ++ concat (paragraph <$> ps))
  = concat ((fun p => [LF; LF] ++ p) <$> ps) ++ lit "</p>".
Proof.
  induction 1 as [|p ps Hp Hps IH]; [reflexivity|].
  rewrite !fmap_cons. cbn [concat]. unfold paragraph at 1. rewrite <- !app_assoc.
  assert (Hm : ∀ Y, matchHere breakP (lit "</p>" ++ lit "<p>" ++ Y)
                    = Some ([lit "</p><p>"], Y)) by (intros Y; reflexivity).
  rewrite (replace_hit _ _ _ _ (Hm _)) by done. cbn [fst snd]. rewrite <- ?app_assoc.
  f_equal. rewrite replace_text; [|not_lt|done]. by rewrite IH.
Qed.

Lemma breaks (p : str) (ps : list str) :
  noChar (ch "<") p -> Forall (noChar (ch "<")) ps ->
  handleBlocks (concat (paragraph <$> p :: ps)) = spacedOut (p :: ps).
Proof.
  intros Hp Hps.
  assert (HM : noChar (ch "<") (p ++ concat ((fun p => [LF; LF] ++ p) <$> ps))).
  { apply Forall_app. split; [done|]. induction Hps as [|p' ps Hp' _ IH]; [done|].
    rewrite fmap_cons. cbn [concat]. apply Forall_app. split; [|done].
    apply Forall_app. split; [by_decision|done]. }
  assert (HS : spacedOut (p :: ps)
               = (p ++ concat ((fun p => [LF; LF] ++ p) <$> ps)) ++ [LF; LF]).
  { clear. revert p. induction ps as [|p' ps IH]; intros p.
    - unfold spacedOut. cbn. by rewrite !app_nil_r.
    - change (spacedOut (p :: p' :: ps)) with ((p ++ [LF; LF]) ++ spacedOut (p' :: ps)).
      rewrite IH, fmap_cons. cbn [concat]. by rewrite <- !app_assoc. }
  rewrite HS. set (M := p ++ concat _) in *.
  unfold handleBlocks, replaceWith.
  assert (E1 : replace breakP (fun _ => [LF; LF]) (concat (paragraph <$> p :: ps))
               = lit "<p>" ++ M ++ lit "</p>").
  { rewrite fmap_cons. cbn [concat]. unfold paragraph at 1. rewrite <- !app_assoc.
    change (lit "<p>" ++ ?Y) with (ch "<" :: lit "p>" ++ Y).
    rewrite replace_miss by reflexivity. f_equal.
    rewrite replace_text; [|not_lt|by_decision]. f_equal.
    rewrite replace_text; [|not_lt|done]. unfold M. rewrite <- app_assoc. f_equal.
    by apply breaks_tail. }
  rewrite E1.
  assert (E2 : replace (closeTag "p") (fun _ => [LF; LF]) (lit "<p>" ++ M ++ lit "</p>")
               = lit "<p>" ++ M ++ [LF; LF]).
  { change (lit "<p>" ++ ?Y) with (ch "<" :: lit "p>" ++ Y).
    rewrite replace_miss by reflexivity. f_equal.
    rewrite replace_text; [|not_lt|by_decision]. f_equal.
    rewrite replace_text; [|not_lt|done]. reflexivity. }
  rewrite E2.
  assert (E3 : replace (openTag "p") (fun _ => []) (lit "<p>" ++ M ++ [LF; LF])
               = M ++ [LF; LF]).
  { assert (Hm : ∀ Y, matchHere (openTag "p") (lit "<p>" ++ Y) = Some ([lit "<p>"], Y))
      by (intros Y; reflexivity).
    rewrite (replace_hit _ _ _ _ (Hm _)) by done. cbn [fst snd app].
    rewrite <- (app_nil_r (M ++ [LF; LF])) at 1.
    rewrite replace_text; [by rewrite app_nil_r|not_lt|].
    apply Forall_app. split; [done|by_decision]. }
  rewrite E3.
  rewrite <- (app_nil_r (M ++ [LF; LF])) at 1.
  rewrite replace_text; [by rewrite app_nil_r|not_lt|].
  apply Forall_app. split; [done|by_decision].
Qed.

(** *** The lines of the paragraphs *)

Lemma spaced_tag (s : str) :
  Forall (fun c => isSpace c = false) s -> spaced s.
Proof.
  induction 1 as [|c s Hc Hs IH]; [done|]. split; [|done]. intros E. congruence.
Qed.

Lemma paragraphs_clean (ps : list str) :
  Forall plainParagraph ps -> clean (concat (paragraph <$> ps)).
Proof.
  intros H. split.
  - induction H as [|p ps ([Hp _] & _) _ IH]; [done|].
    rewrite fmap_cons. cbn [concat]. apply spaced_app; [|done]. unfold paragraph.
    apply spaced_app; [apply spaced_tag; by_decision|].
    apply spaced_app; [done|apply spaced_tag; by_decision].
  - by destruct H.
Qed.

Lemma spacedOut_cons (p : str) (ps : list str) :
  spacedOut (p :: ps) = p ++ LF :: LF :: spacedOut ps.
Proof. unfold spacedOut. rewrite fmap_cons. cbn [concat]. by rewrite <- app_assoc. Qed.

Lemma spacedOut_Forall (P : char -> Prop) (ps : list str) :
  P LF -> Forall (Forall P) ps -> Forall P (spacedOut ps).
Proof.
  intros HL. induction 1 as [|p ps Hp _ IH]; [done|].
  rewrite spacedOut_cons. apply Forall_app. split; [done|]. by repeat constructor.
Qed.

Lemma spacedOut_lines (ps : list str) :
  Forall plainParagraph ps -> Forall clean (split LF (spacedOut ps)).
Proof.
  induction 1 as [|p ps (Hp & _) _ IH]; [by repeat constructor|].
  rewrite spacedOut_cons, split_line by apply spaced_noLF, Hp.
  constructor; [done|].
  change (split LF (LF :: spacedOut ps)) with ([] :: split LF (spacedOut ps)).
  by constructor.
Qed.


Lemma spacedOut_afterGap (ps : list str) :
  Forall plainParagraph ps -> afterGap (spacedOut ps).
Proof.
  intros [|p ps' Hp _]; [done|]. rewrite spacedOut_cons.
  by destruct (plainParagraph_head p Hp) as (c & t & -> & Hc & Hb).
Qed.

Local Abbreviation threeLF := [Rep true 3 (isCh LF)].
Local Abbreviation loneBullet :=
  [One (isCh LF); One (isCh bullet); star isSpace; One (isCh LF)].

Lemma nonSpace_not_LF (c : char) : isSpace c = false -> isCh LF c = false.
Proof. intros H. apply isCh_ne. intros ->. done. Qed.

Lemma gap_threeLF (s : str) :
  afterGap s ->
  matchHere threeLF (LF :: LF :: s) = None ∧ matchHere threeLF (LF :: s) = None.
Proof.
  destruct s as [|c t]; [done|]. intros [Hc%nonSpace_not_LF _].
  cbn [matchHere rep]. change (isCh LF LF) with true. cbn iota.
  cbn [rep fmap option_fmap option_map]. change (isCh LF LF) with true. cbn iota.
  by rewrite Hc.
Qed.

Lemma gap_loneBullet (s : str) :
  afterGap s ->
  matchHere loneBullet (LF :: LF :: s) = None ∧ matchHere loneBullet (LF :: s) = None.
Proof.
  destruct s as [|c t]; [done|]. intros [_ Hb%isCh_ne].
  cbn [matchHere]. change (isCh LF LF) with true. change (isCh bullet LF) with false.
  cbn iota. by rewrite Hb.
Qed.

Lemma gap_blankLines (s : str) :
  afterGap s ->
  matchHere blankLines (LF :: LF :: s) = None ∧ matchHere blankLines (LF :: s) = None.
Proof.
  destruct s as [|c t]; [done|]. intros [Hs _]. pose proof (nonSpace_not_LF c Hs) as Hc.
  unfold blankLines, star. cbn [matchHere rep].
  change (isCh LF LF) with true. change (isSpace LF) with true. cbn iota.
  rewrite ?Hs, ?Hc. cbn [fmap option_fmap option_map]. by rewrite ?Hs, ?Hc.
Qed.

Lemma spacedOut_noMatch (r : regex) (ps : list str) :
  (∀ c t, c ≠ LF -> matchHere r (c :: t) = None) ->
  (∀ s, afterGap s ->
        matchHere r (LF :: LF :: s) = None ∧ matchHere r (LF :: s) = None) ->
  matchHere r [] = None ->
  Forall plainParagraph ps -> noMatch r (spacedOut ps).
Proof.
  intros H1 H2 H3. induction 1 as [|p ps Hp Hps IH]; [by apply noMatch_nil|].
  rewrite spacedOut_cons.
  destruct (H2 _ (spacedOut_afterGap ps Hps)) as [Ha Hb].
  apply (noMatch_text r (fun c => c ≠ LF)); [done|apply spaced_noLF, Hp|].
  by repeat apply noMatch_cons.
Qed.

Lemma cleanLines_spacedOut (ps : list str) :
  Forall plainParagraph ps -> cleanLines (spacedOut ps) = spacedOut ps.
Proof.
  intros H. unfold cleanLines. rewrite clean_lines_join by by apply spacedOut_lines.
  unfold replaceWith.
  rewrite (replace_noMatch threeLF).
  2: { apply spacedOut_noMatch; [|apply gap_threeLF|done|done].
       intros c t Hc. cbn [matchHere rep]. by rewrite isCh_ne. }
  rewrite (replace_noMatch loneBullet).
  2: { apply spacedOut_noMatch; [|apply gap_loneBullet|done|done].
       intros c t Hc. cbn [matchHere]. by rewrite isCh_ne. }
  apply (replace_noMatch blankLines).
  apply spacedOut_noMatch; [|apply gap_blankLines|done|done].
  intros c t Hc. unfold blankLines. cbn [matchHere]. by rewrite isCh_ne.
Qed.

Lemma join_ends_nonSpace (ps : list str) :
  ps ≠ [] -> Forall plainParagraph ps ->
  ∃ t y, join [LF; LF] ps = t ++ [y] ∧ isSpace y = false.
Proof.
  intros Hne H. induction H as [|p ps Hp Hps IH]; [done|].
  destruct ps as [|p' ps].
  - destruct (plainParagraph_head p Hp) as (c & t & E & _).
    destruct Hp as ([Hs _] & _). destruct (spaced_ends p Hs) as [->|(t' & y & -> & Hy)]; [done|].
    by exists t', y.
  - destruct (IH ltac:(done)) as (t & y & E & Hy). rewrite join_cons, E.
    exists (p ++ [LF; LF] ++ t), y. by rewrite <- !app_assoc.
Qed.

Lemma trim_spacedOut (ps : list str) :
  ps ≠ [] -> Forall plainParagraph ps -> trim (spacedOut ps) = join [LF; LF] ps.
Proof.
  intros Hne H. rewrite join_spacedOut by done. unfold trim.
  assert (trimStart (join [LF; LF] ps ++ [LF; LF]) = join [LF; LF] ps ++ [LF; LF]) as ->.
  { destruct H as [|p ps Hp _]; [done|].
    destruct (plainParagraph_head p Hp) as (c & t & -> & Hc & _).
    unfold trimStart. destruct ps; cbn; by rewrite Hc. }
  rewrite trimEnd_app. change (forallb isSpace [LF; LF]) with true. cbn iota.
  apply trimEnd_ends. right. destruct (join_ends_nonSpace ps Hne H) as (t & y & E & Hy).
  by exists t, y.
Qed.

Section SetApart.
Context (host : Host).

(** X22. Paragraphs of plain text come out one after the other, set apart
    by one empty line: of [<p>p1</p><p>p2</p>...], each [p] a clean line
    without markup and entities that does not begin with a bullet, the text
    is [p1], two line feeds, [p2], and so on. *)
Theorem paragraphs_are_set_apart (ps : list str) (titleToRemove : option str) :
  ps ≠ [] -> Forall plainParagraph ps ->
  extractTextFromHtml host (concat (paragraph <$> ps)) titleToRemove
  = join [LF; LF] ps.
Proof.
  intros Hne H.
  assert (Hlt : Forall (noChar (ch "<")) ps).
  { eapply Forall_impl; [exact H|]. intros p (_ & Hp & _).
    eapply Forall_impl; [exact Hp|]. by intros c [? _]. }
  assert (Hamp : Forall (noChar (ch "&")) ps).
  { eapply Forall_impl; [exact H|]. intros p (_ & Hp & _).
    eapply Forall_impl; [exact Hp|]. by intros c [_ ?]. }
  unfold extractTextFromHtml.
  rewrite paragraphs_body, paragraphs_noise, (paragraphs_title host) by done.
  rewrite paragraphs_wrappers by done.
  rewrite clean_normalizeSource by by apply paragraphs_clean.
  rewrite paragraphs_lists, paragraphs_anchors by done.
  destruct ps as [|p ps]; [done|].
  rewrite breaks by (by apply Forall_cons in Hlt as [? ?]).
  rewrite decodeEntities_noAmp by (by apply spacedOut_Forall).
  rewrite stripTags_plain by (by apply spacedOut_Forall).
  rewrite cleanLines_spacedOut by done. by apply trim_spacedOut.
Qed.

End SetApart.

Lemma paragraphs_are_set_apart_witness :
  extractTextFromHtml Sample.host
    (concat (paragraph <$> [lit "One two"; lit "Three"; lit "Four five six"]))
    (Some (lit "Three"))
  = lit "One two" ++ [LF; LF] ++ lit "Three" ++ [LF; LF] ++ lit "Four five six".
Proof.
  apply (paragraphs_are_set_apart Sample.host
           [lit "One two"; lit "Three"; lit "Four five six"] (Some (lit "Three"))).
  - done.
  - repeat constructor; try by_decision; vm_compute; intros; discriminate.
Defined.

(** *** Lists of plain text *)

Lemma noMatch_tagged (tags : list str) (r : regex) (s : str) :
  ignoresTags tags r -> tagged tags s -> noMatch r s.
Proof.
  intros (H1 & H2 & H3). induction 1 as [|u s Hu _ IH|t' s Hin Ht' _ IH].
  - by apply noMatch_nil.
  - by apply (noMatch_text r (fun c => c ≠ ch "<")).
  - rewrite <- app_comm_cons. apply noMatch_cons.
    + rewrite app_comm_cons. by apply (proj1 (Forall_forall _ _) H2).
    + by apply (noMatch_text r (fun c => c ≠ ch "<")).
Qed.

Lemma tagged_app (tags : list str) (a b : str) :
  tagged tags a -> tagged tags b -> tagged tags (a ++ b).
Proof.
  induction 1 as [|u s Hu _ IH|t' s Hin Ht' _ IH]; intros Hb; [done| |].
  - rewrite <- app_assoc. constructor; [done|by apply IH].
  - rewrite <- app_assoc. constructor; [done|done|by apply IH].
Qed.

Lemma tagged_one (tags : list str) (t' : str) :
  bool_decide (ch "<" :: t' ∈ tags) = true -> bool_decide (noChar (ch "<") t') = true ->
  tagged tags (ch "<" :: t').
Proof.
  intros H1%bool_decide_eq_true H2%bool_decide_eq_true.
  rewrite <- (app_nil_r (ch "<" :: t')). constructor; [done|done|constructor].
Qed.

Lemma tagged_plain (tags : list str) (u : str) : noChar (ch "<") u -> tagged tags u.
Proof. intros H. rewrite <- (app_nil_r u). constructor; [done|constructor]. Qed.

Lemma tagged_mono (tags tags' : list str) (s : str) :
  tags ⊆ tags' -> tagged tags s -> tagged tags' s.
Proof.
  intros Hsub. induction 1 as [|u s Hu _ IH|t' s Hin Ht' _ IH].
  - apply tagged_nil.
  - by apply tagged_text.
  - apply tagged_tag; [by apply Hsub|done|done].
Qed.

Lemma tagged_close (o : bool) : tagged (itemTags o) (listClose o).
Proof. destruct o; by apply tagged_one. Qed.

Lemma tagged_li (o : bool) : tagged (itemTags o) (lit "<li>").
Proof. destruct o; by apply tagged_one. Qed.

Lemma tagged_li_close (o : bool) : tagged (itemTags o) (lit "</li>").
Proof. destruct o; by apply tagged_one. Qed.

Lemma tagged_items (o : bool) (a b : str) (items : list str) :
  Forall (noChar (ch "<")) items -> tagged (itemTags o) a -> tagged (itemTags o) b ->
  tagged (itemTags o) (concat ((fun i => a ++ i ++ b) <$> items) ++ listClose o).
Proof.
  intros Hi Ha Hb. induction Hi as [|i items Hi _ IH]; [apply tagged_close|].
  rewrite fmap_cons. cbn [concat]. rewrite <- !app_assoc.
  apply tagged_app; [done|]. apply tagged_app; [by apply tagged_plain|].
  by apply tagged_app.
Qed.

Lemma tagged_list (o : bool) (items : list str) :
  Forall (noChar (ch "<")) items -> tagged (listTags o) (listOf o items).
Proof.
  intros Hi. unfold listOf. apply tagged_app; [destruct o; by apply tagged_one|].
  apply (tagged_mono (itemTags o)); [intros x Hx; apply elem_of_cons; by right|].
  apply (tagged_items o (lit "<li>") (lit "</li>"));
    [done|apply tagged_li|apply tagged_li_close].
Qed.

Ltac ignores_tags :=
  split; [|split];
  [ let c := fresh "c" in let t := fresh "t" in let Hc := fresh "Hc" in
    intros c t Hc; refine (head_none _ _ _ c t eq_refl _);
    first [ apply isCh_ne; exact Hc | apply isCI_ne; [left; reflexivity | exact Hc] ]
  | repeat constructor; intros ?; reflexivity
  | reflexivity ].

Ltac over_list o H D :=
  rewrite (replace_noMatch _ _ D)
    by (apply (noMatch_tagged (listTags o)); [destruct o; ignores_tags|exact H]).

Section ListSteps.
Context (host : Host) (o : bool) (D : str) (HD : tagged (listTags o) D).

Lemma list_body : isolateBody D = D.
Proof.
  unfold isolateBody. rewrite exec_none; [done|].
  apply (noMatch_tagged (listTags o)); [destruct o; ignores_tags|done].
Qed.

Lemma list_noise : removeNoise D = D.
Proof. unfold removeNoise, replaceWith. by do 4 over_list o HD D. Qed.

Lemma list_title (t : option str) : removeTitle host t D = D.
Proof.
  unfold removeTitle, replaceWith. over_list o HD D.
  destruct t as [[|c t]|]; [done| |done].
  rewrite patternLiteral_escapeRegExp. by over_list o HD D.
Qed.

Lemma list_wrappers : stripWrappers D = D.
Proof. unfold stripWrappers, replaceWith. by do 4 over_list o HD D. Qed.

End ListSteps.

(** *** The items of the list *)

Local Abbreviation itemMark := ([LF; bullet] ++ lit " ").

Lemma replace_tag_miss (r : regex) (f : list str -> str) (t' s : str) :
  (∀ c t, c ≠ ch "<" -> matchHere r (c :: t) = None) ->
  matchHere r ((ch "<" :: t') ++ s) = None -> noChar (ch "<") t' ->
  replace r f ((ch "<" :: t') ++ s) = (ch "<" :: t') ++ replace r f s.
Proof.
  intros Hr Hm Ht. rewrite <- !app_comm_cons in *. rewrite replace_miss by done.
  f_equal. by apply replace_text.
Qed.

Lemma replace_plain (r : regex) (f : list str -> str) (u : str) :
  (∀ c t, c ≠ ch "<" -> matchHere r (c :: t) = None) -> matchHere r [] = None ->
  noChar (ch "<") u -> replace r f u = u.
Proof.
  intros Hr Hn Hu. rewrite <- (app_nil_r u) at 1. rewrite replace_text by done.
  by rewrite replace_nil, Hn, app_nil_r.
Qed.

Section Items.
Context (o : bool) (items : list str) (Hi : Forall (noChar (ch "<")) items).

(** the opening tag of the other kind of list and of this one *)
Lemma list_openings (r : regex) (f : list str -> str) (i : str) (rest : list str) :
  items = i :: rest ->
  (r = openTag "ol" ++ [star isSpace] ++ ci "<li" ∧ f = (fun _ => lit "<ol><li"))
  ∨ (r = openTag "ul" ++ [star isSpace] ++ ci "<li" ∧ f = (fun _ => lit "<ul><li")) ->
  replace r f (listOf o items) = listOf o items.
Proof.
  intros E Hr. pose proof (tagged_list o items Hi) as HT.
  assert (Hrest : tagged (itemTags o)
                    (lit ">" ++ i ++ lit "</li>" ++ concat (listItem <$> rest) ++ listClose o)).
  { subst items. apply Forall_cons in Hi as [Hi1 Hi2].
    apply tagged_app; [apply tagged_plain; by_decision|].
    apply tagged_app; [by apply tagged_plain|].
    apply tagged_app; [apply tagged_li_close|].
    apply (tagged_items o (lit "<li>") (lit "</li>"));
      [done|apply tagged_li|apply tagged_li_close]. }
  assert (Eo : listOf o items
               = (listOpen o ++ lit "<li") ++ lit ">" ++ i ++ lit "</li>"
                 ++ concat (listItem <$> rest) ++ listClose o).
  { subst items. unfold listOf, listItem. rewrite fmap_cons. cbn [concat].
    rewrite <- !app_assoc. reflexivity. }
  destruct Hr as [[-> ->]|[-> ->]]; destruct o.
  - rewrite Eo.
    assert (Hm : ∀ Y, matchHere (openTag "ol" ++ [star isSpace] ++ ci "<li")
                        ((listOpen true ++ lit "<li") ++ Y)
                      = Some ([lit "<ol><li"], Y)) by (intros Y; reflexivity).
    rewrite (replace_hit _ _ _ _ (Hm _)) by done. cbn [fst snd].
    rewrite replace_noMatch; [reflexivity|].
    apply (noMatch_tagged (itemTags true)); [ignores_tags|done].
  - apply replace_noMatch, (noMatch_tagged (listTags false)); [ignores_tags|done].
  - apply replace_noMatch, (noMatch_tagged (listTags true)); [ignores_tags|done].
  - rewrite Eo.
    assert (Hm : ∀ Y, matchHere (openTag "ul" ++ [star isSpace] ++ ci "<li")
                        ((listOpen false ++ lit "<li") ++ Y)
                      = Some ([lit "<ul><li"], Y)) by (intros Y; reflexivity).
    rewrite (replace_hit _ _ _ _ (Hm _)) by done. cbn [fst snd].
    rewrite replace_noMatch; [reflexivity|].
    apply (noMatch_tagged (itemTags false)); [ignores_tags|done].
Qed.

End Items.

Lemma isCI_lt_only (c : char) : c ≠ ch "<" -> isCI (ch "<") c = false.
Proof. intros Hc. apply isCI_ne; [by left|done]. Qed.

Lemma openTag_lt (name : string) (c : char) (t : str) :
  c ≠ ch "<" -> matchHere (openTag name) (c :: t) = None.
Proof.
  intros Hc. refine (head_none _ _ _ c t eq_refl _). by apply isCI_lt_only.
Qed.

Lemma closeTag_lt (name : string) (c : char) (t : str) :
  c ≠ ch "<" -> matchHere (closeTag name) (c :: t) = None.
Proof.
  intros Hc. refine (head_none _ _ _ c t eq_refl _). by apply isCI_lt_only.
Qed.

Lemma eitherTag_lt (name : string) (c : char) (t : str) :
  c ≠ ch "<" -> matchHere (eitherTag name) (c :: t) = None.
Proof.
  intros Hc. refine (head_none _ _ _ c t eq_refl _). by apply isCh_ne.
Qed.

Section Marks.
Context (o : bool).

(** each opening tag of an item becomes a line feed, a bullet and a space *)
Lemma items_marked (items : list str) :
  Forall (noChar (ch "<")) items ->
  replace (openTag "li") (fun _ => itemMark) (concat (listItem <$> items) ++ listClose o)
  = concat ((fun i => itemMark ++ i ++ lit "</li>") <$> items) ++ listClose o.
Proof.
  set (m := itemMark).
  induction 1 as [|i items Hi _ IH]; [by destruct o|].
  rewrite !fmap_cons. cbn [concat]. unfold listItem at 1. rewrite <- !app_assoc.
  assert (Hm : ∀ Y, matchHere (openTag "li") (lit "<li>" ++ Y) = Some ([lit "<li>"], Y))
    by (intros Y; reflexivity).
  rewrite (replace_hit _ _ _ _ (Hm _)) by done. cbn [fst snd]. f_equal.
  rewrite replace_text by (done || apply openTag_lt). f_equal.
  change (lit "</li>" ++ ?Y) with ((ch "<" :: lit "/li>") ++ Y).
  rewrite replace_tag_miss; [by rewrite IH|apply openTag_lt|reflexivity|by_decision].
Qed.

(** and each closing tag of an item goes *)
Lemma items_closed (items : list str) :
  Forall (noChar (ch "<")) items ->
  replace (closeTag "li") (fun _ => [])
    (concat ((fun i => itemMark ++ i ++ lit "</li>") <$> items) ++ listClose o)
  = concat ((fun i => itemMark ++ i) <$> items) ++ listClose o.
Proof.
  set (m := itemMark). assert (Hmk : noChar (ch "<") m) by by_decision.
  induction 1 as [|i items Hi _ IH]; [by destruct o|].
  rewrite !fmap_cons. cbn [concat]. rewrite <- !app_assoc.
  rewrite replace_text by (done || apply closeTag_lt). f_equal.
  rewrite replace_text by (done || apply closeTag_lt). f_equal.
  assert (Hm : ∀ Y, matchHere (closeTag "li") (lit "</li>" ++ Y) = Some ([lit "</li>"], Y))
    by (intros Y; reflexivity).
  rewrite (replace_hit _ _ _ _ (Hm _)) by done. cbn [fst snd app]. exact IH.
Qed.

(** the tags of the list itself become line feeds *)
Lemma list_tags_LF (B : str) :
  noChar (ch "<") B ->
  replace (eitherTag "ul") (fun _ => [LF])
    (replace (eitherTag "ol") (fun _ => [LF]) (listOpen o ++ B ++ listClose o))
  = LF :: B ++ [LF].
Proof.
  intros HB.
  assert (Hplain : ∀ name, replace (eitherTag name) (fun _ => [LF]) (LF :: B ++ [LF])
                           = LF :: B ++ [LF]).
  { intros name. apply replace_plain; [apply eitherTag_lt|reflexivity|].
    constructor; [done|]. apply Forall_app. split; [done|by_decision]. }
  destruct o.
  - assert (E : replace (eitherTag "ol") (fun _ => [LF]) (lit "<ol>" ++ B ++ lit "</ol>")
                = LF :: B ++ [LF]).
    { assert (Hm : ∀ Y, matchHere (eitherTag "ol") (lit "<ol>" ++ Y) = Some ([lit "<ol>"], Y))
        by (intros Y; reflexivity).
      rewrite (replace_hit _ _ _ _ (Hm _)) by done. cbn [fst snd app]. f_equal.
      rewrite replace_text by (done || apply eitherTag_lt). reflexivity. }
    unfold listOpen, listClose. by rewrite E.
  - assert (E : replace (eitherTag "ol") (fun _ => [LF]) (lit "<ul>" ++ B ++ lit "</ul>")
                = lit "<ul>" ++ B ++ lit "</ul>").
    { change (lit "<ul>" ++ ?Y) with ((ch "<" :: lit "ul>") ++ Y).
      rewrite replace_tag_miss; [|apply eitherTag_lt|reflexivity|by_decision]. f_equal.
      rewrite replace_text by (done || apply eitherTag_lt). reflexivity. }
    unfold listOpen, listClose. rewrite E.
    assert (Hm : ∀ Y, matchHere (eitherTag "ul") (lit "<ul>" ++ Y) = Some ([lit "<ul>"], Y))
      by (intros Y; reflexivity).
    rewrite (replace_hit _ _ _ _ (Hm _)) by done. cbn [fst snd app]. f_equal.
    rewrite replace_text by (done || apply eitherTag_lt). reflexivity.
Qed.

End Marks.


Lemma marks_bulleted (items : list str) :
  concat ((fun i => itemMark ++ i) <$> items) ++ [LF] = LF :: bulleted items.
Proof.
  unfold bulleted. induction items as [|i items IH]; [done|].
  rewrite !fmap_cons. cbn [concat]. rewrite <- !app_assoc, IH.
  cbn [app]. by rewrite <- !app_assoc.
Qed.

Lemma list_handled (o : bool) (items : list str) :
  items ≠ [] -> Forall (noChar (ch "<")) items ->
  handleLists (listOf o items) = LF :: LF :: bulleted items.
Proof.
  intros Hne Hi. destruct items as [|i rest] eqn:E; [done|]. rewrite <- E in *.
  unfold handleLists, replaceWith.
  rewrite (list_openings o items Hi _ _ i rest E) by (left; split; reflexivity).
  rewrite (list_openings o items Hi _ _ i rest E) by (right; split; reflexivity).
  assert (HB : noChar (ch "<") (concat ((fun i => itemMark ++ i) <$> items))).
  { clear -Hi. induction Hi as [|j items Hj _ IH]; [constructor|].
    rewrite fmap_cons. cbn [concat]. apply Forall_app. split; [|done].
    apply Forall_app. split; [by_decision|done]. }
  assert (E3 : replace (openTag "li") (fun _ => itemMark) (listOf o items)
               = listOpen o ++ concat ((fun i => itemMark ++ i ++ lit "</li>") <$> items)
                 ++ listClose o).
  { unfold listOf. destruct o.
    - change (listOpen true ++ ?Y) with ((ch "<" :: lit "ol>") ++ Y).
      rewrite replace_tag_miss; [|apply openTag_lt|reflexivity|by_decision].
      by rewrite items_marked.
    - change (listOpen false ++ ?Y) with ((ch "<" :: lit "ul>") ++ Y).
      rewrite replace_tag_miss; [|apply openTag_lt|reflexivity|by_decision].
      by rewrite items_marked. }
  rewrite E3.
  assert (E4 : replace (closeTag "li") (fun _ => [])
                 (listOpen o ++ concat ((fun i => itemMark ++ i ++ lit "</li>") <$> items)
                  ++ listClose o)
               = listOpen o ++ concat ((fun i => itemMark ++ i) <$> items) ++ listClose o).
  { destruct o.
    - change (listOpen true ++ ?Y) with ((ch "<" :: lit "ol>") ++ Y).
      rewrite replace_tag_miss; [|apply closeTag_lt|reflexivity|by_decision].
      by rewrite items_closed.
    - change (listOpen false ++ ?Y) with ((ch "<" :: lit "ul>") ++ Y).
      rewrite replace_tag_miss; [|apply closeTag_lt|reflexivity|by_decision].
      by rewrite items_closed. }
  rewrite E4, list_tags_LF by done.
  rewrite replace_plain; [|apply eitherTag_lt|reflexivity|].
  - by rewrite marks_bulleted.
  - constructor; [done|]. apply Forall_app. split; [done|by_decision].
Qed.

(** *** The lines of the list *)

Lemma bulleted_cons (i : str) (items : list str) :
  bulleted (i :: items) = (bullet :: 32 :: i) ++ LF :: bulleted items.
Proof. unfold bulleted. rewrite fmap_cons. cbn [concat app]. by rewrite <- app_assoc. Qed.

Lemma plainItem_head (i : str) :
  plainItem i -> ∃ c t, i = c :: t ∧ isSpace c = false.
Proof. intros ([_ Hh] & Hne & _). destruct i as [|c t]; [done|]. by exists c, t. Qed.

Lemma item_line_clean (i : str) : plainItem i -> clean (bullet :: 32 :: i).
Proof.
  intros Hi. destruct (plainItem_head i Hi) as (c & t & -> & Hc).
  destruct Hi as ([Hs _] & _). split; [|done].
  split; [intros E; by vm_compute in E|]. split; [|done]. by intros _.
Qed.

Lemma item_line_noLF (i : str) : plainItem i -> noChar LF (bullet :: 32 :: i).
Proof.
  intros ([Hs _] & _). constructor; [done|]. constructor; [done|]. by apply spaced_noLF.
Qed.

Lemma bulleted_lines (items : list str) :
  Forall plainItem items -> Forall clean (split LF (LF :: LF :: bulleted items)).
Proof.
  intros H. change (split LF (LF :: LF :: bulleted items))
    with ([] :: [] :: split LF (bulleted items)).
  constructor; [done|]. constructor; [done|].
  induction H as [|i items Hi _ IH]; [by repeat constructor|].
  rewrite bulleted_cons, split_line by by apply item_line_noLF.
  constructor; [by apply item_line_clean|done].
Qed.


Lemma bulleted_itemStart (items : list str) :
  Forall plainItem items -> itemStart (bulleted items).
Proof.
  intros [|i rest Hi _]; [done|]. rewrite bulleted_cons.
  by destruct (plainItem_head i Hi) as (c & t & -> & Hc).
Qed.

Local Abbreviation threeFeeds := [Rep true 3 (isCh LF)].
Local Abbreviation bulletLine :=
  [One (isCh LF); One (isCh bullet); star isSpace; One (isCh LF)].

Lemma item_threeLF (s : str) :
  itemStart s ->
  matchHere threeFeeds (LF :: LF :: s) = None ∧ matchHere threeFeeds (LF :: s) = None.
Proof.
  destruct s as [|c [|d [|e t]]]; try done. intros (-> & -> & He). by split.
Qed.

Lemma item_loneBullet (s : str) :
  itemStart s ->
  matchHere bulletLine (LF :: LF :: s) = None ∧ matchHere bulletLine (LF :: s) = None.
Proof.
  destruct s as [|c [|d [|e t]]]; try done. intros (-> & -> & He).
  split; [done|]. pose proof (nonSpace_not_LF e He) as Hc.
  unfold star. cbn [matchHere]. change (isCh LF LF) with true.
  change (isCh bullet bullet) with true. cbn iota. cbn [rep].
  change (isSpace 32) with true. cbn iota. rewrite He. cbn [matchHere]. rewrite Hc.
  change (isCh LF 32) with false. reflexivity.
Qed.

Lemma item_blankLines (s : str) :
  itemStart s ->
  matchHere blankLines (LF :: LF :: s) = None ∧ matchHere blankLines (LF :: s) = None.
Proof.
  destruct s as [|c [|d [|e t]]]; try done. intros (-> & -> & He). by split.
Qed.

Lemma bulleted_noMatch (r : regex) (items : list str) :
  (∀ c t, c ≠ LF -> matchHere r (c :: t) = None) ->
  (∀ s, itemStart s ->
        matchHere r (LF :: LF :: s) = None ∧ matchHere r (LF :: s) = None) ->
  matchHere r [] = None ->
  Forall plainItem items -> noMatch r (LF :: LF :: bulleted items).
Proof.
  intros H1 H2 H3 H.
  destruct (H2 _ (bulleted_itemStart items H)) as [Ha Hb].
  apply noMatch_cons; [done|]. apply noMatch_cons; [done|].
  induction H as [|i items Hi Hitems IH]; [by apply noMatch_nil|].
  rewrite bulleted_cons.
  apply (noMatch_text r (fun c => c ≠ LF)); [done|by apply item_line_noLF|].
  destruct (H2 _ (bulleted_itemStart items Hitems)) as [Hc Hd].
  apply noMatch_cons; [done|]. apply IH; [|done].
  clear -H2 Hitems. by destruct (H2 _ (bulleted_itemStart items Hitems)).
Qed.

Lemma cleanLines_bulleted (items : list str) :
  Forall plainItem items ->
  cleanLines (LF :: LF :: bulleted items) = LF :: LF :: bulleted items.
Proof.
  intros H. unfold cleanLines. rewrite clean_lines_join by by apply bulleted_lines.
  unfold replaceWith.
  rewrite (replace_noMatch threeFeeds).
  2: { apply bulleted_noMatch; [|apply item_threeLF|done|done].
       intros c t Hc. cbn [matchHere rep]. by rewrite isCh_ne. }
  rewrite (replace_noMatch bulletLine).
  2: { apply bulleted_noMatch; [|apply item_loneBullet|done|done].
       intros c t Hc. cbn [matchHere]. by rewrite isCh_ne. }
  apply (replace_noMatch blankLines).
  apply bulleted_noMatch; [|apply item_blankLines|done|done].
  intros c t Hc. unfold blankLines. cbn [matchHere]. by rewrite isCh_ne.
Qed.

Lemma bulleted_join (items : list str) :
  items ≠ [] ->
  bulleted items = join [LF] ((fun i => bullet :: 32 :: i) <$> items) ++ [LF].
Proof.
  induction items as [|i [|i' items] IH]; [done| |]; intros _.
  - rewrite bulleted_cons. reflexivity.
  - rewrite bulleted_cons, IH by done. rewrite !fmap_cons, join_cons.
    rewrite <- !app_assoc. reflexivity.
Qed.

Lemma lines_end_nonSpace (items : list str) :
  items ≠ [] -> Forall plainItem items ->
  ∃ t y, join [LF] ((fun i => bullet :: 32 :: i) <$> items) = t ++ [y] ∧ isSpace y = false.
Proof.
  intros Hne H. induction H as [|i items Hi Hitems IH]; [done|].
  destruct items as [|i' items].
  - destruct (plainItem_head i Hi) as (c & t & E & _).
    destruct Hi as ([Hs _] & _).
    destruct (spaced_ends i Hs) as [->|(t' & y & -> & Hy)]; [done|].
    exists (bullet :: 32 :: t'), y. by split.
  - destruct (IH ltac:(done)) as (t & y & E & Hy).
    exists ((bullet :: 32 :: i) ++ [LF] ++ t), y. split; [|done].
    rewrite <- !app_assoc, <- E. reflexivity.
Qed.

Lemma trim_bulleted (items : list str) :
  items ≠ [] -> Forall plainItem items ->
  trim (LF :: LF :: bulleted items) = join [LF] ((fun i => bullet :: 32 :: i) <$> items).
Proof.
  intros Hne H. unfold trim.
  assert (trimStart (LF :: LF :: bulleted items) = bulleted items) as ->.
  { unfold trimStart. cbn [dropWhile]. change (isSpace LF) with true. cbn iota.
    destruct H as [|i rest Hi _]; [done|]. by rewrite bulleted_cons. }
  rewrite bulleted_join by done.
  rewrite trimEnd_app. change (forallb isSpace [LF]) with true. cbn iota.
  apply trimEnd_ends. right. destruct (lines_end_nonSpace items Hne H) as (t & y & E & Hy).
  by exists t, y.
Qed.

Lemma list_clean (o : bool) (items : list str) :
  Forall plainItem items -> clean (listOf o items).
Proof.
  intros H. split; [|by destruct o].
  unfold listOf. apply spaced_app; [destruct o; apply spaced_tag; by_decision|].
  induction H as [|i items ([Hi _] & _) _ IH].
  - destruct o; apply spaced_tag; by_decision.
  - rewrite fmap_cons. cbn [concat]. rewrite <- app_assoc.
    apply spaced_app; [|done]. unfold listItem.
    apply spaced_app; [apply spaced_tag; by_decision|].
    apply spaced_app; [done|apply spaced_tag; by_decision].
Qed.

Lemma bulleted_Forall (P : char -> Prop) (items : list str) :
  P LF -> P bullet -> P 32 -> Forall (Forall P) items ->
  Forall P (LF :: LF :: bulleted items).
Proof.
  intros HL Hb Hs H. constructor; [done|]. constructor; [done|].
  induction H as [|i items Hi _ IH]; [done|].
  rewrite bulleted_cons. apply Forall_app. split; [by repeat constructor|].
  by constructor.
Qed.

Section Bullets.
Context (host : Host).

(** X23. The items of a list come out one on a line, each after a bullet
    and a space, for an ordered list as for an unordered one: the numbers of
    an ordered list are not written. *)
Theorem list_items_get_bullets (ordered : bool) (items : list str)
    (titleToRemove : option str) :
  items ≠ [] -> Forall plainItem items ->
  extractTextFromHtml host (listOf ordered items) titleToRemove
  = join [LF] ((fun i => bullet :: 32 :: i) <$> items).
Proof.
  intros Hne H.
  assert (Hlt : Forall (noChar (ch "<")) items).
  { eapply Forall_impl; [exact H|]. intros i (_ & _ & Hi).
    eapply Forall_impl; [exact Hi|]. by intros c [? _]. }
  assert (Hamp : Forall (noChar (ch "&")) items).
  { eapply Forall_impl; [exact H|]. intros i (_ & _ & Hi).
    eapply Forall_impl; [exact Hi|]. by intros c [_ ?]. }
  pose proof (tagged_list ordered items Hlt) as HT.
  unfold extractTextFromHtml.
  rewrite (list_body ordered), (list_noise ordered), (list_title host ordered) by done.
  rewrite (list_wrappers ordered) by done.
  rewrite clean_normalizeSource by by apply list_clean.
  rewrite list_handled by done.
  rewrite unwrapAnchors_plain, handleBlocks_plain by (by apply bulleted_Forall).
  rewrite decodeEntities_noAmp by (by apply bulleted_Forall).
  rewrite stripTags_plain by (by apply bulleted_Forall).
  rewrite cleanLines_bulleted by done. by apply trim_bulleted.
Qed.

End Bullets.

Lemma list_items_get_bullets_witness :
  extractTextFromHtml Sample.host (listOf true [lit "First step"; lit "Second"]) None
  = [bullet] ++ lit " First step" ++ [LF] ++ [bullet] ++ lit " Second".
Proof.
  apply (list_items_get_bullets Sample.host true [lit "First step"; lit "Second"] None).
  - done.
  - repeat constructor; try by_decision; try done; vm_compute; intros; discriminate.
Defined.

(** *** A heading before a paragraph *)

Lemma tagged_heading (h : str) (s : str) :
  noChar (ch "<") h -> tagged headingTags s -> tagged headingTags (subheading h ++ s).
Proof.
  intros Hh Hs. unfold subheading. rewrite <- !app_assoc.
  apply tagged_app; [by apply tagged_one|].
  apply tagged_app; [by apply tagged_plain|].
  apply tagged_app; [by apply tagged_one|done].
Qed.

Ltac over_heading H D :=
  rewrite (replace_noMatch _ _ D)
    by (apply (noMatch_tagged headingTags); [ignores_tags|exact H]).

Section HeadingSteps.
Context (host : Host) (D : str) (HD : tagged headingTags D).

Lemma heading_body : isolateBody D = D.
Proof.
  unfold isolateBody. rewrite exec_none; [done|].
  apply (noMatch_tagged headingTags); [ignores_tags|done].
Qed.

Lemma heading_noise_kept : removeNoise D = D.
Proof. unfold removeNoise, replaceWith. by do 4 over_heading HD D. Qed.

Lemma heading_no_title : removeTitle host None D = D.
Proof. unfold removeTitle, replaceWith. by over_heading HD D. Qed.

Lemma heading_wrappers : stripWrappers D = D.
Proof. unfold stripWrappers, replaceWith. by do 4 over_heading HD D. Qed.

Lemma heading_lists : handleLists D = D.
Proof. unfold handleLists, replaceWith. by do 7 over_heading HD D. Qed.

Lemma heading_anchors : unwrapAnchors D = D.
Proof. unfold unwrapAnchors. by over_heading HD D. Qed.

End HeadingSteps.

Lemma anyTag_lt (c : char) (t : str) : c ≠ ch "<" -> matchHere anyTag (c :: t) = None.
Proof. intros Hc. refine (head_none _ _ _ c t eq_refl _). by apply isCh_ne. Qed.

Lemma heading_blocks (h p : str) :
  noChar (ch "<") h -> noChar (ch "<") p ->
  handleBlocks (subheading h ++ paragraph p) = subheading h ++ p ++ [LF; LF].
Proof.
  intros Hh Hp. unfold handleBlocks, replaceWith, subheading, paragraph.
  rewrite <- !app_assoc.
  assert (E1 : ∀ r f,
             (∀ c t, c ≠ ch "<" -> matchHere r (c :: t) = None) ->
             (∀ Y, matchHere r (lit "<h2>" ++ Y) = None) ->
             (∀ Y, matchHere r (lit "</h2>" ++ Y) = None) ->
             ∀ Y, replace r f (lit "<h2>" ++ h ++ lit "</h2>" ++ Y)
                  = lit "<h2>" ++ h ++ lit "</h2>" ++ replace r f Y).
  { intros r f H1 H2 H3 Y.
    change (lit "<h2>" ++ ?Z) with ((ch "<" :: lit "h2>") ++ Z).
    rewrite replace_tag_miss; [|done|apply H2|by_decision]. f_equal.
    rewrite replace_text by done. f_equal.
    change (lit "</h2>" ++ ?Z) with ((ch "<" :: lit "/h2>") ++ Z).
    by rewrite replace_tag_miss; [|done|apply H3|by_decision]. }
  rewrite E1; [|not_lt|by intros Y|by intros Y].
  assert (E2 : replace (closeTag "p" ++ [star isSpace] ++ openTag "p") (fun _ => [LF; LF])
                 (lit "<p>" ++ p ++ lit "</p>") = lit "<p>" ++ p ++ lit "</p>").
  { change (lit "<p>" ++ ?Z) with ((ch "<" :: lit "p>") ++ Z).
    rewrite replace_tag_miss; [|not_lt|reflexivity|by_decision]. f_equal.
    rewrite replace_text; [|not_lt|done]. reflexivity. }
  rewrite E2, E1; [|apply closeTag_lt|by intros Y|by intros Y].
  assert (E3 : replace (closeTag "p") (fun _ => [LF; LF]) (lit "<p>" ++ p ++ lit "</p>")
               = lit "<p>" ++ p ++ [LF; LF]).
  { change (lit "<p>" ++ ?Z) with ((ch "<" :: lit "p>") ++ Z).
    rewrite replace_tag_miss; [|apply closeTag_lt|reflexivity|by_decision]. f_equal.
    rewrite replace_text; [|apply closeTag_lt|done]. reflexivity. }
  rewrite E3, E1; [|apply openTag_lt|by intros Y|by intros Y].
  assert (E4 : replace (openTag "p") (fun _ => []) (lit "<p>" ++ p ++ [LF; LF])
               = p ++ [LF; LF]).
  { assert (Hm : ∀ Y, matchHere (openTag "p") (lit "<p>" ++ Y) = Some ([lit "<p>"], Y))
      by (intros Y; reflexivity).
    rewrite (replace_hit _ _ _ _ (Hm _)) by done. cbn [fst snd app].
    apply replace_plain; [apply openTag_lt|reflexivity|].
    apply Forall_app. split; [done|by_decision]. }
  rewrite E4, E1; [|not_lt|by intros Y|by intros Y].
  do 3 f_equal. apply replace_plain; [not_lt|reflexivity|].
  apply Forall_app. split; [done|by_decision].
Qed.

Lemma heading_stripped (h s : str) :
  noChar (ch "<") h -> noChar (ch "<") s ->
  replaceWith anyTag [] (subheading h ++ s) = h ++ s.
Proof.
  intros Hh Hs. unfold replaceWith, subheading. rewrite <- !app_assoc.
  assert (H1 : ∀ Y, matchHere anyTag (lit "<h2>" ++ Y) = Some ([lit "<h2>"], Y))
    by (intros Y; reflexivity).
  assert (H2 : ∀ Y, matchHere anyTag (lit "</h2>" ++ Y) = Some ([lit "</h2>"], Y))
    by (intros Y; reflexivity).
  rewrite (replace_hit _ _ _ _ (H1 _)) by done. cbn [fst snd app].
  rewrite replace_text by (done || apply anyTag_lt). f_equal.
  rewrite (replace_hit _ _ _ _ (H2 _)) by done. cbn [fst snd app].
  by apply replace_plain; [apply anyTag_lt|reflexivity|].
Qed.

Section Heading.
Context (host : Host).

(** X24. A heading that is not removed as the title runs into the paragraph
    after it: its tags are removed like any other tag, and no line break is
    put in their place, so of [<h2>h</h2><p>p</p>] the text is [h] directly
    followed by [p]. *)
Theorem heading_runs_into_paragraph (h p : str) :
  plainParagraph h -> plainParagraph p ->
  extractTextFromHtml host (subheading h ++ paragraph p) None = h ++ p.
Proof.
  intros Hh Hp.
  pose proof Hh as ([Hhs Hhh] & Hhc & Hhb). pose proof Hp as ([Hps Hph] & Hpc & Hpb).
  assert (Hhl : noChar (ch "<") h) by (eapply Forall_impl; [exact Hhc|]; by intros c [? ?]).
  assert (Hpl : noChar (ch "<") p) by (eapply Forall_impl; [exact Hpc|]; by intros c [? ?]).
  assert (Hha : noChar (ch "&") h) by (eapply Forall_impl; [exact Hhc|]; by intros c [? ?]).
  assert (Hpa : noChar (ch "&") p) by (eapply Forall_impl; [exact Hpc|]; by intros c [? ?]).
  assert (HT : tagged headingTags (subheading h ++ paragraph p)).
  { apply tagged_heading; [done|]. unfold paragraph.
    apply tagged_app; [by apply tagged_one|].
    apply tagged_app; [by apply tagged_plain|by apply tagged_one]. }
  assert (Hc : clean (subheading h ++ paragraph p)).
  { split; [|done]. unfold subheading, paragraph.
    repeat apply spaced_app; try done; apply spaced_tag; by_decision. }
  assert (Hhp : plainParagraph (h ++ p)).
  { split; [split|split].
    - by apply spaced_app.
    - by destruct h.
    - by apply Forall_app.
    - by destruct h. }
  unfold extractTextFromHtml.
  rewrite heading_body, heading_noise_kept, (heading_no_title host) by done.
  rewrite heading_wrappers by done.
  rewrite clean_normalizeSource by done.
  rewrite heading_lists, heading_anchors by done.
  rewrite heading_blocks by done.
  assert (Hs : subheading h ++ p ++ [LF; LF] = subheading h ++ (p ++ [LF; LF])) by done.
  rewrite decodeEntities_noAmp.
  2: { unfold subheading. repeat (apply Forall_app; split); try done; by_decision. }
  rewrite heading_stripped by (done || (apply Forall_app; split; [done|by_decision])).
  change (h ++ p ++ [LF; LF]) with (h ++ p ++ [LF; LF] ++ []).
  assert (E : h ++ p ++ [LF; LF] ++ [] = spacedOut [h ++ p]).
  { unfold spacedOut. cbn. by rewrite <- !app_assoc. }
  rewrite E, cleanLines_spacedOut by (by constructor).
  rewrite trim_spacedOut by (done || by constructor). reflexivity.
Qed.

End Heading.

Lemma heading_runs_into_paragraph_witness :
  extractTextFromHtml Sample.host (subheading (lit "Part two") ++ paragraph (lit "It rained."))
    None
  = lit "Part twoIt rained.".
Proof.
  apply (heading_runs_into_paragraph Sample.host (lit "Part two") (lit "It rained.")).
  - repeat split; try by_decision; try done; vm_compute; intros; discriminate.
  - repeat split; try by_decision; try done; vm_compute; intros; discriminate.
Defined.

(** *** A link in a paragraph *)

Lemma spaced_no_terminator (s : str) :
  spaced s -> Forall (fun c => isLineTerminator c = false) s.
Proof.
  induction s as [|c s IH]; [done|]. intros [Hc Hs]. constructor; [|by apply IH].
  destruct (isLineTerminator c) eqn:E; [|done].
  assert (Hsp : isSpace c = true).
  { unfold isLineTerminator in E. unfold isSpace.
    repeat (apply orb_true_iff in E as [E|E]); apply N.eqb_eq in E; by subst c. }
  destruct (Hc Hsp) as [-> _]. done.
Qed.

Lemma spaced_app_inv (u v : str) : spaced (u ++ v) -> spaced v.
Proof. induction u as [|c u IH]; [done|]. intros [_ H]. by apply IH. Qed.

Lemma tagged_link (a attrs w b : str) :
  noChar (ch "<") a -> noChar (ch "<") attrs -> noChar (ch "<") w -> noChar (ch "<") b ->
  tagged linkTags (paragraph (a ++ link attrs w ++ b)).
Proof.
  intros Ha Hat Hw Hb. unfold paragraph, link. rewrite <- !app_assoc.
  apply tagged_app; [by apply tagged_one|].
  apply tagged_app; [by apply tagged_plain|].
  apply tagged_app; [by apply tagged_one|].
  apply tagged_app; [by apply tagged_plain|].
  apply tagged_app; [apply tagged_plain; by_decision|].
  apply tagged_app; [by apply tagged_plain|].
  apply tagged_app; [by apply tagged_one|].
  apply tagged_app; [by apply tagged_plain|by apply tagged_one].
Qed.

Ltac over_link H D :=
  rewrite (replace_noMatch _ _ D)
    by (apply (noMatch_tagged linkTags); [ignores_tags|exact H]).

Section LinkSteps.
Context (host : Host) (D : str) (HD : tagged linkTags D).

Lemma link_body : isolateBody D = D.
Proof.
  unfold isolateBody. rewrite exec_none; [done|].
  apply (noMatch_tagged linkTags); [ignores_tags|done].
Qed.

Lemma link_noise : removeNoise D = D.
Proof. unfold removeNoise, replaceWith. by do 4 over_link HD D. Qed.

Lemma link_title (t : option str) : removeTitle host t D = D.
Proof.
  unfold removeTitle, replaceWith. over_link HD D.
  destruct t as [[|c t]|]; [done| |done].
  rewrite patternLiteral_escapeRegExp. by over_link HD D.
Qed.

Lemma link_wrappers : stripWrappers D = D.
Proof. unfold stripWrappers, replaceWith. by do 4 over_link HD D. Qed.

Lemma link_lists : handleLists D = D.
Proof. unfold handleLists, replaceWith. by do 7 over_link HD D. Qed.

End LinkSteps.

Lemma elementText_lt (name : string) (c : char) (t : str) :
  c ≠ ch "<" -> matchHere (elementText name) (c :: t) = None.
Proof.
  intros Hc. refine (head_none _ _ _ c t eq_refl _). by apply isCI_lt_only.
Qed.

Lemma link_unwrapped (a attrs w b : str) :
  noChar (ch "<") a -> noChar (ch ">") attrs ->
  Forall (fun c => isLineTerminator c = false ∧ c ≠ ch "<") w -> noChar (ch "<") b ->
  unwrapAnchors (paragraph (a ++ link attrs w ++ b)) = paragraph (a ++ w ++ b).
Proof.
  intros Ha Hat Hw Hb. unfold unwrapAnchors, paragraph, link. rewrite <- !app_assoc.
  change (lit "<p>" ++ ?Z) with ((ch "<" :: lit "p>") ++ Z).
  rewrite replace_tag_miss; [|apply elementText_lt|reflexivity|by_decision]. f_equal.
  rewrite replace_text by (done || apply elementText_lt). f_equal.
  pose proof (elementText_here "a" attrs w (b ++ lit "</p>") Hat Hw) as Hm.
  change (lit "<" ++ lit "a" ++ ?Z) with (lit "<a" ++ Z) in Hm.
  change (lit "</" ++ lit "a" ++ lit ">" ++ ?Z) with (lit "</a>" ++ Z) in Hm.
  rewrite (replace_hit _ _ _ _ Hm).
  2: { unfold matched. cbn [concat fst]. by destruct attrs. }
  cbn [fst snd groupOf lookup list_lookup default from_option id]. f_equal.
  by rewrite replace_text by (done || apply elementText_lt).
Qed.

Section Link.
Context (host : Host).

(** X25. Of a link in a paragraph the text is kept and the tag with its
    attributes is dropped: the paragraph reads as if the text of the link
    stood there alone. *)
Theorem link_text_is_kept (a attrs w b : str) (titleToRemove : option str) :
  plainParagraph (a ++ w ++ b) ->
  clean (a ++ link attrs w ++ b) ->
  noChar (ch "<") attrs -> noChar (ch ">") attrs ->
  extractTextFromHtml host (paragraph (a ++ link attrs w ++ b)) titleToRemove
  = a ++ w ++ b.
Proof.
  intros Hq Hc Hal Hag.
  pose proof Hq as (Hqc & Hqm & Hqb).
  apply Forall_app in Hqm as [Ha Hqm]. apply Forall_app in Hqm as [Hw Hb].
  assert (Hal' : noChar (ch "<") a) by (eapply Forall_impl; [exact Ha|]; by intros c [? ?]).
  assert (Hwl : noChar (ch "<") w) by (eapply Forall_impl; [exact Hw|]; by intros c [? ?]).
  assert (Hbl : noChar (ch "<") b) by (eapply Forall_impl; [exact Hb|]; by intros c [? ?]).
  assert (Hwt : Forall (fun c => isLineTerminator c = false ∧ c ≠ ch "<") w).
  { destruct Hqc as [Hs _]. apply spaced_app_inv, spaced_no_terminator in Hs.
    apply Forall_app in Hs as [Hs _].
    apply Forall_forall. intros c Hin. split.
    - by apply (proj1 (Forall_forall _ _) Hs).
    - by apply (proj1 (Forall_forall _ _) Hwl). }
  pose proof (tagged_link a attrs w b Hal' Hal Hwl Hbl) as HT.
  assert (Hdoc : clean (paragraph (a ++ link attrs w ++ b))).
  { split; [|done]. unfold paragraph.
    apply spaced_app; [apply spaced_tag; by_decision|].
    apply spaced_app; [apply Hc|apply spaced_tag; by_decision]. }
  set (q := a ++ w ++ b) in *.
  assert (Hq1 : Forall plainParagraph [q]) by (by constructor).
  unfold extractTextFromHtml.
  rewrite link_body, link_noise, (link_title host), link_wrappers by done.
  rewrite clean_normalizeSource by done.
  rewrite link_lists, link_unwrapped by done. fold q.
  assert (Ed : paragraph q = concat (paragraph <$> [q])) by (cbn; by rewrite app_nil_r).
  rewrite Ed, breaks by (done || by repeat (apply Forall_app; split)).
  rewrite decodeEntities_noAmp.
  2: { apply spacedOut_Forall; [done|]. constructor; [|done].
       eapply Forall_impl; [apply Hq|]. by intros c [? ?]. }
  rewrite stripTags_plain.
  2: { apply spacedOut_Forall; [done|]. constructor; [|done].
       eapply Forall_impl; [apply Hq|]. by intros c [? ?]. }
  rewrite cleanLines_spacedOut, trim_spacedOut by done. reflexivity.
Qed.

End Link.

Lemma link_text_is_kept_witness :
  extractTextFromHtml Sample.host
    (paragraph (lit "see " ++ link (lit " href='x.html'") (lit "the note") ++ lit " here")) None
  = lit "see the note here".
Proof.
  apply (link_text_is_kept Sample.host (lit "see ") (lit " href='x.html'") (lit "the note")
           (lit " here") None).
  - repeat split; try by_decision; try done; vm_compute; intros; discriminate.
  - vm_compute. repeat split; try done; intros; discriminate.
  - by_decision.
  - by_decision.
Defined.

(** *** A package document with further attributes *)

Lemma itemWith_shape (e : ManifestItem) :
  itemWith e
  = lit "<item" ++ (lit " id=" ++ [quote] ++ itemId e ++ [quote] ++ lit " href=" ++ [quote]
                    ++ itemHref e ++ [quote] ++ itemMore e ++ [ch "/"]) ++ [ch ">"].
Proof. unfold itemWith. rewrite <- !app_assoc. reflexivity. Qed.

Lemma itemrefWith_shape (r : SpineRef) :
  itemrefWith r
  = lit "<item" ++ (lit "ref idref=" ++ [quote] ++ refId r ++ [quote] ++ refMore r
                    ++ [ch "/"]) ++ [ch ">"].
Proof. unfold itemrefWith. rewrite <- !app_assoc. reflexivity. Qed.

Lemma itemWith_inside (e : ManifestItem) :
  plainManifestItem e ->
  noChar (ch ">") (lit " id=" ++ [quote] ++ itemId e ++ [quote] ++ lit " href=" ++ [quote]
                   ++ itemHref e ++ [quote] ++ itemMore e ++ [ch "/"])
  ∧ noChar (ch "<") (lit "item" ++ (lit " id=" ++ [quote] ++ itemId e ++ [quote]
                     ++ lit " href=" ++ [quote] ++ itemHref e ++ [quote] ++ itemMore e
                     ++ [ch "/"]) ++ [ch ">"]).
Proof.
  intros ((_ & _ & Hl1 & Hg1)%plainValue_noChar & (_ & _ & Hl2 & Hg2)%plainValue_noChar
          & _ & Hl & Hg & _).
  split; repeat (apply Forall_app; split); try done; by_decision.
Qed.

Lemma itemrefWith_inside (r : SpineRef) :
  plainSpineRef r ->
  noChar (ch ">") (lit "ref idref=" ++ [quote] ++ refId r ++ [quote] ++ refMore r ++ [ch "/"])
  ∧ noChar (ch "<") (refMore r ++ [ch "/"]).
Proof.
  intros ((_ & _ & _ & Hg)%plainValue_noChar & _ & Hl & Hg' & _).
  split; repeat (apply Forall_app; split); try done; by_decision.
Qed.

Lemma plainMore_slash (w more : str) :
  includes w (more ++ lit "/>") = false -> includes w (more ++ [ch "/"]) = false.
Proof.
  intros H. destruct (includes w (more ++ [ch "/"])) eqn:E; [|done].
  apply (includes_app_l _ _ [ch ">"]) in E. rewrite <- app_assoc in E.
  change ([ch "/"] ++ [ch ">"]) with (lit "/>") in E. congruence.
Qed.

Local Abbreviation spinePattern := (cs "<itemref" ++ [star notGt] ++ attrValue "idref").

Lemma itemrefWith_here (r : SpineRef) (rest : str) :
  plainSpineRef r ->
  matchHere spinePattern (itemrefWith r ++ rest)
  = Some ([lit "<itemref " ++ lit "idref" ++ lit "=" ++ [quote]; refId r; [quote]],
          refMore r ++ lit "/>" ++ rest).
Proof.
  destruct r as [id more]. cbn [refId refMore]. intros (Hp & Hne & Hml & Hmg & _ & Hmi).
  cbn [refId refMore] in *.
  destruct (plainValue_noChar _ Hp) as (Hq & He & Hl & Hg).
  unfold itemrefWith, cs. cbn [refId refMore].
  change (lit "<itemref idref=" ++ [quote] ++ id ++ [quote] ++ more ++ lit "/>")
    with (lit "<itemref" ++ [32] ++ lit "idref" ++ lit "=" ++ [quote] ++ id
          ++ [quote] ++ more ++ lit "/>").
  rewrite <- !app_assoc, matchHere_literal_app.
  change ([star notGt] ++ attrValue "idref") with (Rep true 0 notGt :: attrValue "idref").
  rewrite matchHere_Rep.
  set (s1 := lit "idref" ++ lit "=" ++ [quote] ++ id ++ [quote] ++ more ++ lit "/>" ++ rest).
  assert (Hk : matchHere (attrValue "idref") s1
               = Some ([lit "idref" ++ lit "=" ++ [quote]; id; [quote]],
                       more ++ lit "/>" ++ rest)).
  { unfold s1. by apply attrValue_here. }
  assert (Hs : rep true 0 notGt (matchHere (attrValue "idref")) s1
               = matchHere (attrValue "idref") s1).
  { assert (E1 : s1 = (lit "idref=" ++ [quote] ++ id ++ [quote] ++ more ++ [ch "/"])
                      ++ ch ">" :: rest)
      by (unfold s1; rewrite <- !app_assoc; reflexivity).
    rewrite E1. apply star_only_here.
    - apply notGt_noChar. apply Forall_app. split; [by_decision|].
      apply Forall_cons. split; [done|].
      apply Forall_app. split; [done|].
      apply Forall_cons. split; [done|].
      apply Forall_app. split; [done|by_decision].
    - done.
    - intros j Hj.
      change (attrValue "idref")
        with (literal (lit "idref=" ++ [quote]) ++ [Mark; plus notQuote; Mark] ++ q).
      apply matchHere_literal_none.
      do 7 (destruct j as [|j]; [try lia; reflexivity|]).
      change (S (S (S (S (S (S (S j))))))) with (7 + j)%nat.
      rewrite <- drop_drop.
      change (drop 7 ((lit "idref=" ++ [quote] ++ id ++ [quote] ++ more ++ [ch "/"])
                      ++ ch ">" :: rest))
        with ((id ++ [quote] ++ more ++ [ch "/"]) ++ ch ">" :: rest).
      destruct (startsWith (lit "idref=" ++ [quote])
                  (drop j ((id ++ [quote] ++ more ++ [ch "/"]) ++ ch ">" :: rest))) eqn:E;
        [|done].
      exfalso.
      assert (Hj' : (j ≤ length (id ++ [quote] ++ more ++ [ch "/"]))%nat).
      { rewrite !length_app in Hj. rewrite !length_app. cbn in Hj. cbn. lia. }
      rewrite drop_app_le in E by done.
      apply startsWith_runs_over in E as [E|[_ E]].
      + apply startsWith_includes in E.
        rewrite (app_assoc id [quote]) in E.
        rewrite (includes_skip_after (lit "idref=")) in E
          by first [by apply includes_plain_quote|by_decision].
        rewrite (includes_longer (lit "idref=")) in E; [done|].
        by apply plainMore_slash.
      + specialize (E _ _ eq_refl). revert E. by_decision. }
  match goal with
  | |- pushes _ <$> ?A = _ =>
      assert (Hstar : A = Some (pushes [32] ([lit "idref" ++ lit "=" ++ [quote]; id; [quote]],
                                         more ++ lit "/>" ++ rest)))
        by (apply star_prefix; [by constructor|exact (eq_trans Hs Hk)]);
      rewrite Hstar
  end.
  cbn [fmap option_fmap option_map]. rewrite !pushes_cons. done.
Qed.

Lemma itemWith_no_itemref (e : ManifestItem) :
  plainManifestItem e -> includes (lit "<itemref") (itemWith e) = false.
Proof.
  intros He. destruct (itemWith_inside e He) as [_ Hl]. rewrite itemWith_shape.
  change (lit "<item" ++ ?a) with (ch "<" :: lit "item" ++ a).
  rewrite includes_cons. apply orb_false_iff. split; [reflexivity|].
  apply (includes_noChar (ch "<")); [by_decision|done].
Qed.

Lemma itemrefWith_elements (rs : list SpineRef) (rest : str) :
  Forall plainSpineRef rs ->
  matchAll spinePattern (concat (itemrefWith <$> rs) ++ rest)
  = ((fun r => lit "<itemref idref=" ++ [quote] ++ refId r ++ [quote]) <$> rs)
    ++ matchAll spinePattern rest.
Proof.
  induction 1 as [|r rs Hr _ IH]; [done|].
  rewrite !fmap_cons. cbn [concat]. rewrite <- app_assoc.
  rewrite (matchAll_hit _ _ _ (itemrefWith_here r _ Hr)).
  2: { cbn [matched fst concat]. by destruct (refId r). }
  cbn [matched fst snd concat]. rewrite app_nil_r.
  destruct (itemrefWith_inside r Hr) as [_ Hl].
  assert (E : ∀ s, refMore r ++ lit "/>" ++ s = ((refMore r ++ [ch "/"]) ++ [ch ">"]) ++ s)
    by (intros s; by rewrite <- !app_assoc).
  rewrite E.
  rewrite (skip_after (lit "<itemref")).
  2: { apply (includes_noChar (ch "<")); [by_decision|].
       apply Forall_app. split; [done|by_decision]. }
  2: by_decision.
  change (literal (lit "<itemref")) with (cs "<itemref").
  rewrite IH, <- app_comm_cons. by f_equal.
Qed.

Lemma itemWith_elements_no_itemref (es : list ManifestItem) (rest : str) :
  Forall plainManifestItem es ->
  matchAll spinePattern (concat (itemWith <$> es) ++ rest) = matchAll spinePattern rest.
Proof.
  induction 1 as [|e es He _ IH]; [done|].
  rewrite fmap_cons. cbn [concat]. rewrite <- app_assoc.
  pose proof (itemWith_no_itemref e He) as Hn.
  rewrite itemWith_shape in Hn |- *. rewrite (app_assoc (lit "<item")) in Hn |- *.
  by rewrite (skip_after (lit "<itemref")) by (done || by_decision).
Qed.

Section PackageWith.
Context (metadata : str) (entries : list ManifestItem) (spine : list SpineRef).
Context (Hm : includes (lit "<item") metadata = false).
Context (He : Forall plainManifestItem entries).
Context (Hs : Forall plainSpineRef spine).

Lemma manifestItems_packageWith :
  manifestItems (packageWith metadata entries spine)
  = (itemWith <$> entries) ++ (itemrefWith <$> spine).
Proof.
  unfold manifestItems, packageWith.
  change (lit "<package>" ++ ?s) with ((lit "<package" ++ [ch ">"]) ++ s).
  rewrite (skip_after (lit "<item")) by by_decision.
  change (lit "<manifest>" ++ ?s) with (ch "<" :: (lit "manifest" ++ [ch ">"]) ++ s).
  rewrite (skip_before (ch "<") (lit "item")) by (done || by_decision).
  rewrite matchAll_miss by done.
  rewrite (skip_after (lit "<item")) by by_decision.
  rewrite tag_elements.
  2: { apply Forall_fmap. eapply Forall_impl; [exact He|]. intros e H. cbn.
       eexists. split; [apply itemWith_shape|]. by apply itemWith_inside. }
  f_equal.
  change (lit "</manifest><spine>" ++ ?s) with ((lit "</manifest><spine" ++ [ch ">"]) ++ s).
  rewrite (skip_after (lit "<item")) by by_decision.
  rewrite tag_elements.
  2: { apply Forall_fmap. eapply Forall_impl; [exact Hs|]. intros r H. cbn.
       eexists. split; [apply itemrefWith_shape|]. by apply itemrefWith_inside. }
  rewrite (skip_end (lit "<item")) by by_decision. by rewrite app_nil_r.
Qed.

Lemma itemRefs_packageWith :
  matchAll spinePattern (packageWith metadata entries spine)
  = (fun r => lit "<itemref idref=" ++ [quote] ++ refId r ++ [quote]) <$> spine.
Proof.
  unfold packageWith.
  change (lit "<package>" ++ ?s) with ((lit "<package" ++ [ch ">"]) ++ s).
  rewrite (skip_after (lit "<itemref")) by by_decision.
  change (lit "<manifest>" ++ ?s) with (ch "<" :: (lit "manifest" ++ [ch ">"]) ++ s).
  rewrite (skip_before (ch "<") (lit "itemref"))
    by (by_decision || by apply (includes_longer (lit "<item") (lit "ref"))).
  rewrite matchAll_miss by done.
  rewrite (skip_after (lit "<itemref")) by by_decision.
  rewrite itemWith_elements_no_itemref by done.
  change (lit "</manifest><spine>" ++ ?s) with ((lit "</manifest><spine" ++ [ch ">"]) ++ s).
  rewrite (skip_after (lit "<itemref")) by by_decision.
  rewrite itemrefWith_elements by done.
  rewrite (skip_end (lit "<itemref")) by by_decision. by rewrite app_nil_r.
Qed.

Lemma spineIds_packageWith :
  spineIds (packageWith metadata entries spine) = refId <$> spine.
Proof.
  unfold spineIds. rewrite itemRefs_packageWith. rewrite <- list_fmap_compose.
  clear Hm He. revert Hs. generalize spine. intros rs.
  induction 1 as [|x rs' (Hp & Hne & _) _ IH]; [done|].
  rewrite !fmap_cons. unfold compose at 1. rewrite (idref_of_match (refId x) Hp Hne).
  cbn [group1 groupOf fst lookup list_lookup default from_option id].
  rewrite filter_cons_True by done. f_equal. exact IH.
Qed.

End PackageWith.

(** *** Looking an id up among such items *)

Local Abbreviation idNamed x := (lit "id=" ++ [quote] ++ x ++ [quote]).

Lemma includes_id_itemWith (x : str) (e : ManifestItem) :
  plainValue x -> plainManifestItem e ->
  includes (idNamed x) (itemWith e) = bool_decide (itemId e = x).
Proof.
  destruct e as [i h more]. cbn [itemId]. intros Hx (H1 & H2 & _ & _ & _ & Hmi & _).
  cbn [itemId itemHref itemMore] in *.
  unfold itemWith. cbn [itemId itemHref itemMore].
  pose proof (plainValue_noChar _ Hx) as (Hxq & _).
  pose proof (plainValue_noChar _ H1) as (Hiq & _).
  change (lit "<item id=" ++ [quote] ++ i ++ [quote] ++ lit " href=" ++ [quote] ++ h
          ++ [quote] ++ more ++ lit "/>")
    with ((lit "<item" ++ [32]) ++ lit "id=" ++ [quote] ++ i ++ [quote]
          ++ lit " href=" ++ [quote] ++ h ++ [quote] ++ more ++ lit "/>").
  rewrite (includes_skip_after (lit "id=")) by by_decision.
  change (lit "id=" ++ [quote] ++ i ++ ?r) with (ch "i" :: (lit "d=" ++ [quote]) ++ i ++ r).
  rewrite includes_cons.
  assert (Hrest : includes (idNamed x)
                    ((lit "d=" ++ [quote]) ++ i ++ [quote] ++ lit " href=" ++ [quote] ++ h
                     ++ [quote] ++ more ++ lit "/>") = false).
  { rewrite (includes_skip_after (lit "id=")) by by_decision.
    rewrite (app_assoc i [quote]).
    rewrite (includes_skip_after (lit "id=")) by first [by apply includes_plain_quote|by_decision].
    change (lit " href=" ++ [quote] ++ ?r) with ((lit " href=" ++ [quote]) ++ r).
    rewrite (includes_skip_after (lit "id=")) by by_decision.
    rewrite (app_assoc h [quote]).
    rewrite (includes_skip_after (lit "id=")) by first [by apply includes_plain_quote|by_decision].
    by apply (includes_longer (lit "id=")). }
  rewrite Hrest, orb_false_r.
  change (startsWith (idNamed x) (ch "i" :: (lit "d=" ++ [quote]) ++ i ++ ?r))
    with (startsWith (x ++ [quote]) (i ++ r)).
  case_bool_decide as E.
  - subst x. rewrite (app_assoc i [quote]). apply startsWith_app.
  - destruct (startsWith _ _) eqn:Es; [|done]. exfalso. apply E. symmetry.
    eapply (startsWith_same_end quote x i); [| |exact Es];
      intros Hin; eapply Forall_forall in Hin; eauto; done.
Qed.

Lemma includes_id_itemrefWith (x : str) (r : SpineRef) :
  plainSpineRef r -> includes (idNamed x) (itemrefWith r) = false.
Proof.
  destruct r as [y more]. intros (Hy & _ & _ & _ & Hmi & _). cbn [refId refMore] in *.
  unfold itemrefWith. cbn [refId refMore].
  change (lit "<itemref idref=" ++ [quote] ++ y ++ [quote] ++ more ++ lit "/>")
    with ((lit "<itemref idref=" ++ [quote]) ++ y ++ [quote] ++ more ++ lit "/>").
  rewrite (includes_skip_after (lit "id=")) by by_decision.
  rewrite (app_assoc y [quote]).
  rewrite (includes_skip_after (lit "id=")) by first [by apply includes_plain_quote|by_decision].
  by apply (includes_longer (lit "id=")).
Qed.

Lemma findItem_itemrefsWith (rs : list SpineRef) (x : str) :
  Forall plainSpineRef rs -> findItem (itemrefWith <$> rs) x = None.
Proof.
  induction 1 as [|y rs Hy _ IH]; [done|].
  by rewrite fmap_cons, findItem_cons, includes_id_itemrefWith.
Qed.

Lemma itemOfId_cons (a : ManifestItem) (entries : list ManifestItem) (x : str) :
  itemOfId (a :: entries) x
  = if decide (itemId a = x) then Some a else itemOfId entries x.
Proof.
  unfold itemOfId. cbn [list_find]. destruct (decide (itemId a = x)); [done|].
  by destruct (list_find _ entries) as [[k e]|].
Qed.

Lemma findItem_packageWith (entries : list ManifestItem) (spine : list SpineRef) (x : str) :
  Forall plainManifestItem entries -> Forall plainSpineRef spine -> plainValue x ->
  findItem ((itemWith <$> entries) ++ (itemrefWith <$> spine)) x
  = itemWith <$> itemOfId entries x.
Proof.
  intros He Hs Hx. induction He as [|e entries H _ IH].
  - by rewrite fmap_nil, app_nil_l, findItem_itemrefsWith.
  - rewrite fmap_cons, <- app_comm_cons, findItem_cons, includes_id_itemWith by done.
    rewrite itemOfId_cons. case_bool_decide as E.
    + by rewrite decide_True.
    + by rewrite decide_False.
Qed.

Lemma href_of_itemWith (e : ManifestItem) :
  plainManifestItem e ->
  exec (attrValue "href") (itemWith e)
  = Some ([lit "href" ++ lit "=" ++ [quote]; itemHref e; [quote]], itemMore e ++ lit "/>").
Proof.
  destruct e as [i h more]. intros (H1 & H2 & Hne & _). cbn [itemId itemHref itemMore] in *.
  pose proof (plainValue_noChar _ H2) as (Hhq & _).
  unfold itemWith. cbn [itemId itemHref itemMore].
  change (lit "<item id=" ++ [quote] ++ i ++ [quote] ++ lit " href=" ++ [quote] ++ h
          ++ [quote] ++ more ++ lit "/>")
    with ((lit "<item id=" ++ [quote]) ++ i ++ [quote] ++ ([] ++ [32])
          ++ lit "href" ++ lit "=" ++ [quote] ++ h ++ quote :: more ++ lit "/>").
  assert (Hr : attrValue "href"
               = literal (lit "href=") ++ (q ++ [Mark; plus notQuote; Mark] ++ q))
    by reflexivity.
  rewrite Hr at 1.
  rewrite exec_skip_after by by_decision.
  rewrite (app_assoc i [quote]).
  rewrite exec_skip_after by first [by apply includes_plain_quote|by_decision].
  rewrite exec_skip_after by by_decision.
  rewrite <- Hr. apply exec_here. by apply attrValue_here.
Qed.

Lemma itemOfId_elem (entries : list ManifestItem) (x : str) (e : ManifestItem) :
  itemOfId entries x = Some e -> e ∈ entries ∧ itemId e = x.
Proof.
  unfold itemOfId. destruct (list_find _ entries) as [[k e']|] eqn:E; [|done].
  intros [= <-]. apply list_find_Some in E as (Hk & He & _).
  split; [by eapply list_elem_of_lookup_2|done].
Qed.

Lemma itemOfId_none (entries : list ManifestItem) (x : str) :
  itemOfId entries x = None ↔ ∀ e, e ∈ entries -> itemId e ≠ x.
Proof.
  induction entries as [|a entries IH]; [by split; [intros _ e ?%elem_of_nil|]|].
  rewrite itemOfId_cons. destruct (decide (itemId a = x)) as [E|E].
  - split; [done|]. intros H. destruct (H a); [by left|done].
  - rewrite IH. split.
    + intros H e [->|He]%elem_of_cons; [done|by apply H].
    + intros H e He. apply H. by right.
Qed.

Lemma itemOfId_unique (entries : list ManifestItem) (x : str) (e : ManifestItem) :
  NoDup (itemId <$> entries) -> e ∈ entries -> itemId e = x -> itemOfId entries x = Some e.
Proof.
  induction entries as [|a entries IH]; [by intros _ ?%elem_of_nil|].
  rewrite fmap_cons, NoDup_cons. intros [Ha Hnd] [->|He]%elem_of_cons Hx;
    rewrite itemOfId_cons.
  - by rewrite decide_True.
  - rewrite decide_False; [by apply IH|].
    intros E. apply Ha. rewrite E, <- Hx. by apply list_elem_of_fmap_2.
Qed.

Lemma itemOfId_Permutation (entries entries' : list ManifestItem) (x : str) :
  entries' ≡ₚ entries -> NoDup (itemId <$> entries) ->
  itemOfId entries' x = itemOfId entries x.
Proof.
  intros Hp Hnd. destruct (itemOfId entries x) as [e|] eqn:E.
  - apply itemOfId_elem in E as [Hin Hx].
    apply itemOfId_unique; [by rewrite Hp|by rewrite Hp|done].
  - apply itemOfId_none. intros e He. rewrite Hp in He.
    by apply (proj1 (itemOfId_none _ _) E).
Qed.

Lemma chapterOfIdref_packageWith (host : Host) (zip : gmap (list N) ZipObject)
    (opfDir : str) (entries : list ManifestItem) (spine : list SpineRef) (x : str) :
  Forall plainManifestItem entries -> Forall plainSpineRef spine -> plainValue x ->
  chapterOfIdref host ((itemWith <$> entries) ++ (itemrefWith <$> spine)) zip opfDir x
  = e ← itemOfId entries x; chapterAt host zip (opfDir ++ itemHref e).
Proof.
  intros He Hs Hx. unfold chapterOfIdref.
  rewrite findItem_packageWith by done.
  destruct (itemOfId entries x) as [e|] eqn:E; [|done].
  apply itemOfId_elem in E as [Hin _].
  eapply Forall_forall in He; [|exact Hin].
  cbn [fmap option_fmap option_map mbind option_bind].
  rewrite href_of_itemWith by done.
  cbn [mbind option_bind group1 groupOf fst lookup list_lookup default from_option id].
  reflexivity.
Qed.

(** *** The reading order of a package document *)

Lemma length_omap_le {A B : Type} (f : A -> option B) (l : list A) :
  (length (omap f l) ≤ length l)%nat.
Proof.
  induction l as [|a l IH]; [done|]. rewrite omap_cons.
  destruct (f a); cbn [length option_list app]; lia.
Qed.

Section ReadingOrder.
Context (host : Host) (zip : gmap (list N) ZipObject) (opfDir metadata : str).

(** The chapter that an idref gives, through the first manifest item of
    that id. *)
Local Abbreviation chapterOf entries :=
  (fun id => e ← itemOfId entries id; chapterAt host zip (opfDir ++ itemHref e)).

Lemma chapters_packageWith (entries : list ManifestItem) (spine : list SpineRef) :
  includes (lit "<item") metadata = false ->
  Forall plainManifestItem entries -> Forall plainSpineRef spine ->
  extractChapters host (packageWith metadata entries spine) zip opfDir
  = Returns (omap (chapterOf entries) (refId <$> spine)).
Proof.
  intros Hm He Hs.
  rewrite extractChapters_omap, manifestItems_packageWith, spineIds_packageWith by done.
  f_equal.
  assert (Hp : Forall plainValue (refId <$> spine))
    by (apply Forall_fmap; eapply Forall_impl; [exact Hs|]; by intros ? [? ?]).
  assert (Hall : ∀ ids, Forall plainValue ids ->
            omap (chapterOfIdref host ((itemWith <$> entries) ++ (itemrefWith <$> spine))
                    zip opfDir) ids
            = omap (chapterOf entries) ids).
  { induction 1 as [|x ids Hx _ IH]; [done|].
    rewrite !omap_cons, IH. by rewrite chapterOfIdref_packageWith. }
  by apply Hall.
Qed.


End ReadingOrder.



(** *** A text without a tag *)

Lemma holdsGt_here (r r' : regex) : r = One (isCh (ch ">")) :: r' -> holdsGt r.
Proof.
  intros -> [|c s] h; cbn [matchHere]; [done|].
  unfold isCh at 1. destruct (N.eqb_spec c (ch ">")) as [->|]; [|done].
  destruct (matchHere r' s) as [h'|]; [|done]. intros [= <-].
  rewrite matched_push. by left.
Qed.

Lemma holdsGt_app (r r0 r' : regex) : r = r0 ++ r' -> holdsGt r' -> holdsGt r.
Proof.
  intros -> H. unfold holdsGt. apply (matched_ends (fun m => ch ">" ∈ m)); [|exact H].
  intros c m Hm. by right.
Qed.

Lemma holdsGt_item (r : regex) (i : item) (r' : regex) :
  r = i :: r' -> holdsGt r' -> holdsGt r.
Proof. intros ->. by apply (holdsGt_app _ [i]). Qed.

Lemma closesTag_gt (s : str) : closesTag s -> ch ">" ∈ s.
Proof. destruct s as [|c s]; [done|]. by intros [_ ?]. Qed.

Lemma closes_One (r : regex) (p : char -> bool) (r' : regex) :
  r = One p :: r' -> p (ch ">") = false -> holdsGt r' -> closes r.
Proof.
  intros -> Hp H [|c s] h; cbn [matchHere]; [done|].
  destruct (p c) eqn:Ec; [|done].
  destruct (matchHere r' s) as [h'|] eqn:E; [|done]. intros _.
  split; [intros ->; by rewrite Hp in Ec|].
  right. rewrite (matchHere_sound _ _ _ E). apply elem_of_app. left. by apply (H s).
Qed.

Lemma closes_Opt (r : regex) (p : char -> bool) (r' : regex) :
  r = Opt p :: r' -> p (ch ">") = false -> closes r' -> closes r.
Proof.
  intros -> Hp H [|c s] h; cbn [matchHere]; [apply H|].
  destruct (p c) eqn:Ec; [|apply H].
  destruct (matchHere r' s) as [h'|] eqn:E; [|apply H]. intros _.
  split; [intros ->; by rewrite Hp in Ec|].
  right. by apply closesTag_gt, (H s h').
Qed.

Lemma tagFirst_intro (r : regex) (p : char -> bool) (r' : regex) :
  r = One p :: r' -> (∀ c, p c = true -> c = ch "<") -> closes r' -> tagFirst r.
Proof.
  intros -> Hp H [|c s] h; cbn [matchHere]; [done|].
  destruct (p c) eqn:Ec; [|done].
  destruct (matchHere r' s) as [h'|] eqn:E; [|done]. intros _.
  apply anyTag_here. split; [by apply Hp|by apply (H s h')].
Qed.

Lemma isCh_lt (c : char) : isCh (ch "<") c = true -> c = ch "<".
Proof. unfold isCh. by intros ?%N.eqb_eq. Qed.

Lemma isCI_lt_first (c : char) : isCI (ch "<") c = true -> c = ch "<".
Proof.
  intros H. destruct (decide (c = ch "<")) as [|Hc]; [done|].
  by rewrite isCI_lt_only in H.
Qed.

Lemma tagFirst_anyTag : tagFirst anyTag.
Proof. intros s h H. by exists h. Qed.

Ltac holds_gt :=
  repeat first [ refine (holdsGt_here _ _ eq_refl)
               | refine (holdsGt_item _ _ _ eq_refl _)
               | refine (holdsGt_app _ _ _ eq_refl _) ].

Ltac tag_first :=
  first [ exact tagFirst_anyTag
        | refine (tagFirst_intro _ _ _ eq_refl _ _);
          [ first [exact isCh_lt|exact isCI_lt_first]
          | first [ refine (closes_One _ _ _ eq_refl eq_refl _)
                  | refine (closes_Opt _ _ _ eq_refl eq_refl _);
                    refine (closes_One _ _ _ eq_refl eq_refl _) ];
            holds_gt ] ].

(** In a text without a tag no pattern that begins with a tag finds
    anything. *)
Lemma tagFree_noMatch (r : regex) (s : str) :
  tagFirst r -> exec anyTag s = None -> noMatch r s.
Proof.
  intros Hr Hs k. destruct (matchHere r (drop k s)) as [h|] eqn:E; [|done].
  apply Hr in E. rewrite (exec_none_inv _ _ k Hs) in E. by destruct E.
Qed.

Lemma tagFree_replace (r : regex) (f : list str -> str) (s : str) :
  tagFirst r -> exec anyTag s = None -> replace r f s = s.
Proof. intros Hr Hs. by apply replace_noMatch, tagFree_noMatch. Qed.

Lemma tagFree_exec (r : regex) (s : str) :
  tagFirst r -> exec anyTag s = None -> exec r s = None.
Proof. intros Hr Hs. by apply exec_none, tagFree_noMatch. Qed.

Section TagFree.
Context (host : Host).

Lemma extractText_tag_free (html : str) (titleToRemove : option str) :
  exec anyTag (extractTextFromHtml host html titleToRemove) = None.
Proof.
  unfold extractTextFromHtml. apply no_tag_iff. intros H.
  apply (tame_no_tag trim), (tame_no_tag cleanLines) in H;
    [|apply tame_cleanLines|apply tame_trim].
  revert H. apply no_tag_iff, strip_leaves_no_tag.
Qed.

(** A clean line without a tag and without an entity of the table is a fixed
    point of the transducer, whatever title is to be removed. *)
Lemma extractText_fixed (c : str) (t : option str) :
  clean c -> exec anyTag c = None ->
  Forall (fun e : str * str => includes e.1 c = false) entities ->
  extractTextFromHtml host c t = c.
Proof.
  intros Hc Htag Hent. unfold extractTextFromHtml.
  assert (isolateBody c = c) as ->.
  { unfold isolateBody. by rewrite tagFree_exec by (done || tag_first). }
  assert (removeNoise c = c) as ->.
  { unfold removeNoise, replaceWith.
    by rewrite !(tagFree_replace _ _ c) by (done || tag_first). }
  assert (removeTitle host t c = c) as ->.
  { unfold removeTitle, replaceWith.
    rewrite (tagFree_replace _ _ c) by (done || tag_first).
    destruct t as [[|a t]|]; [done| |done].
    destruct (patternLiteral _) as [l|]; [|done].
    by rewrite (tagFree_replace _ _ c) by (done || tag_first). }
  assert (stripWrappers c = c) as ->.
  { unfold stripWrappers, replaceWith.
    by rewrite !(tagFree_replace _ _ c) by (done || tag_first). }
  rewrite clean_normalizeSource by done.
  assert (handleLists c = c) as ->.
  { unfold handleLists, replaceWith.
    by rewrite !(tagFree_replace _ _ c) by (done || tag_first). }
  assert (unwrapAnchors c = c) as ->.
  { unfold unwrapAnchors. by rewrite (tagFree_replace _ _ c) by (done || tag_first). }
  assert (handleBlocks c = c) as ->.
  { unfold handleBlocks, replaceWith.
    by rewrite !(tagFree_replace _ _ c) by (done || tag_first). }
  rewrite decode_unrecognized by done.
  unfold replaceWith at 1. rewrite (tagFree_replace _ _ c) by (done || tag_first).
  rewrite cleanLines_single by (apply spaced_noLF, Hc).
  rewrite clean_cleanLine by done. by apply clean_trim.
Qed.

End TagFree.

(** *** The cover, from the document *)

Lemma occurrence_needed (K : list (char -> bool)) (s : str) (i : nat) (a k b : str) :
  includesP K s = false -> drop i s = a ++ k ++ b -> matchesP K k -> False.
Proof.
  intros HN E Hk.
  assert (Es : s = (take i s ++ a) ++ k ++ b)
    by (by rewrite <- (take_drop i s) at 1; rewrite E, <- app_assoc).
  rewrite Es, includesP_occurrence in HN; done.
Qed.

(** A pattern finds nothing in a document that does not have its selecting
    attribute. *)
Lemma attrFirst_absent (T K V : list (char -> bool)) (s : str) :
  includesP K s = false -> exec (attrFirst T K V) s = None.
Proof.
  intros HN. apply exec_no_Parse. intros i h HP.
  apply Parse_attrFirst in HP as (t & w1 & k & w2 & v & g & rest & E & _ & _ & Hk & _).
  apply (occurrence_needed K s i (t ++ w1) k (w2 ++ v ++ g ++ quote :: rest)); [done| |done].
  rewrite E. by flat.
Qed.

Lemma attrSecond_absent (T K V : list (char -> bool)) (s : str) :
  includesP K s = false -> exec (attrSecond T K V) s = None.
Proof.
  intros HN. apply exec_no_Parse. intros i h HP.
  apply Parse_attrSecond in HP as (t & w1 & v & g & w2 & k & rest & E & _ & _ & _ & _ & _
                                    & _ & Hk & _).
  apply (occurrence_needed K s i (t ++ w1 ++ v ++ g ++ quote :: w2) k rest); [done| |done].
  rewrite E. by flat.
Qed.

Lemma itemCover1_shape : itemCover1 = attrFirst itemTag propertiesCover hrefOpen.
Proof. reflexivity. Qed.

Lemma itemCover2_shape : itemCover2 = attrSecond itemTag propertiesCover hrefOpen.
Proof. reflexivity. Qed.

Lemma findCoverId_absent (opfContent : str) :
  includesP nameCover opfContent = false -> findCoverId opfContent = None.
Proof.
  intros H. unfold findCoverId.
  by rewrite metaCover1_shape, metaCover2_shape, attrFirst_absent, attrSecond_absent.
Qed.

Lemma hasCoverMeta_id (x opfContent : str) :
  x ≠ [] -> quote ∉ x -> ch "=" ∉ x ->
  hasCoverMeta x opfContent -> findCoverId opfContent = Some x.
Proof.
  intros Hx Hq He [(pre & post & -> & Npre & Npost & CV)|(pre & post & -> & Npre & Npost & CV)];
    by destruct (meta_order pre post x).
Qed.

Lemma hasItem_href (host : Host) (i h opfContent : str) :
  patternLiteral i = Some i -> ch "=" ∉ i -> ch "<" ∉ i -> ch ">" ∉ i ->
  h ≠ [] -> quote ∉ h -> ch "=" ∉ h ->
  hasItem host i h opfContent -> coverHrefById host i opfContent = Returns (Some h).
Proof.
  intros Hl Ie Il Ig Hh Hq He
    [(pre & post & -> & Npre & Npost & CV)|(pre & post & -> & Npre & Npost & CV)];
    by destruct (item_order host pre post i h).
Qed.

Lemma no_item_no_href (host : Host) (i opfContent : str) :
  patternLiteral i = Some i -> includesP (idIs host i) opfContent = false ->
  coverHrefById host i opfContent = Returns None.
Proof.
  intros Hl HN. unfold coverHrefById, matchById. rewrite Hl. exn_step.
  by rewrite itemById1_shape, itemById2_shape, attrFirst_absent, attrSecond_absent.
Qed.

Lemma itemPropertiesFirst_shape (h : str) :
  itemPropertiesFirst h
  = elemFirst (ch "<" :: lit "item")
      (lit "properties" ++ ch "=" :: quote :: lit "cover-image" ++ [quote])
      (lit "href" ++ [ch "="; quote]) h.
Proof. unfold itemPropertiesFirst, elemFirst. flat. reflexivity. Qed.

Lemma itemHrefBeforeProperties_shape (h : str) :
  itemHrefBeforeProperties h
  = elemSecond (ch "<" :: lit "item")
      (lit "properties" ++ ch "=" :: quote :: lit "cover-image" ++ [quote])
      (lit "href" ++ [ch "="; quote]) h.
Proof. unfold itemHrefBeforeProperties, elemSecond. flat. reflexivity. Qed.

(** The item marked as the cover image is read by the first pattern when its
    properties come first, and by the second and not by the first when its
    href comes first; the href read is the same. *)
Lemma coverImage_order (pre post h : str) :
  h ≠ [] -> quote ∉ h -> ch "=" ∉ h ->
  includesP propertiesCover pre = false -> includesP propertiesCover post = false ->
  attrClosed hrefOpen pre = true ->
  (∃ m, exec itemCover1 (pre ++ itemPropertiesFirst h ++ post) = Some m ∧ group1 m = h)
  ∧ exec itemCover1 (pre ++ itemHrefBeforeProperties h ++ post) = None
  ∧ (∃ m, exec itemCover2 (pre ++ itemHrefBeforeProperties h ++ post) = Some m
          ∧ group1 m = h).
Proof.
  intros Hh Hq He Npre Npost CV.
  pose (K1 := isCI <$> lit "properties").
  pose (K2 := [isCh quote] ++ (isCI <$> lit "cover-image") ++ [isCh quote]).
  pose (V1 := isCI <$> lit "href").
  rewrite itemCover1_shape, itemCover2_shape, itemPropertiesFirst_shape,
    itemHrefBeforeProperties_shape.
  split.
  - destruct (element_first K1 K2 V1 (lit "item") (lit "properties")
                (quote :: lit "cover-image" ++ [quote]) (lit "href") h pre post)
      with (T := itemTag) as (m & Em & Eg);
      try done; try by_decision; try (by apply not_in_noChar);
      try (unfold matchesP; by_decision).
    by exists m.
  - destruct (element_second K1 K2 V1 (lit "item") (lit "properties")
                (quote :: lit "cover-image" ++ [quote]) (lit "href") h pre post)
      with (T := itemTag) as (En & m & Em & Eg);
      try done; try by_decision; try (by apply not_in_noChar);
      try (unfold matchesP; by_decision).
    split; [exact En|by exists m].
Qed.

Section CoverStrategies.
Context (host : Host) (zip : gmap (list N) ZipObject) (opfDir : str).

Lemma extractCover_by_id (opfContent x : str) (coverHref : option str) :
  x ≠ [] -> findCoverId opfContent = Some x ->
  coverHrefById host x opfContent = Returns coverHref ->
  extractCover host opfContent zip opfDir
  = match coverHref with
    | Some (c :: h) => readCover zip opfDir (c :: h)
    | _ => Returns None
    end.
Proof.
  intros Hx Hid Hh. unfold extractCover. rewrite Hid.
  destruct x as [|c x]; [done|]. cbn [isTruthy negb default from_option id].
  exn_step. rewrite Hh. by destruct coverHref as [[|d h]|].
Qed.

Lemma extractCover_cover_image (opfContent h : str) :
  includesP nameCover opfContent = false -> h ≠ [] -> quote ∉ h -> ch "=" ∉ h ->
  hasCoverImageItem h opfContent ->
  extractCover host opfContent zip opfDir = readCover zip opfDir h.
Proof.
  intros HN Hh Hq He Hitem. rewrite extractCover_no_id by by apply findCoverId_absent.
  destruct Hitem as [(pre & post & -> & Npre & Npost & CV)|(pre & post & -> & Npre & Npost & CV)];
    destruct (coverImage_order pre post h) as ((m1 & E1 & G1) & E2 & m2 & E3 & G3);
    try done.
  - by rewrite E1, G1.
  - by rewrite E2, E3, G3.
Qed.

(** C2, as amended.  The cover id named by the cover meta element is looked
    for first, in every document.  Without one, the item marked as the cover
    image gives the href (found with its properties before its href, else
    with its href first).  With one that reads as a literal, only the
    manifest item of that id gives the href (found with its id before its
    href, else after) and the item marked as the cover image is left aside.

    On the document itself: when it has the cover meta element (in either
    order of its attributes, standing alone, its value a literal without a
    double quote, an equals sign or an angle bracket), the cover is read
    from the href of the manifest item that has this id (in either order of
    its attributes), and when no id attribute of the document has this value
    the cover is absent, whatever item is marked as the cover image.  When it
    has no name attribute of the value cover, the cover is read from the href
    of the item marked as the cover image (in either order of its
    attributes), and it is absent when no properties attribute has that
    value.

    Reading the cover from an href gives an absent cover when the archive
    has no entry there, and a data URI of type image/jpeg or image/png when
    the entry can be read. *)
Theorem cover_strategies :
  (∀ opfContent,
     findCoverId opfContent = None ->
     extractCover host opfContent zip opfDir
     = match exec itemCover1 opfContent with
       | Some m => readCover zip opfDir (group1 m)
       | None =>
           match exec itemCover2 opfContent with
           | Some m => readCover zip opfDir (group1 m)
           | None => Returns None
           end
       end)
  ∧ (∀ opfContent c cs l,
       findCoverId opfContent = Some (c :: cs) -> patternLiteral (c :: cs) = Some l ->
       extractCover host opfContent zip opfDir
       = match orElse (group1 <$> exec (itemById1 host l) opfContent)
                      (group1 <$> exec (itemById2 host l) opfContent) with
         | Some (d :: href) => readCover zip opfDir (d :: href)
         | _ => Returns None
         end)
  ∧ (∀ opfContent x h,
       x ≠ [] -> quote ∉ x -> ch "=" ∉ x -> ch "<" ∉ x -> ch ">" ∉ x ->
       patternLiteral x = Some x ->
       h ≠ [] -> quote ∉ h -> ch "=" ∉ h ->
       hasCoverMeta x opfContent -> hasItem host x h opfContent ->
       extractCover host opfContent zip opfDir = readCover zip opfDir h)
  ∧ (∀ opfContent x,
       x ≠ [] -> quote ∉ x -> ch "=" ∉ x -> patternLiteral x = Some x ->
       hasCoverMeta x opfContent -> includesP (idIs host x) opfContent = false ->
       extractCover host opfContent zip opfDir = Returns None)
  ∧ (∀ opfContent h,
       h ≠ [] -> quote ∉ h -> ch "=" ∉ h ->
       includesP nameCover opfContent = false -> hasCoverImageItem h opfContent ->
       extractCover host opfContent zip opfDir = readCover zip opfDir h)
  ∧ (∀ opfContent,
       includesP nameCover opfContent = false ->
       includesP propertiesCover opfContent = false ->
       extractCover host opfContent zip opfDir = Returns None)
  ∧ (∀ href, zip !! (opfDir ++ href) = None -> readCover zip opfDir href = Returns None)
  ∧ (∀ href f data,
       zip !! (opfDir ++ href) = Some f -> async_base64 f = Returns data ->
       readCover zip opfDir href
       = Returns (Some (lit "data:" ++ mimeType href ++ lit ";base64," ++ data))
       ∧ (mimeType href = lit "image/jpeg" ∨ mimeType href = lit "image/png")).
Proof.
  split; [intros doc; apply extractCover_no_id|].
  split; [intros doc; apply extractCover_literal_id|].
  split; [|split; [|split; [|split; [|split]]]].
  - intros doc x h Hx Hxq Hxe Hxl Hxg Hl Hh Hhq Hhe Hmeta Hitem.
    rewrite (extractCover_by_id doc x (Some h)); [by destruct h|done|..].
    + by apply hasCoverMeta_id.
    + by apply hasItem_href.
  - intros doc x Hx Hxq Hxe Hl Hmeta HN.
    rewrite (extractCover_by_id doc x None); [done|done|..].
    + by apply hasCoverMeta_id.
    + by apply no_item_no_href.
  - intros doc h Hh Hhq Hhe HN Hitem. by apply extractCover_cover_image.
  - intros doc HN HP. rewrite extractCover_no_id by by apply findCoverId_absent.
    by rewrite itemCover1_shape, itemCover2_shape, attrFirst_absent, attrSecond_absent.
  - intros href H. unfold readCover. by rewrite H.
  - intros href f data H Hd. split; [|apply mimeType_cases].
    unfold readCover. rewrite H. exn_step. by rewrite Hd.
Qed.

End CoverStrategies.

Lemma cover_strategies_witness :
  let zip : gmap (list N) ZipObject :=
    <[lit "OEBPS/images/cover.jpg" := Sample.entry [] (lit "/9j/4AAQ")]>
    (<[lit "OEBPS/front.png" := Sample.entry [] (lit "iVBORw0K")]> ∅) in
  let opening := Sample.doc "<package><metadata><dc:title>A Book</dc:title>" in
  let closing := Sample.doc "</manifest></package>" in
  let byId :=
    opening ++ metaContentFirst (lit "cover-img") ++ Sample.doc "</metadata><manifest>"
    ++ itemPropertiesFirst (lit "front.png")
    ++ itemHrefFirst (lit "cover-img") (lit "images/cover.jpg") ++ closing in
  let marked :=
    opening ++ Sample.doc "</metadata><manifest><item id='ch1' href='ch1.xhtml'/>"
    ++ itemHrefBeforeProperties (lit "front.png") ++ closing in
  extractCover Sample.host byId zip (lit "OEBPS/")
  = Returns (Some (lit "data:image/jpeg;base64," ++ lit "/9j/4AAQ"))
  ∧ extractCover Sample.host Sample.opfDanglingCover Sample.bookDanglingCover (lit "OEBPS/")
    = Returns None
  ∧ extractCover Sample.host marked zip (lit "OEBPS/")
    = Returns (Some (lit "data:image/png;base64," ++ lit "iVBORw0K"))
  ∧ extractCover Sample.host Sample.opf Sample.book (lit "OEBPS/")
    = Returns (Some (lit "data:image/jpeg;base64," ++ lit "/9j/4AAQ")).
Proof.
  intros zip opening closing byId marked.
  destruct (cover_strategies Sample.host zip (lit "OEBPS/"))
    as (_ & _ & HById & _ & HMarked & _ & _ & HRead).
  destruct (cover_strategies Sample.host Sample.bookDanglingCover (lit "OEBPS/"))
    as (_ & _ & _ & HDangling & _).
  destruct (cover_strategies Sample.host Sample.book (lit "OEBPS/"))
    as (HNoId & _ & _ & _ & _ & _ & _ & HReadBook).
  split; [|split; [|split]].
  - rewrite (HById byId (lit "cover-img") (lit "images/cover.jpg")); try by_decision.
    + destruct (HRead (lit "images/cover.jpg") (Sample.entry [] (lit "/9j/4AAQ"))
                  (lit "/9j/4AAQ")) as [H _]; [vm_compute; reflexivity|reflexivity|].
      etrans; [exact H|]. vm_compute. reflexivity.
    + right. exists opening,
        (Sample.doc "</metadata><manifest>" ++ itemPropertiesFirst (lit "front.png")
         ++ itemHrefFirst (lit "cover-img") (lit "images/cover.jpg") ++ closing).
      split; [reflexivity|]. repeat split; by_decision.
    + right. exists
        (opening ++ metaContentFirst (lit "cover-img") ++ Sample.doc "</metadata><manifest>"
         ++ itemPropertiesFirst (lit "front.png")), closing.
      split; [vm_compute; reflexivity|]. repeat split; by_decision.
  - apply (HDangling Sample.opfDanglingCover (lit "missing")); try by_decision.
    left. exists (Sample.doc "<package><metadata><dc:title>A Book</dc:title>"),
      (Sample.doc "</metadata><manifest><item id='img' properties='cover-image' href='cover.jpg'/><item id='ch1' href='ch1.xhtml'/></manifest><spine><itemref idref='ch1'/></spine></package>").
    split; [vm_compute; reflexivity|]. repeat split; by_decision.
  - rewrite (HMarked marked (lit "front.png")); try by_decision.
    + destruct (HRead (lit "front.png") (Sample.entry [] (lit "iVBORw0K"))
                  (lit "iVBORw0K")) as [H _]; [vm_compute; reflexivity|reflexivity|].
      etrans; [exact H|]. vm_compute. reflexivity.
    + right. exists
        (opening ++ Sample.doc "</metadata><manifest><item id='ch1' href='ch1.xhtml'/>"),
        closing.
      split; [vm_compute; reflexivity|]. repeat split; by_decision.
  - rewrite HNoId by (vm_compute; reflexivity).
    assert (E1 : exec itemCover1 Sample.opf = None) by (vm_compute; reflexivity).
    assert (E : ∃ m, exec itemCover2 Sample.opf = Some m ∧ group1 m = lit "cover.jpg")
      by (vm_compute; eexists; split; reflexivity).
    rewrite E1. destruct E as (m & -> & ->).
    destruct (HReadBook (lit "cover.jpg") (Sample.entry [] (lit "/9j/4AAQ")) (lit "/9j/4AAQ"))
      as [H _]; [vm_compute; reflexivity|reflexivity|].
    etrans; [exact H|]. vm_compute. reflexivity.
Defined.

(** *** A doubly escaped entity, in any text *)

Lemma startsWith_length (w u : str) : startsWith w u = true -> (length w ≤ length u)%nat.
Proof.
  revert u. induction w as [|a w IH]; intros u; [cbn; lia|].
  destruct u as [|c u]; [done|]. cbn [startsWith length].
  intros [_ H]%andb_true_iff. apply IH in H. lia.
Qed.

(** Whether [w] begins a text does not depend on what follows a character
    that [w] does not have. *)
Lemma startsWith_inside (w u : str) (x : char) (X : str) :
  x ∉ w -> startsWith w (u ++ x :: X) = startsWith w u.
Proof.
  revert u. induction w as [|a w IH]; intros u Hx; [done|].
  apply not_elem_of_cons in Hx as [Hxa Hxw].
  destruct u as [|c u]; cbn [app startsWith].
  - destruct (N.eqb_spec a x) as [->|]; done.
  - by rewrite IH.
Qed.

(** A literal that has the character [x] at most as its first character is
    replaced before an [x] as if the text ended there. *)
Lemma replace_literal_before (a : char) (w t : str) (u : str) (x : char) (X : str) :
  x ∉ w ->
  replace (literal (a :: w)) (fun _ => t) (u ++ x :: X)
  = replace (literal (a :: w)) (fun _ => t) u
    ++ replace (literal (a :: w)) (fun _ => t) (x :: X).
Proof.
  intros Hx. remember (length u) as n eqn:En. revert u En.
  induction n as [n IH] using lt_wf_ind. intros u En.
  destruct u as [|c u]; [done|].
  cbn [app].
  rewrite (replace_literal_cons a w t c (u ++ x :: X)), (replace_literal_cons a w t c u).
  assert (Es : startsWith (a :: w) (c :: u ++ x :: X) = startsWith (a :: w) (c :: u)).
  { cbn [startsWith]. by rewrite startsWith_inside. }
  rewrite Es. destruct (startsWith (a :: w) (c :: u)) eqn:E.
  - cbn [startsWith] in E. apply andb_true_iff in E as [_ E].
    apply startsWith_length in E.
    rewrite drop_app_le by done. rewrite <- app_assoc. f_equal.
    apply (IH (length (drop (length w) u))); [|done].
    rewrite En, length_drop. cbn [length]. lia.
  - cbn [app]. f_equal. apply (IH (length u)); [|done]. rewrite En. cbn [length]. lia.
Qed.

Ltac around_step :=
  rewrite replace_literal_before by by_decision; repeat lit_cons.

Ltac decode_around :=
  unfold decodeEntities, decodeWith; rewrite entities_eval; unfold entities_v;
  cbn [foldl fst snd app]; unfold replaceWith; do 14 around_step.

(** Whatever stands around it, the decoding turns [&amp;mdash;] into the
    dash and [&amp;nbsp;] into the text [&nbsp;], and decodes what stands
    before and after as if it stood alone. *)
Lemma decode_amp_mdash_around (u v : str) :
  decodeEntities (u ++ lit "&amp;mdash;" ++ v)
  = decodeEntities u ++ [mdash] ++ decodeEntities v.
Proof. eval_lits. decode_around. reflexivity. Qed.

Lemma decode_amp_nbsp_around (u v : str) :
  decodeEntities (u ++ lit "&amp;nbsp;" ++ v)
  = decodeEntities u ++ lit "&nbsp;" ++ decodeEntities v.
Proof. eval_lits. decode_around. reflexivity. Qed.

(** *** The second run on a text without a tag *)

Lemma normalizeSource_no_tag (s : str) : exec anyTag s = None -> exec anyTag (normalizeSource s) = None.
Proof.
  rewrite !no_tag_iff. intros Hs H. apply Hs. unfold normalizeSource, replaceWith in H.
  apply (tame_no_tag (replace [plus isSpace] (fun _ => lit " "))) in H.
  - apply (tame_no_tag (replace [plus (fun c => (c =? CR) || (c =? LF))] (fun _ => lit " "))) in H;
      [done|].
    apply tame_replace; try (by apply barrier_plus); try (intros _; by_decision); done.
  - apply tame_replace; try (by apply barrier_plus); try (intros _; by_decision); done.
Qed.

(** A replacement of the runs of a class leaves no character of the class,
    when the text put for a run has none. *)
Lemma replace_plus_gone (p : char -> bool) (t s : str) :
  Forall (fun c => p c = false) t ->
  Forall (fun c => p c = false) (replace [plus p] (fun _ => t) s).
Proof.
  intros Ht. remember (length s) as n eqn:En. revert s En.
  induction n as [n IH] using lt_wf_ind. intros s En.
  destruct s as [|c s]; [by rewrite replace_nil|].
  destruct (p c) eqn:Ec.
  - destruct (plus_rest p c s Ec) as (h & Hm & Hr & Hne).
    rewrite (replace_hit _ _ _ h Hm Hne). apply Forall_app. split; [done|].
    apply (IH (length h.2)); [|done].
    pose proof (matchHere_sound _ _ _ Hm) as Es. apply (f_equal length) in Es.
    rewrite length_app in Es. rewrite En, Es. destruct (matched h); [done|cbn; lia].
  - rewrite replace_miss by by apply plus_miss. constructor; [done|].
    apply (IH (length s)); [|done]. rewrite En. cbn. lia.
Qed.

Lemma normalizeSource_no_LF (s : str) : noChar LF (normalizeSource s).
Proof.
  unfold normalizeSource, replaceWith. unfold replace at 1.
  apply replaceFrom_Forall; [intros _; by repeat constructor|].
  eapply Forall_impl;
    [apply (replace_plus_gone (fun c => (c =? CR) || (c =? LF)) (lit " ")); by repeat constructor|].
  intros c Hc ->. done.
Qed.

Lemma decodeWith_Forall (P : char -> Prop) (table : list (str * str)) (s : str) :
  Forall (fun e => Forall P e.2) table -> Forall P s -> Forall P (decodeWith table s).
Proof.
  intros Ht. revert s. induction Ht as [|e table He _ IH]; intros s Hs; [done|].
  rewrite decodeWith_cons. apply IH. unfold replaceWith, replace.
  by apply replaceFrom_Forall.
Qed.

Section SecondRun.
Context (host : Host).

(** On a text without a tag the steps that look for tags find nothing: the
    transducer is the white space passes, the decoding, the removal of the
    tags that the decoding made, and the cleaning of the lines. *)
Lemma extractText_without_tag (s : str) (t : option str) :
  exec anyTag s = None ->
  extractTextFromHtml host s t
  = trim (cleanLines (replaceWith anyTag [] (decodeEntities (normalizeSource s)))).
Proof.
  intros Htag. unfold extractTextFromHtml.
  assert (isolateBody s = s) as ->.
  { unfold isolateBody. by rewrite tagFree_exec by (done || tag_first). }
  assert (removeNoise s = s) as ->.
  { unfold removeNoise, replaceWith.
    by rewrite !(tagFree_replace _ _ s) by (done || tag_first). }
  assert (removeTitle host t s = s) as ->.
  { unfold removeTitle, replaceWith.
    rewrite (tagFree_replace _ _ s) by (done || tag_first).
    destruct t as [[|a t]|]; [done| |done].
    destruct (patternLiteral _) as [l|]; [|done].
    by rewrite (tagFree_replace _ _ s) by (done || tag_first). }
  assert (stripWrappers s = s) as ->.
  { unfold stripWrappers, replaceWith.
    by rewrite !(tagFree_replace _ _ s) by (done || tag_first). }
  pose proof (normalizeSource_no_tag s Htag) as Hn.
  set (n := normalizeSource s) in *.
  assert (handleLists n = n) as ->.
  { unfold handleLists, replaceWith.
    by rewrite !(tagFree_replace _ _ n) by (done || tag_first). }
  assert (unwrapAnchors n = n) as ->.
  { unfold unwrapAnchors. by rewrite (tagFree_replace _ _ n) by (done || tag_first). }
  assert (handleBlocks n = n) as ->.
  { unfold handleBlocks, replaceWith.
    by rewrite !(tagFree_replace _ _ n) by (done || tag_first). }
  done.
Qed.

(** The second run gives one line. *)
Lemma extractText_one_line (s : str) (t : option str) :
  exec anyTag s = None -> noChar LF (extractTextFromHtml host s t).
Proof.
  intros Htag. rewrite extractText_without_tag by done.
  apply trim_Forall.
  assert (Hd : noChar LF (replaceWith anyTag [] (decodeEntities (normalizeSource s)))).
  { unfold replaceWith, replace. apply replaceFrom_Forall; [intros _; constructor|].
    apply decodeWith_Forall; [by_decision|apply normalizeSource_no_LF]. }
  rewrite cleanLines_single by done. by apply cleanLine_noChar.
Qed.

End SecondRun.

(** *** The length of what a replacement leaves *)

Lemma replaceFrom_length (r : regex) (f : list str -> str) (k : nat) (s : str) :
  (∀ s' h, matchHere r s' = Some h -> (length (f h.1) ≤ length (matched h))%nat) ->
  (length (replaceFrom r f k s) ≤ length s - k)%nat.
Proof.
  intros Hf. revert k. induction s as [|c s IH]; intros k.
  - cbn [replaceFrom]. destruct k; [|cbn; lia].
    destruct (matchHere r []) as [h|] eqn:E; [|cbn; lia].
    pose proof (Hf _ _ E) as Hl. apply matchHere_sound in E.
    symmetry in E. apply app_eq_nil in E as [E _]. rewrite E in Hl. cbn in *. lia.
  - cbn [replaceFrom]. destruct k as [|k]; [|specialize (IH k); cbn [length]; lia].
    destruct (matchHere r (c :: s)) as [h|] eqn:E;
      [|specialize (IH 0%nat); cbn [length]; lia].
    pose proof (Hf _ _ E) as Hl. apply matchHere_sound in E.
    apply (f_equal length) in E. rewrite length_app in E. cbn [length] in E.
    rewrite length_app. destruct (length (matched h)) as [|j].
    + specialize (IH 0%nat). cbn [length]. lia.
    + specialize (IH j). cbn [length]. lia.
Qed.

Lemma replace_length (r : regex) (f : list str -> str) (s : str) :
  (∀ s' h, matchHere r s' = Some h -> (length (f h.1) ≤ length (matched h))%nat) ->
  (length (replace r f s) ≤ length s)%nat.
Proof. intros Hf. pose proof (replaceFrom_length r f 0 s Hf). unfold replace. lia. Qed.

Lemma matched_literal (w s : str) (h : hit) : matchHere (literal w) s = Some h -> matched h = w.
Proof.
  rewrite matchHere_literal. destruct (startsWith w s); [|done]. intros [= <-].
  unfold matched. cbn. apply app_nil_r.
Qed.

Lemma replace_literal_length (w t s : str) :
  (length t ≤ length w)%nat -> (length (replace (literal w) (fun _ => t) s) ≤ length s)%nat.
Proof.
  intros Ht. apply replace_length. intros s' h Hm. by rewrite (matched_literal _ _ _ Hm).
Qed.

(** An occurrence of the literal is replaced, and the text gets shorter when
    the text put for it is shorter. *)
Lemma replace_literal_shrinks (a : char) (w t s : str) :
  (length t < S (length w))%nat -> includes (a :: w) s = true ->
  (length (replace (literal (a :: w)) (fun _ => t) s) < length s)%nat.
Proof.
  intros Ht. induction s as [|c s IH]; [done|].
  rewrite includes_cons, replace_literal_cons.
  destruct (startsWith (a :: w) (c :: s)) eqn:E.
  - intros _. cbn [startsWith] in E. apply andb_true_iff in E as [_ E].
    apply startsWith_length in E. rewrite length_app.
    pose proof (replace_literal_length (a :: w) t (drop (length w) s)) as Hl.
    rewrite length_drop in Hl. cbn [length] in *. lia.
  - cbn [orb]. intros H. specialize (IH H). cbn [length]. lia.
Qed.

Lemma decodeWith_length (table : list (str * str)) (s : str) :
  Forall (fun e => (length e.2 ≤ length e.1)%nat) table ->
  (length (decodeWith table s) ≤ length s)%nat.
Proof.
  intros Ht. revert s. induction Ht as [|e table He _ IH]; intros s; [done|].
  rewrite decodeWith_cons. etrans; [apply IH|]. by apply replace_literal_length.
Qed.

Lemma decodeWith_shrinks (table : list (str * str)) (s : str) :
  Forall (fun e => e.1 ≠ [] ∧ (length e.2 < length e.1)%nat) table ->
  Exists (fun e => includes e.1 s = true) table ->
  (length (decodeWith table s) < length s)%nat.
Proof.
  intros Ht. revert s. induction Ht as [|[w t] table [Hw He] Ht IH]; intros s Hex.
  { by apply Exists_nil in Hex. }
  cbn [fst snd] in *. rewrite decodeWith_cons. cbn [fst snd]. unfold replaceWith.
  assert (Hle : Forall (fun e : str * str => (length e.2 ≤ length e.1)%nat) table).
  { eapply Forall_impl; [exact Ht|]. intros e [_ ?]. by apply Nat.lt_le_incl. }
  destruct (includes w s) eqn:E.
  - destruct w as [|a w]; [done|].
    pose proof (replace_literal_shrinks a w t s He E) as H1.
    pose proof (decodeWith_length table (replace (literal (a :: w)) (fun _ => t) s) Hle). lia.
  - rewrite replace_literal_absent by done. apply IH.
    apply Exists_cons in Hex as [Hex|Hex]; [|done]. cbn [fst] in Hex. congruence.
Qed.

Lemma trim_length (s : str) : (length (trim s) ≤ length s)%nat.
Proof.
  destruct (trim_between s) as (a & b & E & _). apply (f_equal length) in E.
  rewrite !length_app in E. lia.
Qed.

Lemma cleanLine_length (s : str) : (length (cleanLine s) ≤ length s)%nat.
Proof.
  unfold cleanLine, replaceWith. etrans; [|apply trim_length].
  apply replace_length. intros s' h Hm.
  change (matchHere [plus isSpace] s') with (rep true 1 isSpace (matchHere []) s') in Hm.
  by apply rep_only in Hm as [_ ?].
Qed.

Lemma stripTags_length (s : str) : (length (replaceWith anyTag [] s) ≤ length s)%nat.
Proof. unfold replaceWith. apply replace_length. intros s' h _. cbn. lia. Qed.

Section Rerun.
Context (host : Host).

(** The second run makes a clean line shorter when an entity of the table
    occurs in it. *)
Lemma second_run_shorter (c : str) (t : option str) :
  clean c -> exec anyTag c = None ->
  Exists (fun e : str * str => includes e.1 c = true) entities ->
  (length (extractTextFromHtml host c t) < length c)%nat.
Proof.
  intros Hc Htag Hex. rewrite extractText_without_tag, clean_normalizeSource by done.
  pose proof (decodeWith_shrinks entities c ltac:(by_decision) Hex) as Hd.
  fold (decodeEntities c) in Hd.
  pose proof (stripTags_length (decodeEntities c)) as Hs.
  assert (HLF : noChar LF (replaceWith anyTag [] (decodeEntities c))).
  { unfold replaceWith, replace. apply replaceFrom_Forall; [intros _; constructor|].
    apply decodeWith_Forall; [by_decision|apply spaced_noLF, Hc]. }
  rewrite cleanLines_single by done.
  pose proof (trim_length (cleanLine (replaceWith anyTag [] (decodeEntities c)))) as H1.
  pose proof (cleanLine_length (replaceWith anyTag [] (decodeEntities c))) as H2.
  lia.
Qed.

(** C1, as amended.  Running the transducer on the content it produced for
    a chapter gives the same content again exactly when that content is a
    single line in which none of the fourteen entities of the table occurs.
    Such a content is left alone because it holds no tag, so that no pattern
    of the markup finds anything in it, and is a clean line, so that the
    white space passes change nothing; a line feed of the content does not
    come back from the second run, and an entity of the content is decoded by
    it, which makes the content shorter. *)
Theorem rerun_single_line (x : str) :
  let c := content (transduce host x) in
  content (transduce host c) = c
  ↔ noChar LF c ∧ Forall (fun e : str * str => includes e.1 c = false) entities.
Proof.
  intros c.
  assert (Htag : exec anyTag c = None) by apply extractText_tag_free.
  unfold transduce at 1. cbn [content]. split.
  - intros E.
    assert (HLF : noChar LF c) by (rewrite <- E; by apply extractText_one_line).
    split; [done|].
    destruct (Forall_Exists_dec (fun e : str * str => includes e.1 c = false)
                (fun e : str * str => includes e.1 c = true)
                (fun e => match includes e.1 c as b
                          return {b = false} + {b = true} with
                          | true => right eq_refl
                          | false => left eq_refl
                          end) entities) as [HF|HE]; [done|].
    exfalso.
    pose proof (second_run_shorter c (Some (extractTitle c))
                  (extractText_single_line host x _ HLF) Htag HE) as Hlt.
    rewrite E in Hlt. lia.
  - intros [HLF Hent].
    apply extractText_fixed; [|done|done]. by apply extractText_single_line.
Qed.

End Rerun.

Lemma rerun_single_line_witness :
  content (transduce Sample.host (lit "<p>if 1 &lt; 2 &amp; x &lt;b y</p>"))
  = lit "if 1 < 2 & x <b y"
  ∧ content (transduce Sample.host
               (content (transduce Sample.host (lit "<p>if 1 &lt; 2 &amp; x &lt;b y</p>"))))
    = content (transduce Sample.host (lit "<p>if 1 &lt; 2 &amp; x &lt;b y</p>")).
Proof.
  split; [vm_compute; reflexivity|].
  apply (proj2 (rerun_single_line Sample.host (lit "<p>if 1 &lt; 2 &amp; x &lt;b y</p>"))).
  split; by_decision.
Defined.

(** *** Paragraphs with an entity *)

Lemma plainParagraph_textLine (p : str) : plainParagraph p -> textLine p.
Proof. by intros (? & _ & ?). Qed.

Lemma textLine_head (p : str) :
  textLine p -> ∃ c t, p = c :: t ∧ isSpace c = false ∧ c ≠ bullet.
Proof. intros ([_ Hh] & Hb). destruct p as [|c t]; [done|]. by exists c, t. Qed.

(** A word between two texts can be changed for another word. *)
Lemma spaced_word (t1 w w' t2 : str) :
  Forall (fun c => isSpace c = false) w -> w ≠ [] ->
  Forall (fun c => isSpace c = false) w' -> w' ≠ [] ->
  spaced (t1 ++ w ++ t2) -> spaced (t1 ++ w' ++ t2).
Proof.
  intros Hw Hne Hw' Hne'. induction t1 as [|c t1 IH].
  - cbn [app]. intros H%spaced_app_inv. apply spaced_app; [by apply spaced_tag|done].
  - cbn [app spaced]. intros [Hc Hs]. split; [|by apply IH].
    intros Hsp. destruct (Hc Hsp) as [-> Hd]. split; [done|].
    destruct t1 as [|d t1]; [|done]. cbn [app] in *.
    destruct w' as [|x w']; [done|]. by apply Forall_cons in Hw' as [? _].
Qed.

Lemma textLine_word (t1 w w' t2 : str) :
  Forall (fun c => isSpace c = false ∧ c ≠ bullet) w -> w ≠ [] ->
  Forall (fun c => isSpace c = false ∧ c ≠ bullet) w' -> w' ≠ [] ->
  textLine (t1 ++ w ++ t2) -> textLine (t1 ++ w' ++ t2).
Proof.
  intros Hw Hne Hw' Hne' ([Hs Hh] & Hb).
  assert (Sw : Forall (fun c => isSpace c = false) w)
    by (eapply Forall_impl; [exact Hw|]; by intros c [? _]).
  assert (Sw' : Forall (fun c => isSpace c = false) w')
    by (eapply Forall_impl; [exact Hw'|]; by intros c [? _]).
  split; [split|].
  - by apply (spaced_word t1 w).
  - destruct t1 as [|c t1]; [|done]. destruct w' as [|x w']; [done|].
    by apply Forall_cons in Sw' as [? _].
  - destruct t1 as [|c t1]; [|done]. destruct w' as [|x w']; [done|].
    by apply Forall_cons in Hw' as [[_ ?] _].
Qed.

Lemma textLines_clean (ps : list str) :
  Forall textLine ps -> clean (concat (paragraph <$> ps)).
Proof.
  intros H. split.
  - induction H as [|p ps ([Hp _] & _) _ IH]; [done|].
    rewrite fmap_cons. cbn [concat]. apply spaced_app; [|done]. unfold paragraph.
    apply spaced_app; [apply spaced_tag; by_decision|].
    apply spaced_app; [done|apply spaced_tag; by_decision].
  - by destruct H.
Qed.

Lemma textLines_lines (ps : list str) :
  Forall textLine ps -> Forall clean (split LF (spacedOut ps)).
Proof.
  induction 1 as [|p ps (Hp & _) _ IH]; [by repeat constructor|].
  rewrite spacedOut_cons, split_line by apply spaced_noLF, Hp.
  constructor; [done|].
  change (split LF (LF :: spacedOut ps)) with ([] :: split LF (spacedOut ps)).
  by constructor.
Qed.

Lemma textLines_afterGap (ps : list str) :
  Forall textLine ps -> afterGap (spacedOut ps).
Proof.
  intros [|p ps' Hp _]; [done|]. rewrite spacedOut_cons.
  by destruct (textLine_head p Hp) as (c & t & -> & Hc & Hb).
Qed.

Lemma textLines_noMatch (r : regex) (ps : list str) :
  (∀ c t, c ≠ LF -> matchHere r (c :: t) = None) ->
  (∀ s, afterGap s ->
        matchHere r (LF :: LF :: s) = None ∧ matchHere r (LF :: s) = None) ->
  matchHere r [] = None ->
  Forall textLine ps -> noMatch r (spacedOut ps).
Proof.
  intros H1 H2 H3. induction 1 as [|p ps Hp Hps IH]; [by apply noMatch_nil|].
  rewrite spacedOut_cons.
  destruct (H2 _ (textLines_afterGap ps Hps)) as [Ha Hb].
  apply (noMatch_text r (fun c => c ≠ LF)); [done|apply spaced_noLF, Hp|].
  by repeat apply noMatch_cons.
Qed.

(** Lines of text set apart by empty lines are left as they are by the
    cleaning of the lines, and trimmed of the last empty line. *)
Lemma cleanLines_textLines (ps : list str) :
  Forall textLine ps -> cleanLines (spacedOut ps) = spacedOut ps.
Proof.
  intros H. unfold cleanLines. rewrite clean_lines_join by by apply textLines_lines.
  unfold replaceWith.
  rewrite (replace_noMatch [Rep true 3 (isCh LF)]).
  2: { apply textLines_noMatch; [|apply gap_threeLF|done|done].
       intros c t Hc. cbn [matchHere rep]. by rewrite isCh_ne. }
  rewrite (replace_noMatch [One (isCh LF); One (isCh bullet); star isSpace; One (isCh LF)]).
  2: { apply textLines_noMatch; [|apply gap_loneBullet|done|done].
       intros c t Hc. cbn [matchHere]. by rewrite isCh_ne. }
  apply (replace_noMatch blankLines).
  apply textLines_noMatch; [|apply gap_blankLines|done|done].
  intros c t Hc. unfold blankLines. cbn [matchHere]. by rewrite isCh_ne.
Qed.

Lemma textLines_end (ps : list str) :
  ps ≠ [] -> Forall textLine ps ->
  ∃ t y, join [LF; LF] ps = t ++ [y] ∧ isSpace y = false.
Proof.
  intros Hne H. induction H as [|p ps Hp Hps IH]; [done|].
  destruct ps as [|p' ps].
  - destruct (textLine_head p Hp) as (c & t & E & _).
    destruct Hp as ([Hs _] & _). destruct (spaced_ends p Hs) as [->|(t' & y & -> & Hy)]; [done|].
    by exists t', y.
  - destruct (IH ltac:(done)) as (t & y & E & Hy). rewrite join_cons, E.
    exists (p ++ [LF; LF] ++ t), y. by rewrite <- !app_assoc.
Qed.

Lemma trim_textLines (ps : list str) :
  ps ≠ [] -> Forall textLine ps -> trim (spacedOut ps) = join [LF; LF] ps.
Proof.
  intros Hne H. rewrite join_spacedOut by done. unfold trim.
  assert (trimStart (join [LF; LF] ps ++ [LF; LF]) = join [LF; LF] ps ++ [LF; LF]) as ->.
  { destruct H as [|p ps Hp _]; [done|].
    destruct (textLine_head p Hp) as (c & t & -> & Hc & _).
    unfold trimStart. destruct ps; cbn; by rewrite Hc. }
  rewrite trimEnd_app. change (forallb isSpace [LF; LF]) with true. cbn iota.
  apply trimEnd_ends. right. destruct (textLines_end ps Hne H) as (t & y & E & Hy).
  by exists t, y.
Qed.

Lemma spacedOut_app (ps qs : list str) : spacedOut (ps ++ qs) = spacedOut ps ++ spacedOut qs.
Proof. unfold spacedOut. by rewrite fmap_app, concat_app. Qed.

Section EntityInParagraph.
Context (host : Host).

(** Paragraphs of plain text, one of which holds between the texts [t1] and
    [t2] a word [w] that the decoding turns into the word [w'] wherever it
    stands: the paragraphs come out set apart by empty lines, with [w'] for
    [w]. *)
Lemma paragraphs_with_word (ps1 ps2 : list str) (t1 w w' t2 : str)
    (titleToRemove : option str) :
  Forall (fun c => isSpace c = false ∧ c ≠ bullet ∧ c ≠ ch "<") w -> w ≠ [] ->
  Forall (fun c => isSpace c = false ∧ c ≠ bullet ∧ c ≠ ch "<") w' -> w' ≠ [] ->
  (∀ u v, decodeEntities (u ++ w ++ v) = decodeEntities u ++ w' ++ decodeEntities v) ->
  Forall plainParagraph ps1 -> Forall plainParagraph ps2 ->
  noChar (ch "<") t1 -> noChar (ch "&") t1 -> noChar (ch "<") t2 -> noChar (ch "&") t2 ->
  textLine (t1 ++ w ++ t2) ->
  extractTextFromHtml host (concat (paragraph <$> ps1 ++ (t1 ++ w ++ t2) :: ps2))
    titleToRemove
  = join [LF; LF] (ps1 ++ (t1 ++ w' ++ t2) :: ps2).
Proof.
  intros Hw Hne Hw' Hne' Hdec H1 H2 L1 A1 L2 A2 HP.
  assert (Wb : ∀ x : str, Forall (fun c => isSpace c = false ∧ c ≠ bullet ∧ c ≠ ch "<") x ->
                 Forall (fun c => isSpace c = false ∧ c ≠ bullet) x)
    by (intros x Hx; eapply Forall_impl; [exact Hx|]; by intros c (? & ? & _)).
  assert (Wl : ∀ x : str, Forall (fun c => isSpace c = false ∧ c ≠ bullet ∧ c ≠ ch "<") x ->
                 noChar (ch "<") x)
    by (intros x Hx; eapply Forall_impl; [exact Hx|]; by intros c (_ & _ & ?)).
  assert (HP' : textLine (t1 ++ w' ++ t2)) by (apply (textLine_word t1 w); auto).
  assert (T1 : Forall textLine ps1)
    by (eapply Forall_impl; [exact H1|]; apply plainParagraph_textLine).
  assert (T2 : Forall textLine ps2)
    by (eapply Forall_impl; [exact H2|]; apply plainParagraph_textLine).
  assert (Hlt : ∀ ps, Forall plainParagraph ps -> Forall (noChar (ch "<")) ps).
  { intros ps H. eapply Forall_impl; [exact H|]. intros p (_ & Hp & _).
    eapply Forall_impl; [exact Hp|]. by intros c [? _]. }
  assert (Hamp : ∀ ps, Forall plainParagraph ps -> Forall (noChar (ch "&")) ps).
  { intros ps H. eapply Forall_impl; [exact H|]. intros p (_ & Hp & _).
    eapply Forall_impl; [exact Hp|]. by intros c [_ ?]. }
  assert (Hall : Forall (noChar (ch "<")) (ps1 ++ (t1 ++ w ++ t2) :: ps2)).
  { apply Forall_app. split; [by apply Hlt|]. constructor; [|by apply Hlt].
    apply Forall_app. split; [done|]. apply Forall_app. split; [by apply Wl|done]. }
  assert (Hall' : Forall (noChar (ch "<")) (ps1 ++ (t1 ++ w' ++ t2) :: ps2)).
  { apply Forall_app. split; [by apply Hlt|]. constructor; [|by apply Hlt].
    apply Forall_app. split; [done|]. apply Forall_app. split; [by apply Wl|done]. }
  unfold extractTextFromHtml.
  rewrite paragraphs_body, paragraphs_noise, (paragraphs_title host) by done.
  rewrite paragraphs_wrappers by done.
  rewrite clean_normalizeSource
    by (apply textLines_clean, Forall_app; split; [done|by constructor]).
  rewrite paragraphs_lists, paragraphs_anchors by done.
  assert (Hb : handleBlocks (concat (paragraph <$> ps1 ++ (t1 ++ w ++ t2) :: ps2))
               = spacedOut (ps1 ++ (t1 ++ w ++ t2) :: ps2)).
  { destruct (ps1 ++ (t1 ++ w ++ t2) :: ps2) as [|p ps] eqn:E.
    - by destruct ps1.
    - apply Forall_cons in Hall as [? ?]. by apply breaks. }
  rewrite Hb.
  assert (Hd : decodeEntities (spacedOut (ps1 ++ (t1 ++ w ++ t2) :: ps2))
               = spacedOut (ps1 ++ (t1 ++ w' ++ t2) :: ps2)).
  { rewrite !spacedOut_app, !spacedOut_cons.
    replace (spacedOut ps1 ++ (t1 ++ w ++ t2) ++ LF :: LF :: spacedOut ps2)
      with ((spacedOut ps1 ++ t1) ++ w ++ (t2 ++ LF :: LF :: spacedOut ps2))
      by (by rewrite <- !app_assoc).
    rewrite Hdec, !decodeEntities_noAmp.
    - by rewrite <- !app_assoc.
    - apply Forall_app. split; [done|]. do 2 (constructor; [done|]).
      apply spacedOut_Forall; [done|by apply Hamp].
    - apply Forall_app. split; [|done]. apply spacedOut_Forall; [done|by apply Hamp]. }
  rewrite Hd.
  rewrite stripTags_plain by (apply spacedOut_Forall; [done|exact Hall']).
  assert (HT : Forall textLine (ps1 ++ (t1 ++ w' ++ t2) :: ps2))
    by (apply Forall_app; split; [done|by constructor]).
  rewrite cleanLines_textLines by done. apply trim_textLines; [|done]. by destruct ps1.
Qed.

End EntityInParagraph.

Section DoublyEscaped.
Context (host : Host).

(** C10, as amended.  In the decoding step, whatever stands around it, the
    doubly escaped [&amp;mdash;] becomes the dash and [&amp;nbsp;] becomes
    the text [&nbsp;]: [&amp;] is replaced after [&nbsp;] and before
    [&mdash;]; the same table read in the other order decodes both
    differently, so the decoding depends on the order.  Standing in plain
    text (no [<] and no other [&] around it), alone or in one of several
    paragraphs of plain text, the sequence comes out of the transducer the
    same way: the output has the dash and not the text [&mdash;] for the
    one, and the text [&nbsp;] for the other. *)
Theorem doubly_escaped_entities (t1 t2 : str) :
  noChar (ch "<") t1 -> noChar (ch "&") t1 ->
  noChar (ch "<") t2 -> noChar (ch "&") t2 ->
  let out1 := content (transduce host (t1 ++ lit "&amp;mdash;" ++ t2)) in
  let out2 := content (transduce host (t1 ++ lit "&amp;nbsp;" ++ t2)) in
  (out1 = lead t1 ++ [mdash] ++ trail t2
   ∧ mdash ∈ out1 ∧ includes (lit "&mdash;") out1 = false)
  ∧ (out2 = lead t1 ++ lit "&nbsp;" ++ trail t2 ∧ includes (lit "&nbsp;") out2 = true)
  ∧ (∀ ps1 ps2 a b,
       Forall plainParagraph ps1 -> Forall plainParagraph ps2 ->
       plainParagraph (a ++ [mdash] ++ b) ->
       content (transduce host
                  (concat (paragraph <$> ps1 ++ (a ++ lit "&amp;mdash;" ++ b) :: ps2)))
       = join [LF; LF] (ps1 ++ (a ++ [mdash] ++ b) :: ps2)
       ∧ content (transduce host
                    (concat (paragraph <$> ps1 ++ (a ++ lit "&amp;nbsp;" ++ b) :: ps2)))
         = join [LF; LF] (ps1 ++ (a ++ lit "&nbsp;" ++ b) :: ps2))
  ∧ (∀ u v, decodeEntities (u ++ lit "&amp;mdash;" ++ v)
            = decodeEntities u ++ [mdash] ++ decodeEntities v)
  ∧ (∀ u v, decodeEntities (u ++ lit "&amp;nbsp;" ++ v)
            = decodeEntities u ++ lit "&nbsp;" ++ decodeEntities v)
  ∧ decodeEntities (lit "&amp;mdash;") = [mdash]
  ∧ decodeWith (reverse entities) (lit "&amp;mdash;") = lit "&mdash;"
  ∧ decodeEntities (lit "&amp;nbsp;") = lit "&nbsp;"
  ∧ decodeWith (reverse entities) (lit "&amp;nbsp;") = lit " ".
Proof.
  intros L1 A1 L2 A2 out1 out2.
  assert (E1 : out1 = lead t1 ++ [mdash] ++ trail t2).
  { unfold out1, transduce. cbn [content].
    apply extractText_word; try done; try by_decision.
    apply decode_amp_mdash. by apply normalizeSource_noChar. }
  assert (E2 : out2 = lead t1 ++ lit "&nbsp;" ++ trail t2).
  { unfold out2, transduce. cbn [content].
    apply extractText_word; try done; try by_decision.
    apply decode_amp_nbsp. by apply normalizeSource_noChar. }
  split; [split; [done|split]|split; [split; [done|]|split]].
  - rewrite E1. apply elem_of_app. right. by left.
  - rewrite E1. apply (includes_noChar (ch "&")); [by_decision|].
    repeat (apply Forall_app; split);
      [by apply lead_noChar|by repeat constructor|by apply trail_noChar].
  - rewrite E2. apply includes_middle.
  - intros ps1 ps2 a b H1 H2 Hab.
    pose proof Hab as (_ & [Ha [_ Hb]%Forall_app]%Forall_app & _).
    assert (La : noChar (ch "<") a) by (eapply Forall_impl; [exact Ha|]; by intros c [? _]).
    assert (Aa : noChar (ch "&") a) by (eapply Forall_impl; [exact Ha|]; by intros c [_ ?]).
    assert (Lb : noChar (ch "<") b) by (eapply Forall_impl; [exact Hb|]; by intros c [? _]).
    assert (Ab : noChar (ch "&") b) by (eapply Forall_impl; [exact Hb|]; by intros c [_ ?]).
    apply plainParagraph_textLine in Hab.
    unfold transduce. cbn [content]. split.
    + apply paragraphs_with_word; try done; try by_decision.
      * apply decode_amp_mdash_around.
      * apply (textLine_word a [mdash]); try done; by_decision.
    + apply paragraphs_with_word; try done; try by_decision.
      * apply decode_amp_nbsp_around.
      * apply (textLine_word a [mdash]); try done; by_decision.
  - split; [exact decode_amp_mdash_around|]. split; [exact decode_amp_nbsp_around|].
    by vm_compute.
Qed.

End DoublyEscaped.

Lemma doubly_escaped_entities_witness :
  let out1 := content (transduce Sample.host (lit "Wait " ++ lit "&amp;mdash;" ++ lit " what")) in
  let out2 := content (transduce Sample.host (lit "Wait " ++ lit "&amp;nbsp;" ++ lit " what")) in
  out1 = lit "Wait " ++ [mdash] ++ lit " what"
  ∧ mdash ∈ out1 ∧ includes (lit "&mdash;") out1 = false
  ∧ out2 = lit "Wait &nbsp; what" ∧ includes (lit "&nbsp;") out2 = true
  ∧ content (transduce Sample.host
               (lit "<p>Before</p><p>Wait &amp;mdash; what</p><p>After</p>"))
    = lit "Before" ++ [LF; LF] ++ lit "Wait " ++ [mdash] ++ lit " what" ++ [LF; LF]
      ++ lit "After".
Proof.
  pose proof (doubly_escaped_entities Sample.host (lit "Wait ") (lit " what")
                ltac:(by_decision) ltac:(by_decision) ltac:(by_decision)
                ltac:(by_decision)) as H.
  cbv zeta in H |- *. destruct H as ((H1 & H2 & H3) & (H4 & H5) & H6 & _).
  split; [etrans; [exact H1|]; vm_compute; reflexivity|].
  split; [exact H2|]. split; [exact H3|].
  split; [etrans; [exact H4|]; vm_compute; reflexivity|].
  split; [exact H5|].
  destruct (H6 [lit "Before"] [lit "After"] (lit "Wait ") (lit " what")) as [H7 _].
  - repeat constructor; try by_decision; vm_compute; intros; discriminate.
  - repeat constructor; try by_decision; vm_compute; intros; discriminate.
  - repeat constructor; try by_decision; vm_compute; intros; discriminate.
  - etrans; [|etrans; [exact H7|]]; vm_compute; reflexivity.
Defined.

(** C10 as stated fails: a chapter whose heading holds the doubly escaped
    [&amp;mdash;] has the sequence in its markup, and the heading, which
    gives the title, is taken out of the text with it; the output has no
    dash. *)
Lemma escaped_dash_in_the_heading :
  ¬ (∀ (host : Host) (html : str),
       includes (lit "&amp;mdash;") html = true -> mdash ∈ content (transduce host html)).
Proof.
  intros H.
  specialize (H Sample.host (lit "<h1>A &amp;mdash; B</h1><p>text</p>") eq_refl).
  assert (E : content (transduce Sample.host (lit "<h1>A &amp;mdash; B</h1><p>text</p>"))
              = lit "text") by (vm_compute; reflexivity).
  rewrite E in H. revert H. by_decision.
Qed.
